(** * UTAM browser extension: page-object resolver and live element walker

    A shallow embedding of [PageObjectDatabase] (the definition resolver and
    the query facade) and of [ElementFinder] (the live element walker),
    together with the properties of the specification that can be stated
    over them.

    JavaScript values are modelled as follows.
    - An object used as a dictionary whose key order is never observed by the
      modelled code ([parsed.elements], [parsed.methods], the parsed page
      object cache) is a [gmap string _].
    - [allPageObjects], which [reloadDatabase] walks with [for ... in], is an
      insertion-ordered association list.
    - Objects that are mutated while shared (the parsed page objects, the
      [args] arrays of the raw method definitions, the argument arrays given
      to the walker) live in explicit stores and are named by references.
    - A thrown [TypeError] and running out of recursion fuel are outcomes of
      their own.

    Two conventions of JavaScript objects are left out.  The names every
    object inherits ([constructor], [toString], ...) are taken not to occur
    as URIs or as element and method names, so that [obj[key]] finds what
    [hasOwnProperty] finds; and URIs are taken not to be written as
    integers, so that [for ... in] walks them in insertion order.

    A string holds its text in UTF-8.  Upper-casing is modelled on the ASCII
    letters: what is proved of a name with its first letter in upper case is
    stated for names that begin with an ASCII character.  The order of
    [sort()] is that of the UTF-16 code units of the text. *)

From Stdlib Require Import String Ascii List Bool Arith Lia Sorted Permutation.
From stdpp Require Import base option list strings gmap fin_maps.

Set Warnings "-register-all".
Local Open Scope string_scope.
Local Open Scope list_scope.

(** ** JavaScript values *)

(** A [type] field holds a string or an array of capability names. *)
Inductive TypeVal :=
| TStr (s : string)
| TArr (l : list string).

Definition str_eqb (a b : string) : bool := String.eqb a b.

Fixpoint list_str_eqb (a b : list string) : bool :=
  match a, b with
  | [], [] => true
  | x :: a', y :: b' => str_eqb x y && list_str_eqb a' b'
  | _, _ => false
  end.

(** [Array.prototype.join] *)
Fixpoint join (sep : string) (l : list string) : string :=
  match l with
  | [] => ""
  | [x] => x
  | x :: rest => x ++ sep ++ join sep rest
  end.

(** Property-key coercion of a value used as [obj[value]]. *)
Definition to_key (t : TypeVal) : string :=
  match t with
  | TStr s => s
  | TArr l => join "," l
  end.

(** Truthiness: the empty string is falsy, every array is truthy. *)
Definition truthy_s (s : string) : bool := negb (str_eqb s "").

Definition truthy_os (o : option string) : bool :=
  match o with
  | Some s => truthy_s s
  | None => false
  end.

Definition truthy_t (t : TypeVal) : bool :=
  match t with
  | TStr s => truthy_s s
  | TArr _ => true
  end.

Definition truthy_ot (o : option TypeVal) : bool :=
  match o with
  | Some t => truthy_t t
  | None => false
  end.

(** [value.length] *)
Definition type_length (t : TypeVal) : nat :=
  match t with
  | TStr s => String.length s
  | TArr l => List.length l
  end.

(** [value === "..."] against a string literal *)
Definition type_is (t : TypeVal) (s : string) : bool :=
  match t with
  | TStr s' => str_eqb s' s
  | TArr _ => false
  end.

Definition otype_is (o : option TypeVal) (s : string) : bool :=
  match o with
  | Some t => type_is t s
  | None => false
  end.

(** Insertion-ordered objects: [obj[k]], [hasOwnProperty], [obj[k] = v],
    [Object.keys]. *)
Section JsObj.
Context {V : Type}.

Fixpoint obj_get (k : string) (o : list (string * V)) : option V :=
match o with
| [] => None
| (k', v) :: rest => if str_eqb k' k then Some v else obj_get k rest
end.

Definition obj_has (k : string) (o : list (string * V)) : bool :=
match obj_get k o with
| Some _ => true
| None => false
end.

Fixpoint obj_set (k : string) (v : V) (o : list (string * V)) : list (string * V) :=
match o with
| [] => [(k, v)]
| (k', v') :: rest =>
    if str_eqb k' k then (k', v) :: rest else (k', v') :: obj_set k v rest
end.

Definition obj_keys (o : list (string * V)) : list string := map fst o.
End JsObj.

(** ** The vocabulary of types and categories *)

(** The class [DataTypes]: the names of the categories and primitive
    types (the sources hold the class at the end of [common/Messages.js]). *)
Module DataTypes.
Definition STRING := "string".
Definition NUMBER := "number".
Definition BOOLEAN := "boolean".
Definition VOID := "void".
Definition BASIC := "basic".
Definition CONTAINER := "container".
Definition DOCUMENT := "document".
Definition NAVIGATION := "navigation".
Definition PAGE_OBJECT := "pageobject".
Definition METHOD := "method".
Definition INTRINSIC := "intrinsic".
Definition ROOT := "root".
End DataTypes.

(** ** Raw page-object definitions *)

Record Arg := mkArg { arg_name : string; arg_type : string }.

(** [selector: {css, args?, returnAll?}]; the empty object has no field set. *)
Record Selector := mkSelector {
  css : option string;
  sel_args : option (list Arg);
  returnAll : bool
}.

Definition emptySelector : Selector :=
  {| css := None; sel_args := None; returnAll := false |}.

Record Matcher := mkMatcher {
  matcher_type : string;
  matcher_args : option (list Arg)
}.

Record Filter := mkFilter {
  f_apply : option string;
  f_matcher : option Matcher;
  findFirst : bool
}.

Inductive DescText :=
| DText (s : string)
| DLines (l : list string).

Record Description := mkDescription {
  d_author : option string;
  d_text : option DescText
}.

(** An element definition; [e_elements] is [elements] and [e_shadow] is
    [shadow.elements]. *)
Inductive ElementDef := mkElementDef {
  e_name : string;
  e_type : option TypeVal;
  e_selector : option Selector;
  e_filter : option Filter;
  e_public : bool;
  e_description : option Description;
  e_elements : option (list ElementDef);
  e_shadow : option (list ElementDef)
}.

(** An opaque imperative extension ([applyExternal]). *)
Record ExternalCall := mkExternalCall {
  ext_type : string;
  ext_invoke : string
}.

(** A compose step; [args[0]] may carry a [predicate] (for [waitFor]) or a
    [{type: "pageobject", value}] pair (for containers). *)
Inductive Step := mkStep {
  s_element : option string;
  s_apply : option string;
  s_applyExternal : option ExternalCall;
  s_chain : bool;
  s_returnType : option TypeVal;
  s_args : option (list StepArg)
}
with StepArg := mkStepArg {
  sa_type : option string;
  sa_value : option TypeVal;
  sa_predicate : option (list Step)
}.

(** A method definition.  ['A] is the representation of its [args] array:
    a list in the JSON text, a reference into the array store once the
    text has been parsed into objects. *)
Record Method (A : Type) := mkMethod {
  m_name : string;
  m_args : option A;
  m_returnType : option TypeVal;
  m_return : option TypeVal;
  m_description : option Description;
  m_compose : option (list Step)
}.
Arguments mkMethod {A}.
Arguments m_name {A}.
Arguments m_args {A}.
Arguments m_returnType {A}.
Arguments m_return {A}.
Arguments m_description {A}.
Arguments m_compose {A}.

Record PageObject (A : Type) := mkPageObject {
  po_source : string;
  po_root : bool;
  po_selector : option Selector;
  po_description : option Description;
  po_elements : option (list ElementDef);
  po_shadow : option (list ElementDef);
  po_methods : option (list (Method A))
}.
Arguments mkPageObject {A}.
Arguments po_source {A}.
Arguments po_root {A}.
Arguments po_selector {A}.
Arguments po_description {A}.
Arguments po_elements {A}.
Arguments po_shadow {A}.
Arguments po_methods {A}.

(** References into the stores: an array and a parsed page object are named
    by their position. *)
Abbreviation aref := nat (only parsing).
Abbreviation pref := nat (only parsing).

(** ** Parsed members *)

Record ElementDesc := mkElementDesc {
  ed_name : string;
  ed_displayName : string;
  ed_description : option string;
  ed_effectiveArgs : list Arg;
  ed_type : option TypeVal;
  ed_category : string;
  ed_selector : Selector;
  ed_returnsList : bool;
  ed_filter : option Filter;
  ed_parent : option string;
  ed_public : bool;
  ed_isInShadowRoot : bool
}.

(** What [Object.assign({}, parsed.elements[name])] yields: a copy of the
    descriptor, or the empty object when the name is unknown. *)
Inductive ElemObj :=
| EmptyObj
| Elem (d : ElementDesc).

Definition eo_name (e : ElemObj) : option string :=
  match e with
  | EmptyObj => None
  | Elem d => Some (ed_name d)
  end.

Definition eo_effectiveArgs (e : ElemObj) : option (list Arg) :=
  match e with
  | EmptyObj => None
  | Elem d => Some (ed_effectiveArgs d)
  end.

Definition eo_type (e : ElemObj) : option TypeVal :=
  match e with
  | EmptyObj => None
  | Elem d => ed_type d
  end.

(** The value of [lastStepApply]: the empty string, an operation name, or
    the [applyExternal] object. *)
Inductive ApplyVal :=
| ApplyNone
| ApplyName (s : string)
| ApplyExt (x : ExternalCall).

Record MethodDesc := mkMethodDesc {
  md_displayName : string;
  md_name : string;
  md_description : option string;
  md_effectiveArgs : aref;
  md_category : string;
  md_type : TypeVal;
  md_public : bool;
  md_lastStepApply : ApplyVal;
  md_elements : list ElemObj
}.

Record Parsed := mkParsed {
  p_uri : TypeVal;
  p_source : string;
  p_author : option string;
  p_description : option string;
  p_elements : gmap string ElementDesc;
  p_methods : gmap string MethodDesc
}.

(** The definition set once parsed into objects: method [args] arrays are
    references into the array store. *)
Definition PageObjects := list (string * PageObject aref).

(** ** The intrinsic method catalogue *)

(** A word between quotation marks. *)
Definition quoted (s : string) : string :=
  String (ascii_of_nat 34) (s ++ String (ascii_of_nat 34) EmptyString)%string.

Record IntrinsicDesc := mkIntrinsicDesc {
  im_displayName : string;
  im_name : string;
  im_description : option string;
  im_effectiveArgs : list Arg;
  im_category : string;
  im_type : string;
  im_public : bool
}.

(** [#createIntrinsicMethod(name, description, returnType = DataTypes.VOID, args = [])] *)
Definition createIntrinsicMethod (name : string) (description : option string)
    (returnType : option string) (args : option (list Arg)) : IntrinsicDesc :=
  {| im_displayName := name;
     im_name := name;
     im_description := description;
     im_effectiveArgs := default [] args;
     im_category := DataTypes.INTRINSIC;
     im_type := default DataTypes.VOID returnType;
     im_public := true |}.

Definition intrinsicMethods : list (string * list IntrinsicDesc) :=
  [ ("basic",
      [ createIntrinsicMethod "containsElement"
          (Some "Gets a value indicating whether this element contains a given a child element.")
          (Some DataTypes.BOOLEAN) None;
        createIntrinsicMethod "waitFor"
          (Some "Waits for a condition to be met for this element.") None None;
        createIntrinsicMethod "getAttribute"
          (Some "Gets the string value of a attribute for this element.")
          (Some DataTypes.STRING) (Some [mkArg "attribute" DataTypes.STRING]);
        createIntrinsicMethod "getClassAttribute"
          (Some ("Gets the string value of the class attribute for this element. An alias for getAttribute("
                 ++ quoted "class" ++ ").")%string)
          (Some DataTypes.STRING) None;
        createIntrinsicMethod "getCssPropertyValue"
          (Some "Gets the value of a CSS property for this element.")
          (Some DataTypes.STRING) (Some [mkArg "propertyName" DataTypes.NUMBER]);
        createIntrinsicMethod "getText"
          (Some "Gets the displayed text of this element.") (Some DataTypes.STRING) None;
        createIntrinsicMethod "getTitle"
          (Some ("Gets the value of the title attribute of this element. An alias for getAttribute("
                 ++ quoted "title" ++ ").")%string)
          (Some DataTypes.STRING) None;
        createIntrinsicMethod "getValue"
          (Some ("Gets the value of the " ++ quoted "value"
                 ++ " attribute of an <input> element.")%string)
          (Some DataTypes.STRING) None;
        createIntrinsicMethod "isEnabled"
          (Some "Gets a value indicating whether this element is enabled.")
          (Some DataTypes.BOOLEAN) None;
        createIntrinsicMethod "isFocused"
          (Some "Gets a value indicating whether this element is focused.")
          (Some DataTypes.BOOLEAN) None;
        createIntrinsicMethod "isPresent"
          (Some "Gets a value indicating whether this element is present in the loaded document.")
          (Some DataTypes.BOOLEAN) None;
        createIntrinsicMethod "isVisible"
          (Some "Gets a value indicating whether this element is visible.")
          (Some DataTypes.BOOLEAN) None;
        createIntrinsicMethod "waitForAbsence"
          (Some "Waits for this element to be removed from the document.") None None;
        createIntrinsicMethod "waitForInvisible"
          (Some "Waits for this element to be invisible.") None None;
        createIntrinsicMethod "waitForVisible"
          (Some "Waits for this element to be visible.") None None ]);
    ("actionable",
      [ createIntrinsicMethod "blur"
          (Some "Activates the blur event on this element, removing focus from it.") None None;
        createIntrinsicMethod "focus"
          (Some "Activates the focus event on this element, setting focus from it.") None None;
        createIntrinsicMethod "moveTo"
          (Some "Moves the mouse to the center of this element.") None None;
        createIntrinsicMethod "scrollToCenter"
          (Some "Scrolls this element to the center of the browser view port.") None None;
        createIntrinsicMethod "scrollToTop"
          (Some "Scrolls this element to the top of the browser view port.") None None ]);
    ("clickable",
      [ createIntrinsicMethod "click" (Some "Clicks on this element.") None None;
        createIntrinsicMethod "doubleClick" (Some "Double-clicks on this element.") None None;
        createIntrinsicMethod "rightClick" (Some "Right-clicks on this element.") None None;
        createIntrinsicMethod "clickAndHold"
          (Some "Clicks this element and holds the mouse button down for a specified number of seconds.")
          (Some DataTypes.VOID) (Some [mkArg "holdDurationSec" DataTypes.NUMBER]) ]);
    ("editable",
      [ createIntrinsicMethod "clear"
          (Some "Clears the entered text from this element, if any.") None None;
        createIntrinsicMethod "clearAndType"
          (Some "Clears the entered text from this element, if any, and types the specified text.")
          (Some DataTypes.VOID) (Some [mkArg "text" DataTypes.STRING]);
        createIntrinsicMethod "press"
          (Some "Simulates pressing of a single key on this element.")
          (Some DataTypes.VOID) (Some [mkArg "key" DataTypes.STRING]);
        createIntrinsicMethod "setText"
          (Some "Simulates typing the specified text into this element.")
          (Some DataTypes.VOID) (Some [mkArg "text" DataTypes.STRING]) ]);
    ("draggable",
      [ createIntrinsicMethod "dragAndDrop"
          (Some "Drags this element and drops it on another element.")
          (Some DataTypes.VOID)
          (Some [mkArg "element" DataTypes.STRING; mkArg "durationSec" DataTypes.NUMBER]);
        createIntrinsicMethod "dragAndDropByOffset"
          (Some "Drags this element to a coordinate offset.")
          (Some DataTypes.VOID)
          (Some [mkArg "offsetX" DataTypes.NUMBER; mkArg "offsetY" DataTypes.NUMBER;
                 mkArg "durationSec" DataTypes.NUMBER]) ]);
    ("list",
      [ createIntrinsicMethod "size"
          (Some "Gets the number of items in a list of elements.") (Some DataTypes.NUMBER) None ]);
    ("element", [ createIntrinsicMethod "returnSelf" None None None ]);
    ("document", []);
    ("navigation", []) ].

(** [Object.values(intrinsicMethods).flatMap(ms => ms.filter(m => m.name === name))] *)
Definition candidateIntrinsicMethods (name : string) : list IntrinsicDesc :=
  flat_map (fun group => List.filter (fun m => str_eqb (im_name m) name) (snd group))
           intrinsicMethods.

(** ** Elements *)

(** [description.text], joined with blanks when it is an array. *)
Definition processDescription (d : option Description) : option string :=
  match d with
  | Some desc =>
      match d_text desc with
      | Some (DText s) => if truthy_s s then Some s else None
      | Some (DLines l) => Some (join " " l)
      | None => None
      end
  | None => None
  end.

Definition processAuthor (d : option Description) : option string :=
  match d with
  | Some desc => d_author desc
  | None => None
  end.

(** [toUpperCase] on one character, for the ASCII letters. *)
Definition upper_ascii (c : ascii) : ascii :=
  let n := nat_of_ascii c in
  if ((97 <=? n) && (n <=? 122))%nat then ascii_of_nat (n - 32)%nat else c.

Definition getElementGetterMethodName (elementName : string) : string :=
  match elementName with
  | EmptyString => "get"
  | String c rest => "get" ++ String (upper_ascii c) rest
  end.

Section Elements.
Variable allPageObjects : PageObjects.

(** The selector copied into the descriptor: the declared one when it has
  a [css], the empty object otherwise. *)
Definition copiedSelector (e : ElementDef) : Selector :=
match e_selector e with
| Some s => if truthy_os (css s) then s else emptySelector
| None => emptySelector
end.

(** The arguments the two [push] calls of [processElementObject] append:
  the selector's, then the filter matcher's when the selector returns all. *)
Definition selectorArgs (e : ElementDef) : list Arg :=
default [] (sel_args (copiedSelector e)).

Definition filterArgs (e : ElementDef) : list Arg :=
if returnAll (copiedSelector e) then
  match e_filter e with
  | Some f =>
      match f_matcher f with
      | Some m => default [] (matcher_args m)
      | None => []
      end
  | None => []
  end
else [].

Definition elementCategory (e : ElementDef) : string :=
match e_type e with
| Some (TStr t) =>
    if truthy_s t then
      if str_eqb t DataTypes.CONTAINER then DataTypes.CONTAINER
      else if obj_has t allPageObjects then DataTypes.PAGE_OBJECT
      else DataTypes.BASIC
    else DataTypes.BASIC
| _ => DataTypes.BASIC
end.

(** [elementArgs] is the array the caller passes; the descriptor keeps that
  very array, after the pushes, as its [effectiveArgs]. *)
Definition processElementObject (elementObject : ElementDef)
  (parentName : option string) (elementArgs : list Arg)
  (isInShadowRoot : bool) : ElementDesc :=
let selector := copiedSelector elementObject in
let elementName := getElementGetterMethodName (e_name elementObject) in
let elementArgs := elementArgs ++ selectorArgs elementObject in
let elementArgs := elementArgs ++ filterArgs elementObject in
let returnsList :=
  returnAll selector ||
  match e_filter elementObject with
  | Some f => findFirst f
  | None => false
  end in
{| ed_name := e_name elementObject;
   ed_displayName := elementName;
   ed_description := processDescription (e_description elementObject);
   ed_effectiveArgs := elementArgs;
   ed_type := e_type elementObject;
   ed_category := elementCategory elementObject;
   ed_selector := selector;
   ed_returnsList := returnsList;
   ed_filter := e_filter elementObject;
   ed_parent := parentName;
   ed_public := e_public elementObject;
   ed_isInShadowRoot := isInShadowRoot |}.

(** The body of the two [forEach] loops of [processElements] for one
  element: the element is processed against a copy of the parent's
  arguments and stored under its name, then its own [elements] and
  [shadow.elements] are walked with the arguments it ended up with. *)
Fixpoint processElementTree (isInShadowRoot : bool) (parentName : option string)
  (parentArgs : list Arg) (element : ElementDef)
  (elements : gmap string ElementDesc) {struct element} : gmap string ElementDesc :=
let processedElement :=
  processElementObject element parentName parentArgs isInShadowRoot in
let elementArgs := ed_effectiveArgs processedElement in
let elements := <[e_name element := processedElement]> elements in
let elements :=
  match e_elements element with
  | Some children =>
      fold_left (fun acc child =>
                   processElementTree false (Some (e_name element)) elementArgs child acc)
                children elements
  | None => elements
  end in
match e_shadow element with
| Some children =>
    fold_left (fun acc child =>
                 processElementTree true (Some (e_name element)) elementArgs child acc)
              children elements
| None => elements
end.

Definition processElementList (isInShadowRoot : bool) (parentName : option string)
  (parentArgs : list Arg) (children : option (list ElementDef))
  (elements : gmap string ElementDesc) : gmap string ElementDesc :=
match children with
| Some l =>
    fold_left (fun acc child =>
                 processElementTree isInShadowRoot parentName parentArgs child acc)
              l elements
| None => elements
end.

(** [#processElements(fragment, parentName, parentArgs, ...)], on the
  [elements] and [shadow.elements] of the fragment. *)
Definition processElements (fragElements fragShadow : option (list ElementDef))
  (parentName : option string) (parentArgs : list Arg)
  (elements : gmap string ElementDesc) : gmap string ElementDesc :=
processElementList true parentName parentArgs fragShadow
  (processElementList false parentName parentArgs fragElements elements).

(** The synthetic root element of a page object with a root selector. *)
Definition rootElement (pageObjectUri : TypeVal) (selector : Selector) : ElementDef :=
{| e_name := DataTypes.ROOT;
   e_type := Some pageObjectUri;
   e_selector := Some selector;
   e_filter := None;
   e_public := false;
   e_description := None;
   e_elements := None;
   e_shadow := None |}.

(** The [elements] map [#parsePageObject] builds. *)
Definition parsedElements (pageObjectUri : TypeVal) (pageObject : PageObject aref)
  : gmap string ElementDesc :=
let elements : gmap string ElementDesc :=
  match po_selector pageObject with
  | Some selector =>
      <[DataTypes.ROOT :=
          processElementObject (rootElement pageObjectUri selector) None [] false]> ∅
  | None => ∅
  end in
processElements (po_elements pageObject) (po_shadow pageObject) None [] elements.
End Elements.

(** ** Computations with a store

    A computation reads and updates a store and ends with a value, with a
    thrown error, or by running out of fuel. *)
Inductive outcome (S A : Type) :=
| Done (a : A) (st : S)
| Throw (err : string)
| OutOfFuel.
Arguments Done {S A}.
Arguments Throw {S A}.
Arguments OutOfFuel {S A}.

Definition ST (S A : Type) : Type := S -> outcome S A.

Definition ret {S A} (a : A) : ST S A := fun st => Done a st.

Definition bind {S A B} (m : ST S A) (k : A -> ST S B) : ST S B :=
  fun st =>
    match m st with
    | Done a st' => k a st'
    | Throw e => Throw e
    | OutOfFuel => OutOfFuel
    end.

Notation "'let*' x ':=' m 'in' k" := (bind m (fun x => k))
  (at level 10, x name, m at level 100, k at level 200).

Definition throw {S A} (e : string) : ST S A := fun _ => Throw e.
Definition outOfFuel {S A} : ST S A := fun _ => OutOfFuel.

(** [for (x of l) body(x)], threading the store *)
Fixpoint forEachM {S A} (body : A -> ST S unit) (l : list A) : ST S unit :=
  match l with
  | [] => ret tt
  | x :: rest => let* _ := body x in forEachM body rest
  end.

(** [for (x of l) acc = body(acc, x)] for the locals a loop body updates *)
Fixpoint foldM {S A B} (body : B -> A -> ST S B) (l : list A) (acc : B) : ST S B :=
  match l with
  | [] => ret acc
  | x :: rest => let* acc' := body acc x in foldM body rest acc'
  end.

(** ** The state of the resolver *)

(** [st_heap] holds every parsed page object that has been created; a
    parsed page object is named by its position.  [st_arrays] holds the
    [args] arrays: those of the raw method definitions and the ones
    [#processMethod] creates for methods that declare none.  [st_cache] is
    [#parsedPageObjectCache], [rootPageObjectUris] the public field of that
    name; [st_log] collects the [console.log] lines. *)
Record State := mkState {
  st_heap : list Parsed;
  st_arrays : list (list Arg);
  st_cache : gmap string pref;
  rootPageObjectUris : list string;
  st_log : list string
}.

Definition emptyState : State :=
  {| st_heap := []; st_arrays := []; st_cache := ∅;
     rootPageObjectUris := []; st_log := [] |}.

Definition M (A : Type) : Type := ST State A.


(** [new] of a parsed page object *)
Definition allocParsed (parsed : Parsed) : M pref :=
  fun st =>
    Done (length (st_heap st))
         {| st_heap := st_heap st ++ [parsed];
            st_arrays := st_arrays st;
            st_cache := st_cache st;
            rootPageObjectUris := rootPageObjectUris st;
            st_log := st_log st |}.

Definition readParsed (p : pref) : M Parsed :=
  fun st =>
    match st_heap st !! p with
    | Some parsed => Done parsed st
    | None => Throw "dangling parsed page object"
    end.

Definition setParsedMethod (parsed : Parsed) (name : string) (d : MethodDesc) : Parsed :=
  {| p_uri := p_uri parsed;
     p_source := p_source parsed;
     p_author := p_author parsed;
     p_description := p_description parsed;
     p_elements := p_elements parsed;
     p_methods := <[name := d]> (p_methods parsed) |}.

(** [parsedPageObject.methods[name] = d] *)
Definition setMethod (p : pref) (name : string) (d : MethodDesc) : M unit :=
  fun st =>
    match st_heap st !! p with
    | Some parsed =>
        Done tt {| st_heap := <[p := setParsedMethod parsed name d]> (st_heap st);
                   st_arrays := st_arrays st;
                   st_cache := st_cache st;
                   rootPageObjectUris := rootPageObjectUris st;
                   st_log := st_log st |}
    | None => Throw "dangling parsed page object"
    end.

(** A new array *)
Definition allocArray (l : list Arg) : M aref :=
  fun st =>
    Done (length (st_arrays st))
         {| st_heap := st_heap st;
            st_arrays := st_arrays st ++ [l];
            st_cache := st_cache st;
            rootPageObjectUris := rootPageObjectUris st;
            st_log := st_log st |}.

(** [array.push(...l)] *)
Definition pushArray (r : aref) (l : list Arg) : M unit :=
  fun st =>
    match st_arrays st !! r with
    | Some old =>
        Done tt {| st_heap := st_heap st;
                   st_arrays := <[r := old ++ l]> (st_arrays st);
                   st_cache := st_cache st;
                   rootPageObjectUris := rootPageObjectUris st;
                   st_log := st_log st |}
    | None => Throw "dangling array"
    end.

(** The present content of an array ([[]] for a reference never allocated). *)
Definition arrayOf (st : State) (r : aref) : list Arg :=
  default [] (st_arrays st !! r).

(** [this.#parsedPageObjectCache[key] = parsed] *)
Definition cachePut (key : string) (p : pref) : M unit :=
  fun st =>
    Done tt {| st_heap := st_heap st;
               st_arrays := st_arrays st;
               st_cache := <[key := p]> (st_cache st);
               rootPageObjectUris := rootPageObjectUris st;
               st_log := st_log st |}.

(** [console.log(line)] *)
Definition consoleLog (line : string) : M unit :=
  fun st =>
    Done tt {| st_heap := st_heap st;
               st_arrays := st_arrays st;
               st_cache := st_cache st;
               rootPageObjectUris := rootPageObjectUris st;
               st_log := st_log st ++ [line] |}.

(** ** Methods *)

Record StepInfo := mkStepInfo {
  si_referencedElements : list ElemObj;
  si_returnType : TypeVal;
  si_returnsList : option bool
}.

(** The locals of [#processMethod] that its step loop updates. *)
Record MethodLocals := mkMethodLocals {
  methodType : TypeVal;
  lastStepReturnType : TypeVal;
  lastMethodStepApply : ApplyVal;
  referencedElements : list ElemObj
}.

Definition oname_eqb (a b : option string) : bool :=
  match a, b with
  | Some x, Some y => str_eqb x y
  | None, None => true
  | _, _ => false
  end.

(** [x || y] on type values *)
Definition type_or (x : option TypeVal) (y : TypeVal) : TypeVal :=
  match x with
  | Some t => if truthy_t t then t else y
  | None => y
  end.

(** The first method of [pageObject.methods] with the given name, as the
    [while] loop of [#processStep] finds it. *)
Definition findMethod {A} (methods : option (list (Method A))) (name : string)
    : option (Method A) :=
  match methods with
  | Some l => List.find (fun m => str_eqb (m_name m) name) l
  | None => None
  end.

(** The element a step refers to, copied from [parsed.elements]; a
    container whose step passes a page object as first argument takes that
    page object as its type. *)
Definition referencedElementOf (parsed : Parsed) (methodStep : Step) (name : string)
    : ElemObj :=
  match p_elements parsed !! name with
  | None => EmptyObj
  | Some d =>
      let overridden :=
        str_eqb (ed_category d) DataTypes.CONTAINER &&
        match s_args methodStep with
        | Some (a0 :: _) =>
            match sa_type a0 with
            | Some t => truthy_s t && str_eqb t DataTypes.PAGE_OBJECT
            | None => false
            end
        | _ => false
        end in
      if overridden then
        match s_args methodStep with
        | Some (a0 :: _) =>
            Elem {| ed_name := ed_name d;
                    ed_displayName := ed_displayName d;
                    ed_description := ed_description d;
                    ed_effectiveArgs := ed_effectiveArgs d;
                    ed_type := sa_value a0;
                    ed_category := ed_category d;
                    ed_selector := ed_selector d;
                    ed_returnsList := ed_returnsList d;
                    ed_filter := ed_filter d;
                    ed_parent := ed_parent d;
                    ed_public := ed_public d;
                    ed_isInShadowRoot := ed_isInShadowRoot d |}
        | _ => Elem d
        end
      else Elem d
  end.

Definition eo_returnsList (e : ElemObj) : option bool :=
  match e with
  | EmptyObj => None
  | Elem d => Some (ed_returnsList d)
  end.

Definition newMethodDesc (method : Method aref) (args : aref) (ty : TypeVal)
    (lastApply : ApplyVal) (elements : list ElemObj) : MethodDesc :=
  {| md_displayName := m_name method;
     md_name := m_name method;
     md_description := processDescription (m_description method);
     md_effectiveArgs := args;
     md_category := DataTypes.METHOD;
     md_type := ty;
     md_public := true;
     md_lastStepApply := lastApply;
     md_elements := elements |}.

Section Resolver.
Variable allPageObjects : PageObjects.

(** The two recursive entry points, with one unit of fuel less. *)
Variable recProcessMethod : PageObject aref -> Method aref -> pref -> M MethodDesc.
Variable recParsePageObject : TypeVal -> M pref.

(** The element part of [#processStep]. *)
Definition stepElementInfo (parsed : Parsed) (methodStep : Step) : StepInfo :=
let stepInfo :=
  {| si_referencedElements := []; si_returnType := TStr ""; si_returnsList := Some false |} in
match s_element methodStep with
| Some element =>
    if truthy_s element && negb (str_eqb element DataTypes.ROOT) then
      if str_eqb element DataTypes.DOCUMENT then
        {| si_referencedElements := [];
           si_returnType := TStr DataTypes.DOCUMENT;
           si_returnsList := Some false |}
      else if str_eqb element DataTypes.NAVIGATION then
        {| si_referencedElements := [];
           si_returnType := TStr DataTypes.NAVIGATION;
           si_returnsList := Some false |}
      else
        let referencedElement := referencedElementOf parsed methodStep element in
        {| si_referencedElements := [referencedElement];
           si_returnType := type_or (eo_type referencedElement) (TStr DataTypes.BASIC);
           si_returnsList := eo_returnsList referencedElement |}
    else stepInfo
| None => stepInfo
end.

(** [#processStep(pageObject, methodStep, allPageObjects, parsedPageObject)] *)
Definition processStep (pageObject : PageObject aref) (methodStep : Step)
  (parsedPageObject : pref) : M StepInfo :=
match s_applyExternal methodStep with
| Some _ =>
    ret {| si_referencedElements := [];
           si_returnType := TStr DataTypes.VOID;
           si_returnsList := Some false |}
| None =>
    let* parsed := readParsed parsedPageObject in
    let stepInfo := stepElementInfo parsed methodStep in
    match s_apply methodStep with
    | Some apply =>
        if truthy_s apply then
          if str_eqb apply "waitFor" then
            match s_args methodStep with
            | Some (a0 :: _) =>
                let waitForMethod : Method aref :=
                  {| m_name := "tempWaitForMethod";
                     m_args := None;
                     m_returnType := None;
                     m_return := None;
                     m_description := None;
                     m_compose := Some (default [] (sa_predicate a0)) |} in
                let* parsedWaitForMethod :=
                  recProcessMethod pageObject waitForMethod parsedPageObject in
                ret {| si_referencedElements :=
                         si_referencedElements stepInfo ++ md_elements parsedWaitForMethod;
                       si_returnType := md_type parsedWaitForMethod;
                       si_returnsList := si_returnsList stepInfo |}
            | _ => throw "TypeError: methodStep.args[0] is undefined"
            end
          else if negb (truthy_os (s_element methodStep)) then
            if str_eqb apply "returnSelf" then
              ret {| si_referencedElements := si_referencedElements stepInfo;
                     si_returnType := TStr DataTypes.VOID;
                     si_returnsList := si_returnsList stepInfo |}
            else
              match p_methods parsed !! apply with
              | Some known =>
                  ret {| si_referencedElements :=
                           si_referencedElements stepInfo ++ md_elements known;
                         si_returnType := md_type known;
                         si_returnsList := si_returnsList stepInfo |}
              | None =>
                  match findMethod (po_methods pageObject) apply with
                  | Some calledMethod =>
                      let* referencedMethod :=
                        recProcessMethod pageObject calledMethod parsedPageObject in
                      let* _ :=
                        setMethod parsedPageObject (m_name calledMethod) referencedMethod in
                      ret {| si_referencedElements := si_referencedElements stepInfo;
                             si_returnType := md_type referencedMethod;
                             si_returnsList := si_returnsList stepInfo |}
                  | None => ret stepInfo
                  end
              end
          else
            match candidateIntrinsicMethods apply with
            | first :: _ =>
                ret {| si_referencedElements := si_referencedElements stepInfo;
                       si_returnType := TStr (im_type first);
                       si_returnsList := si_returnsList stepInfo |}
            | [] => ret stepInfo
            end
        else ret stepInfo
    | None => ret stepInfo
    end
end.

(** The elements of a step that the method does not reference yet. *)
Definition unreferencedElements (referenced stepElements : list ElemObj) : list ElemObj :=
List.filter
  (fun stepElement =>
     negb (existsb (fun existing => oname_eqb (eo_name existing) (eo_name stepElement))
                   referenced))
  stepElements.

Definition abortMessage (method : Method aref) (uri lastType : TypeVal) : string :=
"Aborting processing of method " ++ m_name method ++ " in " ++ to_key uri ++
"; method has a step that refers to " ++ to_key lastType ++ " which does not exist.".

(** What the step loop does once the step's page object is settled. *)
Definition runStep (method : Method aref) (stepPageObject : PageObject aref)
  (stepParsedPageObject : pref) (locals : MethodLocals) (methodStep : Step)
  : M MethodLocals :=
let methodType1 :=
  match s_applyExternal methodStep with
  | Some _ =>
      if Nat.eqb (type_length (methodType locals)) 0
      then type_or (m_return method) (TStr DataTypes.VOID)
      else methodType locals
  | None => methodType locals
  end in
let lastApply1 :=
  match s_applyExternal methodStep with
  | Some x =>
      if Nat.eqb (type_length (methodType locals)) 0
      then ApplyExt x
      else lastMethodStepApply locals
  | None => lastMethodStepApply locals
  end in
let lastApply2 :=
  match s_apply methodStep with
  | Some apply => if truthy_s apply then ApplyName apply else lastApply1
  | None => lastApply1
  end in
let* stepInfo := processStep stepPageObject methodStep stepParsedPageObject in
let last :=
  match s_returnType methodStep with
  | Some t => if truthy_t t then t else si_returnType stepInfo
  | None => si_returnType stepInfo
  end in
ret {| methodType := methodType1;
       lastStepReturnType := last;
       lastMethodStepApply := lastApply2;
       referencedElements :=
         referencedElements locals ++
         unreferencedElements (referencedElements locals)
                              (si_referencedElements stepInfo) |}.

Definition isEmptyString (t : TypeVal) : bool := type_is t "".

(** The callback of [methodSteps.forEach] in [#processMethod]. *)
Definition methodStepBody (pageObject : PageObject aref) (method : Method aref)
  (parsedPageObject : pref) (locals : MethodLocals) (methodStep : Step)
  : M MethodLocals :=
if s_chain methodStep && negb (isEmptyString (lastStepReturnType locals)) then
  match obj_get (to_key (lastStepReturnType locals)) allPageObjects with
  | None =>
      let* parsed := readParsed parsedPageObject in
      let* _ :=
        consoleLog (abortMessage method (p_uri parsed) (lastStepReturnType locals)) in
      ret locals
  | Some stepPageObject =>
      let* stepParsedPageObject := recParsePageObject (lastStepReturnType locals) in
      runStep method stepPageObject stepParsedPageObject locals methodStep
  end
else runStep method pageObject parsedPageObject locals methodStep.

(** The arguments the referenced elements contribute, pushed one element
  after the other. *)
Definition pushReferencedArgs (args : aref) (elements : list ElemObj) : M unit :=
forEachM
  (fun referencedElement =>
     match eo_effectiveArgs referencedElement with
     | Some (a :: rest) => pushArray args (a :: rest)
     | _ => ret tt
     end)
  elements.

(** [#processMethod(pageObject, method, allPageObjects, parsedPageObject)] *)
Definition processMethodBody (pageObject : PageObject aref) (method : Method aref)
  (parsedPageObject : pref) : M MethodDesc :=
let* parsed := readParsed parsedPageObject in
match p_methods parsed !! m_name method with
| Some known => ret known
| None =>
    let* args :=
      match m_args method with
      | Some a => ret a
      | None => allocArray []
      end in
    let methodType0 := type_or (m_returnType method) (TStr "") in
    if Nat.eqb (type_length methodType0) 0 then
      let methodSteps := default [] (m_compose method) in
      let* locals :=
        foldM (methodStepBody pageObject method parsedPageObject) methodSteps
              {| methodType := methodType0;
                 lastStepReturnType := TStr "";
                 lastMethodStepApply := ApplyNone;
                 referencedElements := [] |} in
      let* _ := pushReferencedArgs args (referencedElements locals) in
      ret (newMethodDesc method args (lastStepReturnType locals)
                         (lastMethodStepApply locals) (referencedElements locals))
    else
      ret (newMethodDesc method args methodType0 ApplyNone [])
end.

(** [#processMethods(pageObject, allPageObjects, parsedPageObject)] *)
Definition processMethods (pageObject : PageObject aref) (parsedPageObject : pref)
  : M unit :=
match po_methods pageObject with
| Some methods =>
    forEachM
      (fun method =>
         let* returnValue := recProcessMethod pageObject method parsedPageObject in
         setMethod parsedPageObject (m_name method) returnValue)
      methods
| None => ret tt
end.

(** [#parsePageObject(pageObjectUri, allPageObjects)].  The cache is
  written, never read. *)
Definition parsePageObjectBody (pageObjectUri : TypeVal) : M pref :=
match obj_get (to_key pageObjectUri) allPageObjects with
| None => throw "TypeError: pageObject is undefined"
| Some pageObject =>
    let* parsed :=
      allocParsed
        {| p_uri := pageObjectUri;
           p_source := po_source pageObject;
           p_author := processAuthor (po_description pageObject);
           p_description := processDescription (po_description pageObject);
           p_elements := parsedElements allPageObjects pageObjectUri pageObject;
           p_methods := ∅ |} in
    let* _ := processMethods pageObject parsed in
    let* _ := cachePut (to_key pageObjectUri) parsed in
    ret parsed
end.
End Resolver.

(** Tying the knot: every call of [#processMethod] or [#parsePageObject]
    costs one unit of fuel. *)
Fixpoint processMethod (fuel : nat) (allPageObjects : PageObjects)
    (pageObject : PageObject aref) (method : Method aref) (parsedPageObject : pref)
    {struct fuel} : M MethodDesc :=
  match fuel with
  | O => outOfFuel
  | S fuel' =>
      processMethodBody allPageObjects
        (processMethod fuel' allPageObjects)
        (parsePageObject fuel' allPageObjects)
        pageObject method parsedPageObject
  end
with parsePageObject (fuel : nat) (allPageObjects : PageObjects)
    (pageObjectUri : TypeVal) {struct fuel} : M pref :=
  match fuel with
  | O => outOfFuel
  | S fuel' =>
      parsePageObjectBody allPageObjects (processMethod fuel' allPageObjects) pageObjectUri
  end.

(** ** The query facade *)

(** The definition set as [JSON.parse] reads it. *)
Definition Artifacts := list (string * list (string * PageObject (list Arg))).

(** [JSON.parse] creates the objects: each declared [args] array becomes an
    array of the store. *)
Definition loadMethod (m : Method (list Arg)) : M (Method aref) :=
  let* args :=
    match m_args m with
    | Some l => let* r := allocArray l in ret (Some r)
    | None => ret None
    end in
  ret {| m_name := m_name m;
         m_args := args;
         m_returnType := m_returnType m;
         m_return := m_return m;
         m_description := m_description m;
         m_compose := m_compose m |}.

Fixpoint loadMethods (l : list (Method (list Arg))) : M (list (Method aref)) :=
  match l with
  | [] => ret []
  | m :: rest =>
      let* m' := loadMethod m in
      let* rest' := loadMethods rest in
      ret (m' :: rest')
  end.

Definition loadPageObject (po : PageObject (list Arg)) : M (PageObject aref) :=
  let* methods :=
    match po_methods po with
    | Some l => let* l' := loadMethods l in ret (Some l')
    | None => ret None
    end in
  ret {| po_source := po_source po;
         po_root := po_root po;
         po_selector := po_selector po;
         po_description := po_description po;
         po_elements := po_elements po;
         po_shadow := po_shadow po;
         po_methods := methods |}.

Definition hasRootSelector {A} (definition : PageObject A) : bool :=
  po_root definition &&
  match po_selector definition with
  | Some selector => truthy_os (css selector)
  | None => false
  end.

Definition pushRoot (uri : string) : M unit :=
  fun st =>
    Done tt {| st_heap := st_heap st;
               st_arrays := st_arrays st;
               st_cache := st_cache st;
               rootPageObjectUris := rootPageObjectUris st ++ [uri];
               st_log := st_log st |}.

(** The first loop of [reloadDatabase], over the artifacts and the page
    objects of each. *)
Definition loadArtifact (allPageObjects : PageObjects)
    (artifactContents : list (string * PageObject (list Arg))) : M PageObjects :=
  foldM
    (fun all entry =>
       let* definition := loadPageObject (snd entry) in
       let* _ := if hasRootSelector definition then pushRoot (fst entry) else ret tt in
       ret (obj_set (fst entry) definition all))
    artifactContents allPageObjects.

Definition loadArtifacts (settings : Artifacts) : M PageObjects :=
  foldM (fun all artifact => loadArtifact all (snd artifact)) settings [].

(** The UTF-16 code units of a text held in UTF-8: a character of one to
    three bytes is one unit, a character of four bytes a pair of surrogates;
    a byte that begins no character is read as U+FFFD. *)
Definition continuation (c : ascii) : option N :=
  let n := N_of_ascii c in
  if ((128 <=? n) && (n <? 192))%N then Some (n - 128)%N else None.

Fixpoint codeUnits (s : string) : list N :=
  match s with
  | EmptyString => []
  | String c rest =>
      let n := N_of_ascii c in
      if (n <? 128)%N then n :: codeUnits rest
      else if (n <? 192)%N then 65533%N :: codeUnits rest
      else if (n <? 224)%N then
        match rest with
        | String c1 rest1 =>
            match continuation c1 with
            | Some n1 => ((n - 192) * 64 + n1)%N :: codeUnits rest1
            | None => 65533%N :: codeUnits rest
            end
        | EmptyString => [65533%N]
        end
      else if (n <? 240)%N then
        match rest with
        | String c1 (String c2 rest2) =>
            match continuation c1, continuation c2 with
            | Some n1, Some n2 =>
                ((n - 224) * 4096 + n1 * 64 + n2)%N :: codeUnits rest2
            | _, _ => 65533%N :: codeUnits rest
            end
        | _ => 65533%N :: codeUnits rest
        end
      else if (n <? 248)%N then
        match rest with
        | String c1 (String c2 (String c3 rest3)) =>
            match continuation c1, continuation c2, continuation c3 with
            | Some n1, Some n2, Some n3 =>
                let point := ((n - 240) * 262144 + n1 * 4096 + n2 * 64 + n3)%N in
                if (point <? 65536)%N then point :: codeUnits rest3
                else (55296 + (point - 65536) / 1024)%N ::
                     (56320 + (point - 65536) mod 1024)%N :: codeUnits rest3
            | _, _, _ => 65533%N :: codeUnits rest
            end
        | _ => 65533%N :: codeUnits rest
        end
      else 65533%N :: codeUnits rest
  end.

(** The comparison of two strings, code unit by code unit. *)
Fixpoint units_leb (a b : list N) : bool :=
  match a, b with
  | [], _ => true
  | _ :: _, [] => false
  | x :: a', y :: b' =>
      if (x <? y)%N then true else if (x =? y)%N then units_leb a' b' else false
  end.

Definition js_leb (x y : string) : bool := units_leb (codeUnits x) (codeUnits y).

(** [Array.prototype.sort()] on strings: a stable sort by [js_leb]. *)
Fixpoint insertSorted (x : string) (l : list string) : list string :=
  match l with
  | [] => [x]
  | y :: rest => if js_leb x y then x :: y :: rest else y :: insertSorted x rest
  end.

Definition sortStrings (l : list string) : list string :=
  fold_right insertSorted [] l.

Definition resetDatabase : M unit :=
  fun st =>
    Done tt {| st_heap := st_heap st;
               st_arrays := st_arrays st;
               st_cache := ∅;
               rootPageObjectUris := [];
               st_log := st_log st |}.

Definition sortRoots : M unit :=
  fun st =>
    Done tt {| st_heap := st_heap st;
               st_arrays := st_arrays st;
               st_cache := st_cache st;
               rootPageObjectUris := sortStrings (rootPageObjectUris st);
               st_log := st_log st |}.

(** [getAllPageObjectUris()]: the keys of the cache (here in the order of
    the map, not in the order of insertion; only their number is used). *)
Definition getAllPageObjectUris (st : State) : list string :=
  map fst (map_to_list (st_cache st)).

Definition isPageObjectUri (st : State) (uri : string) : bool :=
  bool_decide (is_Some (st_cache st !! uri)).

(** [getPageObject(uri)] *)
Definition getPageObject (st : State) (uri : string) : option Parsed :=
  match st_cache st !! uri with
  | Some p => st_heap st !! p
  | None => None
  end.

(** [reloadDatabase()], on the artifacts the settings hold; the result is
    the count it returns. *)
Definition reloadDatabase (fuel : nat) (settings : Artifacts) : M nat :=
  let* _ := resetDatabase in
  let* allPageObjects := loadArtifacts settings in
  let* _ := sortRoots in
  let* _ :=
    forEachM
      (fun pageObjectUri =>
         let* _ := parsePageObject fuel allPageObjects (TStr pageObjectUri) in
         ret tt)
      (obj_keys allPageObjects) in
  fun st => Done (length (getAllPageObjectUris st)) st.

(** ** The live element walker *)

(** Strings: [includes], the global match of [/%[ds]/] and the replacement
    of the first occurrence of a marker by [String.prototype.replace], which
    expands the dollar patterns of the replacement text. *)
Fixpoint str_includes (needle hay : string) : bool :=
  String.prefix needle hay ||
  match hay with
  | EmptyString => false
  | String _ rest => str_includes needle rest
  end.

Fixpoint paramMarkers (s : string) : list string :=
  match s with
  | EmptyString => []
  | String c rest =>
      if Ascii.eqb c "%"%char then
        match rest with
        | String c' rest' =>
            if Ascii.eqb c' "d"%char || Ascii.eqb c' "s"%char
            then String c (String c' EmptyString) :: paramMarkers rest'
            else paramMarkers rest
        | EmptyString => []
        end
      else paramMarkers rest
  end.

Fixpoint str_drop (n : nat) (s : string) : string :=
  match n, s with
  | O, _ => s
  | S n', String _ rest => str_drop n' rest
  | S _, EmptyString => EmptyString
  end.

(** The text a replacement stands for: [$$] is a dollar sign, [$&] the
    matched text, [$`] what precedes it and [$'] what follows it; a pattern
    that is a string has no groups, so every other dollar sign stands for
    itself. *)
Fixpoint expandReplacement (matched before after replacement : string) : string :=
  match replacement with
  | EmptyString => EmptyString
  | String c rest =>
      if Ascii.eqb c "$"%char then
        match rest with
        | String c' rest' =>
            if Ascii.eqb c' "$"%char then
              String "$"%char (expandReplacement matched before after rest')
            else if Ascii.eqb c' "&"%char then
              matched ++ expandReplacement matched before after rest'
            else if Ascii.eqb c' "`"%char then
              before ++ expandReplacement matched before after rest'
            else if Ascii.eqb c' "'"%char then
              after ++ expandReplacement matched before after rest'
            else String c (expandReplacement matched before after rest)
        | EmptyString => String c EmptyString
        end
      else String c (expandReplacement matched before after rest)
  end.

(** [s.replace(pattern, replacement)] for a pattern that is a string;
    [before] is the text already passed over. *)
Fixpoint replaceFirstFrom (pattern replacement before s : string) : string :=
  if String.prefix pattern s then
    let after := str_drop (String.length pattern) s in
    before ++ expandReplacement pattern before after replacement ++ after
  else
    match s with
    | EmptyString => before
    | String c rest =>
        replaceFirstFrom pattern replacement (before ++ String c EmptyString) rest
    end.

Definition replaceFirst (pattern replacement s : string) : string :=
  replaceFirstFrom pattern replacement EmptyString s.

(** An argument the user supplied. *)
Record ArgValue := mkArgValue { av_name : string; av_value : option string }.

(** The document: the queries and reads the walker performs on a node.
    [querySelectorAll] answers [None] where the DOM raises a [SyntaxError];
    [property] is [node[name]], [None] standing for [null] or [undefined]. *)
Record Document (Node : Type) := mkDocument {
  querySelectorAll : Node -> string -> option (list Node);
  shadowRoot : Node -> option Node;
  textContent : Node -> string;
  title : Node -> string;
  property : Node -> string -> option string;
  getAttribute : Node -> string -> option string
}.
Arguments querySelectorAll {Node}.
Arguments shadowRoot {Node}.
Arguments textContent {Node}.
Arguments title {Node}.
Arguments property {Node}.
Arguments getAttribute {Node}.

(** The store of the walker: the argument arrays, named by position. *)
Abbreviation WStore := (list (list ArgValue)).
Definition W (A : Type) : Type := ST WStore A.

Definition readArgs (r : aref) : W (list ArgValue) :=
  fun st =>
    match st !! r with
    | Some l => Done l st
    | None => Throw "dangling array"
    end.

(** [array.slice(from, to)]: a new array *)
Definition sliceArgs (r : aref) (from count : nat) : W aref :=
  fun st =>
    match st !! r with
    | Some l => Done (length st) (st ++ [take count (drop from l)])
    | None => Throw "dangling array"
    end.

(** [array.slice(from)] *)
Definition sliceArgsFrom (r : aref) (from : nat) : W aref :=
  fun st =>
    match st !! r with
    | Some l => Done (length st) (st ++ [drop from l])
    | None => Throw "dangling array"
    end.

(** [array.splice(0, count)]: in place *)
Definition spliceArgs (r : aref) (count : nat) : W unit :=
  fun st =>
    match st !! r with
    | Some l => Done tt (<[r := drop count l]> st)
    | None => Throw "dangling array"
    end.

Record FilterInfo := mkFilterInfo {
  fi_apply : option ApplyVal;
  fi_matcherType : string;
  fi_args : list ArgValue;
  fi_findFirst : bool;
  fi_attribute : string;
  fi_additionalElements : list ElemObj
}.

(** The descriptor the loop of [#getFilterInfo] currently looks at. *)
Inductive Descriptor :=
| DescElement (d : ElementDesc)
| DescMethod (d : MethodDesc)
| DescUndefined.

(** The member [walkElements] is asked to locate. *)
Inductive Member :=
| MemberMethod (d : MethodDesc)
| MemberElement (d : ElementDesc).

Definition type_includes_slash (t : TypeVal) : bool :=
  match t with
  | TStr s => str_includes "/" s
  | TArr l => existsb (fun x => str_eqb x "/") l
  end.

(** The property key an [apply] value coerces to. *)
Definition apply_key (a : ApplyVal) : string :=
  match a with
  | ApplyNone => ""
  | ApplyName s => s
  | ApplyExt _ => "[object Object]"
  end.

Definition isFilterableApply (a : option ApplyVal) : bool :=
  match a with
  | Some (ApplyName s) =>
      str_eqb s "getText" || str_eqb s "getTitle" || str_eqb s "getAttribute"
  | _ => false
  end.

Definition eo_css (e : ElemObj) : option string :=
  match e with
  | EmptyObj => None
  | Elem d => css (ed_selector d)
  end.

Section Walker.
Context {Node : Type}.
Variable doc : Document Node.

(** [uri => pageObjectDb.getPageObject(uri)] *)
Variable pageObjectResolver : TypeVal -> option Parsed.

(** The [while] loop of [#getFilterInfo]. *)
Fixpoint followFilterApply (fuel : nat) (currentDescriptor : Descriptor)
  (effectiveApply : ApplyVal) {struct fuel} : W Descriptor :=
match fuel with
| O => outOfFuel
| S fuel' =>
    let step (ty : option TypeVal) : W Descriptor :=
      match ty with
      | Some t =>
          if truthy_t t && type_includes_slash t then
            match pageObjectResolver t with
            | None => throw "TypeError: parsedPageObject is undefined"
            | Some parsedPageObject =>
                match p_methods parsedPageObject !! apply_key effectiveApply with
                | Some method =>
                    followFilterApply fuel' (DescMethod method) (md_lastStepApply method)
                | None =>
                    match p_elements parsedPageObject !! apply_key effectiveApply with
                    | Some element =>
                        followFilterApply fuel' (DescElement element) effectiveApply
                    | None => followFilterApply fuel' DescUndefined effectiveApply
                    end
                end
            end
          else ret currentDescriptor
      | None => ret currentDescriptor
      end in
    match currentDescriptor with
    | DescElement d => step (ed_type d)
    | DescMethod d => step (Some (md_type d))
    | DescUndefined => throw "TypeError: currentDescriptor is undefined"
    end
end.

(** [#getFilterInfo(elementDescriptor, args)] *)
Definition getFilterInfo (fuel : nat) (elementDescriptor : ElemObj) (args : aref)
  : W (option FilterInfo) :=
match elementDescriptor with
| EmptyObj => ret None
| Elem d =>
    if returnAll (ed_selector d) then
      match ed_filter d with
      | Some elementFilter =>
          match f_apply elementFilter with
          | Some apply =>
              if truthy_s apply then
                let* currentDescriptor :=
                  followFilterApply fuel (DescElement d) (ApplyName apply) in
                let additionalElements :=
                  match currentDescriptor with
                  | DescMethod m => md_elements m
                  | _ => []
                  end in
                match f_matcher elementFilter with
                | None => throw "TypeError: matcher is undefined"
                | Some matcher =>
                    match matcher_args matcher with
                    | None => throw "TypeError: matcher.args is undefined"
                    | Some matcherArgs =>
                        let matcherArgNames := map arg_name matcherArgs in
                        let* argValues := readArgs args in
                        let filteredArgs :=
                          List.filter
                            (fun arg =>
                               existsb (str_eqb (av_name arg)) matcherArgNames &&
                               truthy_os (av_value arg))
                            argValues in
                        ret (Some
                          {| fi_apply :=
                               match currentDescriptor with
                               | DescMethod m => Some (md_lastStepApply m)
                               | _ => None
                               end;
                             fi_matcherType := matcher_type matcher;
                             fi_args := filteredArgs;
                             fi_findFirst := findFirst elementFilter;
                             fi_attribute := "";
                             fi_additionalElements := additionalElements |})
                    end
                end
              else ret None
          | None => ret None
          end
      | None => ret None
      end
    else ret None
end.

(** [node.querySelector(selector)] *)
Definition querySelector (node : Node) (selector : string) : W (option Node) :=
match querySelectorAll doc node selector with
| Some found => ret (head found)
| None => throw "SyntaxError: invalid selector"
end.

(** The descent through the additional elements of a filter. *)
Definition descend (effectiveElement : option Node) (additionalElement : ElemObj)
  : W (option Node) :=
match eo_css additionalElement with
| Some selector =>
    if truthy_s selector then
      match effectiveElement with
      | Some node => querySelector node selector
      | None => throw "TypeError: effectiveElement is null"
      end
    else ret effectiveElement
| None => ret effectiveElement
end.

(** The value of an element the filter compares ([None] is [null]). *)
Definition candidateValue (filterInfo : FilterInfo) (element : Node)
  (effectiveElement : option Node) : W (option string) :=
match fi_apply filterInfo with
| Some (ApplyName apply) =>
    if str_eqb apply "getText" then
      match effectiveElement with
      | Some node => ret (Some (textContent doc node))
      | None => throw "TypeError: effectiveElement is null"
      end
    else if str_eqb apply "getTitle" then
      match effectiveElement with
      | Some node => ret (Some (title doc node))
      | None => throw "TypeError: effectiveElement is null"
      end
    else if str_eqb apply "getAttribute" then
      if truthy_s (fi_attribute filterInfo) then
        match effectiveElement with
        | Some node =>
            match property doc node (fi_attribute filterInfo) with
            | Some v => ret (Some v)
            | None => ret (getAttribute doc element (fi_attribute filterInfo))
            end
        | None => throw "TypeError: effectiveElement is null"
        end
      else ret (Some "")
    else ret (Some "")
| _ => ret (Some "")
end.

(** The predicate of [elementArray.filter] in [#filterElements]. *)
Definition passesFilter (filterInfo : FilterInfo) (filterValue : string)
  (element : Node) : W bool :=
let* effectiveElement :=
  foldM descend (fi_additionalElements filterInfo) (Some element) in
let* candidate := candidateValue filterInfo element effectiveElement in
if str_eqb (fi_matcherType filterInfo) "stringEquals" then
  ret match candidate with
      | Some v => str_eqb v filterValue
      | None => false
      end
else if str_eqb (fi_matcherType filterInfo) "stringContains" then
  match candidate with
  | Some v => ret (str_includes filterValue v)
  | None => throw "TypeError: candidateValue is null"
  end
else ret false.

Fixpoint filterM (keep : Node -> W bool) (l : list Node) : W (list Node) :=
match l with
| [] => ret []
| x :: rest =>
    let* k := keep x in
    let* rest' := filterM keep rest in
    ret (if k then x :: rest' else rest')
end.

(** [#filterElements(elements, filterInfo)] *)
Definition filterElements (elements : list Node) (filterInfo : option FilterInfo)
  : W (list Node) :=
match filterInfo with
| None => ret []
| Some info =>
    match elements, fi_args info with
    | [], _ => ret []
    | _, [] => ret []
    | _ :: _, arg0 :: _ =>
        let filterValue :=
          if isFilterableApply (fi_apply info) then default "" (av_value arg0) else "" in
        let* filteredElements := filterM (passesFilter info filterValue) elements in
        match filteredElements with
        | first :: _ => ret (if fi_findFirst info then [first] else filteredElements)
        | [] => ret filteredElements
        end
    end
end.

(** The substitution of the markers, one argument per marker. *)
Fixpoint substituteMarkers (markers : list string) (args : list ArgValue)
  (argIndex : nat) (selectorString : string) : string :=
match markers with
| [] => selectorString
| matchedSubstring :: rest =>
    let selectorString :=
      match args !! argIndex with
      | Some arg =>
          match av_value arg with
          | Some v =>
              if truthy_s v then replaceFirst matchedSubstring v selectorString
              else selectorString
          | None => selectorString
          end
      | None => selectorString
      end in
    substituteMarkers rest args (S argIndex) selectorString
end.

(** The second half of [getElement]: the query below the parent node (or
  its shadow root), the filter, and the first of what is left. *)
Definition queryElements (d : ElementDesc) (filterInfo : option FilterInfo)
  (parent : Node) (selectorString : string) : W (option Node) :=
let* elements :=
  if str_includes "%" selectorString then ret []
  else
    let scope :=
      if ed_isInShadowRoot d then
        match shadowRoot doc parent with
        | Some root => root
        | None => parent
        end
      else parent in
    match querySelectorAll doc scope selectorString with
    | Some found => ret found
    | None => throw "SyntaxError: invalid selector"
    end in
let* elements :=
  match ed_filter d with
  | Some _ =>
      if returnAll (ed_selector d) then
        let* filteredElements := filterElements elements filterInfo in
        match filteredElements with
        | _ :: _ => ret filteredElements
        | [] => ret elements
        end
      else ret elements
  | None => ret elements
  end in
ret (head elements).

(** [getElement(elementDescriptor, args, filterInfo, parentNode)] *)
Definition getElement (elementDescriptor : ElemObj) (args : aref)
  (filterInfo : option FilterInfo) (parentNode : option Node) : W (option Node) :=
match parentNode with
| None => ret None
| Some parent =>
    match elementDescriptor with
    | EmptyObj => throw "TypeError: elementDescriptor.selector is undefined"
    | Elem d =>
        match css (ed_selector d) with
        | None => ret None
        | Some cssText =>
            if truthy_s cssText then
              let paramMarkerMatch := paramMarkers cssText in
              let* selectorString :=
                match paramMarkerMatch with
                | _ :: _ =>
                    let* argValues := readArgs args in
                    match argValues with
                    | _ :: _ =>
                        let* _ := spliceArgs args (length paramMarkerMatch) in
                        ret (substituteMarkers paramMarkerMatch argValues 0 cssText)
                    | [] => ret cssText
                    end
                | [] => ret cssText
                end in
              queryElements d filterInfo parent selectorString
            else ret None
        end
    end
end.

(** The [while] loop of [walkElements]: [elementPath] grows at the front
  until a descriptor without parent is reached. *)
Fixpoint buildElementPath (fuel : nat) (elementCollection : gmap string ElementDesc)
  (parentDescriptor : ElementDesc) (elementPath : list ElementDesc) {struct fuel}
  : W (list ElementDesc) :=
match fuel with
| O => outOfFuel
| S fuel' =>
    match ed_parent parentDescriptor with
    | Some parent =>
        if truthy_s parent then
          match elementCollection !! parent with
          | Some next =>
              buildElementPath fuel' elementCollection next (next :: elementPath)
          | None => throw "TypeError: parentDescriptor is undefined"
          end
        else ret elementPath
    | None => ret elementPath
    end
end.

(** The body of [elementPath.forEach]: a segment is resolved only when
  its selector has [args]. *)
Definition walkSegment (fuel : nat) (acc : option Node * aref) (pathSegment : ElementDesc)
  : W (option Node * aref) :=
match sel_args (ed_selector pathSegment) with
| Some segmentSelectorArgs =>
    let* segmentArgs := sliceArgs (snd acc) 0 (length segmentSelectorArgs) in
    let* args := sliceArgsFrom (snd acc) (length segmentSelectorArgs) in
    let* pathSegmentFilterInfo := getFilterInfo fuel (Elem pathSegment) args in
    let* currentElement :=
      getElement (Elem pathSegment) segmentArgs pathSegmentFilterInfo (fst acc) in
    ret (currentElement, args)
| None => ret acc
end.

(** The body of [memberDescriptor.elements.forEach]. *)
Definition walkReferenced (fuel : nat) (acc : option Node * aref)
  (referencedElement : ElemObj) : W (option Node * aref) :=
let* sliced :=
  match eo_effectiveArgs referencedElement with
  | Some effectiveArgs =>
      let* intermediateArgs := sliceArgs (snd acc) 0 (length effectiveArgs) in
      let* args := sliceArgsFrom (snd acc) (length effectiveArgs) in
      ret (intermediateArgs, args)
  | None => ret (snd acc, snd acc)
  end in
let* intermediateFilterInfo := getFilterInfo fuel referencedElement (fst sliced) in
let* currentElement :=
  getElement referencedElement (fst sliced) intermediateFilterInfo (fst acc) in
ret (currentElement, snd sliced).

(** [walkElements(parentElement, memberDescriptor, args, elementCollection)] *)
Definition walkElements (fuel : nat) (parentElement : option Node)
  (memberDescriptor : Member) (args : aref)
  (elementCollection : gmap string ElementDesc) : W (option Node) :=
match memberDescriptor with
| MemberMethod method =>
    let* final :=
      foldM (walkReferenced fuel) (md_elements method) (parentElement, args) in
    ret (fst final)
| MemberElement d =>
    let* walked :=
      match ed_parent d with
      | Some parent =>
          if truthy_s parent then
            match elementCollection !! parent with
            | Some parentDescriptor =>
                let* elementPath :=
                  buildElementPath fuel elementCollection parentDescriptor
                                   [parentDescriptor] in
                foldM (walkSegment fuel) elementPath (parentElement, args)
            | None => throw "TypeError: parentDescriptor is undefined"
            end
          else ret (parentElement, args)
      | None => ret (parentElement, args)
      end in
    let* filterInfo := getFilterInfo fuel (Elem d) (snd walked) in
    getElement (Elem d) (snd walked) filterInfo (fst walked)
end.
End Walker.

(** ** The members of a page object and of a basic element *)

(** [getPageObjectPublicMembers(pageObjectUri)]: the public elements, then
    the public methods, each under its name.  An unknown URI makes
    [allMembers] undefined, and reading its [elements] throws. *)
Definition addPublicElement (memberName : string) (member : ElementDesc)
    (foundMembers : gmap string Member) : gmap string Member :=
  if ed_public member then <[memberName := MemberElement member]> foundMembers
  else foundMembers.

Definition addPublicMethod (memberName : string) (member : MethodDesc)
    (foundMembers : gmap string Member) : gmap string Member :=
  if md_public member then <[memberName := MemberMethod member]> foundMembers
  else foundMembers.

Definition getPageObjectPublicMembers (pageObjectUri : string) : M (gmap string Member) :=
  fun st =>
    match getPageObject st pageObjectUri with
    | None => Throw "TypeError: allMembers is undefined"
    | Some allMembers =>
        let foundMembers := map_fold addPublicElement ∅ (p_elements allMembers) in
        let foundMembers := map_fold addPublicMethod foundMembers (p_methods allMembers) in
        Done foundMembers st
    end.

(** [getIntrinsicPublicMembers(type)]: the methods of [basic], then those of
    every interface the type names, each under its name; a name that is no
    interface is passed over. *)
Definition addIntrinsicMethod (foundMembers : list (string * IntrinsicDesc))
    (intrinsicMethod : IntrinsicDesc) : list (string * IntrinsicDesc) :=
  obj_set (im_name intrinsicMethod) intrinsicMethod foundMembers.

Definition getIntrinsicPublicMembers (type : option TypeVal)
    : list (string * IntrinsicDesc) :=
  let foundMembers :=
    fold_left addIntrinsicMethod (default [] (obj_get "basic" intrinsicMethods)) [] in
  if truthy_ot type then
    let typeArray :=
      match type with
      | Some (TArr l) => l
      | Some (TStr s) => [s]
      | None => []
      end in
    fold_left
      (fun foundMembers intrinsicInterface =>
         match obj_get intrinsicInterface intrinsicMethods with
         | Some interfaceMethods => fold_left addIntrinsicMethod interfaceMethods foundMembers
         | None => foundMembers
         end)
      typeArray foundMembers
  else foundMembers.

(** Strings: [indexOf] and [lastIndexOf] of one character (the position,
    or -1), [substring] (both ends clamped to the string, and swapped when
    out of order) and [toUpperCase] (on the ASCII letters). *)
Fixpoint indexOf (c : ascii) (s : string) : Z :=
  match s with
  | EmptyString => (-1)%Z
  | String c' rest =>
      if Ascii.eqb c' c then 0%Z
      else
        let i := indexOf c rest in
        if (i <? 0)%Z then (-1)%Z else (i + 1)%Z
  end.

Fixpoint lastIndexOf (c : ascii) (s : string) : Z :=
  match s with
  | EmptyString => (-1)%Z
  | String c' rest =>
      let i := lastIndexOf c rest in
      if (0 <=? i)%Z then (i + 1)%Z
      else if Ascii.eqb c' c then 0%Z else (-1)%Z
  end.

Definition clampIndex (s : string) (i : Z) : nat :=
  Z.to_nat (Z.min (Z.max i 0) (Z.of_nat (String.length s))).

Definition js_substring (s : string) (indexStart indexEnd : Z) : string :=
  let a := clampIndex s indexStart in
  let b := clampIndex s indexEnd in
  String.substring (Nat.min a b) (Nat.max a b - Nat.min a b) s.

Definition js_substringFrom (s : string) (indexStart : Z) : string :=
  js_substring s indexStart (Z.of_nat (String.length s)).

Fixpoint toUpperCase (s : string) : string :=
  match s with
  | EmptyString => EmptyString
  | String c rest => String (upper_ascii c) (toUpperCase rest)
  end.

(** [pageObjectDisplayNameFromUri(uri)] *)
Definition pageObjectDisplayNameFromUri (uri : string) : string :=
  let lastSlash := lastIndexOf "/" uri in
  (js_substring uri 0 (indexOf "/" uri) ++ "/" ++
   toUpperCase (js_substring uri (lastSlash + 1) (lastSlash + 2)) ++
   js_substringFrom uri (lastSlash + 2))%string.

(** ** The settings

    [Settings] keeps the imported artifacts in a [Map] from file name to
    contents, in the order of import; the contents of an artifact are an
    object from URI to what is stored for the URI ([C] below).  The extension
    storage is the record of the five keys that [#getSettings] asks for. *)

Definition Format := list (string * string).

Definition DEFAULT_HIGHLIGHTER_FORMAT_SETTINGS : Format :=
  [ ("borderWidth", "4px"); ("borderColor", "#FF0000"); ("borderStyle", "solid");
    ("fillColor", "rgba(255, 0, 0, 0)") ].

Definition CODE_OUTPUT_LANGUAGE_JAVA : string := "java".
Definition DEFAULT_CODE_OUTPUT_LANGUAGE : string := CODE_OUTPUT_LANGUAGE_JAVA.

Section Settings.
Context {C : Type}.

Record StorageItems := mkStorageItems {
items_artifactFileName : option string;
items_pageObjects : option (list (string * C));
items_defaultLanguage : option string;
items_highlighterFormat : option Format;
items_pageObjectArtifacts : option (list (string * list (string * C)))
}.

(** The fields of a [Settings] object once [load] has run. *)
Record Settings := mkSettings {
defaultLanguage : string;
highlighterFormat : Format;
pageObjects : list (string * list (string * C));
pageObjectCount : nat;
duplicatePageObjects : list (string * list (string * list string))
}.

(** The callback of [#getSettings]: [None] when the read failed and the
  promise is rejected, the three settings otherwise. *)
Definition getSettings (lastError : bool) (items : StorageItems)
  : option (string * Format * list (string * list (string * C))) :=
if lastError then None
else
  let importedArtifacts : list (string * list (string * C)) :=
    match items_artifactFileName items, items_pageObjects items with
    | Some artifactFileName, Some contents =>
        if truthy_s artifactFileName then obj_set artifactFileName contents []
        else []
    | _, _ => []
    end in
  let importedArtifacts :=
    match items_pageObjectArtifacts items with
    | Some artifacts =>
        fold_left
          (fun importedArtifacts artifactInfo =>
             obj_set (fst artifactInfo) (snd artifactInfo) importedArtifacts)
          artifacts importedArtifacts
    | None => importedArtifacts
    end in
  Some (default DEFAULT_CODE_OUTPUT_LANGUAGE (items_defaultLanguage items),
        default DEFAULT_HIGHLIGHTER_FORMAT_SETTINGS (items_highlighterFormat items),
        importedArtifacts).

(** The body of the inner loop of [#processLoadedPageObjects]; [None]
  stands for the [TypeError] of [in] on a missing entry of [overrides].
  [in] is read on the keys an object was given: the names every object
  inherits, such as [constructor], are taken not to be URIs. *)
Definition recordPageObjectUri (fileName : string)
  (acc : option (list (string * string) * list (string * list (string * list string))))
  (pageObjectUri : string)
  : option (list (string * string) * list (string * list (string * list string))) :=
match acc with
| None => None
| Some (knownPageObjectUris, overrides) =>
    let recorded :=
      match obj_get pageObjectUri knownPageObjectUris with
      | Some existingArtifactFile =>
          match obj_get existingArtifactFile overrides with
          | Some forFile =>
              match obj_get pageObjectUri forFile with
              | Some files =>
                  Some (obj_set existingArtifactFile
                          (obj_set pageObjectUri (files ++ [fileName]) forFile) overrides)
              | None =>
                  Some (obj_set existingArtifactFile
                          (obj_set pageObjectUri [fileName] forFile) overrides)
              end
          | None => None
          end
      | None => Some overrides
      end in
    match recorded with
    | Some overrides =>
        Some (obj_set pageObjectUri fileName knownPageObjectUris, overrides)
    | None => None
    end
end.

(** [#processLoadedPageObjects()]: the count and the overrides. *)
Definition processLoadedPageObjects (loaded : list (string * list (string * C)))
  : option (nat * list (string * list (string * list string))) :=
let step acc artifact :=
  match acc with
  | None => None
  | Some (totalPageObjectCount, knownPageObjectUris, overrides) =>
      let totalPageObjectCount :=
        totalPageObjectCount + length (obj_keys (snd artifact)) in
      let overrides := obj_set (fst artifact) [] overrides in
      match fold_left (recordPageObjectUri (fst artifact)) (obj_keys (snd artifact))
                      (Some (knownPageObjectUris, overrides)) with
      | Some (knownPageObjectUris, overrides) =>
          Some (totalPageObjectCount, knownPageObjectUris, overrides)
      | None => None
      end
  end in
match fold_left step loaded (Some (0, [], [])) with
| Some (totalPageObjectCount, _, overrides) => Some (totalPageObjectCount, overrides)
| None => None
end.

(** [load()] *)
Definition load (lastError : bool) (items : StorageItems) : option Settings :=
match getSettings lastError items with
| Some (language, format, loaded) =>
    match processLoadedPageObjects loaded with
    | Some (count, overrides) =>
        Some {| defaultLanguage := language;
                highlighterFormat := format;
                pageObjects := loaded;
                pageObjectCount := count;
                duplicatePageObjects := overrides |}
    | None => None
    end
| None => None
end.

(** [save()]: the two keys of the old schema are removed, the three of
  the new one are written. *)
Definition save (settings : Settings) (items : StorageItems) : StorageItems :=
let pageObjectArtifacts :=
  map (fun entry => (fst entry, snd entry)) (pageObjects settings) in
{| items_artifactFileName := None;
   items_pageObjects := None;
   items_defaultLanguage := Some (defaultLanguage settings);
   items_highlighterFormat := Some (highlighterFormat settings);
   items_pageObjectArtifacts := Some pageObjectArtifacts |}.
End Settings.
Arguments StorageItems : clear implicits.
Arguments Settings : clear implicits.

(** ** The content script

    [Messages] and [ErrorCodes] (the sources hold the latter at the end of
    [common/Messages.js]), and [locateValidRootPageObjects] of
    [content_main.js].  [documentNode] is [document]; [enumerate] is the order
    in which [for ... in] visits the elements of a parsed page object. *)

Module Messages.
Definition ROOT_PAGE_OBJECTS_LOCATED := "locatedRootPageObjects".
Definition ERROR := "error".
End Messages.

Module ErrorCodes.
Definition NO_PAGE_OBJECTS_LOADED := "no page objects loaded".
Definition NO_MATCHING_ROOT_PAGE_OBJECTS := "no root page objects matched".
End ErrorCodes.

Record RootInfo := mkRootInfo {
  ri_type : string;
  ri_description : option string;
  ri_category : string;
  ri_selector : Selector;
  ri_displayName : string
}.

Inductive MessageData :=
| ErrorData (error message : string)
| LocatedData (located : list (string * RootInfo)).

Record Message := mkMessage {
  msg_type : string;
  msg_data : MessageData
}.

Section ContentScript.
Context {Node : Type}.
Variable doc : Document Node.
Variable documentNode : Node.
Variable enumerate : gmap string ElementDesc -> list (string * ElementDesc).

(** [elementFinder.findElement(selector)] *)
Definition findElement (selector : string) : W (option Node) :=
querySelector doc documentNode selector.

(** The [for ... in] loop over the elements of a root page object; it is
  left as soon as an element without arguments is found in the document. *)
Fixpoint anotherElementFound (entries : list (string * ElementDesc)) (isValid : bool)
  : W bool :=
match entries with
| [] => ret isValid
| (elementName, childElement) :: rest =>
    if negb (str_eqb elementName DataTypes.ROOT) then
      match css (ed_selector childElement) with
      | Some childSelector =>
          if Nat.eqb (length (ed_effectiveArgs childElement)) 0 &&
             truthy_s childSelector then
            let* element := findElement childSelector in
            match element with
            | Some _ => ret true
            | None => anotherElementFound rest isValid
            end
          else anotherElementFound rest isValid
      | None => anotherElementFound rest isValid
      end
    else anotherElementFound rest isValid
end.

(** The callback of [rootPageObjectUris.forEach]. *)
Definition locateRoot (db : State) (found : list (string * RootInfo))
  (rootPageObjectUri : string) : W (list (string * RootInfo)) :=
let pageObjectName := pageObjectDisplayNameFromUri rootPageObjectUri in
match getPageObject db rootPageObjectUri with
| None => throw "TypeError: pageObject is undefined"
| Some pageObject =>
    match p_elements pageObject !! DataTypes.ROOT with
    | None => throw "TypeError: pageObject.elements.root is undefined"
    | Some rootDescriptor =>
        let rootSelector := ed_selector rootDescriptor in
        match css rootSelector with
        | Some rootCss =>
            if truthy_s rootCss then
              let* element := findElement rootCss in
              match element with
              | Some _ =>
                  let* isValid :=
                    anotherElementFound (enumerate (p_elements pageObject))
                      (Nat.leb (size (p_elements pageObject)) 1) in
                  if isValid then
                    ret (obj_set pageObjectName
                           {| ri_type := rootPageObjectUri;
                              ri_description := p_description pageObject;
                              ri_category := DataTypes.ROOT;
                              ri_selector := rootSelector;
                              ri_displayName := pageObjectName |}
                           found)
                  else ret found
              | None => ret found
              end
            else ret found
        | None => ret found
        end
    end
end.

(** [locateValidRootPageObjects()] *)
Definition locateValidRootPageObjects (db : State) : W Message :=
match rootPageObjectUris db with
| [] =>
    ret {| msg_type := Messages.ERROR;
           msg_data :=
             ErrorData ErrorCodes.NO_PAGE_OBJECTS_LOADED
               "No UTAM Page Objects have been loaded into extension storage" |}
| _ :: _ =>
    let* found := foldM (locateRoot db) (rootPageObjectUris db) [] in
    match found with
    | [] =>
        ret {| msg_type := Messages.ERROR;
               msg_data :=
                 ErrorData ErrorCodes.NO_MATCHING_ROOT_PAGE_OBJECTS
                   "No elements on the current page match any loaded root Page Objects" |}
    | _ :: _ =>
        ret {| msg_type := Messages.ROOT_PAGE_OBJECTS_LOCATED;
               msg_data := LocatedData found |}
    end
end.
End ContentScript.

(** * The vocabulary of the statements

    The predicates and measures the theorems are stated with, and the
    readings of the specification that the counterexamples compare the code
    with. *)

(** Every normal run of [m] takes the store to an [R]-related one. *)
Definition steps {S A} (R : S -> S -> Prop) (m : ST S A) : Prop :=
  forall st a st', m st = Done a st' -> R st st'.

(** What an element itself contributes to the argument list. *)
Definition ownArgs (e : ElementDef) : list Arg := selectorArgs e ++ filterArgs e.

(** The children of an element, each with its shadow flag. *)
Definition tagged (isInShadowRoot : bool) (l : option (list ElementDef))
    : list (bool * ElementDef) :=
  map (pair isInShadowRoot) (default [] l).

Definition childrenOf (e : ElementDef) : list (bool * ElementDef) :=
  tagged false (e_elements e) ++ tagged true (e_shadow e).

(** [InForest forest path sh e]: [e] occurs in [forest] below the
    ancestors [path] (outermost first), in a shadow branch iff [sh]. *)
Inductive InForest : list (bool * ElementDef) -> list ElementDef -> bool -> ElementDef -> Prop :=
| InForest_here forest sh e :
    In (sh, e) forest -> InForest forest [] sh e
| InForest_below forest sh0 a path sh e :
    In (sh0, a) forest -> InForest (childrenOf a) path sh e ->
    InForest forest (a :: path) sh e.

Definition parentOf (parentName : option string) (path : list ElementDef) : option string :=
  match last path with
  | Some a => Some (e_name a)
  | None => parentName
  end.

(** The forest of a page object: its [elements] and [shadow.elements]. *)
Definition forestOf {A} (pageObject : PageObject A) : list (bool * ElementDef) :=
  tagged false (po_elements pageObject) ++ tagged true (po_shadow pageObject).

(** The specification's reading of [effectiveArgs]: the ancestors
    contribute their selector arguments only, the element its selector and
    filter arguments. *)
Definition specEffectiveArgs (path : list ElementDef) (e : ElementDef) : list Arg :=
  flat_map selectorArgs path ++ selectorArgs e ++ filterArgs e.

(** Only the method map of a parsed page object changes after its creation. *)
Definition sameStatic (a b : Parsed) : Prop :=
  p_uri a = p_uri b /\ p_source a = p_source b /\ p_author a = p_author b /\
  p_description a = p_description b /\ p_elements a = p_elements b.

Definition heapGrows (st st' : State) : Prop :=
  forall p parsed, st_heap st !! p = Some parsed ->
    exists parsed', st_heap st' !! p = Some parsed' /\ sameStatic parsed parsed'.

Definition setCompose (method : Method aref) (compose : option (list Step)) : Method aref :=
  {| m_name := m_name method; m_args := m_args method;
     m_returnType := m_returnType method; m_return := m_return method;
     m_description := m_description method; m_compose := compose |}.

(** The content of the declared [args] array ([[]] when none is declared). *)
Definition declaredArgs (st : State) (method : Method aref) : list Arg :=
  match m_args method with
  | Some r => arrayOf st r
  | None => []
  end.

Definition methodsOf (st : State) (p : pref) : list (string * MethodDesc) :=
  match st_heap st !! p with
  | Some parsed => map_to_list (p_methods parsed)
  | None => []
  end.

(** The specification's reading of the step loop: a chain step pivots to
    the page object its predecessor returned when that is part of the
    definition set, and stays on the current page object otherwise. *)
Definition specMethodStepBody (allPageObjects : PageObjects)
    (recM : PageObject aref -> Method aref -> pref -> M MethodDesc)
    (recP : TypeVal -> M pref)
    (pageObject : PageObject aref) (method : Method aref) (parsedPageObject : pref)
    (locals : MethodLocals) (methodStep : Step) : M MethodLocals :=
  if s_chain methodStep then
    match obj_get (to_key (lastStepReturnType locals)) allPageObjects with
    | Some stepPageObject =>
        let* stepParsedPageObject := recP (lastStepReturnType locals) in
        runStep recM method stepPageObject stepParsedPageObject locals methodStep
    | None => runStep recM method pageObject parsedPageObject locals methodStep
    end
  else runStep recM method pageObject parsedPageObject locals methodStep.

(** The step hands the predicate of its first argument to [#processMethod]. *)
Definition isWaitForStep (s : Step) : bool :=
  match s_applyExternal s, s_apply s with
  | None, Some apply => truthy_s apply && str_eqb apply "waitFor"
  | _, _ => false
  end.

(** The name the step looks up among the methods of the page object. *)
Definition calledMethodName (s : Step) : option string :=
  match s_applyExternal s, s_apply s with
  | None, Some apply =>
      if truthy_s apply && negb (str_eqb apply "waitFor") &&
         negb (truthy_os (s_element s)) && negb (str_eqb apply "returnSelf")
      then Some apply else None
  | _, _ => None
  end.

(** [P] holds of the step and of every step of the predicates that
    resolution reaches from it. *)
Fixpoint stepAll (P : Step -> bool) (s : Step) {struct s} : bool :=
  P s &&
  match s_args s with
  | Some (a0 :: _) =>
      match sa_predicate a0 with
      | Some predicate => negb (isWaitForStep s) || forallb (stepAll P) predicate
      | None => true
      end
  | _ => true
  end.

(** The step calls only methods ranked below [bound]. *)
Definition callsBelow (rank : string -> nat) (pageObject : PageObject aref)
    (bound : nat) (s : Step) : bool :=
  match calledMethodName s with
  | Some name =>
      match findMethod (po_methods pageObject) name with
      | Some _ => Nat.ltb (rank name) bound
      | None => true
      end
  | None => true
  end.

(** The step is no chain step and calls only methods ranked below [bound]. *)
Definition stepBelow (rank : string -> nat) (pageObject : PageObject aref)
    (bound : nat) (s : Step) : bool :=
  negb (s_chain s) && callsBelow rank pageObject bound s.

Definition acyclicMethod (rank : string -> nat) (pageObject : PageObject aref)
    (m : Method aref) : bool :=
  forallb (stepAll (stepBelow rank pageObject (rank (m_name m))))
          (default [] (m_compose m)).

(** No method of the page object has a chain step, and [rank] decreases
    along every reference from a method to a method. *)
Definition acyclicPageObject (rank : string -> nat) (pageObject : PageObject aref) : bool :=
  forallb (acyclicMethod rank pageObject) (default [] (po_methods pageObject)).

(** [rank] decreases along every reference from a method to a method. *)
Definition acyclicCalls (rank : string -> nat) (pageObject : PageObject aref) : bool :=
  forallb (fun m => forallb (stepAll (callsBelow rank pageObject (rank (m_name m))))
                            (default [] (m_compose m)))
          (default [] (po_methods pageObject)).

(** The type is no key of the definition set, or a key ranked below [bound]. *)
Definition lowType (allPageObjects : PageObjects) (poRank : string -> nat)
    (bound : nat) (t : TypeVal) : bool :=
  match obj_get (to_key t) allPageObjects with
  | Some _ => Nat.ltb (poRank (to_key t)) bound
  | None => true
  end.

Definition lowOption (allPageObjects : PageObjects) (poRank : string -> nat)
    (bound : nat) (o : option TypeVal) : bool :=
  match o with
  | Some t => lowType allPageObjects poRank bound t
  | None => true
  end.

(** The types a step names: its declared return type and the page object
    its first argument puts in a container. *)
Definition stepLow (allPageObjects : PageObjects) (poRank : string -> nat)
    (bound : nat) (s : Step) : bool :=
  lowOption allPageObjects poRank bound (s_returnType s) &&
  match s_args s with
  | Some (a0 :: _) => lowOption allPageObjects poRank bound (sa_value a0)
  | _ => true
  end.

Fixpoint elementLow (allPageObjects : PageObjects) (poRank : string -> nat)
    (bound : nat) (e : ElementDef) {struct e} : bool :=
  lowOption allPageObjects poRank bound (e_type e) &&
  match e_elements e with
  | Some l => forallb (elementLow allPageObjects poRank bound) l
  | None => true
  end &&
  match e_shadow e with
  | Some l => forallb (elementLow allPageObjects poRank bound) l
  | None => true
  end.

Definition methodLow (allPageObjects : PageObjects) (poRank : string -> nat)
    (bound : nat) (m : Method aref) : bool :=
  lowOption allPageObjects poRank bound (m_returnType m) &&
  forallb (stepAll (stepLow allPageObjects poRank bound)) (default [] (m_compose m)).

(** Every type the page object names is no key, or a key ranked below
    [bound]. *)
Definition pageLow (allPageObjects : PageObjects) (poRank : string -> nat)
    (bound : nat) (pageObject : PageObject aref) : bool :=
  forallb (elementLow allPageObjects poRank bound) (default [] (po_elements pageObject)) &&
  forallb (elementLow allPageObjects poRank bound) (default [] (po_shadow pageObject)) &&
  forallb (methodLow allPageObjects poRank bound) (default [] (po_methods pageObject)).

(** The types the resolver itself introduces. *)
Definition builtinTypes : list string :=
  [ ""; DataTypes.VOID; DataTypes.DOCUMENT; DataTypes.NAVIGATION; DataTypes.BASIC;
    DataTypes.STRING; DataTypes.BOOLEAN; DataTypes.NUMBER ].

(** The definition set is stratified: no page object is keyed by a built-in
    type, the page objects a page object names as types are ranked below it,
    and within each page object the references from method to method follow
    a decreasing rank. *)
Definition stratified (allPageObjects : PageObjects) (poRank : string -> nat)
    (methodRank : string -> string -> nat) : bool :=
  forallb (fun c => negb (obj_has c allPageObjects)) builtinTypes &&
  forallb (fun entry =>
             pageLow allPageObjects poRank (poRank (fst entry)) (snd entry) &&
             acyclicCalls (methodRank (fst entry)) (snd entry))
          allPageObjects.

(** A parsed page object as resolution builds it: made of a definition of
    the set, with the element map of that definition, and with methods whose
    types are no keys or keys ranked below the page object. *)
Definition wfParsed (allPageObjects : PageObjects) (poRank : string -> nat)
    (parsed : Parsed) : Prop :=
  exists pageObject,
    obj_get (to_key (p_uri parsed)) allPageObjects = Some pageObject /\
    p_elements parsed = parsedElements allPageObjects (p_uri parsed) pageObject /\
    forall name d, p_methods parsed !! name = Some d ->
      lowType allPageObjects poRank (poRank (to_key (p_uri parsed))) (md_type d) = true.

Definition wfState (allPageObjects : PageObjects) (poRank : string -> nat)
    (st : State) : Prop :=
  forall p parsed, st_heap st !! p = Some parsed -> wfParsed allPageObjects poRank parsed.

(** [p] names a parsed page object of [uri]. *)
Definition here (p : pref) (uri : TypeVal) (st : State) : Prop :=
  exists parsed, st_heap st !! p = Some parsed /\ p_uri parsed = uri.

(** The state is well formed and [p] names a parsed page object of [uri]. *)
Definition good (allPageObjects : PageObjects) (poRank : string -> nat)
    (p : pref) (uri : TypeVal) (st : State) : Prop :=
  wfState allPageObjects poRank st /\ here p uri st.

(** From a state that satisfies [P], [m] does not run out of fuel, and
    where it returns, [Q] holds. *)
Definition safe {A} (P : State -> Prop) (m : M A) (Q : A -> State -> Prop) : Prop :=
  forall st, P st ->
    match m st with
    | Done a st' => Q a st'
    | Throw _ => True
    | OutOfFuel => False
    end.

(** [F] holds of every sufficient amount of fuel. *)
Definition eventually (F : nat -> Prop) : Prop :=
  exists N, forall fuel, N <= fuel -> F fuel.

Definition total {S A} (m : ST S A) : Prop := forall st, m st <> OutOfFuel.

(** The method [#processStep] makes of the predicate of a [waitFor] step. *)
Definition waitForMethodOf (a0 : StepArg) : Method aref :=
  {| m_name := "tempWaitForMethod"; m_args := None; m_returnType := None;
     m_return := None; m_description := None;
     m_compose := Some (default [] (sa_predicate a0)) |}.

(** The size of a step: itself and the predicate of its first argument. *)
Fixpoint stepSize (s : Step) {struct s} : nat :=
  S (match s_args s with
     | Some (a0 :: _) =>
         match sa_predicate a0 with
         | Some predicate => list_sum (map stepSize predicate)
         | None => 0
         end
     | _ => 0
     end).

(** The arguments of a method of a parsed page object, as they read in [st]. *)
Definition methodArgsIn (st : State) (p : pref) (name : string) : option (list Arg) :=
  match st_heap st !! p with
  | Some parsed =>
      match p_methods parsed !! name with
      | Some d => Some (arrayOf st (md_effectiveArgs d))
      | None => None
      end
  | None => None
  end.

(** Every declared [args] array of the definition set lies below [n0]. *)
Definition argsBelow (n0 : nat) (m : Method aref) : Prop :=
  forall r, m_args m = Some r -> r < n0.

Definition pageBelow (n0 : nat) (pageObject : PageObject aref) : Prop :=
  forall m, In m (default [] (po_methods pageObject)) -> argsBelow n0 m.

Definition declaredBelow (n0 : nat) (allPageObjects : PageObjects) : Prop :=
  forall key pageObject, obj_get key allPageObjects = Some pageObject ->
    pageBelow n0 pageObject.

Definition withArgs (d : MethodDesc) (r : aref) : MethodDesc :=
  {| md_displayName := md_displayName d; md_name := md_name d;
     md_description := md_description d; md_effectiveArgs := r;
     md_category := md_category d; md_type := md_type d;
     md_public := md_public d; md_lastStepApply := md_lastStepApply d;
     md_elements := md_elements d |}.

(** Two descriptors of a method agree in every field but the argument
    array, which is the declared array in both, or an array created by the
    resolution with the same content in both. *)
Definition sameMethod (n0 : nat) (sa sb : State) (da db : MethodDesc) : Prop :=
  db = withArgs da (md_effectiveArgs db) /\
  ((md_effectiveArgs da = md_effectiveArgs db /\ md_effectiveArgs da < n0) \/
   (n0 <= md_effectiveArgs da /\ n0 <= md_effectiveArgs db /\
    arrayOf sa (md_effectiveArgs da) = arrayOf sb (md_effectiveArgs db))).

(** A computation that leaves the store as it is. *)
Definition pureW {A} (m : W A) : Prop := steps eq m.

(** The arguments [#getFilterInfo] keeps: named by the matcher, with a value. *)
Definition valueBound (matcherArgNames : list string) (arg : ArgValue) : bool :=
  existsb (str_eqb (av_name arg)) matcherArgNames && truthy_os (av_value arg).

(** The value the filter compares with. *)
Definition filterValueOf (info : FilterInfo) : string :=
  match fi_args info with
  | arg0 :: _ => if isFilterableApply (fi_apply info) then default "" (av_value arg0) else ""
  | [] => ""
  end.

(** [ChainTo coll path parent]: [path] lists, outermost first, the elements
    reached from the name [parent] by following parent names through [coll]
    up to an element without parent. *)
Inductive ChainTo (coll : gmap string ElementDesc)
    : list ElementDesc -> option string -> Prop :=
| ChainTo_root parent :
    truthy_os parent = false -> ChainTo coll [] parent
| ChainTo_parent path name a :
    truthy_s name = true -> coll !! name = Some a ->
    ChainTo coll path (ed_parent a) ->
    ChainTo coll (path ++ [a]) (Some name).

(** The arrays that exist when a walk starts are kept. *)
Definition keepsFirst (n0 : nat) (st st' : WStore) : Prop :=
  n0 <= length st -> n0 <= length st' /\ take n0 st' = take n0 st.

Section WalkerSpec.
Context {Node : Type}.
Variable doc : Document Node.
Variable pageObjectResolver : TypeVal -> option Parsed.

(** The specification's reading of the walk: every ancestor is
    resolved, each against the node of its predecessor and with its share
    of the arguments. *)
Definition specWalkSegment (fuel : nat) (acc : option Node * aref)
    (pathSegment : ElementDesc) : W (option Node * aref) :=
  let count := length (default [] (sel_args (ed_selector pathSegment))) in
  let* segmentArgs := sliceArgs (snd acc) 0 count in
  let* args := sliceArgsFrom (snd acc) count in
  let* info := getFilterInfo pageObjectResolver fuel (Elem pathSegment) args in
  let* currentElement := getElement doc (Elem pathSegment) segmentArgs info (fst acc) in
  ret (currentElement, args).

Definition specWalkElement (fuel : nat) (parentElement : option Node)
    (d : ElementDesc) (args : aref) (elementPath : list ElementDesc)
    : W (option Node) :=
  let* walked := foldM (specWalkSegment fuel) elementPath (parentElement, args) in
  let* info := getFilterInfo pageObjectResolver fuel (Elem d) (snd walked) in
  getElement doc (Elem d) (snd walked) info (fst walked).
End WalkerSpec.

(** The order of [Array.prototype.sort()] on strings: that of their UTF-16
    code units. *)
Definition str_le (a b : string) : Prop := js_leb a b = true.

(** The entries of all artifacts, in the order [reloadDatabase] visits them. *)
Definition entriesOf (settings : Artifacts) : list (string * PageObject (list Arg)) :=
  flat_map snd settings.

(** The URIs of the entries that declare a root with a [css] selector, one
    per entry. *)
Definition rootEntries (settings : Artifacts) : list string :=
  map fst (List.filter (fun entry => hasRootSelector (snd entry)) (entriesOf settings)).

(** The last definition of a URI among the entries. *)
Fixpoint lastDefinition (uri : string) (entries : list (string * PageObject (list Arg)))
    : option (PageObject (list Arg)) :=
  match entries with
  | [] => None
  | (key, definition) :: rest =>
      match lastDefinition uri rest with
      | Some later => Some later
      | None => if str_eqb key uri then Some definition else None
      end
  end.

Definition sameMethodDef (m : Method (list Arg)) (m' : Method aref) : Prop :=
  m_name m' = m_name m /\ m_returnType m' = m_returnType m /\
  m_return m' = m_return m /\ m_description m' = m_description m /\
  m_compose m' = m_compose m /\ (is_Some (m_args m') <-> is_Some (m_args m)).

(** The page object that [JSON.parse] makes of a definition. *)
Definition sameDefinition (d : PageObject (list Arg)) (po : PageObject aref) : Prop :=
  po_source po = po_source d /\ po_root po = po_root d /\
  po_selector po = po_selector d /\ po_description po = po_description d /\
  po_elements po = po_elements d /\ po_shadow po = po_shadow d /\
  option_Forall2 (Forall2 sameMethodDef) (po_methods d) (po_methods po).

(** Loading touches the array store only. *)
Definition onlyArrays (st st' : State) : Prop :=
  st_heap st' = st_heap st /\ st_cache st' = st_cache st /\
  rootPageObjectUris st' = rootPageObjectUris st /\ st_log st' = st_log st.

(** What the first loop of [reloadDatabase] leaves, entry by entry. *)
Definition loadedAs (entries : list (string * PageObject (list Arg)))
    (before after : PageObjects) : Prop :=
  forall uri,
    match lastDefinition uri entries with
    | Some d => exists po, obj_get uri after = Some po /\ sameDefinition d po
    | None => obj_get uri after = obj_get uri before
    end.

(** Resolution leaves the list of roots alone, keeps every cache key, every
    parsed page object and every method name, and only appends: to the log,
    and to the argument arrays. *)
Definition keeps (st st' : State) : Prop :=
  rootPageObjectUris st' = rootPageObjectUris st /\
  (forall key, is_Some (st_cache st !! key) -> is_Some (st_cache st' !! key)) /\
  (exists lines, st_log st' = st_log st ++ lines) /\
  (forall r l, st_arrays st !! r = Some l ->
     exists l', st_arrays st' !! r = Some (l ++ l')) /\
  (forall p parsed name, st_heap st !! p = Some parsed ->
     is_Some (p_methods parsed !! name) ->
     exists parsed', st_heap st' !! p = Some parsed' /\
                     is_Some (p_methods parsed' !! name)).

(** Every cache entry names a parsed page object that was made of the
    definition under that key. *)
Definition cacheOK (allPageObjects : PageObjects) (st : State) : Prop :=
  forall key p, st_cache st !! key = Some p ->
    exists parsed pageObject,
      st_heap st !! p = Some parsed /\ to_key (p_uri parsed) = key /\
      obj_get key allPageObjects = Some pageObject /\
      p_source parsed = po_source pageObject /\
      p_author parsed = processAuthor (po_description pageObject) /\
      p_description parsed = processDescription (po_description pageObject) /\
      p_elements parsed = parsedElements allPageObjects (p_uri parsed) pageObject.

Definition keepsCache (allPageObjects : PageObjects) (st st' : State) : Prop :=
  cacheOK allPageObjects st -> cacheOK allPageObjects st'.

(** The character occurs in the string. *)
Fixpoint occurs (c : ascii) (s : string) : bool :=
  match s with
  | EmptyString => false
  | String c' rest => Ascii.eqb c' c || occurs c rest
  end.

(** The string with its first character in upper case. *)
Definition capitalized (s : string) : string :=
  match s with
  | EmptyString => EmptyString
  | String c rest => String (upper_ascii c) rest
  end.

(** The names an element declares: its own, then those below it. *)
Fixpoint elementNames (e : ElementDef) : list string :=
  e_name e ::
  match e_elements e with
  | Some l => flat_map elementNames l
  | None => []
  end ++
  match e_shadow e with
  | Some l => flat_map elementNames l
  | None => []
  end.

Definition forestNames (forest : list (bool * ElementDef)) : list string :=
  flat_map (fun x => elementNames (snd x)) forest.

(** The names of a page object: [root] when it has a selector, then the
    names of its elements. *)
Definition declaredNames {A} (pageObject : PageObject A) : list string :=
  match po_selector pageObject with
  | Some _ => [DataTypes.ROOT]
  | None => []
  end ++ forestNames (forestOf pageObject).

(** Every normal run of [m] from a state that satisfies [P] ends in [Q]. *)
Definition hoare {A} (P : State -> Prop) (m : M A) (Q : A -> State -> Prop) : Prop :=
  forall st a st', P st -> m st = Done a st' -> Q a st'.

(** A method descriptor as [#processMethod] makes it for the name. *)
Definition methodNamed (name : string) (d : MethodDesc) : Prop :=
  md_name d = name /\ md_displayName d = name /\ md_public d = true /\
  md_category d = DataTypes.METHOD.

(** The page object declares a method of the name. *)
Definition declares {A} (pageObject : PageObject A) (name : string) : Prop :=
  exists m, In m (default [] (po_methods pageObject)) /\ m_name m = name.

(** Every cache entry names a page object created from position [n0] on
    that has a method for every method its definition declares. *)
Definition cacheFull (allPageObjects : PageObjects) (n0 : nat) (st : State) : Prop :=
  n0 <= length (st_heap st) /\
  forall key p, st_cache st !! key = Some p ->
    n0 <= p /\
    exists parsed po,
      st_heap st !! p = Some parsed /\ obj_get key allPageObjects = Some po /\
      forall m, In m (default [] (po_methods po)) -> is_Some (p_methods parsed !! m_name m).

(** A [waitFor] step carries a first argument. *)
Definition argued (s : Step) : bool :=
  negb (isWaitForStep s) ||
  match s_args s with
  | Some (_ :: _) => true
  | _ => false
  end.

(** So does every [waitFor] step of the method, the steps of the predicates
    included. *)
Definition methodArgued {A} (m : Method A) : bool :=
  forallb (stepAll argued) (default [] (m_compose m)).

Definition pageArgued {A} (pageObject : PageObject A) : bool :=
  forallb methodArgued (default [] (po_methods pageObject)).

Definition settingsArgued (settings : Artifacts) : bool :=
  forallb (fun entry => pageArgued (snd entry)) (entriesOf settings).

(** The declared [args] arrays of the definitions exist. *)
Definition arraysOK (allPageObjects : PageObjects) (st : State) : Prop :=
  forall key po m r,
    obj_get key allPageObjects = Some po -> In m (default [] (po_methods po)) ->
    m_args m = Some r -> is_Some (st_arrays st !! r).

(** The definitions are argued and their arrays exist. *)
Definition loadedWell (allPageObjects : PageObjects) (st : State) : Prop :=
  arraysOK allPageObjects st /\
  forall key po, obj_get key allPageObjects = Some po -> pageArgued po = true.

(** A selector that finds a node of the document. *)
Definition matchedIn {Node} (doc : Document Node) (documentNode : Node) (c : string) : Prop :=
  exists node rest, querySelectorAll doc documentNode c = Some (node :: rest).

(** Some element other than the root, without arguments, whose selector
    finds a node of the document. *)
Definition anotherMatched {Node} (doc : Document Node) (documentNode : Node)
    (elements : gmap string ElementDesc) : Prop :=
  exists name e c,
    name <> DataTypes.ROOT /\ elements !! name = Some e /\
    ed_effectiveArgs e = [] /\ css (ed_selector e) = Some c /\
    truthy_s c = true /\ matchedIn doc documentNode c.

(** The page object of a URI is on the page: its root selector finds a
    node, and so does another of its elements when it has any. *)
Definition rootLocated {Node} (doc : Document Node) (documentNode : Node)
    (db : State) (uri : string) : Prop :=
  exists parsed rootDesc c,
    getPageObject db uri = Some parsed /\
    p_elements parsed !! DataTypes.ROOT = Some rootDesc /\
    css (ed_selector rootDesc) = Some c /\ truthy_s c = true /\
    matchedIn doc documentNode c /\
    (size (p_elements parsed) <= 1 \/ anotherMatched doc documentNode (p_elements parsed)).

(** The entry of the reply for a URI. *)
Definition describes (db : State) (uri : string) (info : RootInfo) : Prop :=
  ri_type info = uri /\
  ri_displayName info = pageObjectDisplayNameFromUri uri /\
  ri_category info = DataTypes.ROOT /\
  exists parsed rootDesc,
    getPageObject db uri = Some parsed /\
    p_elements parsed !! DataTypes.ROOT = Some rootDesc /\
    ri_selector info = ed_selector rootDesc /\
    ri_description info = p_description parsed.

(** The definitions of the settings in the order [#processLoadedPageObjects]
    visits them: the file name of the artifact and the URI. *)
Definition definitions {C} (loaded : list (string * list (string * C)))
    : list (string * string) :=
  flat_map (fun artifact => map (fun uri => (fst artifact, uri)) (obj_keys (snd artifact)))
           loaded.

(** The artifact of the last definition of a URI in a sequence of definitions. *)
Fixpoint definer (uri : string) (seq : list (string * string)) : option string :=
  match seq with
  | [] => None
  | (file, u) :: rest =>
      match definer uri rest with
      | Some g => Some g
      | None => if str_eqb u uri then Some file else None
      end
  end.

(** What [overrides] holds for a file name and a URI. *)
Definition recorded (overrides : list (string * list (string * list string)))
    (file uri : string) : option (list string) :=
  match obj_get file overrides with
  | Some forFile => obj_get uri forFile
  | None => None
  end.

(** [files] is the one artifact that defines [uri] next after [file]. *)
Definition overridden (seq : list (string * string)) (file uri : string)
    (files : list string) : Prop :=
  exists g before mid after,
    seq = before ++ (file, uri) :: mid ++ (g, uri) :: after /\
    files = [g] /\ ~ In uri (map snd mid).

(** What the loops of [#processLoadedPageObjects] keep: [known] names the
    artifact of the last definition of each URI, [overrides] has an entry
    for the artifacts begun, and holds the overrides so far. *)
Definition settled (started : list string) (seq : list (string * string))
    (known : list (string * string))
    (overrides : list (string * list (string * list string))) : Prop :=
  (forall uri, obj_get uri known = definer uri seq) /\
  (forall file, is_Some (obj_get file overrides) <-> In file started) /\
  (forall file uri, In (file, uri) seq -> In file started) /\
  (forall file uri files,
     recorded overrides file uri = Some files <-> overridden seq file uri files).

(** The string is empty or begins with an ASCII character. *)
Definition asciiFirst (s : string) : bool :=
  match s with
  | EmptyString => true
  | String c _ => Nat.ltb (nat_of_ascii c) 128
  end.

(** The definition set that [reloadDatabase] builds from the artifacts on a
    new database. *)
Definition definitionSet (settings : Artifacts) : PageObjects :=
  match loadArtifacts settings emptyState with
  | Done allPageObjects _ => allPageObjects
  | _ => []
  end.

(** * Example definition sets, documents and arguments *)

Definition basicSelector (cssText : string) : Selector :=
  {| css := Some cssText; sel_args := None; returnAll := false |}.

Definition basicElement (name cssText : string) (ty : option TypeVal) : ElementDef :=
  {| e_name := name; e_type := ty; e_selector := Some (basicSelector cssText);
     e_filter := None; e_public := true; e_description := None;
     e_elements := None; e_shadow := None |}.

Definition stepOf (element apply : option string) (chain : bool) : Step :=
  {| s_element := element; s_apply := apply; s_applyExternal := None;
     s_chain := chain; s_returnType := None; s_args := None |}.

Definition methodOf (name : string) (args : option aref) (compose : list Step)
    : Method aref :=
  {| m_name := name; m_args := args; m_returnType := None; m_return := None;
     m_description := None; m_compose := Some compose |}.

Definition pageOf (selector : option Selector) (elements : list ElementDef)
    (methods : list (Method aref)) : PageObject aref :=
  {| po_source := ""; po_root := false; po_selector := selector;
     po_description := None; po_elements := Some elements; po_shadow := None;
     po_methods := Some methods |}.

(** A table whose rows are picked by index and filtered by text, with a
    labelled cell inside each row. *)
Definition labelDef : ElementDef :=
  {| e_name := "label"; e_type := None;
     e_selector := Some {| css := Some ".label-%s";
                           sel_args := Some [mkArg "suffix" "string"];
                           returnAll := false |};
     e_filter := None; e_public := true; e_description := None;
     e_elements := None; e_shadow := None |}.

Definition rowDef : ElementDef :=
  {| e_name := "row"; e_type := None;
     e_selector := Some {| css := Some "tr:nth-child(%d)";
                           sel_args := Some [mkArg "index" "number"];
                           returnAll := true |};
     e_filter := Some {| f_apply := Some "getText";
                         f_matcher := Some {| matcher_type := "stringContains";
                                              matcher_args := Some [mkArg "text" "string"] |};
                         findFirst := true |};
     e_public := true; e_description := None;
     e_elements := Some [labelDef]; e_shadow := None |}.

Definition tablePage : PageObject aref :=
  pageOf (Some (basicSelector "table")) [rowDef] [].

Definition tableSet : PageObjects := [("app/table", tablePage)].

(** A page with a button and a link to a page object that is not part of
    the definition set. *)
Definition btnDef : ElementDef := basicElement "btn" ".btn" (Some (TArr ["clickable"])).
Definition linkDef : ElementDef := basicElement "link" ".link" (Some (TStr "app/missing")).

Definition declaredMethod : Method aref :=
  {| m_name := "title"; m_args := Some 0; m_returnType := Some (TStr "string");
     m_return := None; m_description := None;
     m_compose := Some [stepOf (Some "btn") (Some "getText") false] |}.

Definition emptyParsed (uri : string) : Parsed :=
  {| p_uri := TStr uri; p_source := ""; p_author := None; p_description := None;
     p_elements := ∅; p_methods := ∅ |}.

Definition oneObjectState (uri : string) (arrays : list (list Arg)) : State :=
  {| st_heap := [emptyParsed uri]; st_arrays := arrays; st_cache := ∅;
     rootPageObjectUris := []; st_log := [] |}.

(** [open] reaches the link, chains into its (unknown) page object, then
    reads the text of the button. *)
Definition openMethod : Method aref :=
  methodOf "open" None
    [ stepOf (Some "link") None false;
      stepOf None (Some "activate") true;
      stepOf (Some "btn") (Some "getText") false ].

Definition homePage : PageObject aref :=
  pageOf (Some (basicSelector ".home")) [btnDef; linkDef] [openMethod].

Definition homeSet : PageObjects := [("app/home", homePage)].

Definition afterGetText : MethodLocals :=
  {| methodType := TStr ""; lastStepReturnType := TStr "string";
     lastMethodStepApply := ApplyName "getText"; referencedElements := [] |}.

Definition homeState : State :=
  {| st_heap := [ {| p_uri := TStr "app/home"; p_source := ""; p_author := None;
                     p_description := None;
                     p_elements := parsedElements homeSet (TStr "app/home") homePage;
                     p_methods := ∅ |} ];
     st_arrays := []; st_cache := ∅; rootPageObjectUris := []; st_log := [] |}.

(** Two methods that apply each other. *)
Definition methodA : Method aref := methodOf "A" None [stepOf None (Some "B") false].
Definition methodB : Method aref := methodOf "B" None [stepOf None (Some "A") false].
Definition cyclePage : PageObject aref := pageOf None [] [methodA; methodB].
Definition cycleSet : PageObjects := [("app/cycle", cyclePage)].

(** A dashboard whose [panel] element is a page object of its own, and a
    method that chains into it. *)
Definition panelTitleDef : ElementDef := basicElement "title" ".title" None.
Definition panelPage : PageObject aref :=
  pageOf (Some (basicSelector ".panel")) [panelTitleDef] [].
Definition panelDef : ElementDef := basicElement "panel" ".panel" (Some (TStr "app/panel")).
Definition showTitle : Method aref :=
  methodOf "showTitle" None
    [ stepOf (Some "panel") None false;
      stepOf (Some "title") (Some "getText") true ].
Definition dashboardPage : PageObject aref :=
  pageOf (Some (basicSelector ".dashboard")) [panelDef] [showTitle].
Definition dashboardSet : PageObjects :=
  [("app/dashboard", dashboardPage); ("app/panel", panelPage)].

(** The dashboard names the panel as a type, so it is ranked above it. *)
Definition dashboardRank (key : string) : nat :=
  if str_eqb key "app/dashboard" then 1 else 0.

Definition afterPanel : MethodLocals :=
  {| methodType := TStr ""; lastStepReturnType := TStr "app/panel";
     lastMethodStepApply := ApplyNone; referencedElements := [] |}.

Definition dashboardState : State :=
  {| st_heap := [ {| p_uri := TStr "app/dashboard"; p_source := ""; p_author := None;
                     p_description := None;
                     p_elements :=
                       parsedElements dashboardSet (TStr "app/dashboard") dashboardPage;
                     p_methods := ∅ |} ];
     st_arrays := []; st_cache := ∅; rootPageObjectUris := []; st_log := [] |}.

(** A form whose [fill] method declares one argument and types into a
    field that is selected by name. *)
Definition fieldDef : ElementDef :=
  {| e_name := "field"; e_type := Some (TArr ["editable"]);
     e_selector := Some {| css := Some "input[name=%s]";
                           sel_args := Some [mkArg "name" "string"];
                           returnAll := false |};
     e_filter := None; e_public := true; e_description := None;
     e_elements := None; e_shadow := None |}.

Definition fillMethod : Method aref :=
  methodOf "fill" (Some 0) [stepOf (Some "field") (Some "setText") false].

Definition formPage : PageObject aref := pageOf (Some (basicSelector "form")) [fieldDef] [fillMethod].
Definition formSet : PageObjects := [("app/form", formPage)].

(** The state once [JSON.parse] has created the declared [args] array. *)
Definition formLoaded : State :=
  {| st_heap := []; st_arrays := [[mkArg "value" "string"]]; st_cache := ∅;
     rootPageObjectUris := []; st_log := [] |}.

Definition formAfter : State :=
  match parsePageObject 3 formSet (TStr "app/form") formLoaded with
  | Done _ st => st
  | _ => formLoaded
  end.

Definition rootJson : PageObject (list Arg) :=
  {| po_source := "root"; po_root := true; po_selector := Some (basicSelector ".home");
     po_description := None; po_elements := None; po_shadow := None;
     po_methods := None |}.

Definition plainJson : PageObject (list Arg) :=
  {| po_source := "plain"; po_root := false; po_selector := None;
     po_description := None; po_elements := None; po_shadow := None;
     po_methods := None |}.

(** Two imported artifacts define the same URI; the later one wins. *)
Definition overriding : Artifacts :=
  [ ("first.jar", [("app/home", rootJson)]);
    ("second.jar", [("app/home", plainJson)]) ].

Definition duplicated : Artifacts :=
  [ ("first.jar", [("app/home", rootJson)]);
    ("second.jar", [("app/home", rootJson)]) ].

(** Node 0 is the page; below it, in document order, a stray title (3), a
    panel (1) with its own title (2), and a list with three items. *)
Definition toyQuery (node : nat) (selector : string) : option (list nat) :=
  Some (match node with
        | 0 => if str_eqb selector ".panel" then [1]
               else if str_eqb selector ".title" then [3; 2]
               else if str_eqb selector "li" then [4; 5; 6]
               else if str_eqb selector "li.item-2" then [5]
               else []
        | 1 => if str_eqb selector ".title" then [2] else []
        | _ => []
        end).

Definition toyText (node : nat) : string :=
  match node with
  | 4 => "Apple"
  | 5 => "Banana"
  | 6 => "Cabbage"
  | _ => ""
  end.

Definition toyDoc : Document nat :=
  {| querySelectorAll := toyQuery;
     shadowRoot := fun _ => None;
     textContent := toyText;
     title := fun _ => "";
     property := fun _ _ => None;
     getAttribute := fun _ _ => None |}.

Definition noPageObjects (_ : TypeVal) : option Parsed := None.

Definition containsA : FilterInfo :=
  {| fi_apply := Some (ApplyName "getText"); fi_matcherType := "stringContains";
     fi_args := [mkArgValue "text" (Some "a")]; fi_findFirst := true;
     fi_attribute := ""; fi_additionalElements := [] |}.

Definition unbound : FilterInfo :=
  {| fi_apply := Some (ApplyName "getText"); fi_matcherType := "stringContains";
     fi_args := []; fi_findFirst := true;
     fi_attribute := ""; fi_additionalElements := [] |}.

(** The panel has no selector arguments; the title lies inside it. *)
Definition plainDesc (name cssText : string) (parent : option string) : ElementDesc :=
  {| ed_name := name; ed_displayName := getElementGetterMethodName name;
     ed_description := None; ed_effectiveArgs := []; ed_type := None;
     ed_category := DataTypes.BASIC; ed_selector := basicSelector cssText;
     ed_returnsList := false; ed_filter := None; ed_parent := parent;
     ed_public := true; ed_isInShadowRoot := false |}.

Definition panelDesc : ElementDesc := plainDesc "panel" ".panel" None.
Definition titleDesc : ElementDesc := plainDesc "title" ".title" (Some "panel").
Definition panelElements : gmap string ElementDesc :=
  {[ "panel" := panelDesc; "title" := titleDesc ]}.

(** An item of the list, selected by its number. *)
Definition itemDesc : ElementDesc :=
  {| ed_name := "item"; ed_displayName := "getItem"; ed_description := None;
     ed_effectiveArgs := [mkArg "number" "number"]; ed_type := None;
     ed_category := DataTypes.BASIC;
     ed_selector := {| css := Some "li.item-%d";
                       sel_args := Some [mkArg "number" "number"];
                       returnAll := false |};
     ed_returnsList := false; ed_filter := None; ed_parent := None;
     ed_public := true; ed_isInShadowRoot := false |}.

Definition pickItem : MethodDesc :=
  {| md_displayName := "pickItem"; md_name := "pickItem"; md_description := None;
     md_effectiveArgs := 0; md_category := DataTypes.METHOD; md_type := TStr "basic";
     md_public := true; md_lastStepApply := ApplyNone;
     md_elements := [Elem itemDesc] |}.

Definition callerArgs : WStore := [[mkArgValue "number" (Some "2")]].

(** A page object in which an element carries the name of the element
    two levels above it. *)
Definition innerDef : ElementDef := basicElement "outer" ".again" None.

Definition middleDef : ElementDef :=
  {| e_name := "middle"; e_type := None; e_selector := Some (basicSelector ".middle");
     e_filter := None; e_public := true; e_description := None;
     e_elements := Some [innerDef]; e_shadow := None |}.

Definition outerDef : ElementDef :=
  {| e_name := "outer"; e_type := None; e_selector := Some (basicSelector ".outer");
     e_filter := None; e_public := true; e_description := None;
     e_elements := Some [middleDef]; e_shadow := None |}.

Definition nestedPage : PageObject aref := pageOf None [outerDef] [].

(** The item without its number, and an element whose selector holds a
    percent sign that is no marker. *)
Definition halfWidth : ElementDesc :=
  {| ed_name := "half"; ed_displayName := "getHalf"; ed_description := None;
     ed_effectiveArgs := []; ed_type := None; ed_category := DataTypes.BASIC;
     ed_selector := {| css := Some "[style*='width: 50%']";
                       sel_args := None; returnAll := false |};
     ed_returnsList := false; ed_filter := None; ed_parent := None;
     ed_public := true; ed_isInShadowRoot := false |}.

(** A form with a field and a method that fills it. *)
Definition formJson : PageObject (list Arg) :=
  {| po_source := "form"; po_root := false; po_selector := Some (basicSelector "form");
     po_description := None; po_elements := Some [fieldDef]; po_shadow := None;
     po_methods :=
       Some [ {| m_name := "fill"; m_args := Some [mkArg "value" "string"];
                 m_returnType := None; m_return := None; m_description := None;
                 m_compose := Some [stepOf (Some "field") (Some "setText") false] |} ] |}.

Definition formArtifacts : Artifacts := [("forms.jar", [("app/form", formJson)])].

(** A page object whose method waits until the field is present. *)
Definition waitingJson : PageObject (list Arg) :=
  {| po_source := "waiting"; po_root := false; po_selector := Some (basicSelector "form");
     po_description := None; po_elements := Some [fieldDef]; po_shadow := None;
     po_methods :=
       Some [ {| m_name := "awaitField"; m_args := None;
                 m_returnType := None; m_return := None; m_description := None;
                 m_compose :=
                   Some [ {| s_element := None; s_apply := Some "waitFor";
                             s_applyExternal := None; s_chain := false;
                             s_returnType := None;
                             s_args :=
                               Some [ {| sa_type := None; sa_value := None;
                                         sa_predicate :=
                                           Some [stepOf (Some "field") (Some "isPresent")
                                                        false] |} ] |} ] |} ] |}.

Definition waitingArtifacts : Artifacts := [("waiting.jar", [("app/waiting", waitingJson)])].

(** A root page object the content script reports, checked against the
    document. *)
Definition panelJson : PageObject (list Arg) :=
  {| po_source := "panel"; po_root := true; po_selector := Some (basicSelector ".panel");
     po_description := None; po_elements := Some [basicElement "title" ".title" None];
     po_shadow := None; po_methods := None |}.

Definition panelArtifacts : Artifacts :=
  [("ui.jar", [("app/pageObjects/panel", panelJson)])].

(** Three artifacts that define the same URI. *)
Definition threeArtifacts : list (string * list (string * nat)) :=
  [ ("a.jar", [("app/home", 1); ("app/menu", 1)]);
    ("b.jar", [("app/home", 2)]);
    ("c.jar", [("app/home", 3)]) ].

(** Two methods of one name: the first reads the text of the button, the
    second declares that it returns a number. *)
Definition readTwice : Method aref :=
  methodOf "m" None [stepOf (Some "btn") (Some "getText") false].

Definition countTwice : Method aref :=
  {| m_name := "m"; m_args := None; m_returnType := Some (TStr "number");
     m_return := None; m_description := None; m_compose := None |}.

Definition twicePage : PageObject aref := pageOf None [btnDef] [readTwice; countTwice].

Definition twiceSet : PageObjects := [("app/twice", twicePage)].

(** The items of the list, all of them, filtered by their text. *)
Definition itemsDesc (filter : Filter) : ElementDesc :=
  {| ed_name := "items"; ed_displayName := "getItems"; ed_description := None;
     ed_effectiveArgs := [mkArg "text" "string"]; ed_type := None;
     ed_category := DataTypes.BASIC;
     ed_selector := {| css := Some "li"; sel_args := None; returnAll := true |};
     ed_returnsList := true; ed_filter := Some filter; ed_parent := None;
     ed_public := true; ed_isInShadowRoot := false |}.

Definition byText : Filter :=
  {| f_apply := Some "getText";
     f_matcher := Some {| matcher_type := "stringContains";
                          matcher_args := Some [mkArg "text" "string"] |};
     findFirst := true |}.

Definition matcherless : Filter :=
  {| f_apply := Some "getText"; f_matcher := None; findFirst := true |}.

(** The caller names the argument of the matcher and gives it no value. *)
Definition noValue : WStore := [[mkArgValue "text" None]].

(** The item again, declared inside the panel, whose selector has no
    arguments. *)
Definition nestedItem : ElementDesc :=
  {| ed_name := "item"; ed_displayName := "getItem"; ed_description := None;
     ed_effectiveArgs := [mkArg "number" "number"]; ed_type := None;
     ed_category := DataTypes.BASIC;
     ed_selector := {| css := Some "li.item-%d";
                       sel_args := Some [mkArg "number" "number"];
                       returnAll := false |};
     ed_returnsList := false; ed_filter := None; ed_parent := Some "panel";
     ed_public := true; ed_isInShadowRoot := false |}.

Definition nestedItems : gmap string ElementDesc :=
  {[ "panel" := panelDesc; "item" := nestedItem ]}.

(** A leaf inside the item, whose selector has an argument. *)
Definition leafDesc : ElementDesc :=
  {| ed_name := "leaf"; ed_displayName := "getLeaf"; ed_description := None;
     ed_effectiveArgs := [mkArg "number" "number"; mkArg "suffix" "string"];
     ed_type := None; ed_category := DataTypes.BASIC;
     ed_selector := {| css := Some ".leaf-%s";
                       sel_args := Some [mkArg "suffix" "string"];
                       returnAll := false |};
     ed_returnsList := false; ed_filter := None; ed_parent := Some "item";
     ed_public := true; ed_isInShadowRoot := false |}.

Definition leafItems : gmap string ElementDesc :=
  {[ "item" := itemDesc; "leaf" := leafDesc ]}.

Definition twoArgs : WStore :=
  [[mkArgValue "number" (Some "2"); mkArgValue "suffix" (Some "a")]].

(** Three roots whose order by code units is not their order by code
    points: the second URI ends in U+1F600, the third in U+FF61. *)
Definition farRoots : Artifacts :=
  [ ("far.jar", [("p/｡", rootJson); ("p/😀", rootJson); ("p/z", rootJson)]) ].

(** A dashboard whose method chains into the card it shows, and a method
    that waits for the card. *)
Definition cardJson : PageObject (list Arg) :=
  {| po_source := "card"; po_root := false; po_selector := Some (basicSelector ".card");
     po_description := None; po_elements := Some [basicElement "title" ".title" None];
     po_shadow := None; po_methods := None |}.

Definition boardJson : PageObject (list Arg) :=
  {| po_source := "board"; po_root := true; po_selector := Some (basicSelector ".board");
     po_description := None;
     po_elements := Some [basicElement "card" ".card" (Some (TStr "app/card"))];
     po_shadow := None;
     po_methods :=
       Some [ {| m_name := "cardTitle"; m_args := None; m_returnType := None;
                 m_return := None; m_description := None;
                 m_compose := Some [ stepOf (Some "card") None false;
                                     stepOf (Some "title") (Some "getText") true ] |};
              {| m_name := "titleTwice"; m_args := None; m_returnType := None;
                 m_return := None; m_description := None;
                 m_compose := Some [ stepOf None (Some "cardTitle") false ] |} ] |}.

Definition boardArtifacts : Artifacts :=
  [ ("board.jar", [("app/board", boardJson); ("app/card", cardJson)]);
    ("waiting.jar", [("app/waiting", waitingJson)]) ].

Definition boardRank (key : string) : nat :=
  if str_eqb key "app/board" then 1 else 0.

Definition boardMethodRank (key name : string) : nat :=
  if str_eqb name "titleTwice" then 1 else 0.

(** The two methods that apply each other, as an artifact. *)
Definition cycleJson : PageObject (list Arg) :=
  {| po_source := ""; po_root := false; po_selector := None; po_description := None;
     po_elements := Some []; po_shadow := None;
     po_methods :=
       Some [ {| m_name := "A"; m_args := None; m_returnType := None; m_return := None;
                 m_description := None;
                 m_compose := Some [stepOf None (Some "B") false] |};
              {| m_name := "B"; m_args := None; m_returnType := None; m_return := None;
                 m_description := None;
                 m_compose := Some [stepOf None (Some "A") false] |} ] |}.

Definition cycleArtifacts : Artifacts := [("cycle.jar", [("app/cycle", cycleJson)])].

(** * Elements, and what resolution keeps of the parsed page objects *)

(** Induction over element definitions, through the two lists of children. *)
Section ElementDefInd.
Variable P : ElementDef -> Prop.
Hypothesis step : forall e,
  Forall P (default [] (e_elements e)) ->
  Forall P (default [] (e_shadow e)) -> P e.

Fixpoint ElementDef_nested_ind (e : ElementDef) : P e :=
  step e
    (match e_elements e as o return Forall P (default [] o) with
     | Some l =>
         (fix go (l : list ElementDef) : Forall P l :=
            match l with
            | [] => @List.Forall_nil _ P
            | x :: r => @List.Forall_cons _ P x r (ElementDef_nested_ind x) (go r)
            end) l
     | None => @List.Forall_nil _ P
     end)
    (match e_shadow e as o return Forall P (default [] o) with
     | Some l =>
         (fix go (l : list ElementDef) : Forall P l :=
            match l with
            | [] => @List.Forall_nil _ P
            | x :: r => @List.Forall_cons _ P x r (ElementDef_nested_ind x) (go r)
            end) l
     | None => @List.Forall_nil _ P
     end).
End ElementDefInd.

Section ElementProofs.
Variable allPageObjects : PageObjects.

Lemma processElementObject_effectiveArgs e parentName elementArgs sh :
  ed_effectiveArgs (processElementObject allPageObjects e parentName elementArgs sh)
  = elementArgs ++ ownArgs e.
Proof. unfold ownArgs. cbn. by rewrite app_assoc. Qed.

(** Where a descriptor of the element map comes from. *)
Definition Origin (parentName : option string) (parentArgs : list Arg)
    (forest : list (bool * ElementDef)) (name : string) (d : ElementDesc) : Prop :=
  exists path sh e,
    InForest forest path sh e /\ e_name e = name /\
    d = processElementObject allPageObjects e (parentOf parentName path)
          (parentArgs ++ flat_map ownArgs path) sh.

Lemma InForest_mono forest forest' path sh e :
  (forall x, In x forest -> In x forest') ->
  InForest forest path sh e -> InForest forest' path sh e.
Proof.
  intros Hsub H. destruct H.
  - constructor. auto.
  - econstructor; eauto.
Qed.

Lemma Origin_mono parentName parentArgs forest forest' name d :
  (forall x, In x forest -> In x forest') ->
  Origin parentName parentArgs forest name d ->
  Origin parentName parentArgs forest' name d.
Proof.
  intros Hsub (path & sh & e & Hin & Hn & Hd).
  exists path, sh, e. split; [|done]. eapply InForest_mono; eauto.
Qed.

Definition TreeOrigin (e : ElementDef) : Prop :=
  forall sh parentName parentArgs m name d,
    processElementTree allPageObjects sh parentName parentArgs e m !! name = Some d ->
    m !! name = Some d \/ Origin parentName parentArgs [(sh, e)] name d.

Lemma fold_origin sh parentName parentArgs l :
  Forall TreeOrigin l ->
  forall m name d,
    fold_left (fun acc child =>
                 processElementTree allPageObjects sh parentName parentArgs child acc)
              l m !! name = Some d ->
    m !! name = Some d \/ Origin parentName parentArgs (map (pair sh) l) name d.
Proof.
  induction 1 as [|x r Hx Hr IH]; intros m name d Hl; cbn in Hl.
  - by left.
  - apply IH in Hl as [Hl|Hl].
    + apply Hx in Hl as [Hl|Hl]; [by left|right].
      eapply Origin_mono; [|exact Hl]. cbn. intros y Hy. tauto.
    + right. eapply Origin_mono; [|exact Hl]. cbn. intros y Hy. tauto.
Qed.

Lemma parentOf_cons parentName a path :
  parentOf parentName (a :: path) = parentOf (Some (e_name a)) path.
Proof.
  unfold parentOf. destruct path as [|b path]; [done|].
  change (last (a :: b :: path)) with (last (b :: path)).
  assert (H : exists x, last (b :: path) = Some x).
  { clear. revert b. induction path as [|c path IH]; intros b; [by exists b|].
    change (last (b :: c :: path)) with (last (c :: path)). apply IH. }
  destruct H as [x ->]. done.
Qed.

Lemma Origin_child sh parentName parentArgs e forest name d :
  (forall x, In x forest -> In x (childrenOf e)) ->
  Origin (Some (e_name e)) (parentArgs ++ ownArgs e) forest name d ->
  Origin parentName parentArgs [(sh, e)] name d.
Proof.
  intros Hsub (path & sh' & e' & Hin & Hn & Hd).
  exists (e :: path), sh', e'. split; [|split; [done|]].
  - econstructor; [by left|]. eapply InForest_mono; eauto.
  - rewrite parentOf_cons. cbn [flat_map]. by rewrite app_assoc.
Qed.

Lemma processElementTree_origin e : TreeOrigin e.
Proof.
  induction e as [e IHe IHs] using ElementDef_nested_ind.
  intros sh parentName parentArgs m name d H.
  destruct e as [ename ety esel efil epub edesc eels eshadow].
  cbn [processElementTree e_elements e_shadow e_name] in H.
  set (e := mkElementDef ename ety esel efil epub edesc eels eshadow) in *.
  set (d0 := processElementObject allPageObjects e parentName parentArgs sh) in *.
  assert (Hargs : ed_effectiveArgs d0 = parentArgs ++ ownArgs e)
    by apply processElementObject_effectiveArgs.
  rewrite Hargs in H.
  assert (Hbase : forall name d, <[ename := d0]> m !! name = Some d ->
            m !! name = Some d \/ Origin parentName parentArgs [(sh, e)] name d).
  { intros n d'. rewrite lookup_insert. case_decide as Hn.
    - intros [= <-]. right. exists [], sh, e. split; [constructor; by left|].
      split; [by subst|]. cbn. by rewrite app_nil_r.
    - by left. }
  assert (Hels : forall name d,
            match eels with
            | Some children =>
                fold_left (fun acc child =>
                  processElementTree allPageObjects false (Some ename)
                    (parentArgs ++ ownArgs e) child acc) children (<[ename := d0]> m)
            | None => <[ename := d0]> m
            end !! name = Some d ->
            m !! name = Some d \/ Origin parentName parentArgs [(sh, e)] name d).
  { intros n d'. destruct eels as [children|]; [|apply Hbase].
    intros Hf. apply fold_origin in Hf as [Hf|Hf]; [by apply Hbase| |exact IHe].
    right. eapply (Origin_child sh parentName parentArgs e); [|exact Hf].
    intros x Hx. unfold childrenOf, tagged. cbn. apply in_or_app. by left. }
  destruct eshadow as [children|]; [|by apply Hels].
  apply fold_origin in H as [H|H]; [by apply Hels| |exact IHs].
  right. eapply (Origin_child sh parentName parentArgs e); [|exact H].
  intros x Hx. unfold childrenOf, tagged. cbn. apply in_or_app. by right.
Qed.

Lemma processElementList_origin sh parentName parentArgs l m name d :
  processElementList allPageObjects sh parentName parentArgs l m !! name = Some d ->
  m !! name = Some d \/ Origin parentName parentArgs (tagged sh l) name d.
Proof.
  destruct l as [l|]; cbn; [|by left].
  intros H. apply fold_origin in H; [done|].
  apply Forall_forall. intros x _. apply processElementTree_origin.
Qed.

Lemma processElements_origin els shadow parentName parentArgs m name d :
  processElements allPageObjects els shadow parentName parentArgs m !! name = Some d ->
  m !! name = Some d \/
  Origin parentName parentArgs (tagged false els ++ tagged true shadow) name d.
Proof.
  unfold processElements. intros H.
  apply processElementList_origin in H as [H|H].
  - apply processElementList_origin in H as [H|H]; [by left|right].
    eapply Origin_mono; [|exact H]. intros x Hx. apply in_or_app. by left.
  - right. eapply Origin_mono; [|exact H]. intros x Hx. apply in_or_app. by right.
Qed.
End ElementProofs.

Section Steps.
Context {S : Type}.
Variable R : S -> S -> Prop.
Hypothesis R_refl : forall st, R st st.
Hypothesis R_trans : forall a b c, R a b -> R b c -> R a c.

Lemma steps_ret {A} (a : A) : steps R (ret a).
Proof. intros st a' st' [= <- <-]. apply R_refl. Qed.

Lemma steps_throw {A} e : steps R (@throw S A e).
Proof. intros st a st' [=]. Qed.

Lemma steps_outOfFuel {A} : steps R (@outOfFuel S A).
Proof. intros st a st' [=]. Qed.

Lemma steps_bind {A B} (m : ST S A) (k : A -> ST S B) :
  steps R m -> (forall a, steps R (k a)) -> steps R (bind m k).
Proof.
  intros Hm Hk st b st'. unfold bind.
  destruct (m st) as [a st1| |] eqn:E; [|done..].
  intros H. eapply R_trans; [eapply Hm|eapply Hk]; eauto.
Qed.

Lemma steps_forEachM {A} (body : A -> ST S unit) l :
  (forall x, In x l -> steps R (body x)) -> steps R (forEachM body l).
Proof.
  induction l as [|x l IH]; intros H; cbn.
  - apply steps_ret.
  - apply steps_bind; [apply H; by left|]. intros _. apply IH.
    intros y Hy. apply H. by right.
Qed.

Lemma steps_foldM {A B} (body : B -> A -> ST S B) l acc :
  (forall b x, In x l -> steps R (body b x)) -> steps R (foldM body l acc).
Proof.
  revert acc. induction l as [|x l IH]; intros acc H; cbn.
  - apply steps_ret.
  - apply steps_bind; [apply H; by left|]. intros b. apply IH.
    intros b' y Hy. apply H. by right.
Qed.
End Steps.

(** The resolver moves the state along any preorder its primitives respect. *)
Section ResolverSteps.
Variable R : State -> State -> Prop.
Hypothesis R_refl : forall st, R st st.
Hypothesis R_trans : forall a b c, R a b -> R b c -> R a c.
Hypothesis R_allocParsed : forall parsed, steps R (allocParsed parsed).
Hypothesis R_setMethod : forall p name d, steps R (setMethod p name d).
Hypothesis R_allocArray : forall l, steps R (allocArray l).
Hypothesis R_pushArray : forall r l, steps R (pushArray r l).
Hypothesis R_cachePut : forall key p, steps R (cachePut key p).
Hypothesis R_consoleLog : forall line, steps R (consoleLog line).

Variable allPageObjects : PageObjects.

Lemma steps_readParsed p : steps R (readParsed p).
Proof.
  intros st a st'. unfold readParsed. destruct (st_heap st !! p); [|done].
  intros [= <- <-]. apply R_refl.
Qed.

Ltac step_tac :=
  repeat first
    [ apply steps_ret; assumption
    | apply steps_throw
    | apply steps_outOfFuel
    | apply steps_readParsed
    | apply R_allocParsed | apply R_setMethod | apply R_allocArray
    | apply R_pushArray | apply R_cachePut | apply R_consoleLog
    | apply steps_bind; [assumption | | intros ? ]
    | match goal with
      | |- steps _ (match ?x with _ => _ end) => destruct x
      | |- steps _ (if ?x then _ else _) => destruct x
      end ].

Section Bodies.
Variable recM : PageObject aref -> Method aref -> pref -> M MethodDesc.
Variable recP : TypeVal -> M pref.
Hypothesis recM_steps : forall po m p, steps R (recM po m p).
Hypothesis recP_steps : forall uri, steps R (recP uri).

Lemma steps_processStep po step p :
  steps R (processStep recM po step p).
Proof. unfold processStep. step_tac; try apply recM_steps. Qed.

Lemma steps_runStep m po p locals step :
  steps R (runStep recM m po p locals step).
Proof. unfold runStep. step_tac. apply steps_processStep. Qed.

Lemma steps_methodStepBody po m p locals step :
  steps R (methodStepBody allPageObjects recM recP po m p locals step).
Proof.
  unfold methodStepBody. step_tac;
    try apply recP_steps; try apply steps_runStep; try apply steps_processStep.
Qed.

Lemma steps_pushReferencedArgs args els :
  steps R (pushReferencedArgs args els).
Proof.
  unfold pushReferencedArgs. apply steps_forEachM; [assumption..|].
  intros x _. step_tac.
Qed.

Lemma steps_processMethodBody po m p :
  steps R (processMethodBody allPageObjects recM recP po m p).
Proof.
  unfold processMethodBody. step_tac;
    first [ apply steps_pushReferencedArgs
          | apply steps_foldM; [assumption..|]; intros; apply steps_methodStepBody ].
Qed.

Lemma steps_processMethods po p :
  steps R (processMethods recM po p).
Proof.
  unfold processMethods. destruct (po_methods po); [|by apply steps_ret].
  apply steps_forEachM; [assumption..|]. intros x _. step_tac. apply recM_steps.
Qed.

Lemma steps_parsePageObjectBody uri :
  steps R (parsePageObjectBody allPageObjects recM uri).
Proof. unfold parsePageObjectBody. step_tac. apply steps_processMethods. Qed.
End Bodies.

Lemma steps_resolver fuel :
  (forall po m p, steps R (processMethod fuel allPageObjects po m p)) /\
  (forall uri, steps R (parsePageObject fuel allPageObjects uri)).
Proof.
  induction fuel as [|fuel [IHm IHp]].
  - split; intros; apply steps_outOfFuel.
  - split; intros; cbn.
    + by apply steps_processMethodBody.
    + by apply steps_parsePageObjectBody.
Qed.
End ResolverSteps.

Lemma sameStatic_refl a : sameStatic a a.
Proof. by repeat split. Qed.

Lemma sameStatic_trans a b c : sameStatic a b -> sameStatic b c -> sameStatic a c.
Proof.
  intros (?&?&?&?&?) (?&?&?&?&?). repeat split; etrans; eauto.
Qed.

Lemma heapGrows_refl st : heapGrows st st.
Proof. intros p parsed H. exists parsed. split; [done|apply sameStatic_refl]. Qed.

Lemma heapGrows_trans a b c : heapGrows a b -> heapGrows b c -> heapGrows a c.
Proof.
  intros Hab Hbc p parsed H.
  destruct (Hab _ _ H) as (parsed1 & H1 & S1).
  destruct (Hbc _ _ H1) as (parsed2 & H2 & S2).
  exists parsed2. split; [done|]. eapply sameStatic_trans; eauto.
Qed.

Lemma heapGrows_same_heap st st' :
  st_heap st' = st_heap st -> heapGrows st st'.
Proof. intros E p parsed H. rewrite E. exists parsed. split; [done|apply sameStatic_refl]. Qed.

Lemma heapGrows_allocParsed parsed : steps heapGrows (allocParsed parsed).
Proof.
  intros st a st' [= <- <-]. intros p x H. exists x.
  split; [|apply sameStatic_refl]. cbn. by apply lookup_app_l_Some.
Qed.

Lemma heapGrows_setMethod p name d : steps heapGrows (setMethod p name d).
Proof.
  intros st a st'. unfold setMethod.
  destruct (st_heap st !! p) as [parsed|] eqn:E; [|done].
  intros [= <- <-]. intros q x H. cbn.
  destruct (decide (p = q)) as [->|Hne].
  - rewrite list_lookup_insert_eq; [|by eapply lookup_lt_Some].
    eexists. split; [done|].
    assert (Some parsed = Some x) as [= <-] by (rewrite <- E; exact H).
    by repeat split.
  - rewrite list_lookup_insert_ne; [|done]. exists x. split; [done|apply sameStatic_refl].
Qed.

Lemma heapGrows_allocArray l : steps heapGrows (allocArray l).
Proof. intros st a st' [= <- <-]. by apply heapGrows_same_heap. Qed.

Lemma heapGrows_pushArray r l : steps heapGrows (pushArray r l).
Proof.
  intros st a st'. unfold pushArray. destruct (st_arrays st !! r); [|done].
  intros [= <- <-]. by apply heapGrows_same_heap.
Qed.

Lemma heapGrows_cachePut key p : steps heapGrows (cachePut key p).
Proof. intros st a st' [= <- <-]. by apply heapGrows_same_heap. Qed.

Lemma heapGrows_consoleLog line : steps heapGrows (consoleLog line).
Proof. intros st a st' [= <- <-]. by apply heapGrows_same_heap. Qed.

Lemma heapGrows_resolver allPageObjects fuel :
  (forall po m p, steps heapGrows (processMethod fuel allPageObjects po m p)) /\
  (forall uri, steps heapGrows (parsePageObject fuel allPageObjects uri)).
Proof.
  apply steps_resolver.
  - apply heapGrows_refl.
  - apply heapGrows_trans.
  - apply heapGrows_allocParsed.
  - apply heapGrows_setMethod.
  - apply heapGrows_allocArray.
  - apply heapGrows_pushArray.
  - apply heapGrows_cachePut.
  - apply heapGrows_consoleLog.
Qed.

Lemma steps_processMethods_heapGrows allPageObjects fuel po p :
  steps heapGrows (processMethods (processMethod fuel allPageObjects) po p).
Proof.
  apply steps_processMethods.
  - apply heapGrows_refl.
  - apply heapGrows_trans.
  - apply heapGrows_setMethod.
  - apply heapGrows_resolver.
Qed.

(** A parse creates a new object, fills its element map from the
    definition alone, and leaves it in the cache under the URI's key. *)
Lemma parsePageObject_result allPageObjects fuel uri st p st' :
  parsePageObject fuel allPageObjects uri st = Done p st' ->
  exists pageObject parsed,
    obj_get (to_key uri) allPageObjects = Some pageObject /\
    p = length (st_heap st) /\
    st_heap st' !! p = Some parsed /\
    st_cache st' !! to_key uri = Some p /\
    p_uri parsed = uri /\
    p_elements parsed = parsedElements allPageObjects uri pageObject.
Proof.
  destruct fuel as [|fuel]; [done|]. cbn. unfold parsePageObjectBody.
  destruct (obj_get (to_key uri) allPageObjects) as [po|]; [|done].
  unfold bind at 1. cbn.
  set (parsed0 := {| p_uri := uri |}).
  set (st1 := {| st_heap := st_heap st ++ [parsed0] |}).
  unfold bind at 1.
  destruct (processMethods _ po (length (st_heap st)) st1) as [[] st2| |] eqn:E; [|done..].
  cbn. intros [= <- <-]. exists po.
  apply steps_processMethods_heapGrows in E.
  destruct (E (length (st_heap st)) parsed0) as (parsed' & H' & S').
  { subst st1. cbn. by rewrite lookup_app_r, Nat.sub_diag. }
  exists parsed'. cbn. split; [done|]. split; [done|]. split; [done|].
  split; [apply lookup_insert_eq|].
  destruct S' as (<- & _ & _ & _ & <-). done.
Qed.

(** C3, counterexample: the cell below a filtered row also receives the
    row's filter argument. *)
Lemma C3_counterexample :
  InForest (forestOf tablePage) [rowDef] false labelDef /\
  exists d,
    parsedElements tableSet (TStr "app/table") tablePage !! "label" = Some d /\
    ed_effectiveArgs d =
      [mkArg "index" "number"; mkArg "text" "string"; mkArg "suffix" "string"] /\
    specEffectiveArgs [rowDef] labelDef =
      [mkArg "index" "number"; mkArg "suffix" "string"] /\
    ed_effectiveArgs d <> specEffectiveArgs [rowDef] labelDef.
Proof.
  split.
  - apply InForest_below with (sh0 := false); [by left|].
    apply InForest_here. by left.
  - eexists. split; [vm_compute; reflexivity|]. repeat split. discriminate.
Qed.

(** C3 (amended): every element of the element map is the root element or
    stems from an occurrence in the element tree, and its effective
    arguments are the own arguments (selector arguments, then the filter
    matcher's arguments of a return-all selector) of its ancestors, outermost
    first, followed by its own; the map depends on the definition alone, so
    every resolution yields the same. *)
Theorem C3_effectiveArgs_root_to_leaf allPageObjects uri pageObject :
  obj_get (to_key uri) allPageObjects = Some pageObject ->
  (forall name d,
     parsedElements allPageObjects uri pageObject !! name = Some d ->
     (exists selector,
        po_selector pageObject = Some selector /\ name = DataTypes.ROOT /\
        ed_effectiveArgs d = ownArgs (rootElement uri selector))
     \/
     (exists path sh e,
        InForest (forestOf pageObject) path sh e /\
        e_name e = name /\ ed_name d = name /\
        ed_parent d = parentOf None path /\
        ed_effectiveArgs d = flat_map ownArgs path ++ ownArgs e)) /\
  (forall fuel st p st',
     parsePageObject fuel allPageObjects uri st = Done p st' ->
     exists parsed,
       st_heap st' !! p = Some parsed /\
       p_elements parsed = parsedElements allPageObjects uri pageObject).
Proof.
  intros Hget. split.
  - intros name d H. unfold parsedElements in H.
    apply processElements_origin in H as [H|H].
    + left. destruct (po_selector pageObject) as [selector|]; [|by rewrite lookup_empty in H].
      exists selector. rewrite lookup_insert in H. case_decide as Hn; [|by rewrite lookup_empty in H].
      injection H as <-. split; [done|]. split; [done|].
      by rewrite processElementObject_effectiveArgs.
    + right. destruct H as (path & sh & e & Hin & Hn & ->).
      exists path, sh, e. split; [done|]. split; [done|]. split; [done|]. split; [done|].
      by rewrite processElementObject_effectiveArgs.
  - intros fuel st p st' H.
    apply parsePageObject_result in H as (po & parsed & Hg & _ & Hh & _ & _ & He).
    exists parsed. split; [done|]. rewrite He. congruence.
Qed.

Lemma C3_effectiveArgs_root_to_leaf_witness :
  obj_get (to_key (TStr "app/table")) tableSet = Some tablePage /\
  (exists path sh e,
     InForest (forestOf tablePage) path sh e /\ e_name e = "label" /\
     flat_map ownArgs path ++ ownArgs e =
       [mkArg "index" "number"; mkArg "text" "string"; mkArg "suffix" "string"]) /\
  (exists parsed,
     st_heap (mkState [mkParsed (TStr "app/table") "" None None
                         (parsedElements tableSet (TStr "app/table") tablePage) ∅]
                      [] {["app/table" := 0]} [] []) !! 0 = Some parsed /\
     p_elements parsed = parsedElements tableSet (TStr "app/table") tablePage).
Proof.
  pose proof (C3_effectiveArgs_root_to_leaf tableSet (TStr "app/table") tablePage
                eq_refl) as [Hargs Hstable].
  split; [reflexivity|]. split.
  - destruct (Hargs "label" (processElementObject tableSet labelDef (Some "row")
                 [mkArg "index" "number"; mkArg "text" "string"] false))
      as [(selector & _ & Hn & _)|(path & sh & e & Hin & Hn & _ & _ & Hd)].
    + vm_compute. reflexivity.
    + discriminate Hn.
    + exists path, sh, e. split; [done|]. split; [done|]. rewrite <- Hd. reflexivity.
  - apply (Hstable 2 emptyState 0). vm_compute. reflexivity.
Defined.

(** C8 (amended): a method that declares a non-empty [returnType] and whose
    name is not in the method map yet is resolved without walking any step:
    whatever its [compose] holds, the descriptor has the declared type, no
    referenced element and the declared arguments, and neither the parsed
    page objects nor the cache nor the log change.  When the name is in the
    method map already, [#processMethod] answers with the stored descriptor
    and changes nothing, whatever the method declares. *)
Theorem C8_explicit_returnType_skips_steps allPageObjects fuel pageObject method
    parsedPageObject parsed returnType st :
  m_returnType method = Some returnType ->
  type_length returnType <> 0 ->
  st_heap st !! parsedPageObject = Some parsed ->
  (p_methods parsed !! m_name method = None ->
   exists d st',
     (forall compose,
        processMethod (S fuel) allPageObjects pageObject (setCompose method compose)
                      parsedPageObject st = Done d st') /\
     md_name d = m_name method /\
     md_type d = returnType /\
     md_elements d = [] /\
     arrayOf st' (md_effectiveArgs d) = declaredArgs st method /\
     (forall r, m_args method = Some r -> md_effectiveArgs d = r) /\
     (forall r, r < length (st_arrays st) -> st_arrays st' !! r = st_arrays st !! r) /\
     st_heap st' = st_heap st /\ st_cache st' = st_cache st /\ st_log st' = st_log st) /\
  (forall stored,
     p_methods parsed !! m_name method = Some stored ->
     forall compose,
       processMethod (S fuel) allPageObjects pageObject (setCompose method compose)
                     parsedPageObject st = Done stored st).
Proof.
  intros Hrt Hlen Hheap. split.
  - intros Hmiss.
    assert (Hty : type_or (Some returnType) (TStr "") = returnType).
    { cbn. destruct returnType as [s|l]; cbn in *; [|done].
      destruct s; [done|]. done. }
    assert (Hnz : Nat.eqb (type_length returnType) 0 = false) by by apply Nat.eqb_neq.
    destruct (m_args method) as [r|] eqn:Ea.
    + exists (newMethodDesc method r returnType ApplyNone []), st.
      split; [|repeat split; cbn; try done].
      * intros compose. cbn. unfold processMethodBody, bind, readParsed. cbn.
        rewrite Hheap, Hmiss, Ea, Hrt, Hty, Hnz. reflexivity.
      * unfold declaredArgs. by rewrite Ea.
      * by intros r' [= ->].
    + exists (newMethodDesc method (length (st_arrays st)) returnType ApplyNone []).
      exists {| st_heap := st_heap st; st_arrays := st_arrays st ++ [[]];
                st_cache := st_cache st; rootPageObjectUris := rootPageObjectUris st;
                st_log := st_log st |}.
      split; [|repeat split].
      * intros compose. cbn. unfold processMethodBody, bind, readParsed. cbn.
        rewrite Hheap, Hmiss, Ea, Hrt, Hty, Hnz. reflexivity.
      * cbn. unfold declaredArgs, arrayOf. rewrite Ea. cbn.
        by rewrite lookup_app_r, Nat.sub_diag.
      * intros r [=].
      * intros r Hr. cbn. by rewrite lookup_app_l.
  - intros stored Hstored compose. cbn. unfold processMethodBody, bind, readParsed. cbn.
    by rewrite Hheap, Hstored.
Qed.

(** C8, counterexample: the second method declares the return type
    [number], and the descriptor resolution gives it is the one of the first
    method, of type [string] and with the button as referenced element. *)
Lemma C8_counterexample :
  exists p st' parsed d btn,
    m_returnType countTwice = Some (TStr "number") /\
    parsePageObject 3 twiceSet (TStr "app/twice") emptyState = Done p st' /\
    st_heap st' !! p = Some parsed /\
    p_methods parsed !! "m" = Some d /\
    processMethod 1 twiceSet twicePage countTwice p st' = Done d st' /\
    md_type d = TStr "string" /\
    md_elements d = [Elem btn] /\ ed_name btn = "btn".
Proof.
  eexists _, _, _, _, _. split; [reflexivity|].
  split; [vm_compute; reflexivity|]. split; [reflexivity|].
  split; [vm_compute; reflexivity|]. split; [vm_compute; reflexivity|].
  split; [reflexivity|]. split; reflexivity.
Qed.

Lemma C8_explicit_returnType_skips_steps_witness :
  (exists d st',
     processMethod 1 [] (pageOf None [btnDef] [declaredMethod]) declaredMethod 0
       (oneObjectState "app/home" [[mkArg "which" "number"]]) = Done d st' /\
     md_type d = TStr "string" /\ md_elements d = [] /\
     arrayOf st' (md_effectiveArgs d) = [mkArg "which" "number"]) /\
  (exists p st' parsed stored,
     parsePageObject 3 twiceSet (TStr "app/twice") emptyState = Done p st' /\
     st_heap st' !! p = Some parsed /\
     p_methods parsed !! "m" = Some stored /\
     processMethod 1 twiceSet twicePage countTwice p st' = Done stored st').
Proof.
  split.
  - destruct (C8_explicit_returnType_skips_steps [] 0
                (pageOf None [btnDef] [declaredMethod]) declaredMethod 0
                (emptyParsed "app/home") (TStr "string")
                (oneObjectState "app/home" [[mkArg "which" "number"]]))
      as (Hfresh & _).
    + reflexivity.
    + cbn. lia.
    + reflexivity.
    + destruct (Hfresh eq_refl) as (d & st' & Hrun & _ & Hty & Hel & Hargs & _).
      exists d, st'. split; [exact (Hrun (m_compose declaredMethod))|]. by repeat split.
  - destruct (parsePageObject 3 twiceSet (TStr "app/twice") emptyState)
      as [p st'| |] eqn:E; [|vm_compute in E; discriminate E..].
    destruct (st_heap st' !! p) as [parsed|] eqn:Eh;
      [|vm_compute in E; injection E as <- <-; vm_compute in Eh; discriminate Eh].
    destruct (p_methods parsed !! "m") as [stored|] eqn:Em;
      [|vm_compute in E; injection E as <- <-; vm_compute in Eh; injection Eh as <-;
        vm_compute in Em; discriminate Em].
    exists p, st', parsed, stored. split; [done|]. split; [done|]. split; [done|].
    exact (proj2 (C8_explicit_returnType_skips_steps twiceSet 0 twicePage countTwice p
                    parsed (TStr "number") st' eq_refl ltac:(cbn; lia) Eh)
             stored Em (m_compose countTwice)).
Defined.

(** C5, at the failing input: the chain step to the unknown page object is
    logged and skipped, and the step after it is still processed: the method
    ends with the type of that last step and with its element. *)
Theorem C5_chain_to_unknown_uri_continues :
  exists st' d,
    parsePageObject 3 homeSet (TStr "app/home") emptyState = Done 0 st' /\
    methodsOf st' 0 = [("open", d)] /\
    md_type d = TStr "string" /\
    map eo_name (md_elements d) = [Some "link"; Some "btn"] /\
    md_lastStepApply d = ApplyName "getText" /\
    st_log st' =
      ["Aborting processing of method open in app/home; method has a step that refers to app/missing which does not exist."].
Proof. do 2 eexists. vm_compute. repeat split. Qed.

(** C4, counterexample: after a step that returned a string, a chain step
    is not run against the current page object: it is skipped, the previous
    type stays, and a line is logged. *)
Lemma C4_counterexample :
  let step := stepOf (Some "btn") (Some "click") true in
  (exists st',
     methodStepBody homeSet (processMethod 2 homeSet) (parsePageObject 2 homeSet)
       homePage openMethod 0 afterGetText step homeState = Done afterGetText st' /\
     st_log st' <> []) /\
  (exists locals',
     specMethodStepBody homeSet (processMethod 2 homeSet) (parsePageObject 2 homeSet)
       homePage openMethod 0 afterGetText step homeState = Done locals' homeState /\
     lastStepReturnType locals' = TStr "void") /\
  methodStepBody homeSet (processMethod 2 homeSet) (parsePageObject 2 homeSet)
    homePage openMethod 0 afterGetText step homeState
  <> specMethodStepBody homeSet (processMethod 2 homeSet) (parsePageObject 2 homeSet)
       homePage openMethod 0 afterGetText step homeState.
Proof.
  cbv zeta. split; [|split].
  - eexists. split; [vm_compute; reflexivity|]. discriminate.
  - eexists. split; [vm_compute; reflexivity|]. reflexivity.
  - vm_compute. discriminate.
Qed.

(** C4 (amended): a chain step whose predecessor returned a type that is a
    key of the definition set has that page object parsed and is run
    against it and its newly parsed representation, so that the step's
    element and method lookups read the maps of the target; a chain step
    whose predecessor returned the empty string, and every step that is no
    chain step, is run against the method's own page object. *)
Theorem C4_chain_pivot allPageObjects fuel pageObject method parsedPageObject
    locals methodStep :
  let recM := processMethod fuel allPageObjects in
  let recP := parsePageObject fuel allPageObjects in
  let body := methodStepBody allPageObjects recM recP pageObject method parsedPageObject in
  (forall target st,
     s_chain methodStep = true ->
     lastStepReturnType locals <> TStr "" ->
     obj_get (to_key (lastStepReturnType locals)) allPageObjects = Some target ->
     (forall p' st1,
        recP (lastStepReturnType locals) st = Done p' st1 ->
        body locals methodStep st = runStep recM method target p' locals methodStep st1 /\
        exists parsedTarget,
          st_heap st1 !! p' = Some parsedTarget /\
          p_uri parsedTarget = lastStepReturnType locals /\
          p_elements parsedTarget =
            parsedElements allPageObjects (lastStepReturnType locals) target) /\
     (recP (lastStepReturnType locals) st = OutOfFuel ->
      body locals methodStep st = OutOfFuel) /\
     (forall e, recP (lastStepReturnType locals) st = Throw e ->
      body locals methodStep st = Throw e)) /\
  (s_chain methodStep = true -> lastStepReturnType locals = TStr "" ->
   body locals methodStep = runStep recM method pageObject parsedPageObject locals methodStep) /\
  (s_chain methodStep = false ->
   body locals methodStep = runStep recM method pageObject parsedPageObject locals methodStep).
Proof.
  cbv zeta. split; [|split].
  - intros target st Hchain Hne Hget.
    assert (Hs : isEmptyString (lastStepReturnType locals) = false).
    { destruct (lastStepReturnType locals) as [s|l]; [|done]. cbn.
      destruct s; [done|]. done. }
    unfold methodStepBody. rewrite Hchain, Hs, Hget. cbn [andb negb].
    split; [|split].
    + intros p' st1 Hp. unfold bind. rewrite Hp. split; [done|].
      apply parsePageObject_result in Hp
        as (po & parsed & Hg & _ & Hh & _ & Hu & He).
      exists parsed. split; [done|]. split; [done|]. rewrite He. congruence.
    + intros Hp. unfold bind. by rewrite Hp.
    + intros e Hp. unfold bind. by rewrite Hp.
  - intros Hchain He. unfold methodStepBody. rewrite Hchain, He. reflexivity.
  - intros Hchain. unfold methodStepBody. rewrite Hchain. reflexivity.
Qed.

Lemma C4_chain_pivot_witness :
  let step := stepOf (Some "title") (Some "getText") true in
  exists st1 locals' st2,
    parsePageObject 1 dashboardSet (TStr "app/panel") dashboardState = Done 1 st1 /\
    methodStepBody dashboardSet (processMethod 1 dashboardSet)
      (parsePageObject 1 dashboardSet) dashboardPage showTitle 0 afterPanel step
      dashboardState
    = runStep (processMethod 1 dashboardSet) showTitle panelPage 1 afterPanel step st1 /\
    runStep (processMethod 1 dashboardSet) showTitle panelPage 1 afterPanel step st1
    = Done locals' st2 /\
    lastStepReturnType locals' = TStr "string" /\
    map eo_name (referencedElements locals') = [Some "title"].
Proof.
  cbv zeta.
  destruct (C4_chain_pivot dashboardSet 1 dashboardPage showTitle 0 afterPanel
              (stepOf (Some "title") (Some "getText") true)) as (Hpivot & _ & _).
  destruct (Hpivot panelPage dashboardState eq_refl) as (Hdone & _ & _);
    [discriminate|reflexivity|].
  eexists. eexists. eexists. split; [vm_compute; reflexivity|].
  split; [apply Hdone; vm_compute; reflexivity|].
  split; [vm_compute; reflexivity|]. split; reflexivity.
Defined.

(** * Method references: cycles and termination *)

Ltac run_resolver :=
  repeat (progress (unfold bind, runStep, processStep, readParsed; cbn)).

Lemma cycle_diverges fuel :
  forall st p parsed,
    st_heap st !! p = Some parsed ->
    p_methods parsed !! "A" = None ->
    p_methods parsed !! "B" = None ->
    processMethod fuel cycleSet cyclePage methodA p st = OutOfFuel /\
    processMethod fuel cycleSet cyclePage methodB p st = OutOfFuel.
Proof.
  induction fuel as [|fuel IH]; intros st p parsed Hh HA HB; [done|].
  set (st1 := {| st_heap := st_heap st; st_arrays := st_arrays st ++ [[]];
                 st_cache := st_cache st;
                 rootPageObjectUris := rootPageObjectUris st;
                 st_log := st_log st |}).
  destruct (IH st1 p parsed Hh HA HB) as [IHA IHB]. subst st1.
  split.
  - cbn [processMethod]. unfold processMethodBody, bind, readParsed.
    rewrite Hh. cbn [m_name methodA methodOf]. rewrite HA.
    run_resolver. rewrite Hh. run_resolver. rewrite HB. run_resolver.
    fold methodB cyclePage. rewrite IHB. reflexivity.
  - cbn [processMethod]. unfold processMethodBody, bind, readParsed.
    rewrite Hh. cbn [m_name methodB methodOf]. rewrite HB.
    run_resolver. rewrite Hh. run_resolver. rewrite HA. run_resolver.
    fold methodA cyclePage. rewrite IHA. reflexivity.
Qed.

(** Resolving the page object of the cycle exhausts every amount of fuel. *)
Lemma cycle_never_returns fuel :
  parsePageObject fuel cycleSet (TStr "app/cycle") emptyState = OutOfFuel.
Proof.
  revert fuel.
  intros [|fuel]; [done|].
  pose proof (cycle_diverges fuel
    {| st_heap := [ {| p_uri := TStr "app/cycle"; p_source := ""; p_author := None;
                       p_description := None;
                       p_elements := parsedElements cycleSet (TStr "app/cycle") cyclePage;
                       p_methods := ∅ |} ];
       st_arrays := []; st_cache := ∅; rootPageObjectUris := []; st_log := [] |}
    0 _ eq_refl eq_refl eq_refl) as [HA _].
  cbn [parsePageObject]. unfold parsePageObjectBody, processMethods, allocParsed.
  cbn -[processMethod parsedElements]. unfold bind. cbn -[processMethod parsedElements].
  fold methodA. fold methodB. fold cyclePage.
  rewrite HA. reflexivity.
Qed.


Lemma total_ret {S A} (a : A) : total (@ret S A a).
Proof. intros st. done. Qed.

Lemma total_throw {S A} e : total (@throw S A e).
Proof. intros st. done. Qed.

Lemma total_bind {S A B} (m : ST S A) (k : A -> ST S B) :
  total m -> (forall a, total (k a)) -> total (bind m k).
Proof.
  intros Hm Hk st. unfold bind. specialize (Hm st).
  destruct (m st) as [a st'| |]; [apply Hk|done..].
Qed.

Lemma total_forEachM {S A} (body : A -> ST S unit) l :
  (forall x, In x l -> total (body x)) -> total (forEachM body l).
Proof.
  induction l as [|x l IH]; intros H; cbn; [apply total_ret|].
  apply total_bind; [apply H; by left|]. intros _. apply IH. intros y Hy. apply H. by right.
Qed.

Lemma total_foldM {S A B} (body : B -> A -> ST S B) l acc :
  (forall b x, In x l -> total (body b x)) -> total (foldM body l acc).
Proof.
  revert acc. induction l as [|x l IH]; intros acc H; cbn; [apply total_ret|].
  apply total_bind; [apply H; by left|]. intros b. apply IH. intros b' y Hy. apply H. by right.
Qed.

Lemma total_readParsed p : total (readParsed p).
Proof. intros st. unfold readParsed. by destruct (st_heap st !! p). Qed.

Lemma total_setMethod p name d : total (setMethod p name d).
Proof. intros st. unfold setMethod. by destruct (st_heap st !! p). Qed.

Lemma total_pushArray r l : total (pushArray r l).
Proof. intros st. unfold pushArray. by destruct (st_arrays st !! r). Qed.

Lemma total_allocArray l : total (allocArray l).
Proof. intros st. done. Qed.

Lemma total_allocParsed parsed : total (allocParsed parsed).
Proof. intros st. done. Qed.

Lemma total_cachePut key p : total (cachePut key p).
Proof. intros st. done. Qed.

Lemma total_consoleLog line : total (consoleLog line).
Proof. intros st. done. Qed.

Ltac total_tac :=
  repeat first
    [ apply total_ret | apply total_throw | apply total_readParsed
    | apply total_setMethod | apply total_pushArray | apply total_allocArray
    | apply total_allocParsed | apply total_cachePut | apply total_consoleLog
    | assumption
    | apply total_bind; [ | intros ? ] ].

Section StepTotal.
Variable allPageObjects : PageObjects.
Variable recM : PageObject aref -> Method aref -> pref -> M MethodDesc.
Variable recP : TypeVal -> M pref.

Lemma processStep_total pageObject s p :
  (forall a0 rest, isWaitForStep s = true -> s_args s = Some (a0 :: rest) ->
     total (recM pageObject (waitForMethodOf a0) p)) ->
  (forall name callee, calledMethodName s = Some name ->
     findMethod (po_methods pageObject) name = Some callee ->
     total (recM pageObject callee p)) ->
  total (processStep recM pageObject s p).
Proof.
  intros Hwait Hcall. unfold processStep.
  unfold isWaitForStep, calledMethodName in *.
  destruct (s_applyExternal s); [apply total_ret|].
  apply total_bind; [apply total_readParsed|]. intros parsed.
  destruct (s_apply s) as [apply|]; [|apply total_ret].
  destruct (truthy_s apply); [|apply total_ret]. cbn [andb] in *.
  destruct (str_eqb apply "waitFor") eqn:Ew; cbn [andb negb] in *.
  - destruct (s_args s) as [[|a0 rest]|]; [apply total_throw| |apply total_throw].
    apply total_bind; [by eapply Hwait|]. intros d. apply total_ret.
  - destruct (truthy_os (s_element s)); cbn [andb negb] in *.
    + destruct (candidateIntrinsicMethods apply); apply total_ret.
    + destruct (str_eqb apply "returnSelf"); cbn [negb] in *; [apply total_ret|].
      destruct (p_methods parsed !! apply); [apply total_ret|].
      destruct (findMethod (po_methods pageObject) apply) as [callee|] eqn:Ef;
        [|apply total_ret].
      apply total_bind; [by eapply Hcall|]. intros d.
      apply total_bind; [apply total_setMethod|]. intros _. apply total_ret.
Qed.

Lemma methodStepBody_total pageObject method p locals s :
  s_chain s = false ->
  total (processStep recM pageObject s p) ->
  total (methodStepBody allPageObjects recM recP pageObject method p locals s).
Proof.
  intros Hc Hs. unfold methodStepBody. rewrite Hc. cbn [andb]. unfold runStep.
  apply total_bind; [done|]. intros info. apply total_ret.
Qed.

Lemma pushReferencedArgs_total args els : total (pushReferencedArgs args els).
Proof.
  unfold pushReferencedArgs. apply total_forEachM. intros x _.
  destruct (eo_effectiveArgs x) as [[|a l]|]; total_tac.
Qed.

Lemma processMethodBody_total pageObject method p :
  (forall locals,
     total (foldM (methodStepBody allPageObjects recM recP pageObject method p)
                  (default [] (m_compose method)) locals)) ->
  total (processMethodBody allPageObjects recM recP pageObject method p).
Proof.
  intros Hloop. unfold processMethodBody.
  apply total_bind; [apply total_readParsed|]. intros parsed.
  destruct (p_methods parsed !! m_name method); [apply total_ret|].
  apply total_bind; [destruct (m_args method); total_tac|]. intros args.
  destruct (Nat.eqb _ 0); [|apply total_ret].
  apply total_bind; [apply Hloop|]. intros locals.
  apply total_bind; [apply pushReferencedArgs_total|]. intros _. apply total_ret.
Qed.
End StepTotal.

Lemma le_list_sum {A} (f : A -> nat) l x :
  In x l -> f x <= list_sum (map f l).
Proof.
  induction l as [|y l IH]; [done|]. intros [->|Hx]; cbn [map list_sum fold_right].
  - apply Nat.le_add_r.
  - etrans; [by apply IH|]. apply Nat.le_add_l.
Qed.

Lemma stepSize_predicate s a0 rest predicate x :
  s_args s = Some (a0 :: rest) -> sa_predicate a0 = Some predicate ->
  In x predicate -> stepSize x < stepSize s.
Proof.
  intros Ha Hp Hx. destruct s as [el ap ex ch rt args]. cbn in Ha. subst args.
  cbn. rewrite Hp. apply Nat.lt_succ_r. by apply le_list_sum.
Qed.

Lemma stepAll_unfold P s :
  stepAll P s =
  P s &&
  match s_args s with
  | Some (a0 :: _) =>
      match sa_predicate a0 with
      | Some predicate => negb (isWaitForStep s) || forallb (stepAll P) predicate
      | None => true
      end
  | _ => true
  end.
Proof. by destruct s. Qed.

Section Acyclic.
Variable allPageObjects : PageObjects.
Variable pageObject : PageObject aref.
Variable rank : string -> nat.
Hypothesis acyclic : acyclicPageObject rank pageObject = true.

Definition loopTotal (steps : list Step) : Prop :=
  exists N, forall fuel, N <= fuel -> forall method p locals,
    total (foldM (methodStepBody allPageObjects
                    (processMethod fuel allPageObjects)
                    (parsePageObject fuel allPageObjects) pageObject method p)
                 steps locals).

Definition methodsTotalBelow (bound : nat) : Prop :=
  forall m, In m (default [] (po_methods pageObject)) -> rank (m_name m) < bound ->
    exists N, forall fuel, N <= fuel -> forall p,
      total (processMethod fuel allPageObjects pageObject m p).

Lemma findMethod_In name callee :
  findMethod (po_methods pageObject) name = Some callee ->
  In callee (default [] (po_methods pageObject)) /\ m_name callee = name.
Proof.
  unfold findMethod. destruct (po_methods pageObject) as [l|]; [|done].
  intros H. apply find_some in H as [Hin Heq]. split; [done|].
  by apply String.eqb_eq.
Qed.

Lemma loopTotal_nil : loopTotal [].
Proof. exists 0. intros fuel _ method p locals. apply total_ret. Qed.

Lemma loopTotal_cons s steps :
  (exists N, forall fuel, N <= fuel -> forall method p locals,
     total (methodStepBody allPageObjects (processMethod fuel allPageObjects)
              (parsePageObject fuel allPageObjects) pageObject method p locals s)) ->
  loopTotal steps -> loopTotal (s :: steps).
Proof.
  intros [N1 H1] [N2 H2]. exists (max N1 N2). intros fuel Hf method p locals. cbn.
  apply total_bind; [apply H1; lia|]. intros locals'. apply H2. lia.
Qed.

Lemma waitFor_total steps :
  loopTotal steps ->
  exists N, forall fuel, N <= fuel -> forall a0 p,
    default [] (sa_predicate a0) = steps ->
    total (processMethod fuel allPageObjects pageObject (waitForMethodOf a0) p).
Proof.
  intros [N H]. exists (S N). intros [|fuel] Hf a0 p Hs; [lia|].
  cbn [processMethod]. apply processMethodBody_total. intros locals.
  cbn [waitForMethodOf m_compose default]. rewrite Hs. apply H. lia.
Qed.

Lemma steps_total bound :
  methodsTotalBelow bound ->
  forall n steps,
    (forall x, In x steps -> stepSize x <= n) ->
    forallb (stepAll (stepBelow rank pageObject bound)) steps = true ->
    loopTotal steps.
Proof.
  intros HQ. induction n as [|n IH]; intros steps Hsize Hall.
  - destruct steps as [|s steps]; [apply loopTotal_nil|].
    specialize (Hsize s (or_introl eq_refl)). destruct s; cbn in Hsize. lia.
  - induction steps as [|s steps IHsteps]; [apply loopTotal_nil|].
    cbn [forallb] in Hall. apply andb_prop in Hall as [Hs Hrest].
    apply loopTotal_cons;
      [|apply IHsteps; [intros x Hx; apply Hsize; by right|done]].
    rewrite stepAll_unfold in Hs. apply andb_prop in Hs as [Hbelow Hpred].
    unfold stepBelow, callsBelow in Hbelow. apply andb_prop in Hbelow as [Hchain Hcall].
    apply negb_true_iff in Hchain.
    (* the predicate of a [waitFor] step *)
    assert (Hw : exists N, forall fuel, N <= fuel -> forall a0 rest p,
              isWaitForStep s = true -> s_args s = Some (a0 :: rest) ->
              total (processMethod fuel allPageObjects pageObject (waitForMethodOf a0) p)).
    { destruct (isWaitForStep s) eqn:Ew; [|exists 0; intros; discriminate].
      destruct (s_args s) as [[|a0 rest]|] eqn:Ea;
        [exists 0; intros; discriminate| |exists 0; intros; discriminate].
      destruct (waitFor_total (default [] (sa_predicate a0))) as [N HN].
      - destruct (sa_predicate a0) as [predicate|] eqn:Ep; [|apply loopTotal_nil].
        cbn [negb orb] in Hpred. apply IH; [|done].
        intros x Hx. cbn [default] in Hx.
        pose proof (stepSize_predicate s a0 rest predicate x Ea Ep Hx).
        specialize (Hsize s (or_introl eq_refl)). lia.
      - exists N. intros fuel Hf a1 rest1 p _ [= <- <-]. by apply HN. }
    (* the method the step calls *)
    assert (Hc : exists N, forall fuel, N <= fuel -> forall name callee p,
              calledMethodName s = Some name ->
              findMethod (po_methods pageObject) name = Some callee ->
              total (processMethod fuel allPageObjects pageObject callee p)).
    { destruct (calledMethodName s) as [name|]; [|exists 0; intros; discriminate].
      destruct (findMethod (po_methods pageObject) name) as [callee|] eqn:Ef;
        [|exists 0; intros ? ? ? ? ? [= <-]; congruence].
      apply Nat.ltb_lt in Hcall.
      destruct (findMethod_In _ _ Ef) as [Hin Hname].
      destruct (HQ callee Hin) as [N HN]; [by rewrite Hname|].
      exists N. intros fuel Hf name' callee' p [= <-] Ef'.
      assert (callee' = callee) as -> by congruence. by apply HN. }
    destruct Hw as [N1 H1]. destruct Hc as [N2 H2].
    exists (max N1 N2). intros fuel Hf method p locals.
    apply methodStepBody_total; [done|].
    apply processStep_total.
    + intros a0 rest. apply H1. lia.
    + intros name callee. apply H2. lia.
Qed.

Lemma stepAll_mono (P Q : Step -> bool) :
  (forall x, P x = true -> Q x = true) ->
  forall n s, stepSize s <= n -> stepAll P s = true -> stepAll Q s = true.
Proof.
  intros HPQ. induction n as [|n IH]; intros s Hn; [destruct s; cbn in Hn; lia|].
  rewrite !stepAll_unfold. intros H. apply andb_prop in H as [HP Hpred].
  apply andb_true_intro. split; [by apply HPQ|].
  destruct (s_args s) as [[|a0 rest]|] eqn:Ea; [done| |done].
  destruct (sa_predicate a0) as [predicate|] eqn:Ep; [|done].
  destruct (negb (isWaitForStep s)); [done|]. cbn [orb] in *.
  apply forallb_forall. intros x Hx.
  pose proof (stepSize_predicate s a0 rest predicate x Ea Ep Hx).
  apply IH; [lia|]. rewrite forallb_forall in Hpred. by apply Hpred.
Qed.

Lemma methods_total bound : methodsTotalBelow bound.
Proof.
  induction bound as [|bound IH]; intros m Hin Hrank; [lia|].
  assert (Hm : acyclicMethod rank pageObject m = true).
  { unfold acyclicPageObject in acyclic. rewrite forallb_forall in acyclic.
    by apply acyclic. }
  unfold acyclicMethod in Hm.
  destruct (steps_total bound IH
              (list_sum (map stepSize (default [] (m_compose m))))
              (default [] (m_compose m))) as [N HN].
  - intros x Hx. by apply le_list_sum.
  - apply forallb_forall. intros x Hx. rewrite forallb_forall in Hm.
    apply (stepAll_mono (stepBelow rank pageObject (rank (m_name m)))
                        (stepBelow rank pageObject bound)) with (n := stepSize x);
      [|apply Nat.le_refl|by apply Hm].
    intros y. unfold stepBelow, callsBelow. intros Hy. apply andb_prop in Hy as [Hc Hr].
    apply andb_true_intro. split; [done|].
    destruct (calledMethodName y) as [name|]; [|done].
    destruct (findMethod (po_methods pageObject) name); [|done].
    apply Nat.ltb_lt in Hr. apply Nat.ltb_lt. lia.
  - exists (S N). intros [|fuel] Hf p; [lia|].
    cbn [processMethod]. apply processMethodBody_total. intros locals.
    apply HN. lia.
Qed.

Lemma processMethods_total :
  exists N, forall fuel, N <= fuel -> forall p,
    total (processMethods (processMethod fuel allPageObjects) pageObject p).
Proof.
  unfold processMethods.
  destruct (po_methods pageObject) as [methods|] eqn:Em;
    [|exists 0; intros; apply total_ret].
  assert (H : forall m, In m methods ->
            exists N, forall fuel, N <= fuel -> forall p,
              total (processMethod fuel allPageObjects pageObject m p)).
  { intros m Hin. apply (methods_total (S (rank (m_name m)))); [|lia].
    by rewrite Em. }
  clear Em. induction methods as [|m methods IH].
  - exists 0. intros. apply total_ret.
  - destruct (H m (or_introl eq_refl)) as [N1 H1].
    destruct IH as [N2 H2]; [intros x Hx; apply H; by right|].
    exists (max N1 N2). intros fuel Hf p. cbn [forEachM].
    apply total_bind.
    + apply total_bind; [apply H1; lia|]. intros d. apply total_setMethod.
    + intros _. apply H2. lia.
Qed.
End Acyclic.

(** Without chain steps resolution never leaves the page object: acyclic
    references from method to method are then enough, whatever the state
    and the types the definition names. *)
Lemma chainless_resolution_terminates allPageObjects uri pageObject rank :
  obj_get (to_key uri) allPageObjects = Some pageObject ->
  acyclicPageObject rank pageObject = true ->
  (exists N, forall fuel, N <= fuel -> forall st,
     parsePageObject fuel allPageObjects uri st <> OutOfFuel) /\
  (forall method, In method (default [] (po_methods pageObject)) ->
     exists N, forall fuel, N <= fuel -> forall p st,
       processMethod fuel allPageObjects pageObject method p st <> OutOfFuel).
Proof.
  intros Hget Hac. split.
  - destruct (processMethods_total allPageObjects pageObject rank Hac) as [N HN].
    exists (S N). intros [|fuel] Hf st; [lia|].
    cbn [parsePageObject]. unfold parsePageObjectBody. rewrite Hget.
    revert st. apply total_bind; [apply total_allocParsed|]. intros p.
    apply total_bind; [apply HN; lia|]. intros _.
    apply total_bind; [apply total_cachePut|]. intros _. apply total_ret.
  - intros method Hin.
    destruct (methods_total allPageObjects pageObject rank Hac
                (S (rank (m_name method))) method Hin) as [N HN]; [lia|].
    exists N. intros fuel Hf p st. by apply HN.
Qed.

Lemma eventually_always (F : nat -> Prop) : (forall fuel, F fuel) -> eventually F.
Proof. intros H. exists 0. intros fuel _. apply H. Qed.

Lemma eventually_and F G : eventually F -> eventually G -> eventually (fun fuel => F fuel /\ G fuel).
Proof.
  intros [N1 H1] [N2 H2]. exists (max N1 N2). intros fuel Hf.
  split; [apply H1|apply H2]; lia.
Qed.

Lemma eventually_mono (F G : nat -> Prop) :
  (forall fuel, F fuel -> G fuel) -> eventually F -> eventually G.
Proof. intros H [N HN]. exists N. intros fuel Hf. by apply H, HN. Qed.

Lemma eventually_succ (F G : nat -> Prop) :
  (forall fuel, F fuel -> G (S fuel)) -> eventually F -> eventually G.
Proof.
  intros H [N HN]. exists (S N). intros [|fuel] Hf; [lia|]. apply H, HN. lia.
Qed.

Lemma eventually_forall_In {X} (l : list X) (F : X -> nat -> Prop) :
  (forall x, In x l -> eventually (F x)) ->
  eventually (fun fuel => forall x, In x l -> F x fuel).
Proof.
  induction l as [|y l IH]; intros H.
  - exists 0. intros fuel _ x [].
  - destruct (H y (or_introl eq_refl)) as [N1 H1].
    destruct IH as [N2 H2]; [intros x Hx; apply H; by right|].
    exists (max N1 N2). intros fuel Hf x [<-|Hx]; [apply H1; lia|apply H2; [lia|done]].
Qed.

Lemma safe_ret {A} (P : State -> Prop) (a : A) (Q : A -> State -> Prop) :
  (forall st, P st -> Q a st) -> safe P (ret a) Q.
Proof. intros H st HP. by apply H. Qed.

Lemma safe_throw {A} (P : State -> Prop) e (Q : A -> State -> Prop) :
  safe P (throw e) Q.
Proof. by intros st HP. Qed.

Lemma safe_bind {A B} (P : State -> Prop) (m : M A) (k : A -> M B)
    (Q : A -> State -> Prop) (Q' : B -> State -> Prop) :
  safe P m Q -> (forall a, safe (Q a) (k a) Q') -> safe P (bind m k) Q'.
Proof.
  intros Hm Hk st HP. unfold bind. specialize (Hm st HP).
  destruct (m st) as [a st1| |]; cbn in *; [|done..]. by apply Hk.
Qed.

Lemma safe_weaken {A} (P P' : State -> Prop) (m : M A) (Q Q' : A -> State -> Prop) :
  safe P m Q -> (forall st, P' st -> P st) -> (forall a st, Q a st -> Q' a st) ->
  safe P' m Q'.
Proof.
  intros H HP HQ st HP'. specialize (H st (HP st HP')).
  destruct (m st); cbn in *; [by apply HQ|done..].
Qed.

Lemma safe_pure {A} (P : State -> Prop) (phi : Prop) (m : M A) (Q : A -> State -> Prop) :
  (phi -> safe P m Q) -> safe (fun st => P st /\ phi) m Q.
Proof. intros H st [HP Hphi]. by apply H. Qed.

(** What [m] keeps of the heap comes on top of what it establishes. *)
Lemma safe_grows {A} (P : State -> Prop) (m : M A) (Q : A -> State -> Prop)
    (K : State -> Prop) :
  safe P m Q -> steps heapGrows m ->
  (forall st st', heapGrows st st' -> K st -> K st') ->
  safe (fun st => P st /\ K st) m (fun a st' => Q a st' /\ K st').
Proof.
  intros H Hg HK st [HP Hk]. specialize (H st HP). specialize (Hg st).
  destruct (m st) as [a st'| |]; cbn in *; [|done..]. split; [done|].
  eapply HK; [|exact Hk]. by eapply Hg.
Qed.

Lemma safe_foldM {A B} (I : B -> State -> Prop) (body : B -> A -> M B) l acc :
  (forall b x, In x l -> safe (I b) (body b x) I) ->
  safe (I acc) (foldM body l acc) I.
Proof.
  revert acc. induction l as [|x l IH]; intros acc H; cbn [foldM].
  - by apply safe_ret.
  - eapply safe_bind; [apply H; by left|]. intros b. apply IH.
    intros b' y Hy. apply H. by right.
Qed.

Lemma safe_forEachM {A} (I : State -> Prop) (body : A -> M unit) l :
  (forall x, In x l -> safe I (body x) (fun _ => I)) ->
  safe I (forEachM body l) (fun _ => I).
Proof.
  induction l as [|x l IH]; intros H; cbn [forEachM].
  - by apply safe_ret.
  - eapply safe_bind; [apply H; by left|]. intros []. apply IH.
    intros y Hy. apply H. by right.
Qed.

Lemma here_grows p uri st st' : heapGrows st st' -> here p uri st -> here p uri st'.
Proof.
  intros Hg (parsed & Hp & Hu). destruct (Hg p parsed Hp) as (parsed' & Hp' & Hs).
  exists parsed'. split; [done|]. destruct Hs as (Hs & _). by rewrite <- Hs.
Qed.

Lemma obj_get_In {V} k (o : list (string * V)) v : obj_get k o = Some v -> In (k, v) o.
Proof.
  induction o as [|[k' v'] o IH]; [done|]. cbn. unfold str_eqb.
  destruct (String.eqb k' k) eqn:E.
  - intros [= <-]. apply String.eqb_eq in E as <-. by left.
  - intros H. right. by apply IH.
Qed.

Lemma intrinsic_types_builtin :
  forallb (fun m => existsb (str_eqb (im_type m)) builtinTypes)
          (flat_map snd intrinsicMethods) = true.
Proof. vm_compute. reflexivity. Qed.

Lemma candidateIntrinsicMethods_type name first rest :
  candidateIntrinsicMethods name = first :: rest -> In (im_type first) builtinTypes.
Proof.
  intros H.
  assert (Hin : In first (flat_map snd intrinsicMethods)).
  { assert (Hc : In first (candidateIntrinsicMethods name)) by (rewrite H; by left).
    unfold candidateIntrinsicMethods in Hc. apply in_flat_map in Hc as (g & Hg & Hf).
    apply filter_In in Hf as [Hf _]. apply in_flat_map. by exists g. }
  pose proof intrinsic_types_builtin as Hall. rewrite forallb_forall in Hall.
  specialize (Hall first Hin). apply existsb_exists in Hall as (c & Hc & Heq).
  apply String.eqb_eq in Heq. by rewrite Heq.
Qed.

Section Stratified.
Variable allPageObjects : PageObjects.
Variable poRank : string -> nat.
Variable methodRank : string -> string -> nat.
Hypothesis Hstrat : stratified allPageObjects poRank methodRank = true.

Local Abbreviation low := (lowType allPageObjects poRank).
Local Abbreviation lowO := (lowOption allPageObjects poRank).

Lemma low_mono b b' t : b <= b' -> low b t = true -> low b' t = true.
Proof.
intros Hb. unfold lowType. destruct (obj_get (to_key t) allPageObjects); [|done].
intros H. apply Nat.ltb_lt in H. apply Nat.ltb_lt. lia.
Qed.

Lemma lowO_mono b b' o : b <= b' -> lowO b o = true -> lowO b' o = true.
Proof. destruct o; [apply low_mono|done]. Qed.

Lemma low_target b t target :
low b t = true -> obj_get (to_key t) allPageObjects = Some target ->
poRank (to_key t) < b.
Proof. unfold lowType. intros H Hg. rewrite Hg in H. by apply Nat.ltb_lt. Qed.

Lemma low_builtin b c : In c builtinTypes -> low b (TStr c) = true.
Proof.
intros Hc. unfold stratified in Hstrat. apply andb_prop in Hstrat as [Hb _].
rewrite forallb_forall in Hb. specialize (Hb c Hc). unfold obj_has in Hb.
unfold lowType. cbn [to_key]. by destruct (obj_get c allPageObjects).
Qed.

Lemma page_stratified k pageObject :
obj_get k allPageObjects = Some pageObject ->
pageLow allPageObjects poRank (poRank k) pageObject = true /\
acyclicCalls (methodRank k) pageObject = true.
Proof.
intros H. apply obj_get_In in H.
unfold stratified in Hstrat. apply andb_prop in Hstrat as [_ Hp].
rewrite forallb_forall in Hp. specialize (Hp _ H). by apply andb_prop in Hp.
Qed.

Lemma type_or_low b o c :
lowO b o = true -> In c builtinTypes -> low b (type_or o (TStr c)) = true.
Proof.
intros Ho Hc. destruct o as [t|]; cbn; [|by apply low_builtin].
destruct (truthy_t t); [done|by apply low_builtin].
Qed.

Lemma elementLow_unfold b e :
elementLow allPageObjects poRank b e = true ->
lowO b (e_type e) = true /\
forall sh c, In (sh, c) (childrenOf e) -> elementLow allPageObjects poRank b c = true.
Proof.
destruct e as [n t s f pu d els shadow]. cbn [elementLow e_type e_elements e_shadow].
intros H. apply andb_prop in H as [H Hs]. apply andb_prop in H as [Ht He].
split; [done|]. intros sh c Hin. unfold childrenOf, tagged in Hin.
cbn [e_elements e_shadow] in Hin. apply in_app_or in Hin as [Hin|Hin];
  apply in_map_iff in Hin as (c' & [= <- <-] & Hin).
- destruct els as [l|]; [|done]. rewrite forallb_forall in He. by apply He.
- destruct shadow as [l|]; [|done]. rewrite forallb_forall in Hs. by apply Hs.
Qed.

Lemma InForest_low b forest path sh e :
InForest forest path sh e ->
(forall sh' c, In (sh', c) forest -> elementLow allPageObjects poRank b c = true) ->
lowO b (e_type e) = true.
Proof.
induction 1 as [forest sh e Hin|forest sh0 a path sh e Hin Hsub IH]; intros Hall.
- by apply (elementLow_unfold b e), (Hall sh).
- apply IH. intros sh' c Hc.
  by apply (proj2 (elementLow_unfold b a (Hall sh0 a Hin)) sh').
Qed.

Lemma elements_low uri pageObject b name d :
pageLow allPageObjects poRank b pageObject = true ->
parsedElements allPageObjects uri pageObject !! name = Some d ->
name <> DataTypes.ROOT ->
lowO b (ed_type d) = true.
Proof.
intros Hp Hd Hn. unfold pageLow in Hp.
apply andb_prop in Hp as [Hp _]. apply andb_prop in Hp as [He Hs].
unfold parsedElements in Hd. apply processElements_origin in Hd as [Hd|Hd].
- destruct (po_selector pageObject); [|by rewrite lookup_empty in Hd].
  rewrite lookup_insert_ne in Hd by done. by rewrite lookup_empty in Hd.
- destruct Hd as (path & sh & e & Hin & _ & ->). cbn [processElementObject ed_type].
  eapply InForest_low; [exact Hin|]. intros sh' c Hc.
  apply in_app_or in Hc as [Hc|Hc]; unfold tagged in Hc;
    apply in_map_iff in Hc as (c' & [= <- <-] & Hc).
  + rewrite forallb_forall in He. by apply He.
  + rewrite forallb_forall in Hs. by apply Hs.
Qed.

Local Abbreviation wf := (wfState allPageObjects poRank).
Local Abbreviation ok := (good allPageObjects poRank).

Lemma good_grows p uri st st' :
heapGrows st st' -> wf st' -> ok p uri st -> ok p uri st'.
Proof. intros Hg Hw [_ Hh]. split; [done|]. by eapply here_grows. Qed.

Lemma good_same_heap p uri st st' :
st_heap st' = st_heap st -> ok p uri st -> ok p uri st'.
Proof.
intros E [Hw (parsed & Hp & Hu)]. split.
- intros q x. rewrite E. apply Hw.
- exists parsed. by rewrite E.
Qed.

Lemma safe_readParsed {B} p uri (k : Parsed -> M B) Q :
(forall parsed, p_uri parsed = uri -> wfParsed allPageObjects poRank parsed ->
   safe (ok p uri) (k parsed) Q) ->
safe (ok p uri) (bind (readParsed p) k) Q.
Proof.
intros H st Hst. unfold bind, readParsed.
destruct Hst as [Hw (parsed & Hp & Hu)]. rewrite Hp.
apply (H parsed Hu (Hw p parsed Hp)). split; [done|]. by exists parsed.
Qed.

Lemma safe_setMethod p uri name d :
low (poRank (to_key uri)) (md_type d) = true ->
safe (ok p uri) (setMethod p name d) (fun _ st' => ok p uri st').
Proof.
intros Hd st [Hw (parsed & Hp & Hu)]. unfold setMethod. rewrite Hp. cbn.
split.
- intros q x. cbn. destruct (decide (p = q)) as [<-|Hne].
  + rewrite list_lookup_insert_eq; [|by eapply lookup_lt_Some].
    intros [= <-]. destruct (Hw p parsed Hp) as (po & Hg & He & Hm).
    exists po. cbn. split; [done|]. split; [done|]. intros n d'.
    rewrite lookup_insert. case_decide; [|apply Hm].
    intros [= <-]. by rewrite Hu.
  + rewrite list_lookup_insert_ne; [|done]. apply Hw.
- eexists. cbn. rewrite list_lookup_insert_eq; [|by eapply lookup_lt_Some]. done.
Qed.

Lemma safe_allocArray p uri l :
safe (ok p uri) (allocArray l) (fun _ st' => ok p uri st').
Proof. intros st Hst. cbn. by apply (good_same_heap p uri st). Qed.

Lemma safe_pushArray p uri r l :
safe (ok p uri) (pushArray r l) (fun _ st' => ok p uri st').
Proof.
intros st Hst. unfold pushArray. destruct (st_arrays st !! r); [|done].
cbn. by apply (good_same_heap p uri st).
Qed.

Lemma safe_cachePut p uri key q :
safe (ok p uri) (cachePut key q) (fun _ st' => ok p uri st').
Proof. intros st Hst. cbn. by apply (good_same_heap p uri st). Qed.

Lemma safe_consoleLog p uri line :
safe (ok p uri) (consoleLog line) (fun _ st' => ok p uri st').
Proof. intros st Hst. cbn. by apply (good_same_heap p uri st). Qed.

Lemma safe_allocParsed parsed :
wfParsed allPageObjects poRank parsed ->
safe wf (allocParsed parsed) (fun p st' => ok p (p_uri parsed) st').
Proof.
intros Hp st Hw. cbn. split.
- intros q x. cbn. intros Hq. apply lookup_app_Some in Hq as [Hq|[_ Hq]]; [by eapply Hw|].
  apply list_lookup_singleton_Some in Hq as [_ <-]. done.
- exists parsed. cbn. split; [|done]. by rewrite lookup_app_r, Nat.sub_diag.
Qed.

(** The type of the element a step refers to. *)
Lemma stepElementInfo_low R uri pageObject parsed s :
obj_get (to_key uri) allPageObjects = Some pageObject ->
poRank (to_key uri) <= R ->
p_uri parsed = uri -> wfParsed allPageObjects poRank parsed ->
stepLow allPageObjects poRank R s = true ->
low R (si_returnType (stepElementInfo parsed s)) = true.
Proof.
intros Hget Hle Hu (po & Hg & He & _) Hs. rewrite Hu in Hg, He.
assert (po = pageObject) as -> by congruence.
destruct (page_stratified _ _ Hget) as [Hp _].
unfold stepLow in Hs. apply andb_prop in Hs as [_ Hargs].
unfold stepElementInfo.
destruct (s_element s) as [element|]; [|by apply low_builtin; left].
destruct (truthy_s element && negb (str_eqb element DataTypes.ROOT)) eqn:Eg;
  [|by apply low_builtin; left].
apply andb_prop in Eg as [_ Eroot]. apply negb_true_iff in Eroot.
assert (Hne : element <> DataTypes.ROOT).
{ intros ->. unfold str_eqb in Eroot. by rewrite String.eqb_refl in Eroot. }
destruct (str_eqb element DataTypes.DOCUMENT); [apply low_builtin; cbn; tauto|].
destruct (str_eqb element DataTypes.NAVIGATION); [apply low_builtin; cbn; tauto|].
cbn [si_returnType]. apply type_or_low; [|cbn; tauto].
unfold referencedElementOf. rewrite He.
destruct (parsedElements allPageObjects uri pageObject !! element) as [d|] eqn:Ed;
  [|done].
assert (Hd : lowO R (ed_type d) = true).
{ eapply lowO_mono; [exact Hle|]. by eapply elements_low. }
destruct (str_eqb (ed_category d) DataTypes.CONTAINER && _); [|done].
destruct (s_args s) as [[|a0 rest]|]; done.
Qed.

Section SafeBodies.
Variable recM : PageObject aref -> Method aref -> pref -> M MethodDesc.
Variable recP : TypeVal -> M pref.
Variable R : nat.
Hypothesis recM_grows : forall po m p, steps heapGrows (recM po m p).
Hypothesis recP_grows : forall uri, steps heapGrows (recP uri).
Hypothesis recP_safe : forall T target,
obj_get (to_key T) allPageObjects = Some target -> poRank (to_key T) < R ->
safe wf (recP T) (fun p st' => ok p T st').
Hypothesis lower_safe : forall T target,
obj_get (to_key T) allPageObjects = Some target -> poRank (to_key T) < R ->
forall callee, In callee (default [] (po_methods target)) ->
forall p, safe (ok p T) (recM target callee p)
          (fun d st' => ok p T st' /\ low (poRank (to_key T)) (md_type d) = true).

Lemma processStep_safe pageObject uri p s :
obj_get (to_key uri) allPageObjects = Some pageObject ->
poRank (to_key uri) <= R ->
stepLow allPageObjects poRank R s = true ->
(forall a0 rest, isWaitForStep s = true -> s_args s = Some (a0 :: rest) ->
 safe (ok p uri) (recM pageObject (waitForMethodOf a0) p)
      (fun d st' => ok p uri st' /\ low R (md_type d) = true)) ->
(forall name callee, calledMethodName s = Some name ->
 findMethod (po_methods pageObject) name = Some callee ->
 safe (ok p uri) (recM pageObject callee p)
      (fun d st' => ok p uri st' /\ low (poRank (to_key uri)) (md_type d) = true)) ->
safe (ok p uri) (processStep recM pageObject s p)
   (fun info st' => ok p uri st' /\ low R (si_returnType info) = true).
Proof.
intros Hget Hle Hs Hwait Hcall. unfold processStep.
unfold isWaitForStep, calledMethodName in *.
destruct (s_applyExternal s).
{ apply safe_ret. intros st Hst. split; [done|]. apply low_builtin. cbn. tauto. }
apply safe_readParsed. intros parsed Hu Hw.
pose proof (stepElementInfo_low R uri pageObject parsed s Hget Hle Hu Hw Hs) as Hinfo.
destruct (s_apply s) as [apply|]; [|by apply safe_ret].
destruct (truthy_s apply); [|by apply safe_ret]. cbn [andb] in *.
destruct (str_eqb apply "waitFor") eqn:Ew; cbn [andb negb] in *.
- destruct (s_args s) as [[|a0 rest]|]; [apply safe_throw| |apply safe_throw].
eapply safe_bind; [by eapply Hwait|]. intros d. cbn beta.
apply safe_ret. by intros st [Hst Hd].
- destruct (truthy_os (s_element s)); cbn [andb negb] in *.
+ destruct (candidateIntrinsicMethods apply) as [|first rest] eqn:Ec;
    [by apply safe_ret|].
  apply safe_ret. intros st Hst. split; [done|]. cbn.
  apply low_builtin. by eapply candidateIntrinsicMethods_type.
+ destruct (str_eqb apply "returnSelf"); cbn [negb] in *.
  { apply safe_ret. intros st Hst. split; [done|]. apply low_builtin. cbn. tauto. }
  destruct (p_methods parsed !! apply) as [known|] eqn:Ek.
  { apply safe_ret. intros st Hst. split; [done|]. cbn.
    destruct Hw as (po & _ & _ & Hm). eapply low_mono; [|by eapply Hm].
    by rewrite Hu. }
  destruct (findMethod (po_methods pageObject) apply) as [callee|] eqn:Ef;
    [|by apply safe_ret].
  eapply safe_bind; [by eapply Hcall|]. intros d. cbn beta.
  apply safe_pure. intros Hd.
  eapply safe_bind; [by apply safe_setMethod|]. intros [].
  apply safe_ret. intros st Hst. split; [done|]. cbn.
  by eapply low_mono.
Qed.

Lemma runStep_safe pageObject uri p method locals s :
obj_get (to_key uri) allPageObjects = Some pageObject ->
poRank (to_key uri) <= R ->
stepLow allPageObjects poRank R s = true ->
(forall a0 rest, isWaitForStep s = true -> s_args s = Some (a0 :: rest) ->
 safe (ok p uri) (recM pageObject (waitForMethodOf a0) p)
      (fun d st' => ok p uri st' /\ low R (md_type d) = true)) ->
(forall name callee, calledMethodName s = Some name ->
 findMethod (po_methods pageObject) name = Some callee ->
 safe (ok p uri) (recM pageObject callee p)
      (fun d st' => ok p uri st' /\ low (poRank (to_key uri)) (md_type d) = true)) ->
safe (ok p uri) (runStep recM method pageObject p locals s)
   (fun locals' st' => ok p uri st' /\ low R (lastStepReturnType locals') = true).
Proof.
intros Hget Hle Hs Hwait Hcall. unfold runStep.
eapply safe_bind; [by apply processStep_safe|]. intros info. cbn beta.
apply safe_pure. intros Hinfo. apply safe_ret. intros st Hst. split; [done|].
cbn [lastStepReturnType]. unfold stepLow in Hs. apply andb_prop in Hs as [Hrt _].
destruct (s_returnType s) as [t|]; [|done]. by destruct (truthy_t t).
Qed.

Lemma runStep_grows method pageObject p locals s :
steps heapGrows (runStep recM method pageObject p locals s).
Proof.
apply steps_runStep; [apply heapGrows_refl|apply heapGrows_trans|
                     apply heapGrows_setMethod|apply recM_grows].
Qed.

(** The callback of the step loop, for a method that is walked against
[pageObject]: a chain step moves to a page object ranked below [R]. *)
Lemma methodStepBody_safe pageObject uri p method locals s :
obj_get (to_key uri) allPageObjects = Some pageObject ->
poRank (to_key uri) <= R ->
stepLow allPageObjects poRank R s = true ->
low R (lastStepReturnType locals) = true ->
(forall a0 rest, isWaitForStep s = true -> s_args s = Some (a0 :: rest) ->
 safe (ok p uri) (recM pageObject (waitForMethodOf a0) p)
      (fun d st' => ok p uri st' /\ low R (md_type d) = true)) ->
(forall T target p' a0 rest,
 obj_get (to_key T) allPageObjects = Some target -> poRank (to_key T) < R ->
 isWaitForStep s = true -> s_args s = Some (a0 :: rest) ->
 safe (ok p' T) (recM target (waitForMethodOf a0) p')
      (fun d st' => ok p' T st' /\ low R (md_type d) = true)) ->
(forall name callee, calledMethodName s = Some name ->
 findMethod (po_methods pageObject) name = Some callee ->
 safe (ok p uri) (recM pageObject callee p)
      (fun d st' => ok p uri st' /\ low (poRank (to_key uri)) (md_type d) = true)) ->
safe (ok p uri) (methodStepBody allPageObjects recM recP pageObject method p locals s)
   (fun locals' st' => ok p uri st' /\ low R (lastStepReturnType locals') = true).
Proof.
intros Hget Hle Hs Hlast Hwait Hwait' Hcall. unfold methodStepBody.
destruct (s_chain s && negb (isEmptyString (lastStepReturnType locals)));
[|by apply runStep_safe].
destruct (obj_get (to_key (lastStepReturnType locals)) allPageObjects)
as [target|] eqn:Et.
- pose proof (low_target _ _ _ Hlast Et) as Hrank.
eapply safe_bind.
+ apply (safe_grows wf (recP (lastStepReturnType locals))
           (fun p' st' => ok p' (lastStepReturnType locals) st') (here p uri)).
  * by eapply recP_safe.
  * apply recP_grows.
  * intros st st'. apply here_grows.
+ intros p'. cbn beta.
  eapply safe_weaken.
  * apply (safe_grows (ok p' (lastStepReturnType locals))
             (runStep recM method target p' locals s)
             (fun l st' => ok p' (lastStepReturnType locals) st' /\
                           low R (lastStepReturnType l) = true) (here p uri)).
    -- apply runStep_safe; [done|lia|done| |].
       ++ intros a0 rest. by eapply Hwait'.
       ++ intros name callee Hn Hf. eapply lower_safe; [done|done|].
          unfold findMethod in Hf. destruct (po_methods target) as [l|]; [|done].
          apply find_some in Hf as [Hin _]. done.
    -- apply runStep_grows.
    -- intros st st'. apply here_grows.
  * intros st H. exact H.
  * intros l st [[[Hw _] Hl] Hh]. by repeat split.
- apply safe_readParsed. intros parsed _ _.
eapply safe_bind; [apply safe_consoleLog|]. intros [].
apply safe_ret. by intros st Hst.
Qed.

Lemma pushReferencedArgs_safe p uri args els :
safe (ok p uri) (pushReferencedArgs args els) (fun _ st' => ok p uri st').
Proof.
unfold pushReferencedArgs. apply safe_forEachM. intros x _.
destruct (eo_effectiveArgs x) as [[|a l]|]; try (by apply safe_ret).
apply safe_pushArray.
Qed.

Lemma processMethodBody_safe pageObject uri p method :
poRank (to_key uri) <= R ->
lowO R (m_returnType method) = true ->
(forall locals, low R (lastStepReturnType locals) = true ->
 safe (ok p uri)
      (foldM (methodStepBody allPageObjects recM recP pageObject method p)
             (default [] (m_compose method)) locals)
      (fun l st' => ok p uri st' /\ low R (lastStepReturnType l) = true)) ->
safe (ok p uri) (processMethodBody allPageObjects recM recP pageObject method p)
   (fun d st' => ok p uri st' /\ low R (md_type d) = true).
Proof.
intros Hle Hrt Hloop. unfold processMethodBody.
apply safe_readParsed. intros parsed Hu Hw.
destruct (p_methods parsed !! m_name method) as [known|] eqn:Ek.
{ apply safe_ret. intros st Hst. split; [done|].
destruct Hw as (po & _ & _ & Hm). eapply low_mono; [|by eapply Hm]. by rewrite Hu. }
eapply safe_bind.
{ instantiate (1 := fun _ st' => ok p uri st').
destruct (m_args method); [by apply safe_ret|apply safe_allocArray]. }
intros args. cbn beta.
assert (Hty : low R (type_or (m_returnType method) (TStr "")) = true).
{ apply type_or_low; [done|]. by left. }
destruct (Nat.eqb _ 0).
- eapply safe_bind; [apply Hloop; apply low_builtin; by left|]. intros locals. cbn beta.
apply safe_pure. intros Hl.
eapply safe_bind; [apply pushReferencedArgs_safe|]. intros [].
apply safe_ret. by intros st Hst.
- apply safe_ret. by intros st Hst.
Qed.

Lemma processMethods_safe pageObject uri p :
(forall m, In m (default [] (po_methods pageObject)) ->
 safe (ok p uri) (recM pageObject m p)
      (fun d st' => ok p uri st' /\ low (poRank (to_key uri)) (md_type d) = true)) ->
safe (ok p uri) (processMethods recM pageObject p) (fun _ st' => ok p uri st').
Proof.
intros H. unfold processMethods.
destruct (po_methods pageObject) as [methods|]; [|by apply safe_ret].
apply safe_forEachM. intros m Hm.
eapply safe_bind; [by apply H|]. intros d. cbn beta.
apply safe_pure. intros Hd. by apply safe_setMethod.
Qed.

Lemma parsePageObjectBody_safe T target :
obj_get (to_key T) allPageObjects = Some target ->
(forall p m, In m (default [] (po_methods target)) ->
 safe (ok p T) (recM target m p)
      (fun d st' => ok p T st' /\ low (poRank (to_key T)) (md_type d) = true)) ->
safe wf (parsePageObjectBody allPageObjects recM T) (fun p st' => ok p T st').
Proof.
intros Hget H. unfold parsePageObjectBody. rewrite Hget.
eapply safe_bind.
{ apply safe_allocParsed. exists target. cbn. by repeat split. }
intros p. cbn [p_uri].
eapply safe_bind; [apply processMethods_safe; by apply H|]. intros [].
eapply safe_bind; [apply safe_cachePut|]. intros [].
apply safe_ret. by intros st Hst.
Qed.
End SafeBodies.

(** What the page objects ranked below [R] offer at [fuel]. *)
Definition lowerSafe (R fuel : nat) : Prop :=
(forall T target,
   obj_get (to_key T) allPageObjects = Some target -> poRank (to_key T) < R ->
   safe wf (parsePageObject fuel allPageObjects T) (fun p st' => ok p T st')) /\
(forall T target,
   obj_get (to_key T) allPageObjects = Some target -> poRank (to_key T) < R ->
   forall callee, In callee (default [] (po_methods target)) ->
   forall p, safe (ok p T) (processMethod fuel allPageObjects target callee p)
               (fun d st' => ok p T st' /\ low (poRank (to_key T)) (md_type d) = true)).

Section Key.
Variable k : string.
Variable pageObject : PageObject aref.
Hypothesis Hk : obj_get k allPageObjects = Some pageObject.
Hypothesis Hlower : eventually (lowerSafe (poRank k)).

(** The page objects a step of [pageObject] is walked against: itself, or
one it has chained to. *)
Definition inContext (T : TypeVal) (target : PageObject aref) : Prop :=
obj_get (to_key T) allPageObjects = Some target /\
(to_key T = k \/ poRank (to_key T) < poRank k).

Definition stepSafe (s : Step) (fuel : nat) : Prop :=
forall T target, inContext T target -> forall method p locals,
low (poRank k) (lastStepReturnType locals) = true ->
safe (ok p T)
     (methodStepBody allPageObjects (processMethod fuel allPageObjects)
        (parsePageObject fuel allPageObjects) target method p locals s)
     (fun l st' => ok p T st' /\ low (poRank k) (lastStepReturnType l) = true).

Definition loopSafe (steps : list Step) (fuel : nat) : Prop :=
forall T target, inContext T target -> forall method p locals,
low (poRank k) (lastStepReturnType locals) = true ->
safe (ok p T)
     (foldM (methodStepBody allPageObjects (processMethod fuel allPageObjects)
               (parsePageObject fuel allPageObjects) target method p)
            steps locals)
     (fun l st' => ok p T st' /\ low (poRank k) (lastStepReturnType l) = true).

Definition waitSafe (a0 : StepArg) (fuel : nat) : Prop :=
forall T target, inContext T target -> forall p,
safe (ok p T) (processMethod fuel allPageObjects target (waitForMethodOf a0) p)
     (fun d st' => ok p T st' /\ low (poRank k) (md_type d) = true).

Definition methodsSafe (b fuel : nat) : Prop :=
forall T, to_key T = k ->
forall m, In m (default [] (po_methods pageObject)) -> methodRank k (m_name m) < b ->
forall p, safe (ok p T) (processMethod fuel allPageObjects pageObject m p)
          (fun d st' => ok p T st' /\ low (poRank k) (md_type d) = true).

Lemma inContext_le T target : inContext T target -> poRank (to_key T) <= poRank k.
Proof. intros [_ [->|H]]; lia. Qed.

Lemma loopSafe_steps steps fuel :
(forall s, In s steps -> stepSafe s fuel) -> loopSafe steps fuel.
Proof.
intros H T target Hc method p locals Hl.
eapply safe_weaken.
- apply (safe_foldM
         (fun l st => ok p T st /\ low (poRank k) (lastStepReturnType l) = true)).
intros b s Hs. apply safe_pure. intros Hb. by apply H.
- intros st Hst. by split.
- intros l st Hst. exact Hst.
Qed.

Lemma waitSafe_loop a0 :
eventually (loopSafe (default [] (sa_predicate a0))) -> eventually (waitSafe a0).
Proof.
apply eventually_succ. intros fuel H T target Hc p. cbn [processMethod].
apply (processMethodBody_safe _ _ (poRank k)); [by eapply inContext_le|done|].
intros locals Hl. cbn [waitForMethodOf m_compose default]. by apply H.
Qed.

Lemma stepSafe_at b s fuel :
lowerSafe (poRank k) fuel -> methodsSafe b fuel ->
(forall a0 rest, isWaitForStep s = true -> s_args s = Some (a0 :: rest) ->
 waitSafe a0 fuel) ->
stepLow allPageObjects poRank (poRank k) s = true ->
callsBelow (methodRank k) pageObject b s = true ->
stepSafe s fuel.
Proof.
intros [Hparse Hmeth] Hmid Hwait Hs Hcalls T target Hc method p locals Hl.
destruct (heapGrows_resolver allPageObjects fuel) as [HgM HgP].
pose proof (inContext_le _ _ Hc) as Hle. destruct Hc as [Hget Hc].
apply (methodStepBody_safe _ _ (poRank k) HgM HgP Hparse Hmeth); try done.
- intros a0 rest Hw Ha. by eapply Hwait.
- intros T' target' p' a0 rest Hget' Hr Hw Ha. eapply Hwait; [done|done|].
split; [done|by right].
- intros name callee Hn Hf. destruct Hc as [Hkey|Hr].
+ rewrite Hkey in Hget. assert (target = pageObject) as -> by congruence.
  unfold callsBelow in Hcalls. rewrite Hn, Hf in Hcalls.
  apply Nat.ltb_lt in Hcalls.
  destruct (findMethod_In _ _ _ Hf) as [Hin Hname].
  rewrite Hkey. apply Hmid; [done|done|by rewrite Hname].
+ eapply Hmeth; [done|done|].
  by destruct (findMethod_In _ _ _ Hf).
Qed.

Lemma loopSafe_sized b :
eventually (methodsSafe b) ->
forall n steps,
(forall x, In x steps -> stepSize x <= n) ->
forallb (stepAll (stepLow allPageObjects poRank (poRank k))) steps = true ->
forallb (stepAll (callsBelow (methodRank k) pageObject b)) steps = true ->
eventually (loopSafe steps).
Proof.
intros Hmid. induction n as [|n IH]; intros steps Hsize Hlow Hcalls.
- destruct steps as [|s steps].
+ apply eventually_always. intros fuel. apply loopSafe_steps. intros s [].
+ specialize (Hsize s (or_introl eq_refl)). destruct s; cbn in Hsize. lia.
- eapply eventually_mono; [apply loopSafe_steps|].
apply eventually_forall_In. intros s Hin.
rewrite forallb_forall in Hlow, Hcalls.
pose proof (Hlow s Hin) as Hl. pose proof (Hcalls s Hin) as Hc.
rewrite stepAll_unfold in Hl, Hc.
apply andb_prop in Hl as [Hl Hlp]. apply andb_prop in Hc as [Hc Hcp].
assert (Hw : eventually (fun fuel => forall a0 rest,
               isWaitForStep s = true -> s_args s = Some (a0 :: rest) ->
               waitSafe a0 fuel)).
{ destruct (isWaitForStep s) eqn:Ew;
    [|apply eventually_always; intros; discriminate].
  destruct (s_args s) as [[|a0 rest]|] eqn:Ea;
    [apply eventually_always; intros; discriminate|
    |apply eventually_always; intros; discriminate].
  eapply eventually_mono;
    [|apply (waitSafe_loop a0)].
  - intros fuel H a1 rest1 _ [= <- <-]. exact H.
  - destruct (sa_predicate a0) as [predicate|] eqn:Ep; cbn [default].
    + cbn [negb orb] in Hlp, Hcp. apply IH; [|done|done].
      intros x Hx. pose proof (stepSize_predicate s a0 rest predicate x Ea Ep Hx).
      specialize (Hsize s Hin). lia.
    + apply eventually_always. intros fuel. apply loopSafe_steps. intros x []. }
pose proof (eventually_and _ _ Hlower (eventually_and _ _ Hmid Hw)) as Hev.
eapply eventually_mono; [|exact Hev].
intros fuel (H1 & H2 & H3). by eapply stepSafe_at.
Qed.

Lemma methodsSafe_all b : eventually (methodsSafe b).
Proof.
destruct (page_stratified _ _ Hk) as [Hpage Hacyclic].
induction b as [|b IH].
- exists 0. intros fuel _ T _ m _ Hr. lia.
- assert (H : eventually (fun fuel =>
              forall m, In m (default [] (po_methods pageObject)) ->
                methodRank k (m_name m) < S b ->
                forall T, to_key T = k -> forall p,
                  safe (ok p T) (processMethod fuel allPageObjects pageObject m p)
                       (fun d st' => ok p T st' /\
                                     low (poRank k) (md_type d) = true))).
{ apply (eventually_forall_In _
           (fun m fuel => methodRank k (m_name m) < S b ->
              forall T, to_key T = k -> forall p,
                safe (ok p T) (processMethod fuel allPageObjects pageObject m p)
                     (fun d st' => ok p T st' /\
                                   low (poRank k) (md_type d) = true))).
  intros m Hin.
  destruct (Nat.lt_ge_cases (methodRank k (m_name m)) (S b)) as [Hr|Hr];
    [|apply eventually_always; intros; lia].
  unfold pageLow in Hpage. apply andb_prop in Hpage as [_ Hm].
  rewrite forallb_forall in Hm. specialize (Hm m Hin).
  unfold methodLow in Hm. apply andb_prop in Hm as [Hrt Hsteps].
  unfold acyclicCalls in Hacyclic. rewrite forallb_forall in Hacyclic.
  specialize (Hacyclic m Hin). cbn beta in Hacyclic.
  eapply eventually_succ;
    [|apply (loopSafe_sized b IH
               (list_sum (map stepSize (default [] (m_compose m))))
               (default [] (m_compose m)))].
  - intros fuel Hloop _ T HT p. cbn [processMethod].
    apply (processMethodBody_safe _ _ (poRank k)); [by rewrite HT|done|].
    intros locals Hl. apply Hloop; [|done]. split; [by rewrite HT|by left].
  - intros x Hx. by apply le_list_sum.
  - done.
  - apply forallb_forall. intros x Hx. rewrite forallb_forall in Hacyclic.
    apply (stepAll_mono (callsBelow (methodRank k) pageObject (methodRank k (m_name m)))
                        (callsBelow (methodRank k) pageObject b))
      with (n := stepSize x); [|apply Nat.le_refl|by apply Hacyclic].
    intros y. unfold callsBelow.
    destruct (calledMethodName y) as [name|]; [|done].
    destruct (findMethod (po_methods pageObject) name); [|done].
    intros Hy. apply Nat.ltb_lt in Hy. apply Nat.ltb_lt. lia. }
eapply eventually_mono; [|exact H].
intros fuel Hf T HT m Hin Hr p. by apply Hf.
Qed.

Lemma key_methods_safe :
eventually (fun fuel =>
forall T, to_key T = k ->
forall m, In m (default [] (po_methods pageObject)) ->
forall p, safe (ok p T) (processMethod fuel allPageObjects pageObject m p)
            (fun d st' => ok p T st' /\ low (poRank k) (md_type d) = true)).
Proof.
assert (H : eventually (fun fuel =>
            forall m, In m (default [] (po_methods pageObject)) ->
              methodsSafe (S (methodRank k (m_name m))) fuel)).
{ apply (eventually_forall_In _
         (fun m fuel => methodsSafe (S (methodRank k (m_name m))) fuel)).
intros m _. apply methodsSafe_all. }
eapply eventually_mono; [|exact H].
intros fuel Hf T HT m Hin p. apply (Hf m Hin T HT m Hin). lia.
Qed.

Lemma key_parse_safe :
eventually (fun fuel =>
forall T, to_key T = k ->
  safe wf (parsePageObject fuel allPageObjects T) (fun p st' => ok p T st')).
Proof.
eapply eventually_succ; [|apply key_methods_safe].
intros fuel H T HT. cbn [parsePageObject].
apply (parsePageObjectBody_safe _ T pageObject); [by rewrite HT|].
intros p m Hin. rewrite HT. by apply H.
Qed.
End Key.

Lemma lowerSafe_all R : eventually (lowerSafe R).
Proof.
induction R as [|R IH].
- exists 0. intros fuel _. split; intros; lia.
- assert (Hkeys : eventually (fun fuel =>
                    forall key, In key (map fst allPageObjects) ->
                      poRank key = R ->
                      forall target, obj_get key allPageObjects = Some target ->
                      (forall T, to_key T = key ->
                         safe wf (parsePageObject fuel allPageObjects T)
                              (fun p st' => ok p T st')) /\
                      (forall T, to_key T = key ->
                       forall m, In m (default [] (po_methods target)) ->
                       forall p, safe (ok p T)
                                   (processMethod fuel allPageObjects target m p)
                                   (fun d st' => ok p T st' /\
                                                 low (poRank key) (md_type d) = true)))).
  { apply (eventually_forall_In _
             (fun key fuel =>
                poRank key = R ->
                forall target, obj_get key allPageObjects = Some target ->
                (forall T, to_key T = key ->
                   safe wf (parsePageObject fuel allPageObjects T)
                        (fun p st' => ok p T st')) /\
                (forall T, to_key T = key ->
                 forall m, In m (default [] (po_methods target)) ->
                 forall p, safe (ok p T)
                             (processMethod fuel allPageObjects target m p)
                             (fun d st' => ok p T st' /\
                                           low (poRank key) (md_type d) = true)))).
    intros key _.
    destruct (obj_get key allPageObjects) as [target|] eqn:Eg;
      [|apply eventually_always; intros; discriminate].
    destruct (Nat.eq_dec (poRank key) R) as [Er|Er];
      [|apply eventually_always; intros; lia].
    assert (Hl : eventually (lowerSafe (poRank key))) by (by rewrite Er).
    pose proof (eventually_and _ _ (key_parse_safe key target Eg Hl)
                  (key_methods_safe key target Eg Hl)) as Hev.
    eapply eventually_mono; [|exact Hev].
    intros fuel [Hp Hm] _ target' [= <-]. split; [exact Hp|exact Hm]. }
  eapply eventually_mono; [|exact (eventually_and _ _ IH Hkeys)].
  intros fuel [[Hp Hm] Hk]. split.
  + intros T target Hget Hr.
    destruct (Nat.eq_dec (poRank (to_key T)) R) as [Er|Er].
    * apply (Hk (to_key T)) in Hget as Hsafe; [by apply Hsafe| |done].
      apply obj_get_In in Hget. apply in_map_iff. by exists (to_key T, target).
    * eapply Hp; [done|lia].
  + intros T target Hget Hr callee Hin p.
    destruct (Nat.eq_dec (poRank (to_key T)) R) as [Er|Er].
    * apply (Hk (to_key T)) in Hget as Hsafe; [by apply Hsafe| |done].
      apply obj_get_In in Hget. apply in_map_iff. by exists (to_key T, target).
    * eapply Hm; [done|lia|done].
Qed.
End Stratified.

Lemma wfState_empty allPageObjects poRank : wfState allPageObjects poRank emptyState.
Proof. intros p parsed H. cbn in H. by rewrite lookup_nil in H. Qed.



(** * Repeated resolution *)

(** C2, counterexample: the second resolution of a URI that is in the cache
    is not answered from the cache: the definition is walked again, a second
    parsed page object is built and replaces the cached one, and the declared
    argument array of [fill] has received the field's argument once more. *)
Lemma C2_counterexample :
  exists st1 st2,
    parsePageObject 3 formSet (TStr "app/form") formLoaded = Done 0 st1 /\
    st_cache st1 !! "app/form" = Some 0 /\
    methodArgsIn st1 0 "fill" = Some [mkArg "value" "string"; mkArg "name" "string"] /\
    parsePageObject 3 formSet (TStr "app/form") st1 = Done 1 st2 /\
    st_cache st2 !! "app/form" = Some 1 /\
    length (st_heap st2) = 2 /\
    methodArgsIn st2 1 "fill" =
      Some [mkArg "value" "string"; mkArg "name" "string"; mkArg "name" "string"] /\
    methodArgsIn st2 1 "fill" <> methodArgsIn st1 0 "fill".
Proof.
  do 2 eexists. split; [vm_compute; reflexivity|].
  split; [vm_compute; reflexivity|]. split; [vm_compute; reflexivity|].
  split; [vm_compute; reflexivity|]. split; [vm_compute; reflexivity|].
  split; [vm_compute; reflexivity|]. split; [vm_compute; reflexivity|].
  vm_compute. discriminate.
Qed.

Section Simulation.
(** The two runs start with [ha] and [hb] parsed page objects and with
    [aa] and [ab] arrays; the declared arrays lie below [n0] in both. *)
Variables ha hb aa ab n0 : nat.
Hypothesis n0_aa : n0 <= aa.
Hypothesis n0_ab : n0 <= ab.

Definition prefRel (pa pb : nat) : Prop :=
  ha <= pa /\ hb <= pb /\ pa - ha = pb - hb.

Definition arrRel (ra rb : nat) : Prop :=
  (ra = rb /\ ra < n0) \/ (aa <= ra /\ ab <= rb /\ ra - aa = rb - ab).

Definition descRel (da db : MethodDesc) : Prop :=
  db = withArgs da (md_effectiveArgs db) /\
  arrRel (md_effectiveArgs da) (md_effectiveArgs db).

Definition parsedRel (a b : Parsed) : Prop :=
  p_uri a = p_uri b /\ p_source a = p_source b /\ p_author a = p_author b /\
  p_description a = p_description b /\ p_elements a = p_elements b /\
  forall name, option_Forall2 descRel (p_methods a !! name) (p_methods b !! name).

Definition sim (sa sb : State) : Prop :=
  ha <= length (st_heap sa) /\ hb <= length (st_heap sb) /\
  Forall2 parsedRel (drop ha (st_heap sa)) (drop hb (st_heap sb)) /\
  aa <= length (st_arrays sa) /\ ab <= length (st_arrays sb) /\
  drop aa (st_arrays sa) = drop ab (st_arrays sb).

Definition orel {A B} (R : A -> B -> Prop)
    (oa : outcome State A) (ob : outcome State B) : Prop :=
  match oa, ob with
  | Done a sa, Done b sb => R a b /\ sim sa sb
  | Throw ea, Throw eb => ea = eb
  | OutOfFuel, OutOfFuel => True
  | _, _ => False
  end.

Definition mrel {A B} (R : A -> B -> Prop) (ma : M A) (mb : M B) : Prop :=
  forall sa sb, sim sa sb -> orel R (ma sa) (mb sb).

Lemma mrel_ret {A B} (R : A -> B -> Prop) a b : R a b -> mrel R (ret a) (ret b).
Proof. intros H sa sb Hs. by split. Qed.

Lemma mrel_throw {A B} (R : A -> B -> Prop) e : mrel R (throw e) (throw e).
Proof. intros sa sb Hs. done. Qed.

Lemma mrel_outOfFuel {A B} (R : A -> B -> Prop) : mrel R outOfFuel outOfFuel.
Proof. intros sa sb Hs. done. Qed.

Lemma mrel_bind {A B A' B'} (R : A -> B -> Prop) (R' : A' -> B' -> Prop)
    ma mb (ka : A -> M A') (kb : B -> M B') :
  mrel R ma mb -> (forall a b, R a b -> mrel R' (ka a) (kb b)) ->
  mrel R' (bind ma ka) (bind mb kb).
Proof.
  intros Hm Hk sa sb Hs. unfold bind. specialize (Hm sa sb Hs). unfold orel in Hm.
  destruct (ma sa) as [a sa'|ea|], (mb sb) as [b sb'|eb|]; try done.
  destruct Hm as [Hab Hs']. by apply Hk.
Qed.

Lemma mrel_foldM {A B B'} (R : B -> B' -> Prop)
    (fa : B -> A -> M B) (fb : B' -> A -> M B') l acc acc' :
  (forall x b b', In x l -> R b b' -> mrel R (fa b x) (fb b' x)) ->
  R acc acc' -> mrel R (foldM fa l acc) (foldM fb l acc').
Proof.
  revert acc acc'. induction l as [|x l IH]; intros acc acc' H Hacc; cbn.
  - by apply mrel_ret.
  - eapply mrel_bind; [apply H; [by left|done]|].
    intros b b' Hb. apply IH; [|done]. intros y c c' Hy. apply H. by right.
Qed.

Lemma mrel_forEachM {A} (fa fb : A -> M unit) l :
  (forall x, In x l -> mrel eq (fa x) (fb x)) ->
  mrel eq (forEachM fa l) (forEachM fb l).
Proof.
  induction l as [|x l IH]; intros H; cbn.
  - by apply mrel_ret.
  - eapply mrel_bind; [apply H; by left|]. intros _ _ _. apply IH.
    intros y Hy. apply H. by right.
Qed.

(** The primitives *)

Lemma mrel_readParsed pa pb :
  prefRel pa pb -> mrel parsedRel (readParsed pa) (readParsed pb).
Proof.
  intros (Ha & Hb & Hd) sa sb Hs. pose proof Hs as (Hla & Hlb & Hh & _).
  unfold readParsed.
  rewrite Forall2_lookup in Hh. specialize (Hh (pa - ha)).
  rewrite lookup_drop in Hh. rewrite Hd, lookup_drop in Hh.
  replace (ha + (pb - hb)) with pa in Hh by lia.
  replace (hb + (pb - hb)) with pb in Hh by lia.
  destruct Hh as [x y Hxy|]; [|done]. by split.
Qed.

Lemma parsedRel_setMethod a b name da db :
  parsedRel a b -> descRel da db ->
  parsedRel (setParsedMethod a name da) (setParsedMethod b name db).
Proof.
  intros (?&?&?&?&?&Hm) Hd. repeat split; try done. intros n. cbn.
  rewrite !lookup_insert. case_decide; [by constructor|apply Hm].
Qed.

Lemma mrel_setMethod pa pb name da db :
  prefRel pa pb -> descRel da db ->
  mrel eq (setMethod pa name da) (setMethod pb name db).
Proof.
  intros Hp Hd sa sb Hs. pose proof (mrel_readParsed pa pb Hp sa sb Hs) as Hr.
  destruct Hp as (Ha & Hb & Hpd). destruct Hs as (Hla & Hlb & Hh & Haa & Hab & Harr).
  unfold readParsed in Hr. unfold setMethod.
  destruct (st_heap sa !! pa) as [x|], (st_heap sb !! pb) as [y|]; try done.
  destruct Hr as [Hxy _]. split; [done|]. unfold sim. cbn.
  rewrite !length_insert. repeat split; try done.
  rewrite !drop_insert_ge by done. rewrite Hpd.
  apply Forall2_insert; [done|]. by apply parsedRel_setMethod.
Qed.

Lemma mrel_allocParsed a b :
  parsedRel a b -> mrel prefRel (allocParsed a) (allocParsed b).
Proof.
  intros Hab sa sb (Hla & Hlb & Hh & Haa & Hab' & Harr). unfold allocParsed. cbn.
  pose proof (Forall2_length _ _ _ Hh) as Hlen. rewrite !length_drop in Hlen.
  split; [repeat split; lia|]. unfold sim. cbn. rewrite !length_app. cbn.
  repeat split; try done; try lia.
  rewrite !drop_app_le by done. apply Forall2_app; [done|]. by constructor.
Qed.

Lemma mrel_allocArray l : mrel arrRel (allocArray l) (allocArray l).
Proof.
  intros sa sb (Hla & Hlb & Hh & Haa & Hab & Harr). unfold allocArray. cbn.
  pose proof (f_equal length Harr) as Hlen. rewrite !length_drop in Hlen.
  split; [right; repeat split; lia|]. unfold sim. cbn. rewrite !length_app. cbn.
  repeat split; try done; try lia.
  rewrite !drop_app_le by done. by rewrite Harr.
Qed.

Lemma mrel_pushArray ra rb l :
  arrRel ra rb -> mrel eq (pushArray ra l) (pushArray rb l).
Proof.
  intros Hr sa sb (Hla & Hlb & Hh & Haa & Hab & Harr). unfold pushArray.
  destruct Hr as [[<- Hlt]|(Ha & Hb & Hd)].
  - destruct (lookup_lt_is_Some_2 (st_arrays sa) ra) as [x Hx]; [lia|].
    destruct (lookup_lt_is_Some_2 (st_arrays sb) ra) as [y Hy]; [lia|].
    rewrite Hx, Hy. split; [done|]. unfold sim. cbn. rewrite !length_insert.
    repeat split; try done. rewrite !drop_insert_lt by lia. done.
  - assert (Hl : st_arrays sa !! ra = st_arrays sb !! rb).
    { replace ra with (aa + (ra - aa)) by lia.
      replace rb with (ab + (ra - aa)) by lia.
      by rewrite <- !lookup_drop, Harr. }
    rewrite Hl. destruct (st_arrays sb !! rb) as [old|]; [|done].
    split; [done|]. unfold sim. cbn. rewrite !length_insert. repeat split; try done.
    rewrite !drop_insert_ge by done. by rewrite Harr, Hd.
Qed.

Lemma mrel_cachePut ka kb pa pb : mrel eq (cachePut ka pa) (cachePut kb pb).
Proof. intros sa sb Hs. by split. Qed.

Lemma mrel_consoleLog la lb : mrel eq (consoleLog la) (consoleLog lb).
Proof. intros sa sb Hs. by split. Qed.

(** The resolver *)
Variable allPageObjects : PageObjects.
Hypothesis declared : declaredBelow n0 allPageObjects.

Section Bodies.
Variable recM : PageObject aref -> Method aref -> pref -> M MethodDesc.
Variable recP : TypeVal -> M pref.
Hypothesis recM_rel : forall po m pa pb,
  pageBelow n0 po -> argsBelow n0 m -> prefRel pa pb ->
  mrel descRel (recM po m pa) (recM po m pb).
Hypothesis recP_rel : forall uri, mrel prefRel (recP uri) (recP uri).

Lemma stepElementInfo_rel a b s :
  parsedRel a b -> stepElementInfo a s = stepElementInfo b s.
Proof.
  intros (_&_&_&_&He&_). unfold stepElementInfo, referencedElementOf. by rewrite He.
Qed.

Lemma findMethod_below po name callee :
  pageBelow n0 po -> findMethod (po_methods po) name = Some callee ->
  argsBelow n0 callee.
Proof.
  intros Hpo H. apply Hpo. unfold findMethod in H.
  destruct (po_methods po) as [l|]; [|done]. by apply find_some in H as [H _].
Qed.

Lemma mrel_processStep po s pa pb :
  pageBelow n0 po -> prefRel pa pb ->
  mrel eq (processStep recM po s pa) (processStep recM po s pb).
Proof.
  intros Hpo Hp. unfold processStep.
  destruct (s_applyExternal s); [by apply mrel_ret|].
  eapply mrel_bind; [by apply mrel_readParsed|]. intros a b Hab.
  rewrite (stepElementInfo_rel a b s Hab).
  destruct (s_apply s) as [apply|]; [|by apply mrel_ret].
  destruct (truthy_s apply); [|by apply mrel_ret].
  destruct (str_eqb apply "waitFor").
  - destruct (s_args s) as [[|a0 rest]|]; [apply mrel_throw| |apply mrel_throw].
    eapply mrel_bind; [apply recM_rel; [done| |done]|].
    + intros r [=].
    + intros da db [Hd _]. apply mrel_ret. rewrite Hd. reflexivity.
  - destruct (negb (truthy_os (s_element s)));
      [|destruct (candidateIntrinsicMethods apply); by apply mrel_ret].
    destruct (str_eqb apply "returnSelf"); [by apply mrel_ret|].
    destruct Hab as (_&_&_&_&_&Hm). destruct (Hm apply) as [da db [Hd _]|].
    + apply mrel_ret. rewrite Hd. reflexivity.
    + destruct (findMethod (po_methods po) apply) as [callee|] eqn:Ef;
        [|by apply mrel_ret].
      eapply mrel_bind;
        [apply recM_rel; [done|by eapply findMethod_below|done]|].
      intros da db Hd. eapply mrel_bind; [by apply mrel_setMethod|].
      intros _ _ _. apply mrel_ret. destruct Hd as [Hd _]. rewrite Hd. reflexivity.
Qed.

Lemma mrel_runStep m po pa pb locals s :
  pageBelow n0 po -> prefRel pa pb ->
  mrel eq (runStep recM m po pa locals s) (runStep recM m po pb locals s).
Proof.
  intros Hpo Hp. unfold runStep.
  eapply mrel_bind; [by apply mrel_processStep|]. intros i ? <-. by apply mrel_ret.
Qed.

Lemma mrel_methodStepBody po m pa pb locals s :
  pageBelow n0 po -> prefRel pa pb ->
  mrel eq (methodStepBody allPageObjects recM recP po m pa locals s)
          (methodStepBody allPageObjects recM recP po m pb locals s).
Proof.
  intros Hpo Hp. unfold methodStepBody.
  destruct (s_chain s && negb (isEmptyString (lastStepReturnType locals)));
    [|by apply mrel_runStep].
  destruct (obj_get (to_key (lastStepReturnType locals)) allPageObjects)
    as [target|] eqn:Et.
  - eapply mrel_bind; [apply recP_rel|]. intros qa qb Hq.
    apply mrel_runStep; [by eapply declared|done].
  - eapply mrel_bind; [by apply mrel_readParsed|]. intros a b (Hu&_).
    rewrite Hu. eapply mrel_bind; [apply mrel_consoleLog|].
    intros _ _ _. by apply mrel_ret.
Qed.

Lemma mrel_pushReferencedArgs ra rb els :
  arrRel ra rb -> mrel eq (pushReferencedArgs ra els) (pushReferencedArgs rb els).
Proof.
  intros Hr. unfold pushReferencedArgs. apply mrel_forEachM. intros x _.
  destruct (eo_effectiveArgs x) as [[|a l]|]; try by apply mrel_ret.
  by apply mrel_pushArray.
Qed.

Lemma mrel_processMethodBody po m pa pb :
  pageBelow n0 po -> argsBelow n0 m -> prefRel pa pb ->
  mrel descRel (processMethodBody allPageObjects recM recP po m pa)
               (processMethodBody allPageObjects recM recP po m pb).
Proof.
  intros Hpo Hm Hp. unfold processMethodBody.
  eapply mrel_bind; [by apply mrel_readParsed|]. intros a b Hab.
  destruct Hab as (_&_&_&_&_&Hmeth). destruct (Hmeth (m_name m)) as [da db Hd|];
    [by apply mrel_ret|].
  eapply (mrel_bind arrRel).
  - destruct (m_args m) as [r|] eqn:Ea; [|apply mrel_allocArray].
    apply mrel_ret. left. split; [done|]. by apply Hm.
  - intros ra rb Hr. destruct (Nat.eqb _ 0).
    + eapply mrel_bind.
      * apply (mrel_foldM eq); [|reflexivity]. intros s l ? _ <-.
        by apply mrel_methodStepBody.
      * intros l ? <-. eapply mrel_bind; [by apply mrel_pushReferencedArgs|].
        intros _ _ _. apply mrel_ret. by split.
    + apply mrel_ret. by split.
Qed.

Lemma mrel_processMethods po pa pb :
  pageBelow n0 po -> prefRel pa pb ->
  mrel eq (processMethods recM po pa) (processMethods recM po pb).
Proof.
  intros Hpo Hp. unfold processMethods.
  destruct (po_methods po) as [l|] eqn:El; [|by apply mrel_ret].
  apply mrel_forEachM. intros m Hin.
  eapply mrel_bind; [apply recM_rel; [done| |done]|].
  - apply Hpo. by rewrite El.
  - intros da db Hd. by apply mrel_setMethod.
Qed.

Lemma mrel_parsePageObjectBody uri :
  mrel prefRel (parsePageObjectBody allPageObjects recM uri)
               (parsePageObjectBody allPageObjects recM uri).
Proof.
  unfold parsePageObjectBody.
  destruct (obj_get (to_key uri) allPageObjects) as [po|] eqn:Eg; [|apply mrel_throw].
  eapply mrel_bind.
  - apply mrel_allocParsed. unfold parsedRel. cbn.
    repeat (split; [done|]). intros name. rewrite !lookup_empty. constructor.
  - intros pa pb Hp. eapply mrel_bind; [apply mrel_processMethods; [by eapply declared|done]|].
    intros _ _ _. eapply mrel_bind; [apply mrel_cachePut|].
    intros _ _ _. by apply mrel_ret.
Qed.
End Bodies.

Lemma mrel_resolver fuel :
  (forall po m pa pb,
     pageBelow n0 po -> argsBelow n0 m -> prefRel pa pb ->
     mrel descRel (processMethod fuel allPageObjects po m pa)
                  (processMethod fuel allPageObjects po m pb)) /\
  (forall uri, mrel prefRel (parsePageObject fuel allPageObjects uri)
                            (parsePageObject fuel allPageObjects uri)).
Proof.
  induction fuel as [|fuel [IHm IHp]].
  - split; intros; apply mrel_outOfFuel.
  - split; intros; cbn [processMethod parsePageObject].
    + by apply mrel_processMethodBody.
    + by apply mrel_parsePageObjectBody.
Qed.
End Simulation.

(** C2 (amended): resolution does not depend on the state it starts in, in
    particular not on the cache: from any two states, two resolutions of a
    URI end alike, each builds a new parsed page object and stores it in the
    cache under the URI, the element maps are identical and the method maps
    have the same names with descriptors that agree in every field but the
    argument array: for a method that declares no [args] it is a new array
    with the same content in both, for a method that declares [args] it is
    the declared array itself. *)
Theorem C2_resolution_rebuilds_alike allPageObjects n0 fuel uri sa sb :
  declaredBelow n0 allPageObjects ->
  n0 <= length (st_arrays sa) -> n0 <= length (st_arrays sb) ->
  match parsePageObject fuel allPageObjects uri sa,
        parsePageObject fuel allPageObjects uri sb with
  | Done pa sa', Done pb sb' =>
      pa = length (st_heap sa) /\ pb = length (st_heap sb) /\
      st_cache sa' !! to_key uri = Some pa /\ st_cache sb' !! to_key uri = Some pb /\
      exists parsedA parsedB,
        st_heap sa' !! pa = Some parsedA /\ st_heap sb' !! pb = Some parsedB /\
        p_elements parsedA = p_elements parsedB /\
        forall name,
          option_Forall2 (sameMethod n0 sa' sb')
            (p_methods parsedA !! name) (p_methods parsedB !! name)
  | Throw ea, Throw eb => ea = eb
  | OutOfFuel, OutOfFuel => True
  | _, _ => False
  end.
Proof.
  intros Hdecl Ha Hb.
  pose proof (proj2 (mrel_resolver (length (st_heap sa)) (length (st_heap sb))
                       (length (st_arrays sa)) (length (st_arrays sb)) n0 Ha Hb
                       allPageObjects Hdecl fuel) uri sa sb) as H.
  unfold orel in H.
  destruct (parsePageObject fuel allPageObjects uri sa) as [pa sa'|ea|] eqn:Ea,
           (parsePageObject fuel allPageObjects uri sb) as [pb sb'|eb|] eqn:Eb;
    try (apply H; unfold sim; rewrite !drop_all; by repeat split).
  destruct H as [Hp Hs].
  { unfold sim. rewrite !drop_all. by repeat split. }
  apply parsePageObject_result in Ea as (poA & parsedA & _ & HpA & HhA & HcA & _ & _).
  apply parsePageObject_result in Eb as (poB & parsedB & _ & HpB & HhB & HcB & _ & _).
  repeat (split; [done|]). exists parsedA, parsedB. split; [done|]. split; [done|].
  destruct Hs as (Hla & Hlb & Hh & Haa & Hab & Harr).
  destruct Hp as (Hpa & Hpb & Hpd).
  assert (Hrel : parsedRel (length (st_arrays sa)) (length (st_arrays sb)) n0 parsedA parsedB).
  { eapply (Forall2_lookup_lr _ _ _ (pa - length (st_heap sa))); [exact Hh|..];
      rewrite lookup_drop.
    - by replace (length (st_heap sa) + (pa - length (st_heap sa))) with pa by lia.
    - rewrite Hpd.
      by replace (length (st_heap sb) + (pb - length (st_heap sb))) with pb by lia. }
  destruct Hrel as (_&_&_&_&He&Hm). split; [done|]. intros name.
  destruct (Hm name) as [da db [Hd Hr]|]; constructor. split; [done|].
  destruct Hr as [[? ?]|(Hra & Hrb & Hrd)]; [by left|right].
  split; [lia|]. split; [lia|]. unfold arrayOf.
  replace (md_effectiveArgs da)
    with (length (st_arrays sa) + (md_effectiveArgs da - length (st_arrays sa))) by lia.
  replace (md_effectiveArgs db)
    with (length (st_arrays sb) + (md_effectiveArgs da - length (st_arrays sa))) by lia.
  by rewrite <- !lookup_drop, Harr.
Qed.

Lemma formSet_declaredBelow : declaredBelow 1 formSet.
Proof.
  intros key po H. unfold formSet in H. cbn [obj_get] in H.
  destruct (str_eqb "app/form" key); [|done].
  injection H as <-. intros m [<-|[]] r [= <-]. lia.
Qed.

Lemma C2_resolution_rebuilds_alike_witness :
  declaredBelow 1 formSet /\
  1 <= length (st_arrays formLoaded) /\ 1 <= length (st_arrays formAfter) /\
  match parsePageObject 3 formSet (TStr "app/form") formLoaded,
        parsePageObject 3 formSet (TStr "app/form") formAfter with
  | Done pa sa', Done pb sb' =>
      pa = length (st_heap formLoaded) /\ pb = length (st_heap formAfter) /\
      st_cache sa' !! "app/form" = Some pa /\ st_cache sb' !! "app/form" = Some pb /\
      exists parsedA parsedB,
        st_heap sa' !! pa = Some parsedA /\ st_heap sb' !! pb = Some parsedB /\
        p_elements parsedA = p_elements parsedB /\
        forall name,
          option_Forall2 (sameMethod 1 sa' sb')
            (p_methods parsedA !! name) (p_methods parsedB !! name)
  | Throw ea, Throw eb => ea = eb
  | OutOfFuel, OutOfFuel => True
  | _, _ => False
  end.
Proof.
  split; [exact formSet_declaredBelow|].
  split; [vm_compute; lia|]. split; [vm_compute; lia|].
  apply (C2_resolution_rebuilds_alike formSet 1 3 (TStr "app/form") formLoaded formAfter).
  - exact formSet_declaredBelow.
  - vm_compute. lia.
  - vm_compute. lia.
Defined.

(** * Reloading the database *)

(** C9, at the failing input: the count is the number of distinct URIs, but
    the URI stays in [rootPageObjectUris] although the definition that is
    resolved for it is no root, and it is listed twice when both artifacts
    declare a root. *)
Theorem C9_root_list_counts_every_artifact :
  (exists st' parsed,
     reloadDatabase 2 overriding emptyState = Done 1 st' /\
     rootPageObjectUris st' = ["app/home"] /\
     getPageObject st' "app/home" = Some parsed /\
     p_source parsed = "plain" /\
     p_elements parsed !! DataTypes.ROOT = None) /\
  (exists st',
     reloadDatabase 2 duplicated emptyState = Done 1 st' /\
     rootPageObjectUris st' = ["app/home"; "app/home"]).
Proof.
  split.
  - do 2 eexists. split; [vm_compute; reflexivity|]. repeat split.
  - eexists. split; [vm_compute; reflexivity|]. reflexivity.
Qed.

(** * The walker *)

Lemma pureW_bind {A B} (m : W A) (k : A -> W B) :
  pureW m -> (forall a, pureW (k a)) -> pureW (bind m k).
Proof. apply steps_bind. intros a b c -> ->. done. Qed.

Lemma pureW_ret {A} (a : A) : pureW (ret a).
Proof. by apply steps_ret. Qed.

Lemma pureW_throw {A} e : pureW (@throw WStore A e).
Proof. apply steps_throw. Qed.

Lemma pureW_readArgs r : pureW (readArgs r).
Proof. intros st a st'. unfold readArgs. destruct (st !! r); [|done]. by intros [= _ <-]. Qed.

Lemma pureW_foldM {A B} (body : B -> A -> W B) l acc :
  (forall b x, pureW (body b x)) -> pureW (foldM body l acc).
Proof.
  intros H. apply steps_foldM; [done|by intros a b c -> ->|]. intros b x _. apply H.
Qed.

Ltac pure_tac :=
  repeat first
    [ apply pureW_ret | apply pureW_throw | apply pureW_readArgs
    | apply steps_outOfFuel
    | assumption
    | apply pureW_bind; [ | intros ? ]
    | match goal with
      | |- pureW (match ?x with _ => _ end) => destruct x
      | |- pureW (if ?x then _ else _) => destruct x
      | |- steps eq (match ?x with _ => _ end) => destruct x
      | |- steps eq (if ?x then _ else _) => destruct x
      end ].

Section WalkerFrame.
Context {Node : Type}.
Variable doc : Document Node.
Variable pageObjectResolver : TypeVal -> option Parsed.

Lemma pureW_followFilterApply fuel current effectiveApply :
  pureW (followFilterApply pageObjectResolver fuel current effectiveApply).
Proof.
  revert current effectiveApply. induction fuel as [|fuel IH]; intros current apply.
  - apply steps_outOfFuel.
  - cbn [followFilterApply]. destruct current as [d|d|]; [| |apply pureW_throw].
    + destruct (ed_type d) as [t|]; [|apply pureW_ret].
      destruct (truthy_t t && type_includes_slash t); [|apply pureW_ret].
      destruct (pageObjectResolver t) as [parsed|]; [|apply pureW_throw].
      destruct (p_methods parsed !! apply_key apply); [apply IH|].
      destruct (p_elements parsed !! apply_key apply); apply IH.
    + destruct (truthy_t (md_type d) && type_includes_slash (md_type d));
        [|apply pureW_ret].
      destruct (pageObjectResolver (md_type d)) as [parsed|]; [|apply pureW_throw].
      destruct (p_methods parsed !! apply_key apply); [apply IH|].
      destruct (p_elements parsed !! apply_key apply); apply IH.
Qed.

Lemma pureW_getFilterInfo fuel e args :
  pureW (getFilterInfo pageObjectResolver fuel e args).
Proof.
  unfold getFilterInfo. destruct e as [|d]; [apply pureW_ret|].
  destruct (returnAll (ed_selector d)); [|apply pureW_ret].
  destruct (ed_filter d) as [f|]; [|apply pureW_ret].
  destruct (f_apply f) as [apply|]; [|apply pureW_ret].
  destruct (truthy_s apply); [|apply pureW_ret].
  apply pureW_bind; [apply pureW_followFilterApply|]. intros current.
  pure_tac.
Qed.

Lemma pureW_querySelector node selector : pureW (querySelector doc node selector).
Proof. unfold querySelector. pure_tac. Qed.

Lemma pureW_passesFilter info value element :
  pureW (passesFilter doc info value element).
Proof.
  unfold passesFilter. apply pureW_bind.
  - apply pureW_foldM. intros b x. unfold descend. pure_tac. apply pureW_querySelector.
  - intros eff. apply pureW_bind; [unfold candidateValue; pure_tac|].
    intros c. pure_tac.
Qed.

Lemma pureW_filterM (keep : Node -> W bool) l :
  (forall x, pureW (keep x)) -> pureW (filterM keep l).
Proof.
  intros H. induction l as [|x l IH]; cbn; [apply pureW_ret|].
  apply pureW_bind; [apply H|]. intros k.
  apply pureW_bind; [apply IH|]. intros r. apply pureW_ret.
Qed.

Lemma pureW_filterElements elements info :
  pureW (filterElements doc elements info).
Proof.
  unfold filterElements. destruct info as [info|]; [|apply pureW_ret].
  destruct elements as [|e els]; [apply pureW_ret|].
  destruct (fi_args info) as [|a0 rest]; [apply pureW_ret|].
  apply pureW_bind; [apply pureW_filterM; intros x; apply pureW_passesFilter|].
  intros r. pure_tac.
Qed.

Lemma pureW_queryElements d info parent selector :
  pureW (queryElements doc d info parent selector).
Proof.
  unfold queryElements. apply pureW_bind; [pure_tac|]. intros els.
  apply pureW_bind; [|intros; apply pureW_ret].
  destruct (ed_filter d); [|apply pureW_ret].
  destruct (returnAll (ed_selector d)); [|apply pureW_ret].
  apply pureW_bind; [apply pureW_filterElements|]. intros r. pure_tac.
Qed.
End WalkerFrame.

Lemma bind_Done {S A B} (m : ST S A) (k : A -> ST S B) st b st' :
  bind m k st = Done b st' ->
  exists a st1, m st = Done a st1 /\ k a st1 = Done b st'.
Proof.
  unfold bind. destruct (m st) as [a st1| |]; [|done..]. intros H. by exists a, st1.
Qed.

(** C6, counterexample: the argument of the filter has no value, the filter
    object holds no argument and [#filterElements] answers the empty list;
    [getElement] then falls back on the three items the selector matched and
    answers the first of them, and so does [walkElements].  A filter without
    matcher makes [#getFilterInfo] throw. *)
Lemma C6_counterexample :
  (exists info,
     getFilterInfo noPageObjects 2 (Elem (itemsDesc byText)) 0 noValue
     = Done (Some info) noValue /\
     fi_args info = [] /\
     filterElements toyDoc [4; 5; 6] (Some info) noValue = Done [] noValue /\
     getElement toyDoc (Elem (itemsDesc byText)) 0 (Some info) (Some 0) noValue
     = Done (Some 4) noValue) /\
  querySelectorAll toyDoc 0 "li" = Some [4; 5; 6] /\
  walkElements toyDoc noPageObjects 2 (Some 0) (MemberElement (itemsDesc byText)) 0 ∅ noValue
  = Done (Some 4) noValue /\
  getFilterInfo noPageObjects 2 (Elem (itemsDesc matcherless)) 0 noValue
  = Throw "TypeError: matcher is undefined".
Proof.
  split; [|split; [|split]]; [|reflexivity|vm_compute; reflexivity|vm_compute; reflexivity].
  eexists. split; [vm_compute; reflexivity|]. split; [reflexivity|].
  split; vm_compute; reflexivity.
Qed.

Section FilterEvaluation.
Context {Node : Type}.
Variable doc : Document Node.
Variable pageObjectResolver : TypeVal -> option Parsed.

(** What [#getFilterInfo] returns when it returns a filter object. *)
Lemma getFilterInfo_Some fuel d args st info st' argValues :
  getFilterInfo pageObjectResolver fuel (Elem d) args st = Done (Some info) st' ->
  st !! args = Some argValues ->
  st' = st /\
  exists f apply matcher matcherArgs current,
    returnAll (ed_selector d) = true /\ ed_filter d = Some f /\
    f_apply f = Some apply /\ truthy_s apply = true /\
    f_matcher f = Some matcher /\ matcher_args matcher = Some matcherArgs /\
    followFilterApply pageObjectResolver fuel (DescElement d) (ApplyName apply) st
    = Done current st /\
    info = {| fi_apply := match current with
                          | DescMethod m => Some (md_lastStepApply m)
                          | _ => None
                          end;
              fi_matcherType := matcher_type matcher;
              fi_args := List.filter (valueBound (map arg_name matcherArgs)) argValues;
              fi_findFirst := findFirst f;
              fi_attribute := "";
              fi_additionalElements := match current with
                                       | DescMethod m => md_elements m
                                       | _ => []
                                       end |}.
Proof.
  intros H Hargs. split; [symmetry; by eapply pureW_getFilterInfo|].
  unfold getFilterInfo in H.
  destruct (returnAll (ed_selector d)); [|done].
  destruct (ed_filter d) as [f|]; [|done].
  destruct (f_apply f) as [apply|] eqn:Ea; [|done].
  destruct (truthy_s apply) eqn:Et; [|done].
  apply bind_Done in H as (current & st1 & Hf & H).
  pose proof (pureW_followFilterApply pageObjectResolver _ _ _ _ _ _ Hf) as <-.
  destruct (f_matcher f) as [matcher|] eqn:Em; [|done].
  destruct (matcher_args matcher) as [margs|] eqn:Ema; [|done].
  apply bind_Done in H as (vals & st2 & Hr & H).
  unfold readArgs in Hr. rewrite Hargs in Hr. injection Hr as <- <-.
  injection H as <- _. exists f, apply, matcher, margs, current. repeat split; done.
Qed.

(** [getElement] is the query, made after the markers of the selector
    have been replaced and the arguments they take spliced off. *)
Lemma getElement_query d args info parent cssText argValues st :
  css (ed_selector d) = Some cssText -> truthy_s cssText = true ->
  st !! args = Some argValues ->
  getElement doc (Elem d) args info (Some parent) st
  = match paramMarkers cssText, argValues with
    | _ :: _, _ :: _ =>
        queryElements doc d info parent
          (substituteMarkers (paramMarkers cssText) argValues 0 cssText)
          (<[args := drop (length (paramMarkers cssText)) argValues]> st)
    | _, _ => queryElements doc d info parent cssText st
    end.
Proof.
  intros Hc Ht Hl. unfold getElement. rewrite Hc, Ht.
  destruct (paramMarkers cssText) as [|m ms]; [done|].
  unfold bind at 1. unfold bind at 1. unfold readArgs. rewrite Hl.
  destruct argValues as [|a rest]; [done|].
  unfold bind at 1. unfold spliceArgs. by rewrite Hl.
Qed.

(** The query of [getElement] for an element with a filter on all its
    matches: the filtered list counts only when it is not empty. *)
Lemma queryElements_filtered d f info parent selectorString found filtered st st' :
  ed_filter d = Some f -> returnAll (ed_selector d) = true ->
  str_includes "%" selectorString = false ->
  querySelectorAll doc
    (if ed_isInShadowRoot d then default parent (shadowRoot doc parent) else parent)
    selectorString = Some found ->
  filterElements doc found info st = Done filtered st' ->
  queryElements doc d info parent selectorString st
  = Done (head (match filtered with [] => found | _ :: _ => filtered end)) st'.
Proof.
  intros Hf Hall Hp Hq Hfil. unfold queryElements. rewrite Hp, Hf, Hall.
  assert (Hscope :
    (if ed_isInShadowRoot d
     then match shadowRoot doc parent with Some root => root | None => parent end
     else parent)
    = (if ed_isInShadowRoot d then default parent (shadowRoot doc parent) else parent)).
  { destruct (ed_isInShadowRoot d); [|done]. by destruct (shadowRoot doc parent). }
  rewrite Hscope, Hq. unfold bind at 1. cbn [ret]. unfold bind at 1. unfold bind at 1.
  rewrite Hfil. by destruct filtered.
Qed.
End FilterEvaluation.

(** C6 (amended): [#filterElements] answers the empty list, and raises
    nothing, when it is given no filter object, a filter object without
    arguments or no matched element; the filter object that
    [#getFilterInfo] builds holds the arguments of the caller that the
    matcher names and that carry a value, so none is left exactly when no
    argument is value-bound; with [findFirst] only the first of the elements
    that pass is kept.  [getElement] is the query made with the selector in
    which the markers have been replaced, and the query takes the filtered
    list only when it is not empty: for an element with a filter on all its
    matches it answers the first element that passes and, when the filter
    leaves nothing (as it does without a value-bound argument), the first of
    all the matches.  [#getFilterInfo] does not return for a filter that has
    an [apply] and no matcher: it throws where it reads the arguments of the
    matcher. *)
Theorem C6_filter_without_bound_argument {Node} (doc : Document Node)
    (resolver : TypeVal -> option Parsed) :
  (forall elements filterInfo st,
     elements = [] \/ filterInfo = None \/
     (exists info, filterInfo = Some info /\ fi_args info = []) ->
     filterElements doc elements filterInfo st = Done [] st) /\
  (forall fuel d args st info st' argValues,
     getFilterInfo resolver fuel (Elem d) args st = Done (Some info) st' ->
     st !! args = Some argValues ->
     st' = st /\
     exists f apply matcher matcherArgs current,
       returnAll (ed_selector d) = true /\ ed_filter d = Some f /\
       f_apply f = Some apply /\ truthy_s apply = true /\
       f_matcher f = Some matcher /\ matcher_args matcher = Some matcherArgs /\
       followFilterApply resolver fuel (DescElement d) (ApplyName apply) st
       = Done current st /\
       info = {| fi_apply := match current with
                             | DescMethod m => Some (md_lastStepApply m)
                             | _ => None
                             end;
                 fi_matcherType := matcher_type matcher;
                 fi_args := List.filter (valueBound (map arg_name matcherArgs)) argValues;
                 fi_findFirst := findFirst f;
                 fi_attribute := "";
                 fi_additionalElements := match current with
                                          | DescMethod m => md_elements m
                                          | _ => []
                                          end |} /\
       (fi_args info = [] <->
        forall arg, In arg argValues ->
          valueBound (map arg_name matcherArgs) arg = false)) /\
  (forall elements info st passed st',
     elements <> [] -> fi_args info <> [] ->
     filterM (passesFilter doc info (filterValueOf info)) elements st = Done passed st' ->
     filterElements doc elements (Some info) st =
       Done (if fi_findFirst info then take 1 passed else passed) st') /\
  (forall d args info parent cssText argValues st,
     css (ed_selector d) = Some cssText -> truthy_s cssText = true ->
     st !! args = Some argValues ->
     getElement doc (Elem d) args info (Some parent) st
     = match paramMarkers cssText, argValues with
       | _ :: _, _ :: _ =>
           queryElements doc d info parent
             (substituteMarkers (paramMarkers cssText) argValues 0 cssText)
             (<[args := drop (length (paramMarkers cssText)) argValues]> st)
       | _, _ => queryElements doc d info parent cssText st
       end) /\
  (forall d f info parent selectorString found st,
     ed_filter d = Some f -> returnAll (ed_selector d) = true ->
     str_includes "%" selectorString = false ->
     querySelectorAll doc
       (if ed_isInShadowRoot d then default parent (shadowRoot doc parent) else parent)
       selectorString = Some found ->
     (forall filtered st',
        filterElements doc found info st = Done filtered st' ->
        queryElements doc d info parent selectorString st
        = Done (head (match filtered with [] => found | _ :: _ => filtered end)) st') /\
     (info = None \/ (exists i, info = Some i /\ fi_args i = []) ->
      queryElements doc d info parent selectorString st = Done (head found) st)) /\
  (forall fuel d f apply args st,
     returnAll (ed_selector d) = true -> ed_filter d = Some f ->
     f_apply f = Some apply -> truthy_s apply = true -> f_matcher f = None ->
     (forall r st', getFilterInfo resolver fuel (Elem d) args st <> Done r st') /\
     (forall current st1,
        followFilterApply resolver fuel (DescElement d) (ApplyName apply) st
        = Done current st1 ->
        getFilterInfo resolver fuel (Elem d) args st
        = Throw "TypeError: matcher is undefined")).
Proof.
  assert (Hempty : forall elements filterInfo (st : WStore),
    elements = [] \/ filterInfo = None \/
    (exists info, filterInfo = Some info /\ fi_args info = []) ->
    filterElements doc elements filterInfo st = Done [] st).
  { intros elements filterInfo st [->|[->|(info & -> & Ha)]].
    - unfold filterElements. destruct filterInfo as [info|]; [|done]. done.
    - done.
    - unfold filterElements. rewrite Ha. by destruct elements. }
  split; [exact Hempty|]. split; [|split; [|split; [|split]]].
  - intros fuel d args st info st' argValues H Hargs.
    destruct (getFilterInfo_Some resolver fuel d args st info st' argValues H Hargs)
      as (Hst & f & apply & matcher & margs & current & Hall & Hf & Hap & Ht & Hm & Hma
          & Hfol & Hinfo).
    split; [done|]. exists f, apply, matcher, margs, current.
    do 8 (split; [done|]). rewrite Hinfo. cbn [fi_args]. split.
    + intros Hnil arg Hin.
      destruct (valueBound (map arg_name margs) arg) eqn:E; [|done].
      assert (Hin' : In arg (List.filter (valueBound (map arg_name margs)) argValues))
        by (apply filter_In; by split).
      rewrite Hnil in Hin'. by destruct Hin'.
    + intros Hnone. clear -Hnone.
      induction argValues as [|a l IH]; [done|]. cbn.
      rewrite (Hnone a (or_introl eq_refl)). apply IH. intros arg Hin. apply Hnone. by right.
  - intros elements info st passed st' He Ha H. unfold filterElements.
    destruct elements as [|e els]; [done|].
    unfold filterValueOf in H. destruct (fi_args info) as [|arg0 rest]; [done|].
    unfold bind. rewrite H. destruct passed as [|x xs]; [by destruct (fi_findFirst info)|].
    by destruct (fi_findFirst info).
  - intros d args info parent cssText argValues st. apply getElement_query.
  - intros d f info parent sel found st Hf Hall Hp Hq. split.
    + intros filtered st' Hfil.
      by apply (queryElements_filtered doc d f info parent sel found filtered st st').
    + intros Hno.
      rewrite (queryElements_filtered doc d f info parent sel found [] st st Hf Hall Hp Hq);
        [done|].
      apply Hempty. destruct Hno as [->|Hno]; [by right; left|by right; right].
  - intros fuel d f apply args st Hall Hf Ha Ht Hm. split.
    + intros r st' H. unfold getFilterInfo in H. rewrite Hall, Hf, Ha, Ht in H.
      apply bind_Done in H as (current & st1 & _ & H). by rewrite Hm in H.
    + intros current st1 Hfol. unfold getFilterInfo. rewrite Hall, Hf, Ha, Ht.
      unfold bind at 1. rewrite Hfol. by rewrite Hm.
Qed.

Lemma C6_filter_without_bound_argument_witness :
  filterElements toyDoc [4; 5; 6] (Some unbound) [] = Done [] [] /\
  filterElements toyDoc [4; 5; 6] (Some containsA) [] = Done [5] [] /\
  (exists info,
     getFilterInfo noPageObjects 2 (Elem (itemsDesc byText)) 0 noValue
     = Done (Some info) noValue /\ fi_args info = []) /\
  getElement toyDoc (Elem (itemsDesc byText)) 0 (Some unbound) (Some 0) noValue
  = Done (Some 4) noValue /\
  getElement toyDoc (Elem (itemsDesc byText)) 0 (Some containsA) (Some 0) noValue
  = Done (Some 5) noValue /\
  getFilterInfo noPageObjects 2 (Elem (itemsDesc matcherless)) 0 noValue
  = Throw "TypeError: matcher is undefined".
Proof.
  destruct (C6_filter_without_bound_argument toyDoc noPageObjects)
    as (Hempty & Hinfo & Hfirst & Hget & Hquery & Hthrow).
  split; [|split; [|split; [|split; [|split]]]].
  - apply Hempty. right. right. by exists unbound.
  - apply (Hfirst [4; 5; 6] containsA [] [5; 6] []); [done|done|].
    vm_compute. reflexivity.
  - destruct (getFilterInfo noPageObjects 2 (Elem (itemsDesc byText)) 0 noValue)
      as [[info|] st'| |] eqn:E; try (vm_compute in E; discriminate E).
    destruct (Hinfo 2 (itemsDesc byText) 0 noValue info st' [mkArgValue "text" None]
                E eq_refl)
      as (-> & f & apply & matcher & margs & current & _ & _ & _ & _ & _ & _ & _ & _ & Hiff).
    exists info. split; [done|]. apply Hiff. intros arg [<-|[]].
    unfold valueBound. cbn. apply andb_false_r.
  - rewrite (Hget (itemsDesc byText) 0 (Some unbound) 0 "li" [mkArgValue "text" None]
               noValue eq_refl eq_refl eq_refl).
    apply (proj2 (Hquery (itemsDesc byText) byText (Some unbound) 0 "li" [4; 5; 6] noValue
                    eq_refl eq_refl eq_refl eq_refl)).
    right. by exists unbound.
  - rewrite (Hget (itemsDesc byText) 0 (Some containsA) 0 "li" [mkArgValue "text" None]
               noValue eq_refl eq_refl eq_refl).
    apply (proj1 (Hquery (itemsDesc byText) byText (Some containsA) 0 "li" [4; 5; 6] noValue
                    eq_refl eq_refl eq_refl eq_refl) [5] noValue).
    vm_compute. reflexivity.
  - apply (proj2 (Hthrow 2 (itemsDesc matcherless) matcherless "getText" 0 noValue
                    eq_refl eq_refl eq_refl eq_refl eq_refl)
             (DescElement (itemsDesc matcherless)) noValue).
    reflexivity.
Defined.

Section WalkerPath.
Context {Node : Type}.
Variable doc : Document Node.
Variable pageObjectResolver : TypeVal -> option Parsed.

Lemma buildElementPath_chain coll path parent :
  ChainTo coll path parent ->
  forall fuel parentDescriptor elementPath st,
    ed_parent parentDescriptor = parent ->
    length path < fuel ->
    buildElementPath fuel coll parentDescriptor elementPath st
    = Done (path ++ elementPath) st.
Proof.
  induction 1 as [parent Hf|path name a Ht Hl Hc IH];
    intros fuel pd acc st Hp Hfuel.
  - destruct fuel as [|fuel]; [lia|]. cbn [buildElementPath]. rewrite Hp.
    destruct parent as [name|]; [|done]. cbn in Hf. by rewrite Hf.
  - destruct fuel as [|fuel]; [lia|]. cbn [buildElementPath]. rewrite Hp, Ht, Hl.
    rewrite length_app in Hfuel. cbn in Hfuel.
    rewrite (IH fuel a (a :: acc) st eq_refl) by lia.
    by rewrite <- app_assoc.
Qed.

Lemma walkElements_element coll path d fuel parentElement args st :
  ChainTo coll path (ed_parent d) ->
  length path < fuel ->
  walkElements doc pageObjectResolver fuel parentElement (MemberElement d) args coll st
  = (let* walked :=
       foldM (walkSegment doc pageObjectResolver fuel) path (parentElement, args) in
     let* info := getFilterInfo pageObjectResolver fuel (Elem d) (snd walked) in
     getElement doc (Elem d) (snd walked) info (fst walked)) st.
Proof.
  intros Hchain Hfuel. unfold walkElements.
  inversion Hchain as [parent Hf Hp Hpar|path' name a Ht Hl Hc Hp Hpar].
  - destruct (ed_parent d) as [name|]; [|reflexivity].
    cbn in Hf. rewrite Hf. reflexivity.
  - rewrite Ht, Hl. subst path. rewrite length_app in Hfuel. cbn in Hfuel.
    unfold bind at 1 2.
    rewrite (buildElementPath_chain coll path' (ed_parent a) Hc fuel a [a] st eq_refl)
      by lia.
    reflexivity.
Qed.

Lemma walkSegment_without_args fuel acc pathSegment :
  sel_args (ed_selector pathSegment) = None ->
  walkSegment doc pageObjectResolver fuel acc pathSegment = ret acc.
Proof. intros H. unfold walkSegment. by rewrite H. Qed.

(** Ancestors whose selectors have no arguments leave the walk where it
    is. *)
Lemma walkSegments_without_args fuel path :
  Forall (fun a => sel_args (ed_selector a) = None) path ->
  forall acc st,
    foldM (walkSegment doc pageObjectResolver fuel) path acc st = Done acc st.
Proof.
  induction 1 as [|a rest Ha _ IH]; intros acc st; [done|].
  cbn [foldM]. unfold bind. rewrite (walkSegment_without_args fuel acc a Ha).
  cbn. apply IH.
Qed.

Lemma walkElements_skips coll path d fuel parentElement args st :
  ChainTo coll path (ed_parent d) ->
  length path < fuel ->
  Forall (fun a => sel_args (ed_selector a) = None) path ->
  walkElements doc pageObjectResolver fuel parentElement (MemberElement d) args coll st
  = (let* info := getFilterInfo pageObjectResolver fuel (Elem d) args in
     getElement doc (Elem d) args info parentElement) st.
Proof.
  intros Hchain Hfuel Hnone.
  rewrite (walkElements_element coll path d fuel parentElement args st Hchain Hfuel).
  unfold bind at 1. by rewrite (walkSegments_without_args fuel path Hnone).
Qed.
End WalkerPath.

(** C7, at the failing input: the title is declared inside the panel, and
    the panel is found at node 1, whose only title is node 2; the walk never
    resolves the panel, whose selector has no arguments, searches the title
    below the node it started at and answers the stray title, node 3, where
    resolving every ancestor leads to node 2.  In general, the ancestors
    whose selectors have no arguments are passed over: when none has any, the
    element is resolved as if it had no parent. *)
Theorem C7_ancestors_without_args_are_not_resolved :
  (forall (Node : Type) (doc : Document Node) resolver coll path d fuel parentElement
          args st,
     ChainTo coll path (ed_parent d) ->
     length path < fuel ->
     Forall (fun a => sel_args (ed_selector a) = None) path ->
     walkElements doc resolver fuel parentElement (MemberElement d) args coll st
     = (let* info := getFilterInfo resolver fuel (Elem d) args in
        getElement doc (Elem d) args info parentElement) st) /\
  ChainTo panelElements [panelDesc] (ed_parent titleDesc) /\
  getElement toyDoc (Elem panelDesc) 0 None (Some 0) [[]] = Done (Some 1) [[]] /\
  querySelectorAll toyDoc 1 ".title" = Some [2] /\
  walkElements toyDoc noPageObjects 3 (Some 0) (MemberElement titleDesc) 0
    panelElements [[]] = Done (Some 3) [[]] /\
  (exists st', specWalkElement toyDoc noPageObjects 3 (Some 0) titleDesc 0 [panelDesc] [[]]
               = Done (Some 2) st').
Proof.
  split; [|split; [|split; [|split; [|split]]]].
  - intros Node doc resolver coll path d fuel parentElement args st.
    apply walkElements_skips.
  - apply (ChainTo_parent panelElements [] "panel" panelDesc); [done|done|].
    by apply ChainTo_root.
  - vm_compute. reflexivity.
  - reflexivity.
  - vm_compute. reflexivity.
  - eexists. vm_compute. reflexivity.
Qed.

Lemma keepsFirst_refl n0 st : keepsFirst n0 st st.
Proof. by intros H. Qed.

Lemma keepsFirst_trans n0 a b c :
  keepsFirst n0 a b -> keepsFirst n0 b c -> keepsFirst n0 a c.
Proof.
  intros Hab Hbc Ha. destruct (Hab Ha) as [Hb Eb]. destruct (Hbc Hb) as [Hc Ec].
  split; [done|]. by rewrite Ec.
Qed.

Section WalkerArgs.
Context {Node : Type}.
Variable doc : Document Node.
Variable pageObjectResolver : TypeVal -> option Parsed.

Lemma getElement_splices d args info parent cssText l st :
  css (ed_selector d) = Some cssText -> truthy_s cssText = true ->
  paramMarkers cssText <> [] -> st !! args = Some l -> l <> [] ->
  getElement doc (Elem d) args info (Some parent) st
  = queryElements doc d info parent
      (substituteMarkers (paramMarkers cssText) l 0 cssText)
      (<[args := drop (length (paramMarkers cssText)) l]> st).
Proof.
  intros Hc Ht Hm Hl Hne. unfold getElement. rewrite Hc, Ht.
  destruct (paramMarkers cssText) as [|m ms] eqn:Em; [done|].
  unfold bind at 1. unfold bind at 1. unfold readArgs. rewrite Hl.
  destruct l as [|a rest]; [done|].
  unfold bind at 1. unfold spliceArgs. rewrite Hl. reflexivity.
Qed.

Lemma getElement_store e args info parentNode st r st' :
  getElement doc e args info parentNode st = Done r st' ->
  st' = st \/ exists d l k, e = Elem d /\ st !! args = Some l /\ st' = <[args := drop k l]> st.
Proof.
  unfold getElement. destruct parentNode as [parent|]; [|intros [= _ <-]; by left].
  destruct e as [|d]; [done|].
  destruct (css (ed_selector d)) as [cssText|] eqn:Hc; [|intros [= _ <-]; by left].
  destruct (truthy_s cssText) eqn:Ht; [|intros [= _ <-]; by left].
  intros H. apply bind_Done in H as (sel & st1 & Hs & Hq).
  apply pureW_queryElements in Hq as <-.
  destruct (paramMarkers cssText) as [|m ms]; [injection Hs as _ <-; by left|].
  apply bind_Done in Hs as (l & st2 & Hr & Hs).
  unfold readArgs in Hr. destruct (st !! args) as [l'|] eqn:Hl; [|done].
  injection Hr as <- <-. destruct l' as [|a rest]; [injection Hs as _ <-; by left|].
  apply bind_Done in Hs as ([] & st3 & Hsp & Hs). injection Hs as _ <-.
  unfold spliceArgs in Hsp. rewrite Hl in Hsp. injection Hsp as <-.
  right. by exists d, (a :: rest), (length (m :: ms)).
Qed.

Lemma walkReferenced_keeps n0 fuel acc e :
  steps (keepsFirst n0) (walkReferenced doc pageObjectResolver fuel acc e).
Proof.
  intros st acc' st' H Hn. unfold walkReferenced in H.
  apply bind_Done in H as (sliced & st1 & Hs & H).
  apply bind_Done in H as (info & st2 & Hi & H).
  apply pureW_getFilterInfo in Hi as <-.
  apply bind_Done in H as (el & st3 & Hg & H). injection H as _ <-.
  destruct e as [|d]; cbn [eo_effectiveArgs] in Hs.
  - injection Hs as <- <-. cbn [fst] in Hg.
    apply getElement_store in Hg as [->|(d & l & k & [=] & _)]. done.
  - apply bind_Done in Hs as (i1 & sa & H1 & Hs).
    apply bind_Done in Hs as (i2 & sb & H2 & Hs). injection Hs as <- <-.
    cbn [fst] in Hg. unfold sliceArgs in H1. unfold sliceArgsFrom in H2.
    destruct (st !! snd acc) as [l|]; [|done]. injection H1 as <- <-.
    match type of H2 with
    | match ?x with _ => _ end = _ => destruct x as [l'|]; [|done]
    end.
    injection H2 as <- <-.
    apply getElement_store in Hg as [->|(d' & l'' & k & _ & _ & ->)].
    + rewrite !length_app. cbn. split; [lia|].
      rewrite take_app_le by (rewrite length_app; lia). by rewrite take_app_le.
    + rewrite length_insert, !length_app. cbn. split; [lia|].
      rewrite take_insert_ge by done.
      rewrite take_app_le by (rewrite length_app; lia). by rewrite take_app_le.
Qed.

Lemma keepsFirst_lookup st0 st i :
  keepsFirst (length st0) st0 st -> i < length st0 -> st !! i = st0 !! i.
Proof.
  intros Hk Hi. destruct (Hk (Nat.le_refl _)) as [_ Ht].
  by rewrite <- (lookup_take_lt st (length st0) i Hi), Ht, lookup_take_lt.
Qed.

Lemma getElement_keepsFirst st0 e args info parentNode st r st' :
  keepsFirst (length st0) st0 st -> length st0 <= args ->
  getElement doc e args info parentNode st = Done r st' ->
  keepsFirst (length st0) st0 st'.
Proof.
  intros Hk Hargs H _. destruct (Hk (Nat.le_refl _)) as [Hn Ht].
  apply getElement_store in H as [->|(d & l & k & _ & _ & ->)]; [done|].
  split; [by rewrite length_insert|]. by rewrite take_insert_ge.
Qed.

(** A segment whose selector has arguments is resolved on slices: the
    walk goes on with a new array, and the arrays that were there when the
    walk began are as they were. *)
Lemma walkSegment_sliced st0 fuel acc seg sargs st acc' st' :
  sel_args (ed_selector seg) = Some sargs ->
  keepsFirst (length st0) st0 st ->
  walkSegment doc pageObjectResolver fuel acc seg st = Done acc' st' ->
  is_Some (st !! snd acc) /\
  length st0 <= snd acc' /\ keepsFirst (length st0) st0 st'.
Proof.
  intros Hs Hk H. unfold walkSegment in H. rewrite Hs in H.
  destruct (Hk (Nat.le_refl _)) as [Hn Ht].
  apply bind_Done in H as (segmentArgs & st1 & H1 & H).
  apply bind_Done in H as (rest & st2 & H2 & H).
  apply bind_Done in H as (info & st3 & Hi & H).
  apply pureW_getFilterInfo in Hi as <-.
  apply bind_Done in H as (el & st4 & Hg & H). injection H as <- <-. cbn [snd].
  unfold sliceArgs in H1. destruct (st !! snd acc) as [l|] eqn:El; [|done].
  injection H1 as <- <-. unfold sliceArgsFrom in H2.
  match type of H2 with
  | match ?x with _ => _ end = _ => destruct x as [l'|]; [|done]
  end.
  injection H2 as <- <-. split; [by eexists|]. split.
  - rewrite length_app. cbn. lia.
  - eapply getElement_keepsFirst; [|exact Hn|exact Hg].
    intros _. split; [rewrite !length_app; cbn; lia|].
    rewrite take_app_le by (rewrite length_app; lia). by rewrite take_app_le.
Qed.

Lemma walkSegments_sliced st0 fuel path :
  forall acc st acc' st',
    length st0 <= snd acc -> keepsFirst (length st0) st0 st ->
    foldM (walkSegment doc pageObjectResolver fuel) path acc st = Done acc' st' ->
    length st0 <= snd acc' /\ keepsFirst (length st0) st0 st'.
Proof.
  induction path as [|seg path IH]; intros acc st acc' st' Hle Hk H.
  - by injection H as <- <-.
  - cbn [foldM] in H. apply bind_Done in H as (acc1 & st1 & H1 & H).
    destruct (sel_args (ed_selector seg)) as [sargs|] eqn:Es.
    + apply (walkSegment_sliced st0 fuel acc seg sargs) in H1 as (_ & Hle1 & Hk1);
        [|done|done].
      by apply (IH _ _ _ _ Hle1 Hk1).
    + rewrite (walkSegment_without_args doc pageObjectResolver fuel acc seg Es) in H1.
      injection H1 as <- <-. by apply (IH _ _ _ _ Hle Hk).
Qed.

(** The walk of a path from the caller's array: either no segment has
    selector arguments, and nothing has happened, or the walk goes on with
    a slice and has kept the arrays that were there. *)
Lemma walkSegments_from_caller fuel path :
  forall parentElement args st acc' st',
    foldM (walkSegment doc pageObjectResolver fuel) path (parentElement, args) st
    = Done acc' st' ->
    (acc' = (parentElement, args) /\ st' = st /\
     Forall (fun a => sel_args (ed_selector a) = None) path) \/
    (is_Some (st !! args) /\ length st <= snd acc' /\ keepsFirst (length st) st st').
Proof.
  induction path as [|seg path IH]; intros parentElement args st acc' st' H.
  - injection H as <- <-. by left.
  - cbn [foldM] in H. apply bind_Done in H as (acc1 & st1 & H1 & H).
    destruct (sel_args (ed_selector seg)) as [sargs|] eqn:Es.
    + right.
      apply (walkSegment_sliced st fuel _ seg sargs) in H1 as (Hsome & Hle1 & Hk1);
        [|done|apply keepsFirst_refl].
      split; [done|]. by apply (walkSegments_sliced st fuel path _ _ _ _ Hle1 Hk1).
    + rewrite (walkSegment_without_args doc pageObjectResolver fuel _ seg Es) in H1.
      injection H1 as <- <-. apply IH in H as [(-> & -> & Hall)|Hb]; [|by right].
      left. split; [done|]. split; [done|]. by constructor.
Qed.

Lemma pureW_buildElementPath fuel coll parentDescriptor elementPath :
  pureW (buildElementPath fuel coll parentDescriptor elementPath).
Proof.
  revert parentDescriptor elementPath.
  induction fuel as [|fuel IH]; intros pd path; [apply steps_outOfFuel|].
  cbn [buildElementPath]. destruct (ed_parent pd) as [parent|]; [|apply pureW_ret].
  destruct (truthy_s parent); [|apply pureW_ret].
  destruct (coll !! parent); [apply IH|apply pureW_throw].
Qed.

(** What the walk of an element leaves of the arrays that were there: the
    caller's array as it was or with entries taken off its front, and
    every other array as it was. *)
Lemma walkElement_frame d fuel parentElement args coll st r st' :
  walkElements doc pageObjectResolver fuel parentElement (MemberElement d) args coll st
  = Done r st' ->
  (forall i, i < length st -> i <> args -> st' !! i = st !! i) /\
  (forall l, st !! args = Some l -> exists k, st' !! args = Some (drop k l)).
Proof.
  intros H. unfold walkElements in H.
  apply bind_Done in H as (walked & st1 & Hw & H).
  apply bind_Done in H as (info & st2 & Hi & H).
  apply pureW_getFilterInfo in Hi as <-.
  assert (Hphase :
    (walked = (parentElement, args) /\ st1 = st) \/
    (is_Some (st !! args) /\ length st <= snd walked /\ keepsFirst (length st) st st1)).
  { destruct (ed_parent d) as [parent|]; [|injection Hw as <- <-; by left].
    destruct (truthy_s parent); [|injection Hw as <- <-; by left].
    destruct (coll !! parent) as [pd|]; [|done].
    apply bind_Done in Hw as (path & st0 & Hb & Hw).
    apply pureW_buildElementPath in Hb as <-.
    apply walkSegments_from_caller in Hw as [(? & ? & _)|?]; [by left|by right]. }
  destruct Hphase as [[-> ->]|(Hsome & Hle & Hk)].
  - cbn [fst snd] in H.
    apply getElement_store in H as [->|(d' & l & k & _ & Hl & ->)].
    + split; [done|]. intros l Hl. by exists 0.
    + split.
      * intros i _ Hne. by rewrite list_lookup_insert_ne.
      * intros l0 Hl0. assert (l0 = l) as -> by congruence. exists k.
        apply list_lookup_insert_eq. by apply lookup_lt_Some in Hl.
  - pose proof (getElement_keepsFirst st _ _ _ _ _ _ _ Hk Hle H) as Hk'.
    split.
    + intros i Hi _. by apply keepsFirst_lookup.
    + intros l Hl. exists 0. rewrite drop_0, <- Hl.
      apply keepsFirst_lookup; [done|]. by apply lookup_lt_Some in Hl.
Qed.

(** C10 (amended): [getElement] splices the consumed entries off the front
    of the array it is given whenever the parent node is not null, the
    selector template has markers and the array is not empty, and touches
    no array when the parent node is null.  [walkElements] hands the
    caller's array itself to [getElement] for an element none of whose
    ancestors has selector arguments, and that array then loses those
    entries; for an element one of whose ancestors has selector arguments,
    and for a method, [getElement] only ever receives slices, and every
    array that existed before the walk, the caller's included, is as it
    was when [walkElements] returns.  The splices are all the walk writes:
    whatever the member, an array that existed before the walk and is not
    the one passed in is left as it was, and the one passed in is left as
    it was or has lost entries at its front.  (The descriptors are values
    of the embedding: the walk has no write to them.) *)
Theorem C10_argument_array_effects :
  (forall d args info parent cssText l st r st',
     css (ed_selector d) = Some cssText -> truthy_s cssText = true ->
     paramMarkers cssText <> [] -> st !! args = Some l -> l <> [] ->
     getElement doc (Elem d) args info (Some parent) st = Done r st' ->
     st' = <[args := drop (length (paramMarkers cssText)) l]> st) /\
  (forall e args info st, getElement doc e args info None st = Done None st) /\
  (forall coll path d fuel parent args cssText l st r st',
     ChainTo coll path (ed_parent d) -> length path < fuel ->
     Forall (fun a => sel_args (ed_selector a) = None) path ->
     css (ed_selector d) = Some cssText -> truthy_s cssText = true ->
     paramMarkers cssText <> [] -> st !! args = Some l -> l <> [] ->
     walkElements doc pageObjectResolver fuel (Some parent) (MemberElement d) args coll st
     = Done r st' ->
     st' = <[args := drop (length (paramMarkers cssText)) l]> st) /\
  (forall coll path d fuel parentElement args st r st',
     ChainTo coll path (ed_parent d) -> length path < fuel ->
     Exists (fun a => is_Some (sel_args (ed_selector a))) path ->
     walkElements doc pageObjectResolver fuel parentElement (MemberElement d) args coll st
     = Done r st' ->
     forall i, i < length st -> st' !! i = st !! i) /\
  (forall method fuel parentElement args coll st r st',
     walkElements doc pageObjectResolver fuel parentElement (MemberMethod method)
       args coll st = Done r st' ->
     forall i, i < length st -> st' !! i = st !! i) /\
  (forall member fuel parentElement args coll st r st',
     walkElements doc pageObjectResolver fuel parentElement member args coll st
     = Done r st' ->
     (forall i, i < length st -> i <> args -> st' !! i = st !! i) /\
     (forall l, st !! args = Some l -> exists k, st' !! args = Some (drop k l))).
Proof.
  assert (Hmethod : forall method fuel parentElement args coll st r st',
     walkElements doc pageObjectResolver fuel parentElement (MemberMethod method)
       args coll st = Done r st' ->
     forall i, i < length st -> st' !! i = st !! i).
  { intros method fuel parentElement args coll st r st' H i Hi.
    unfold walkElements in H. apply bind_Done in H as (final & st1 & Hf & H).
    injection H as _ <-.
    assert (Hk : keepsFirst (length st) st st1).
    { eapply (steps_foldM (keepsFirst (length st))); [apply keepsFirst_refl|
        apply keepsFirst_trans| |exact Hf].
      intros b x _. apply walkReferenced_keeps. }
    by apply keepsFirst_lookup. }
  split; [|split; [|split; [|split; [|split]]]].
  - intros d args info parent cssText l st r st' Hc Ht Hm Hl Hne H.
    rewrite (getElement_splices d args info parent cssText l st Hc Ht Hm Hl Hne) in H.
    by apply pureW_queryElements in H.
  - done.
  - intros coll path d fuel parent args cssText l st r st'
      Hchain Hfuel Hnone Hc Ht Hm Hl Hne H.
    rewrite (walkElements_skips doc pageObjectResolver coll path d fuel
               (Some parent) args st Hchain Hfuel Hnone) in H.
    apply bind_Done in H as (info & st2 & Hi & H).
    apply pureW_getFilterInfo in Hi as <-.
    rewrite (getElement_splices d args info parent cssText l st Hc Ht Hm Hl Hne) in H.
    by apply pureW_queryElements in H.
  - intros coll path d fuel parentElement args st r st' Hchain Hfuel Hex H i Hi.
    rewrite (walkElements_element doc pageObjectResolver coll path d fuel
               parentElement args st Hchain Hfuel) in H.
    apply bind_Done in H as (walked & st1 & Hw & H).
    apply bind_Done in H as (info & st2 & Hinfo & H).
    apply pureW_getFilterInfo in Hinfo as <-.
    apply walkSegments_from_caller in Hw as [(_ & _ & Hall)|(_ & Hle & Hk)].
    + exfalso. apply Exists_exists in Hex as (a & Hin & [x Hx]).
      rewrite List.Forall_forall in Hall. specialize (Hall a).
      rewrite Hall in Hx; [done|]. by apply list_elem_of_In.
    + apply keepsFirst_lookup; [|done].
      by apply (getElement_keepsFirst st _ _ _ _ _ _ _ Hk Hle H).
  - exact Hmethod.
  - intros [method|d] fuel parentElement args coll st r st' H.
    + split.
      * intros i Hi _. by eapply Hmethod.
      * intros l Hl. exists 0. rewrite drop_0, <- Hl.
        eapply Hmethod; [exact H|]. by apply lookup_lt_Some in Hl.
    + by apply (walkElement_frame d fuel parentElement args coll st r st').
Qed.
End WalkerArgs.

(** C10, counterexample: the walk of a method finds the second item with the
    caller's argument, and the caller's array still holds that argument. *)
Lemma C10_counterexample :
  exists st',
    walkElements toyDoc noPageObjects 2 (Some 0) (MemberMethod pickItem) 0 ∅ callerArgs
    = Done (Some 5) st' /\
    paramMarkers "li.item-%d" = ["%d"] /\
    callerArgs !! 0 = Some [mkArgValue "number" (Some "2")] /\
    st' !! 0 = Some [mkArgValue "number" (Some "2")].
Proof. eexists. split; [vm_compute; reflexivity|]. repeat split. Qed.

Lemma C10_argument_array_effects_witness :
  (exists st',
     walkElements toyDoc noPageObjects 3 (Some 0) (MemberElement nestedItem) 0
       nestedItems callerArgs = Done (Some 5) st' /\ st' = [[]]) /\
  (exists st',
     walkElements toyDoc noPageObjects 3 (Some 0) (MemberElement leafDesc) 0
       leafItems twoArgs = Done None st' /\
     st' !! 0 = twoArgs !! 0 /\ st' !! 1 = Some [] /\ st' !! 2 = Some []) /\
  (exists st',
     walkElements toyDoc noPageObjects 2 (Some 0) (MemberMethod pickItem) 0 ∅ callerArgs
     = Done (Some 5) st' /\ st' !! 0 = callerArgs !! 0).
Proof.
  destruct (C10_argument_array_effects toyDoc noPageObjects)
    as (_ & _ & Helem & Hsliced & Hmeth & _).
  split; [|split].
  - eexists. split; [vm_compute; reflexivity|].
    apply (Helem nestedItems [panelDesc] nestedItem 3 0 0 "li.item-%d"
             [mkArgValue "number" (Some "2")] callerArgs (Some 5)).
    + apply (ChainTo_parent nestedItems [] "panel" panelDesc); [done|done|].
      by apply ChainTo_root.
    + cbn. lia.
    + by repeat constructor.
    + reflexivity.
    + reflexivity.
    + discriminate.
    + reflexivity.
    + discriminate.
    + vm_compute. reflexivity.
  - eexists. split; [vm_compute; reflexivity|]. split; [|split; reflexivity].
    apply (Hsliced leafItems [itemDesc] leafDesc 3 (Some 0) 0 twoArgs None).
    + apply (ChainTo_parent leafItems [] "item" itemDesc); [done|done|].
      by apply ChainTo_root.
    + cbn. lia.
    + constructor. by eexists.
    + vm_compute. reflexivity.
    + cbn. lia.
  - eexists. split; [vm_compute; reflexivity|].
    eapply (Hmeth pickItem 2 (Some 0) 0 ∅ callerArgs (Some 5)).
    + vm_compute. reflexivity.
    + cbn. lia.
Defined.

(** * Reloading the database, in general *)

Lemma units_leb_total a b : units_leb a b = true \/ units_leb b a = true.
Proof.
  revert b. induction a as [|x a IH]; intros [|y b]; cbn; [by left..|by right|].
  destruct (N.ltb_spec x y) as [Hxy|Hxy]; [by left|].
  destruct (N.ltb_spec y x) as [Hyx|Hyx]; [by right|].
  assert (x = y) as -> by lia. rewrite N.eqb_refl. apply IH.
Qed.

Lemma insertSorted_perm x l : Permutation (insertSorted x l) (x :: l).
Proof.
  induction l as [|y l IH]; cbn; [done|].
  destruct (js_leb x y); [done|].
  rewrite IH. apply perm_swap.
Qed.

Lemma insertSorted_sorted x l : Sorted str_le l -> Sorted str_le (insertSorted x l).
Proof.
  induction l as [|y l IH]; intros Hs; cbn.
  - repeat constructor.
  - destruct (js_leb x y) eqn:E.
    + constructor; [done|]. by constructor.
    + apply Sorted_inv in Hs as [Hs Hd]. constructor; [by apply IH|].
      assert (Hyx : str_le y x).
      { destruct (units_leb_total (codeUnits x) (codeUnits y)) as [H|H]; [|done].
        unfold js_leb in E. congruence. }
      destruct l as [|z l]; cbn; [by constructor|].
      destruct (js_leb x z); constructor; [done|].
      by apply HdRel_inv in Hd.
Qed.

Lemma sortStrings_perm l : Permutation (sortStrings l) l.
Proof.
  induction l as [|x l IH]; cbn; [done|].
  rewrite insertSorted_perm. by constructor.
Qed.

Lemma sortStrings_sorted l : Sorted str_le (sortStrings l).
Proof.
  induction l as [|x l IH]; cbn; [constructor|]. by apply insertSorted_sorted.
Qed.

Section ObjLemmas.
Context {V : Type}.
Implicit Types o : list (string * V).

Lemma str_eqb_eq a b : str_eqb a b = true <-> a = b.
Proof. apply String.eqb_eq. Qed.

Lemma str_eqb_refl a : str_eqb a a = true.
Proof. apply String.eqb_refl. Qed.

Lemma str_eqb_neq a b : str_eqb a b = false <-> a <> b.
Proof. apply String.eqb_neq. Qed.

Lemma obj_get_set_eq k v o : obj_get k (obj_set k v o) = Some v.
Proof.
induction o as [|[k' v'] o IH]; cbn.
- by rewrite str_eqb_refl.
- destruct (str_eqb k' k) eqn:E; cbn; rewrite E; [done|apply IH].
Qed.

Lemma obj_get_set_ne k k' v o : k <> k' -> obj_get k' (obj_set k v o) = obj_get k' o.
Proof.
intros Hne. induction o as [|[k0 v0] o IH]; cbn.
- apply str_eqb_neq in Hne. by rewrite Hne.
- destruct (str_eqb k0 k) eqn:E; cbn.
  + apply str_eqb_eq in E as ->. apply str_eqb_neq in Hne. by rewrite Hne.
  + by rewrite IH.
Qed.

Lemma obj_keys_set k v o :
obj_keys (obj_set k v o) = if obj_has k o then obj_keys o else obj_keys o ++ [k].
Proof.
unfold obj_has, obj_keys. induction o as [|[k0 v0] o IH]; cbn; [done|].
destruct (str_eqb k0 k) eqn:E; cbn; [done|]. rewrite IH.
by destruct (obj_get k o).
Qed.

Lemma obj_get_keys k o : is_Some (obj_get k o) <-> In k (obj_keys o).
Proof.
unfold obj_keys. induction o as [|[k0 v0] o IH]; cbn.
- split; [by intros [? ?]|done].
- destruct (str_eqb k0 k) eqn:E.
  + apply str_eqb_eq in E as ->. split; [by left|by eexists].
  + rewrite IH. apply str_eqb_neq in E. split; [by right|by intros [?|?]].
Qed.

Lemma obj_keys_set_NoDup k v o : NoDup (obj_keys o) -> NoDup (obj_keys (obj_set k v o)).
Proof.
intros H. rewrite obj_keys_set. unfold obj_has.
destruct (obj_get k o) eqn:E; [done|].
apply NoDup_app. split; [done|]. split; [|apply NoDup_singleton].
intros x Hx Hx'. apply list_elem_of_singleton in Hx' as ->.
apply list_elem_of_In, obj_get_keys in Hx. rewrite E in Hx. by destruct Hx.
Qed.
End ObjLemmas.

Lemma onlyArrays_refl st : onlyArrays st st.
Proof. done. Qed.

Lemma onlyArrays_trans a b c : onlyArrays a b -> onlyArrays b c -> onlyArrays a c.
Proof. intros (?&?&?&?) (?&?&?&?). repeat split; congruence. Qed.

Lemma loadMethod_spec m st :
  exists m' st', loadMethod m st = Done m' st' /\ sameMethodDef m m' /\ onlyArrays st st'.
Proof.
  unfold loadMethod, bind. destruct (m_args m) as [l|] eqn:E; cbn.
  - eexists _, _. split; [done|]. split; [|done].
    unfold sameMethodDef. cbn. rewrite E. repeat split; by eexists.
  - eexists _, _. split; [done|]. split; [|done].
    unfold sameMethodDef. cbn. rewrite E. repeat split; by intros [? ?].
Qed.

Lemma loadMethods_spec l st :
  exists l' st', loadMethods l st = Done l' st' /\ Forall2 sameMethodDef l l' /\
                 onlyArrays st st'.
Proof.
  revert st. induction l as [|m l IH]; intros st; cbn.
  - by eexists _, _.
  - destruct (loadMethod_spec m st) as (m' & st1 & E1 & H1 & O1).
    destruct (IH st1) as (l' & st2 & E2 & H2 & O2).
    exists (m' :: l'), st2. unfold bind. rewrite E1, E2. cbn.
    split; [done|]. split; [by constructor|]. by eapply onlyArrays_trans.
Qed.

Lemma loadPageObject_spec d st :
  exists po st', loadPageObject d st = Done po st' /\ sameDefinition d po /\
                 onlyArrays st st'.
Proof.
  unfold loadPageObject, bind. destruct (po_methods d) as [l|] eqn:E.
  - destruct (loadMethods_spec l st) as (l' & st1 & E1 & H1 & O1). rewrite E1. cbn.
    eexists _, _. split; [done|]. split; [|done]. repeat split; cbn; try done.
    rewrite E. by constructor.
  - cbn. eexists _, _. split; [done|]. split; [|done]. repeat split; cbn; try done.
    rewrite E. constructor.
Qed.

Lemma hasRootSelector_same d po :
  sameDefinition d po -> hasRootSelector po = hasRootSelector d.
Proof. intros (_ & Hr & Hs & _). unfold hasRootSelector. by rewrite Hr, Hs. Qed.

Lemma loadArtifact_spec entries all st :
  NoDup (obj_keys all) ->
  exists all' st',
    loadArtifact all entries st = Done all' st' /\
    NoDup (obj_keys all') /\ loadedAs entries all all' /\
    st_heap st' = st_heap st /\ st_cache st' = st_cache st /\ st_log st' = st_log st /\
    rootPageObjectUris st' =
      rootPageObjectUris st ++
      map fst (List.filter (fun entry => hasRootSelector (snd entry)) entries).
Proof.
  unfold loadArtifact. revert all st.
  induction entries as [|[key d] entries IH]; intros all st Hnd; cbn [foldM].
  - exists all, st. cbn. repeat split; try done. by rewrite app_nil_r.
  - destruct (loadPageObject_spec d st) as (po & st1 & E1 & Hsame & (Hh & Hc & Hr & Hl)).
    set (st2 := if hasRootSelector po
                then {| st_heap := st_heap st1; st_arrays := st_arrays st1;
                        st_cache := st_cache st1;
                        rootPageObjectUris := rootPageObjectUris st1 ++ [key];
                        st_log := st_log st1 |}
                else st1).
    destruct (IH (obj_set key po all) st2) as
      (all' & st' & E2 & Hnd' & Hload & Hh' & Hc' & Hl' & Hr');
      [by apply obj_keys_set_NoDup|].
    exists all', st'. split.
    { unfold bind at 1. unfold bind at 1. cbn [fst snd]. rewrite E1.
      unfold bind at 1. subst st2.
      destruct (hasRootSelector po); cbn; exact E2. }
    split; [done|]. split.
    { intros uri. specialize (Hload uri). cbn [lastDefinition].
      destruct (lastDefinition uri entries) as [later|]; [done|].
      rewrite Hload. destruct (str_eqb key uri) eqn:E.
      - apply str_eqb_eq in E as ->. exists po. by rewrite obj_get_set_eq.
      - apply str_eqb_neq in E. by rewrite obj_get_set_ne. }
    rewrite Hh', Hc', Hl', Hr'. subst st2. cbn [List.filter snd fst].
    rewrite <- (hasRootSelector_same d po Hsame).
    destruct (hasRootSelector po); cbn; rewrite ?Hh, ?Hc, ?Hl, ?Hr; repeat split; try done.
    by rewrite <- app_assoc.
Qed.

Lemma lastDefinition_app uri e1 e2 :
  lastDefinition uri (e1 ++ e2) =
  match lastDefinition uri e2 with
  | Some d => Some d
  | None => lastDefinition uri e1
  end.
Proof.
  induction e1 as [|[key d] e1 IH]; cbn; [by destruct (lastDefinition uri e2)|].
  rewrite IH. by destruct (lastDefinition uri e2).
Qed.

Lemma lastDefinition_In uri entries :
  is_Some (lastDefinition uri entries) <-> In uri (map fst entries).
Proof.
  induction entries as [|[key d] entries IH]; cbn.
  - split; [by intros [? ?]|done].
  - destruct (lastDefinition uri entries) as [later|].
    + split; [intros _; right; apply IH; by eexists|by eexists].
    + destruct (str_eqb key uri) eqn:E.
      * apply str_eqb_eq in E. split; [by left|by eexists].
      * apply str_eqb_neq in E. split; [by intros [? ?]|].
        intros [?|H]; [done|]. by apply IH in H as [? ?].
Qed.

Lemma loadedAs_app e1 e2 a b c :
  loadedAs e1 a b -> loadedAs e2 b c -> loadedAs (e1 ++ e2) a c.
Proof.
  intros H1 H2 uri. specialize (H1 uri). specialize (H2 uri).
  rewrite lastDefinition_app.
  destruct (lastDefinition uri e2) as [d|]; [done|].
  destruct (lastDefinition uri e1) as [d|]; [by rewrite H2|congruence].
Qed.

Lemma loadArtifacts_from settings all st :
  NoDup (obj_keys all) ->
  exists all' st',
    foldM (fun all artifact => loadArtifact all (snd artifact)) settings all st
      = Done all' st' /\
    NoDup (obj_keys all') /\ loadedAs (entriesOf settings) all all' /\
    st_heap st' = st_heap st /\ st_cache st' = st_cache st /\ st_log st' = st_log st /\
    rootPageObjectUris st' = rootPageObjectUris st ++ rootEntries settings.
Proof.
  revert all st. induction settings as [|[file entries] settings IH]; intros all st Hnd.
  - exists all, st. cbn. repeat split; try done. by rewrite app_nil_r.
  - destruct (loadArtifact_spec entries all st Hnd)
      as (all1 & st1 & E1 & Hnd1 & Hl1 & Hh1 & Hc1 & Hg1 & Hr1).
    destruct (IH all1 st1 Hnd1) as (all2 & st2 & E2 & Hnd2 & Hl2 & Hh2 & Hc2 & Hg2 & Hr2).
    exists all2, st2. cbn [foldM snd]. unfold bind. rewrite E1.
    split; [done|]. split; [done|]. split.
    { unfold entriesOf. cbn [flat_map snd]. by eapply loadedAs_app. }
    rewrite Hh2, Hc2, Hg2, Hr2, Hh1, Hc1, Hg1, Hr1. repeat split; try done.
    unfold rootEntries, entriesOf. cbn [flat_map snd].
    by rewrite List.filter_app, map_app, app_assoc.
Qed.

Lemma keeps_refl st : keeps st st.
Proof.
  split; [done|]. split; [done|]. split; [exists []; by rewrite app_nil_r|].
  split; [intros r l H; exists []; by rewrite app_nil_r|].
  intros p parsed name H1 H2. by exists parsed.
Qed.

Lemma keeps_trans a b c : keeps a b -> keeps b c -> keeps a c.
Proof.
  intros (R1 & C1 & [l1 L1] & A1 & M1) (R2 & C2 & [l2 L2] & A2 & M2).
  split; [congruence|]. split; [auto|].
  split; [exists (l1 ++ l2); by rewrite L2, L1, app_assoc|]. split.
  - intros r l H. destruct (A1 r l H) as [l' H']. destruct (A2 r _ H') as [l'' H''].
    exists (l' ++ l''). by rewrite H'', app_assoc.
  - intros p parsed name H1 H2. destruct (M1 p parsed name H1 H2) as (parsed' & H1' & H2').
    by apply (M2 p parsed' name).
Qed.

Lemma keeps_allocParsed parsed : steps keeps (allocParsed parsed).
Proof.
  intros st a st' [= <- <-]. unfold keeps. cbn. split; [done|]. split; [done|].
  split; [exists []; by rewrite app_nil_r|].
  split; [intros r l H; exists []; by rewrite app_nil_r|].
  intros p x name H1 H2. exists x. split; [|done]. by apply lookup_app_l_Some.
Qed.

Lemma keeps_setMethod p name d : steps keeps (setMethod p name d).
Proof.
  intros st a st'. unfold setMethod.
  destruct (st_heap st !! p) as [parsed|] eqn:E; [|done].
  intros [= <- <-]. unfold keeps. cbn. split; [done|]. split; [done|].
  split; [exists []; by rewrite app_nil_r|].
  split; [intros r l H; exists []; by rewrite app_nil_r|].
  intros q x n H1 H2. destruct (decide (p = q)) as [<-|Hne].
  - rewrite list_lookup_insert_eq; [|by eapply lookup_lt_Some].
    eexists. split; [done|]. unfold setParsedMethod. cbn [p_methods].
    rewrite lookup_insert. case_decide; [done|].
    assert (x = parsed) as -> by congruence. done.
  - rewrite list_lookup_insert_ne; [|done]. by exists x.
Qed.

Lemma keeps_allocArray l : steps keeps (allocArray l).
Proof.
  intros st a st' [= <- <-]. unfold keeps. cbn. split; [done|]. split; [done|].
  split; [exists []; by rewrite app_nil_r|].
  split; [|intros p x n H1 H2; by exists x].
  intros r l0 H. exists []. rewrite app_nil_r. by apply lookup_app_l_Some.
Qed.

Lemma keeps_pushArray r l : steps keeps (pushArray r l).
Proof.
  intros st a st'. unfold pushArray.
  destruct (st_arrays st !! r) as [old|] eqn:E; [|done].
  intros [= <- <-]. unfold keeps. cbn. split; [done|]. split; [done|].
  split; [exists []; by rewrite app_nil_r|].
  split; [|intros p x n H1 H2; by exists x].
  intros q l0 H. destruct (decide (r = q)) as [<-|Hne].
  - rewrite list_lookup_insert_eq; [|by eapply lookup_lt_Some].
    exists l. congruence.
  - rewrite list_lookup_insert_ne; [|done]. exists []. by rewrite app_nil_r.
Qed.

Lemma keeps_cachePut key p : steps keeps (cachePut key p).
Proof.
  intros st a st' [= <- <-]. unfold keeps. cbn. split; [done|]. split.
  { intros k H. destruct (decide (key = k)) as [<-|Hne].
    - rewrite lookup_insert_eq. by eexists.
    - by rewrite lookup_insert_ne. }
  split; [exists []; by rewrite app_nil_r|].
  split; [intros r l H; exists []; by rewrite app_nil_r|].
  intros q x n H1 H2. by exists x.
Qed.

Lemma keeps_consoleLog line : steps keeps (consoleLog line).
Proof.
  intros st a st' [= <- <-]. unfold keeps. cbn. split; [done|]. split; [done|].
  split; [by exists [line]|].
  split; [intros r l H; exists []; by rewrite app_nil_r|].
  intros q x n H1 H2. by exists x.
Qed.

Lemma keeps_resolver allPageObjects fuel :
  (forall po m p, steps keeps (processMethod fuel allPageObjects po m p)) /\
  (forall uri, steps keeps (parsePageObject fuel allPageObjects uri)).
Proof.
  apply steps_resolver.
  - apply keeps_refl.
  - apply keeps_trans.
  - apply keeps_allocParsed.
  - apply keeps_setMethod.
  - apply keeps_allocArray.
  - apply keeps_pushArray.
  - apply keeps_cachePut.
  - apply keeps_consoleLog.
Qed.

Section CacheInvariant.
Variable allPageObjects : PageObjects.

Local Abbreviation Rc := (keepsCache allPageObjects).

Lemma keepsCache_refl st : Rc st st.
Proof. by intros H. Qed.

Lemma keepsCache_trans a b c : Rc a b -> Rc b c -> Rc a c.
Proof. intros H1 H2 H. by apply H2, H1. Qed.

Lemma cacheOK_grows st st' :
st_cache st' = st_cache st -> heapGrows st st' -> Rc st st'.
Proof.
intros Ec Hg H key p Hk. rewrite Ec in Hk.
destruct (H key p Hk) as (parsed & po & Hp & Hu & Hget & Hs & Ha & Hd & He).
destruct (Hg p parsed Hp) as (parsed' & Hp' & (Su & Ss & Sa & Sd & Se)).
exists parsed', po. rewrite <- Su, <- Ss, <- Sa, <- Sd, <- Se. done.
Qed.

Lemma keepsCache_setMethod p name d : steps Rc (setMethod p name d).
Proof.
intros st a st' H. apply cacheOK_grows; [|by eapply heapGrows_setMethod].
unfold setMethod in H. destruct (st_heap st !! p); [|done]. by inversion H.
Qed.

Lemma keepsCache_allocArray l : steps Rc (allocArray l).
Proof.
intros st a st' H. apply cacheOK_grows; [|by eapply heapGrows_allocArray].
unfold allocArray in H. by inversion H.
Qed.

Lemma keepsCache_pushArray r l : steps Rc (pushArray r l).
Proof.
intros st a st' H. apply cacheOK_grows; [|by eapply heapGrows_pushArray].
unfold pushArray in H. destruct (st_arrays st !! r); [|done]. by inversion H.
Qed.

Lemma keepsCache_consoleLog line : steps Rc (consoleLog line).
Proof.
intros st a st' H. apply cacheOK_grows; [|by eapply heapGrows_consoleLog].
unfold consoleLog in H. by inversion H.
Qed.

Lemma keepsCache_allocParsed parsed : steps Rc (allocParsed parsed).
Proof.
intros st a st' H. apply cacheOK_grows; [|by eapply heapGrows_allocParsed].
unfold allocParsed in H. by inversion H.
Qed.

Lemma keepsCache_resolver fuel :
(forall po m p, steps Rc (processMethod fuel allPageObjects po m p)) /\
(forall uri, steps Rc (parsePageObject fuel allPageObjects uri)).
Proof.
induction fuel as [|fuel [IHm IHp]].
- split; intros; apply steps_outOfFuel.
- split.
  + intros po m p. cbn [processMethod].
    apply steps_processMethodBody;
      [apply keepsCache_refl|apply keepsCache_trans|apply keepsCache_setMethod|
       apply keepsCache_allocArray|apply keepsCache_pushArray|
       apply keepsCache_consoleLog|done|done].
  + intros uri st p st' H Hok. cbn [parsePageObject] in H.
    unfold parsePageObjectBody in H.
    destruct (obj_get (to_key uri) allPageObjects) as [po|] eqn:Eg; [|done].
    apply bind_Done in H as (p0 & st1 & H1 & H).
    apply bind_Done in H as ([] & st2 & H2 & H).
    apply bind_Done in H as ([] & st3 & H3 & H). injection H as <- <-.
    pose proof (keepsCache_allocParsed _ _ _ _ H1 Hok) as Hok1.
    assert (Hok2 : cacheOK allPageObjects st2).
    { eapply (steps_processMethods Rc); [apply keepsCache_refl|apply keepsCache_trans|
        apply keepsCache_setMethod|apply IHm|exact H2|exact Hok1]. }
    pose proof (steps_processMethods_heapGrows _ _ _ _ _ _ _ H2) as Hg.
    unfold allocParsed in H1. injection H1 as <- <-.
    unfold cachePut in H3. injection H3 as <-.
    intros key q. cbn. destruct (decide (to_key uri = key)) as [<-|Hne].
    * rewrite lookup_insert_eq. intros [= <-].
      destruct (Hg (length (st_heap st))
                  {| p_uri := uri; p_source := po_source po;
                     p_author := processAuthor (po_description po);
                     p_description := processDescription (po_description po);
                     p_elements := parsedElements allPageObjects uri po;
                     p_methods := ∅ |})
        as (parsed' & Hp' & (Su & Ss & Sa & Sd & Se)).
      { cbn. by rewrite lookup_app_r, Nat.sub_diag. }
      exists parsed', po. cbn in Su, Ss, Sa, Sd, Se.
      rewrite <- Su, <- Ss, <- Sa, <- Sd, <- Se. done.
    * rewrite lookup_insert_ne by done. apply Hok2.
Qed.
End CacheInvariant.

Lemma parseAll_spec allPageObjects fuel keys st st' :
  forEachM (fun pageObjectUri =>
              let* _ := parsePageObject fuel allPageObjects (TStr pageObjectUri) in
              ret tt) keys st = Done tt st' ->
  cacheOK allPageObjects st ->
  keeps st st' /\ cacheOK allPageObjects st' /\
  forall key, In key keys -> is_Some (st_cache st' !! key).
Proof.
  revert st. induction keys as [|k keys IH]; intros st H Hok; cbn [forEachM] in H.
  - injection H as <-. split; [apply keeps_refl|]. split; [done|]. intros key [].
  - apply bind_Done in H as ([] & st1 & H1 & H).
    apply bind_Done in H1 as (p & st2 & H1 & Hr). injection Hr as <-.
    pose proof (proj2 (keeps_resolver allPageObjects fuel) _ _ _ _ H1) as Hk1.
    pose proof (proj2 (keepsCache_resolver allPageObjects fuel) _ _ _ _ H1 Hok) as Hok1.
    apply parsePageObject_result in H1 as (po & parsed & _ & _ & _ & Hc & _).
    destruct (IH st2 H Hok1) as (Hk2 & Hok2 & Hin).
    split; [by eapply keeps_trans|]. split; [done|].
    intros key [<-|Hkey]; [|by apply Hin].
    destruct Hk2 as (_ & Hc2 & _). apply Hc2. cbn in Hc. by eexists.
Qed.

(** What [reloadDatabase] leaves when it returns: the definitions, and the
    state after the second loop. *)
Lemma reloadDatabase_inv fuel settings st n st' :
  reloadDatabase fuel settings st = Done n st' ->
  exists allPageObjects,
    NoDup (obj_keys allPageObjects) /\
    loadedAs (entriesOf settings) [] allPageObjects /\
    rootPageObjectUris st' = sortStrings (rootEntries settings) /\
    cacheOK allPageObjects st' /\
    (forall key, In key (obj_keys allPageObjects) -> is_Some (st_cache st' !! key)) /\
    n = length (map_to_list (st_cache st')).
Proof.
  unfold reloadDatabase. intros H.
  apply bind_Done in H as ([] & st1 & H1 & H). unfold resetDatabase in H1.
  injection H1 as <-.
  apply bind_Done in H as (all & st2 & H2 & H).
  match type of H2 with
  | loadArtifacts _ ?s = _ =>
      destruct (loadArtifacts_from settings [] s (NoDup_nil_2)) as
        (all' & st2' & E2 & Hnd & Hload & Hh & Hc & Hl & Hr)
  end.
  unfold loadArtifacts in H2. rewrite E2 in H2. injection H2 as <- <-.
  apply bind_Done in H as ([] & st3 & H3 & H). unfold sortRoots in H3.
  injection H3 as <-.
  apply bind_Done in H as ([] & st4 & H4 & H). injection H as <- <-.
  apply parseAll_spec in H4 as ((Hroots & _) & Hok & Hin).
  - exists all'. split; [done|]. split; [done|]. split.
    { rewrite Hroots. cbn. by rewrite Hr. }
    split; [done|]. split; [done|]. unfold getAllPageObjectUris.
    by rewrite length_map.
  - intros key p. cbn. rewrite Hc. cbn. by rewrite lookup_empty.
Qed.

(** When [reloadDatabase] returns, [rootPageObjectUris] is in ascending
    order and holds one occurrence of the URI for every artifact entry that
    declares a root with a [css] selector, whatever the list held before. *)
Theorem reloadDatabase_roots_sorted fuel settings st n st' :
  reloadDatabase fuel settings st = Done n st' ->
  Sorted str_le (rootPageObjectUris st') /\
  Permutation (rootPageObjectUris st') (rootEntries settings).
Proof.
  intros H. apply reloadDatabase_inv in H as (all & _ & _ & -> & _).
  split; [apply sortStrings_sorted|apply sortStrings_perm].
Qed.

Lemma reloadDatabase_roots_sorted_witness :
  (exists st', reloadDatabase 2 farRoots emptyState = Done 3 st' /\
               rootPageObjectUris st' = ["p/z"; "p/😀"; "p/｡"]) /\
  forall st', reloadDatabase 2 farRoots emptyState = Done 3 st' ->
    Sorted str_le (rootPageObjectUris st') /\
    Permutation (rootPageObjectUris st') ["p/｡"; "p/😀"; "p/z"].
Proof.
  split; [eexists; split; vm_compute; reflexivity|].
  intros st' H. exact (reloadDatabase_roots_sorted 2 farRoots emptyState 3 st' H).
Defined.

Lemma cache_keys fuel settings st n st' :
  reloadDatabase fuel settings st = Done n st' ->
  forall uri, is_Some (st_cache st' !! uri) <-> In uri (map fst (entriesOf settings)).
Proof.
  intros H uri. apply reloadDatabase_inv in H as (all & _ & Hload & _ & Hok & Hin & _).
  rewrite <- lastDefinition_In. specialize (Hload uri). split.
  - intros [p Hp]. destruct (Hok uri p Hp) as (parsed & po & _ & _ & Hget & _).
    destruct (lastDefinition uri (entriesOf settings)); [by eexists|].
    cbn in Hload. congruence.
  - intros [d Hd]. rewrite Hd in Hload. destruct Hload as (po & Hget & _).
    apply Hin, obj_get_keys. by eexists.
Qed.

Lemma count_distinct fuel settings st n st' :
  reloadDatabase fuel settings st = Done n st' ->
  n = length (remove_dups (map fst (entriesOf settings))).
Proof.
  intros H. pose proof (cache_keys _ _ _ _ _ H) as Hkeys.
  apply reloadDatabase_inv in H as (all & _ & _ & _ & _ & _ & ->).
  rewrite <- (length_fmap fst). apply Permutation_length.
  apply NoDup_Permutation; [apply NoDup_fst_map_to_list|apply NoDup_remove_dups|].
  intros uri. rewrite elem_of_remove_dups. rewrite list_elem_of_fmap. split.
  - intros ([k v] & -> & Hin). apply elem_of_map_to_list in Hin.
    apply list_elem_of_In, Hkeys. by eexists.
  - intros Hin. apply list_elem_of_In, Hkeys in Hin as [v Hv].
    exists (uri, v). split; [done|]. by apply elem_of_map_to_list.
Qed.

(** When [reloadDatabase] returns, the cache holds exactly the URIs of the
    artifacts, whatever it held before, and the count is the number of
    distinct URIs. *)
Theorem reloadDatabase_counts_distinct_uris fuel settings st n st' :
  reloadDatabase fuel settings st = Done n st' ->
  n = length (remove_dups (map fst (entriesOf settings))) /\
  forall uri, isPageObjectUri st' uri = true <-> In uri (map fst (entriesOf settings)).
Proof.
  intros H. split; [by eapply count_distinct|].
  pose proof (cache_keys _ _ _ _ _ H) as Hkeys.
  intros uri. unfold isPageObjectUri. rewrite bool_decide_eq_true. apply Hkeys.
Qed.

Lemma reloadDatabase_counts_distinct_uris_witness :
  (exists st', reloadDatabase 2 overriding emptyState = Done 1 st') /\
  forall st', reloadDatabase 2 overriding emptyState = Done 1 st' ->
    1 = length (remove_dups ["app/home"; "app/home"]) /\
    forall uri, isPageObjectUri st' uri = true <-> In uri ["app/home"; "app/home"].
Proof.
  split; [eexists; vm_compute; reflexivity|].
  intros st' H.
  exact (reloadDatabase_counts_distinct_uris 2 overriding emptyState 1 st' H).
Defined.

(** Last imported wins: when [reloadDatabase] returns, [getPageObject]
    answers a URI of the artifacts with a page object made of the last
    definition of that URI, and any other URI with [undefined]. *)
Theorem reloadDatabase_last_imported_wins fuel settings st n st' uri :
  reloadDatabase fuel settings st = Done n st' ->
  match lastDefinition uri (entriesOf settings) with
  | Some d =>
      exists parsed,
        getPageObject st' uri = Some parsed /\ to_key (p_uri parsed) = uri /\
        p_source parsed = po_source d /\
        p_author parsed = processAuthor (po_description d) /\
        p_description parsed = processDescription (po_description d)
  | None => getPageObject st' uri = None
  end.
Proof.
  intros H. pose proof (cache_keys _ _ _ _ _ H uri) as Hkeys.
  apply reloadDatabase_inv in H as (all & _ & Hload & _ & Hok & Hin & _).
  specialize (Hload uri). rewrite <- lastDefinition_In in Hkeys.
  unfold getPageObject.
  destruct (lastDefinition uri (entriesOf settings)) as [d|].
  - destruct Hload as (po & Hget & (Hs & _ & _ & Hd & _)).
    destruct (proj2 Hkeys) as [p Hp]; [by eexists|]. rewrite Hp.
    destruct (Hok uri p Hp) as (parsed & po' & Hh & Hu & Hget' & Hs' & Ha' & Hd' & _).
    assert (po' = po) as -> by congruence.
    exists parsed. rewrite Hs', Ha', Hd', Hs, Hd. done.
  - destruct (st_cache st' !! uri) as [p|] eqn:E; [|done].
    destruct (proj1 Hkeys) as [? ?]; [by eexists|done].
Qed.

Lemma reloadDatabase_last_imported_wins_witness :
  (exists st', reloadDatabase 2 overriding emptyState = Done 1 st') /\
  forall st', reloadDatabase 2 overriding emptyState = Done 1 st' ->
    exists parsed,
      getPageObject st' "app/home" = Some parsed /\ to_key (p_uri parsed) = "app/home" /\
      p_source parsed = "plain" /\ p_author parsed = None /\ p_description parsed = None.
Proof.
  split; [eexists; vm_compute; reflexivity|].
  intros st' H.
  exact (reloadDatabase_last_imported_wins 2 overriding emptyState 1 st' "app/home" H).
Defined.

(** Resolution only adds: it leaves [rootPageObjectUris] alone, keeps every
    cache key, every parsed page object with its URI, source and element
    map, and every method name, and only appends to the log and to the
    argument arrays. *)
Theorem resolution_only_adds allPageObjects fuel :
  (forall uri st p st',
     parsePageObject fuel allPageObjects uri st = Done p st' ->
     keeps st st' /\ heapGrows st st') /\
  (forall pageObject method p st d st',
     processMethod fuel allPageObjects pageObject method p st = Done d st' ->
     keeps st st' /\ heapGrows st st').
Proof.
  destruct (keeps_resolver allPageObjects fuel) as [Km Kp].
  destruct (heapGrows_resolver allPageObjects fuel) as [Gm Gp].
  split.
  - intros uri st p st' H. split; [by eapply Kp|by eapply Gp].
  - intros po m p st d st' H. split; [by eapply Km|by eapply Gm].
Qed.

Lemma resolution_only_adds_witness :
  (exists p st', parsePageObject 3 formSet (TStr "app/form") formLoaded = Done p st') /\
  forall p st', parsePageObject 3 formSet (TStr "app/form") formLoaded = Done p st' ->
    keeps formLoaded st' /\ heapGrows formLoaded st'.
Proof.
  split; [do 2 eexists; vm_compute; reflexivity|].
  intros p st' H.
  exact (proj1 (resolution_only_adds formSet 3) (TStr "app/form") formLoaded p st' H).
Defined.

(** * The members of a page object and of a basic element *)

Lemma publicElements_lookup (elements : gmap string ElementDesc) name :
  map_fold addPublicElement ∅ elements !! name =
  match elements !! name with
  | Some e => if ed_public e then Some (MemberElement e) else None
  | None => None
  end.
Proof.
  revert name.
  apply (map_fold_weak_ind
           (fun found (m : gmap string ElementDesc) =>
              forall name, found !! name =
                match m !! name with
                | Some e => if ed_public e then Some (MemberElement e) else None
                | None => None
                end)).
  - intros name. by rewrite !lookup_empty.
  - intros i x m r Hi IH name. unfold addPublicElement.
    destruct (decide (i = name)) as [->|Hne].
    + rewrite lookup_insert_eq. destruct (ed_public x).
      * by rewrite lookup_insert_eq.
      * by rewrite IH, Hi.
    + rewrite lookup_insert_ne by done. destruct (ed_public x).
      * rewrite lookup_insert_ne by done. apply IH.
      * apply IH.
Qed.

Lemma publicMethods_lookup (methods : gmap string MethodDesc) found0 name :
  map_fold addPublicMethod found0 methods !! name =
  match methods !! name with
  | Some m => if md_public m then Some (MemberMethod m) else found0 !! name
  | None => found0 !! name
  end.
Proof.
  revert name.
  apply (map_fold_weak_ind
           (fun found (m : gmap string MethodDesc) =>
              forall name, found !! name =
                match m !! name with
                | Some d => if md_public d then Some (MemberMethod d) else found0 !! name
                | None => found0 !! name
                end)).
  - intros name. by rewrite lookup_empty.
  - intros i x m r Hi IH name. unfold addPublicMethod.
    destruct (decide (i = name)) as [->|Hne].
    + rewrite lookup_insert_eq. destruct (md_public x).
      * by rewrite lookup_insert_eq.
      * by rewrite IH, Hi.
    + rewrite lookup_insert_ne by done. destruct (md_public x).
      * rewrite lookup_insert_ne by done. apply IH.
      * apply IH.
Qed.

(** The public members of a known page object are its public methods and,
    under the names no public method takes, its public elements; the
    database is left as it is.  For a URI the database does not know, the
    call throws. *)
Theorem getPageObjectPublicMembers_methods_hide_elements st pageObjectUri :
  match getPageObject st pageObjectUri with
  | Some parsed =>
      exists foundMembers,
        getPageObjectPublicMembers pageObjectUri st = Done foundMembers st /\
        forall name member,
          foundMembers !! name = Some member <->
          (exists m, p_methods parsed !! name = Some m /\ md_public m = true /\
                     member = MemberMethod m) \/
          (exists e, p_elements parsed !! name = Some e /\ ed_public e = true /\
                     member = MemberElement e /\
                     forall m, p_methods parsed !! name = Some m -> md_public m = false)
  | None => exists e, getPageObjectPublicMembers pageObjectUri st = Throw e
  end.
Proof.
  unfold getPageObjectPublicMembers.
  destruct (getPageObject st pageObjectUri) as [parsed|]; [|by eexists].
  eexists. split; [reflexivity|]. intros name member.
  rewrite publicMethods_lookup, publicElements_lookup. split.
  - destruct (p_methods parsed !! name) as [m|] eqn:Em.
    + destruct (md_public m) eqn:Ep.
      * intros [= <-]. left. by exists m.
      * destruct (p_elements parsed !! name) as [e|]; [|done].
        destruct (ed_public e) eqn:Ee; [|done]. intros [= <-]. right.
        exists e. repeat split; try done. by intros m' [= <-].
    + destruct (p_elements parsed !! name) as [e|]; [|done].
      destruct (ed_public e) eqn:Ee; [|done]. intros [= <-]. right.
      exists e. repeat split; done.
  - intros [(m & -> & -> & ->)|(e & -> & -> & -> & Hm)]; [done|].
    destruct (p_methods parsed !! name) as [m|]; [|done].
    by rewrite (Hm m eq_refl).
Qed.

Lemma addIntrinsic_fold name l found m :
  obj_get name (fold_left addIntrinsicMethod l found) = Some m ->
  obj_get name found = Some m \/ (In m l /\ im_name m = name).
Proof.
  revert found. induction l as [|x l IH]; intros found H; [by left|].
  cbn [fold_left] in H. apply IH in H as [H|[Hin Hn]]; [|right; split; [by right|done]].
  unfold addIntrinsicMethod in H. destruct (decide (im_name x = name)) as [E|E].
  - rewrite <- E, obj_get_set_eq in H. injection H as ->. right. split; [by left|done].
  - rewrite obj_get_set_ne in H by done. by left.
Qed.

(** The methods a lookup can find: those of the interfaces in [names]
    that the catalogue has, on top of what was there. *)
Lemma interfaces_fold name names found m :
  obj_get name
    (fold_left
       (fun foundMembers intrinsicInterface =>
          match obj_get intrinsicInterface intrinsicMethods with
          | Some interfaceMethods => fold_left addIntrinsicMethod interfaceMethods foundMembers
          | None => foundMembers
          end) names found) = Some m ->
  obj_get name found = Some m \/
  (im_name m = name /\
   exists intrinsicInterface methods,
     In intrinsicInterface names /\
     obj_get intrinsicInterface intrinsicMethods = Some methods /\ In m methods).
Proof.
  revert found. induction names as [|i names IH]; intros found H; [by left|].
  cbn [fold_left] in H. apply IH in H as [H|(Hn & i' & ms & Hi & Hg & Hm)].
  - destruct (obj_get i intrinsicMethods) as [ms|] eqn:Eg; [|by left].
    apply addIntrinsic_fold in H as [H|[Hin Hn]]; [by left|]. right.
    split; [done|]. exists i, ms. split; [by left|]. done.
  - right. split; [done|]. exists i', ms. split; [by right|]. done.
Qed.

Lemma addIntrinsic_fold_some name l found :
  (is_Some (obj_get name found) \/ exists m, In m l /\ im_name m = name) ->
  is_Some (obj_get name (fold_left addIntrinsicMethod l found)).
Proof.
  revert found. induction l as [|x l IH]; intros found H.
  - destruct H as [H|(? & [] & _)]. done.
  - cbn [fold_left]. apply IH. unfold addIntrinsicMethod.
    destruct (decide (im_name x = name)) as [E|E].
    + left. rewrite <- E, obj_get_set_eq. by eexists.
    + destruct H as [H|(m & [->|Hin] & Hn)]; [|done|].
      * left. by rewrite obj_get_set_ne.
      * right. by exists m.
Qed.

Lemma interfaces_fold_some name names found :
  (is_Some (obj_get name found) \/
   exists intrinsicInterface methods m,
     In intrinsicInterface names /\
     obj_get intrinsicInterface intrinsicMethods = Some methods /\
     In m methods /\ im_name m = name) ->
  is_Some (obj_get name
    (fold_left
       (fun foundMembers intrinsicInterface =>
          match obj_get intrinsicInterface intrinsicMethods with
          | Some interfaceMethods => fold_left addIntrinsicMethod interfaceMethods foundMembers
          | None => foundMembers
          end) names found)).
Proof.
  revert found. induction names as [|i names IH]; intros found H.
  - destruct H as [H|(? & ? & ? & [] & _)]. done.
  - cbn [fold_left]. apply IH.
    destruct H as [H|(i' & ms & m & [->|Hi] & Hg & Hm & Hn)].
    + left. destruct (obj_get i intrinsicMethods); [|done].
      apply addIntrinsic_fold_some. by left.
    + left. rewrite Hg. apply addIntrinsic_fold_some. right. by exists m.
    + right. by exists i', ms, m.
Qed.

(** No two methods of the catalogue share a name. *)
Lemma intrinsic_names_unique :
  NoDup (map im_name (flat_map snd intrinsicMethods)).
Proof.
  apply (bool_decide_unpack (NoDup (map im_name (flat_map snd intrinsicMethods)))).
  vm_compute. reflexivity.
Qed.

Lemma NoDup_map_inj {A B} (f : A -> B) l x y :
  NoDup (map f l) -> In x l -> In y l -> f x = f y -> x = y.
Proof.
  induction l as [|a l IH]; [done|]. cbn. intros Hnd Hx Hy E.
  apply NoDup_cons in Hnd as [Ha Hnd].
  destruct Hx as [->|Hx], Hy as [->|Hy]; [done| | |by apply IH].
  - exfalso. apply Ha. rewrite E. apply list_elem_of_In, in_map, Hy.
  - exfalso. apply Ha. rewrite <- E. apply list_elem_of_In, in_map, Hx.
Qed.

Lemma intrinsic_unique i1 ms1 m1 i2 ms2 m2 :
  obj_get i1 intrinsicMethods = Some ms1 -> In m1 ms1 ->
  obj_get i2 intrinsicMethods = Some ms2 -> In m2 ms2 ->
  im_name m1 = im_name m2 -> m1 = m2.
Proof.
  intros G1 H1 G2 H2. apply (NoDup_map_inj im_name (flat_map snd intrinsicMethods)).
  - apply intrinsic_names_unique.
  - apply in_flat_map. exists (i1, ms1). split; [by apply obj_get_In|done].
  - apply in_flat_map. exists (i2, ms2). split; [by apply obj_get_In|done].
Qed.

(** A basic element has the methods of [basic] and of every interface its
    type names, whatever their order and however often they are named: a
    name of the result is the name of its method, a type that is no array
    is read as the one interface it spells, and an interface the catalogue
    does not have adds nothing. *)
Theorem getIntrinsicPublicMembers_union type name m :
  obj_get name (getIntrinsicPublicMembers type) = Some m <->
  im_name m = name /\
  exists intrinsicInterface methods,
    (intrinsicInterface = "basic" \/
     match type with
     | Some (TArr l) => In intrinsicInterface l
     | Some (TStr s) => intrinsicInterface = s
     | None => False
     end) /\
    obj_get intrinsicInterface intrinsicMethods = Some methods /\ In m methods.
Proof.
  set (names := match type with
                | Some (TArr l) => l | Some (TStr s) => [s] | None => [] end).
  assert (Hnames : forall i, In i names <->
            match type with
            | Some (TArr l) => In i l | Some (TStr s) => i = s | None => False end).
  { intros i. subst names. destruct type as [[s|l]|]; cbn; [|done..].
    split; [by intros [->|[]]|by intros ->; left]. }
  assert (Hbasic : exists basic, obj_get "basic" intrinsicMethods = Some basic)
    by (by eexists).
  destruct Hbasic as [basic Hb].
  assert (Hfalsy : truthy_ot type = false ->
            forall i ms, In i names -> obj_get i intrinsicMethods = Some ms -> False).
  { intros Ht i ms Hi Hg. subst names. destruct type as [[s|l]|]; [|done..].
    cbn in Ht. destruct Hi as [<-|[]]. unfold truthy_s in Ht.
    apply negb_false_iff, str_eqb_eq in Ht as ->. done. }
  assert (Hfwd : forall found m0,
            found = fold_left addIntrinsicMethod basic [] ->
            obj_get name found = Some m0 ->
            im_name m0 = name /\ In m0 basic).
  { intros found m0 -> H. apply addIntrinsic_fold in H as [H|[Hin Hn]]; done. }
  unfold getIntrinsicPublicMembers. rewrite Hb. cbn [from_option]. unfold id.
  fold names. split.
  - intros H.
    assert (H' : obj_get name (fold_left addIntrinsicMethod basic []) = Some m \/
                 (im_name m = name /\
                  exists i ms, In i names /\ obj_get i intrinsicMethods = Some ms /\ In m ms)).
    { destruct (truthy_ot type); [by apply interfaces_fold in H|by left]. }
    destruct H' as [H'|(Hn & i & ms & Hi & Hg & Hm)].
    + destruct (Hfwd _ _ eq_refl H') as [Hn Hin]. split; [done|].
      exists "basic", basic. split; [by left|]. done.
    + split; [done|]. exists i, ms. split; [right; by apply Hnames|]. done.
  - intros (Hn & i & ms & Hi & Hg & Hm).
    assert (Hsome : is_Some (obj_get name
              (if truthy_ot type
               then fold_left
                      (fun foundMembers intrinsicInterface =>
                         match obj_get intrinsicInterface intrinsicMethods with
                         | Some interfaceMethods =>
                             fold_left addIntrinsicMethod interfaceMethods foundMembers
                         | None => foundMembers
                         end) names (fold_left addIntrinsicMethod basic [])
               else fold_left addIntrinsicMethod basic []))).
    { destruct Hi as [->|Hi].
      - assert (ms = basic) as -> by congruence.
        destruct (truthy_ot type).
        + apply interfaces_fold_some. left. apply addIntrinsic_fold_some.
          right. by exists m.
        + apply addIntrinsic_fold_some. right. by exists m.
      - apply Hnames in Hi. destruct (truthy_ot type) eqn:Et.
        + apply interfaces_fold_some. right. by exists i, ms, m.
        + destruct (Hfalsy eq_refl i ms Hi Hg). }
    destruct Hsome as [m' Hm']. rewrite Hm'. f_equal.
    assert (H' : obj_get name (fold_left addIntrinsicMethod basic []) = Some m' \/
                 (im_name m' = name /\
                  exists i ms, In i names /\ obj_get i intrinsicMethods = Some ms /\ In m' ms)).
    { destruct (truthy_ot type); [by apply interfaces_fold in Hm'|by left]. }
    destruct H' as [H'|(Hn' & i' & ms' & Hi' & Hg' & Hm2)].
    + destruct (Hfwd _ _ eq_refl H') as [Hn' Hin].
      eapply (intrinsic_unique "basic" basic m' i ms m); eauto. congruence.
    + eapply (intrinsic_unique i' ms' m' i ms m); eauto. congruence.
Qed.

Lemma append_nil (s : string) : ("" ++ s)%string = s.
Proof. reflexivity. Qed.

Lemma append_cons c (a s : string) : (String c a ++ s)%string = String c (a ++ s).
Proof. reflexivity. Qed.

Lemma indexOf_bounds c s : (-1 <= indexOf c s < Z.of_nat (String.length s))%Z.
Proof.
  induction s as [|c' s IH]; cbn [indexOf String.length]; [lia|].
  destruct (Ascii.eqb c' c); [lia|]. destruct (Z.ltb_spec (indexOf c s) 0); lia.
Qed.

Lemma indexOf_absent c s : occurs c s = false -> indexOf c s = (-1)%Z.
Proof.
  induction s as [|c' s IH]; cbn; [done|]. intros H.
  apply orb_false_iff in H as [-> H]. by rewrite (IH H).
Qed.

Lemma indexOf_first c a rest :
  occurs c a = false -> indexOf c (a ++ String c rest) = Z.of_nat (String.length a).
Proof.
  induction a as [|c' a IH]; rewrite ?append_nil, ?append_cons;
    cbn [occurs indexOf String.length]; intros H.
  - by rewrite Ascii.eqb_refl.
  - apply orb_false_iff in H as [-> H]. rewrite (IH H).
    destruct (Z.ltb_spec (Z.of_nat (String.length a)) 0); lia.
Qed.

Lemma lastIndexOf_absent c s : occurs c s = false -> lastIndexOf c s = (-1)%Z.
Proof.
  induction s as [|c' s IH]; cbn; [done|]. intros H.
  apply orb_false_iff in H as [-> H]. by rewrite (IH H).
Qed.

Lemma lastIndexOf_last c a rest :
  occurs c rest = false -> lastIndexOf c (a ++ String c rest) = Z.of_nat (String.length a).
Proof.
  intros H. induction a as [|c' a IH]; rewrite ?append_nil, ?append_cons;
    cbn [lastIndexOf String.length].
  - rewrite (lastIndexOf_absent _ _ H). cbn. by rewrite Ascii.eqb_refl.
  - rewrite IH. destruct (Z.leb_spec 0 (Z.of_nat (String.length a))); lia.
Qed.

Lemma length_append (a b : string) :
  String.length (a ++ b) = String.length a + String.length b.
Proof.
  induction a as [|c a IH]; rewrite ?append_nil, ?append_cons; cbn; [done|].
  by rewrite IH.
Qed.

Lemma substring_zero n (s : string) : String.substring n 0 s = "".
Proof.
  revert s. induction n as [|n IH]; intros [|c s]; cbn; auto.
Qed.

Lemma substring_all (s : string) : String.substring 0 (String.length s) s = s.
Proof. induction s as [|c s IH]; cbn; [done|]. by rewrite IH. Qed.

Lemma substring_prefix (a b : string) :
  String.substring 0 (String.length a) (a ++ b) = a.
Proof.
  induction a as [|c a IH]; rewrite ?append_nil, ?append_cons; cbn;
    [by destruct b|]. by rewrite IH.
Qed.

Lemma substring_skip (a s : string) n m :
  String.substring (String.length a + n) m (a ++ s) = String.substring n m s.
Proof.
  induction a as [|c a IH]; rewrite ?append_nil, ?append_cons; cbn; [done|]. apply IH.
Qed.

(** The two pieces the display name takes after the last slash. *)
Lemma after_last_slash front name :
  let uri := (front ++ String "/" name)%string in
  let lastSlash := Z.of_nat (String.length front) in
  (toUpperCase (js_substring uri (lastSlash + 1) (lastSlash + 2)) ++
   js_substringFrom uri (lastSlash + 2))%string = capitalized name.
Proof.
  cbn zeta. unfold js_substringFrom, js_substring, clampIndex.
  rewrite length_append. cbn [String.length].
  destruct name as [|c name]; cbn [String.length capitalized].
  - replace (Z.to_nat _) with (String.length front + 1) by lia.
    replace (Z.to_nat _) with (String.length front + 1) by lia.
    replace (Z.to_nat _) with (String.length front + 1) by lia.
    rewrite Nat.min_id, Nat.max_id, Nat.sub_diag, !substring_zero. done.
  - replace (Z.to_nat (Z.min (Z.max (Z.of_nat (String.length front) + 1) 0) _))
      with (String.length front + 1) by lia.
    replace (Z.to_nat (Z.min (Z.max (Z.of_nat (String.length front) + 2) 0) _))
      with (String.length front + 2) by lia.
    replace (Z.to_nat (Z.min (Z.max (Z.of_nat (String.length front + S (S (String.length name)))) 0) _))
      with (String.length front + S (S (String.length name))) by lia.
    replace (Nat.min (String.length front + 1) (String.length front + 2))
      with (String.length front + 1) by lia.
    replace (Nat.max (String.length front + 1) (String.length front + 2) -
             (String.length front + 1)) with 1 by lia.
    replace (Nat.min (String.length front + 2) (String.length front + S (S (String.length name))))
      with (String.length front + 2) by lia.
    replace (Nat.max (String.length front + 2) (String.length front + S (S (String.length name))) -
             (String.length front + 2)) with (String.length name) by lia.
    rewrite !substring_skip. cbn [String.substring].
    rewrite substring_zero, substring_all. done.
Qed.

(** The display name of a URI is what stands before its first slash, a
    slash, and what stands after its last slash with the first character
    in upper case; a URI without slash gives a slash and the URI with its
    first character in upper case.  The part after the last slash is taken
    to begin with an ASCII character, the only ones whose upper case the
    embedding knows. *)
Theorem pageObjectDisplayNameFromUri_namespace_and_name :
  (forall ns rest front name,
     occurs "/" ns = false -> occurs "/" name = false ->
     asciiFirst name = true ->
     (ns ++ "/" ++ rest)%string = (front ++ "/" ++ name)%string ->
     pageObjectDisplayNameFromUri (front ++ "/" ++ name)
     = (ns ++ "/" ++ capitalized name)%string) /\
  (forall uri,
     occurs "/" uri = false ->
     asciiFirst uri = true ->
     pageObjectDisplayNameFromUri uri = ("/" ++ capitalized uri)%string).
Proof.
  split.
  - intros ns rest front name Hns Hname _ E. unfold pageObjectDisplayNameFromUri.
    change ("/" ++ name)%string with (String "/" name).
    rewrite (lastIndexOf_last "/" front name Hname).
    rewrite (after_last_slash front name).
    change (String "/" name) with ("/" ++ name)%string. rewrite <- E.
    change ("/" ++ rest)%string with (String "/" rest).
    rewrite (indexOf_first "/" ns rest Hns).
    unfold js_substring, clampIndex. rewrite length_append.
    replace (Z.to_nat (Z.min (Z.max 0 0) _)) with 0 by lia.
    replace (Z.to_nat (Z.min (Z.max (Z.of_nat (String.length ns)) 0) _))
      with (String.length ns) by lia.
    rewrite Nat.min_0_l, Nat.max_0_l, Nat.sub_0_r, substring_prefix. done.
  - intros uri H _. unfold pageObjectDisplayNameFromUri.
    rewrite (lastIndexOf_absent _ _ H), (indexOf_absent _ _ H).
    pose proof (after_last_slash "" uri) as Ha. cbn zeta in Ha.
    unfold js_substringFrom, js_substring, clampIndex in *.
    rewrite append_nil in Ha. cbn [String.length Z.of_nat Z.add] in Ha.
    assert (E0 : Z.to_nat (Z.min (Z.max 0 0) (Z.of_nat (String.length uri))) = 0) by lia.
    assert (E1 : Z.to_nat (Z.min (Z.max (-1) 0) (Z.of_nat (String.length uri))) = 0) by lia.
    rewrite E0, E1. cbn [Nat.min Nat.max Nat.sub]. rewrite substring_zero.
    rewrite append_nil, !append_cons, !append_nil. f_equal.
    destruct uri as [|c uri]; [done|].
    cbn [capitalized String.length].
    replace (Z.to_nat (Z.min (Z.max (-1 + 1) 0) _)) with 0 by lia.
    replace (Z.to_nat (Z.min (Z.max (-1 + 2) 0) _)) with 1 by lia.
    replace (Z.to_nat (Z.min (Z.max (Z.of_nat (S (String.length uri))) 0) _))
      with (S (String.length uri)) by lia.
    cbn [Nat.min Nat.max Nat.sub String.substring].
    rewrite substring_zero.
    replace (String.length uri - 0) with (String.length uri) by lia.
    rewrite substring_all. done.
Qed.

Lemma pageObjectDisplayNameFromUri_namespace_and_name_witness :
  pageObjectDisplayNameFromUri "utam-sfdx/pageObjects/navigation/appNav"
  = "utam-sfdx/AppNav" /\
  pageObjectDisplayNameFromUri "login" = "/Login".
Proof.
  destruct pageObjectDisplayNameFromUri_namespace_and_name as [H1 H2]. split.
  - exact (H1 "utam-sfdx" "pageObjects/navigation/appNav"
              "utam-sfdx/pageObjects/navigation" "appNav" eq_refl eq_refl eq_refl eq_refl).
  - exact (H2 "login" eq_refl eq_refl).
Defined.

(** * The element map of a page object *)

Lemma forestNames_tagged sh l :
  forestNames (tagged sh l) =
  match l with Some l => flat_map elementNames l | None => [] end.
Proof.
  unfold forestNames, tagged. destruct l as [l|]; [|done]. cbn [default from_option id].
  unfold id. induction l as [|x l IH]; [done|]. cbn. by rewrite IH.
Qed.

Lemma forestNames_app f g : forestNames (f ++ g) = forestNames f ++ forestNames g.
Proof. unfold forestNames. apply flat_map_app. Qed.

Lemma elementNames_children e :
  elementNames e = e_name e :: forestNames (childrenOf e).
Proof.
  unfold childrenOf. rewrite forestNames_app, !forestNames_tagged. by destruct e.
Qed.

Lemma forestNames_In forest x name :
  In x forest -> In name (elementNames (snd x)) -> In name (forestNames forest).
Proof. intros Hx Hn. apply in_flat_map. by exists x. Qed.

Lemma InForest_name forest path sh e :
  InForest forest path sh e -> In (e_name e) (forestNames forest).
Proof.
  induction 1 as [forest sh e Hin|forest sh0 a path sh e Hin _ IH].
  - apply (forestNames_In forest (sh, e)); [done|]. cbn. rewrite elementNames_children. by left.
  - apply (forestNames_In forest (sh0, a)); [done|]. cbn. rewrite elementNames_children.
    by right.
Qed.

Lemma forestNames_InForest forest name :
  In name (forestNames forest) -> exists path sh e, InForest forest path sh e /\ e_name e = name.
Proof.
  intros H. apply in_flat_map in H as ([sh a] & Hin & Hn). cbn in Hn.
  revert forest sh Hin name Hn.
  induction a as [a IHe IHs] using ElementDef_nested_ind.
  intros forest sh Hin name Hn. rewrite elementNames_children in Hn.
  destruct Hn as [<-|Hn].
  - exists [], sh, a. split; [by constructor|done].
  - unfold childrenOf in Hn. rewrite forestNames_app in Hn.
    apply in_app_or in Hn as [Hn|Hn]; apply in_flat_map in Hn as ([sh' c] & Hc & Hn);
      cbn in Hn.
    + assert (Hc' := Hc). unfold tagged in Hc'. apply in_map_iff in Hc' as (c' & [= <- <-] & Hc').
      rewrite List.Forall_forall in IHe.
      destruct (IHe c' Hc' (childrenOf a) false) with (name := name)
        as (path & sh'' & e & Hf & He); [|done|].
      { unfold childrenOf. apply in_or_app. by left. }
      exists (a :: path), sh'', e. split; [|done]. by econstructor.
    + assert (Hc' := Hc). unfold tagged in Hc'. apply in_map_iff in Hc' as (c' & [= <- <-] & Hc').
      rewrite List.Forall_forall in IHs.
      destruct (IHs c' Hc' (childrenOf a) true) with (name := name)
        as (path & sh'' & e & Hf & He); [|done|].
      { unfold childrenOf. apply in_or_app. by right. }
      exists (a :: path), sh'', e. split; [|done]. by econstructor.
Qed.

Section Keys.
Variable allPageObjects : PageObjects.

Definition TreeKeys (e : ElementDef) : Prop :=
  forall sh parentName parentArgs m name,
    is_Some (processElementTree allPageObjects sh parentName parentArgs e m !! name) <->
    is_Some (m !! name) \/ In name (elementNames e).

Lemma fold_keys sh parentName parentArgs l :
  Forall TreeKeys l ->
  forall m name,
    is_Some (fold_left (fun acc child =>
               processElementTree allPageObjects sh parentName parentArgs child acc)
             l m !! name) <->
    is_Some (m !! name) \/ In name (flat_map elementNames l).
Proof.
  induction 1 as [|x r Hx Hr IH]; intros m name; cbn [fold_left flat_map].
  - cbn. tauto.
  - unfold TreeKeys in Hx. rewrite IH, Hx, in_app_iff. tauto.
Qed.

Lemma processElementTree_keys e : TreeKeys e.
Proof.
  induction e as [e IHe IHs] using ElementDef_nested_ind.
  intros sh parentName parentArgs m name.
  destruct e as [ename ety esel efil epub edesc eels eshadow].
  cbn [processElementTree elementNames e_elements e_shadow e_name] in *.
  set (d0 := processElementObject allPageObjects _ parentName parentArgs sh).
  assert (Hbase : is_Some (<[ename := d0]> m !! name) <-> is_Some (m !! name) \/ ename = name).
  { rewrite lookup_insert. case_decide as Hn.
    - split; [by right|by eexists].
    - split; [by left|]. intros [H|H]; [done|congruence]. }
  cbn [In]. rewrite in_app_iff.
  destruct eels as [els|], eshadow as [shadow|]; cbn [default from_option id] in *;
    unfold id in *; rewrite ?fold_keys by done; rewrite ?Hbase; cbn [In]; tauto.
Qed.

Lemma processElementList_keys sh parentName parentArgs l m name :
  is_Some (processElementList allPageObjects sh parentName parentArgs l m !! name) <->
  is_Some (m !! name) \/ In name (forestNames (tagged sh l)).
Proof.
  rewrite forestNames_tagged. destruct l as [l|]; cbn; [|tauto].
  apply fold_keys. apply List.Forall_forall. intros x _. apply processElementTree_keys.
Qed.

Lemma parsedElements_keys uri (pageObject : PageObject aref) name :
  is_Some (parsedElements allPageObjects uri pageObject !! name) <->
  In name (declaredNames pageObject).
Proof.
  unfold parsedElements, processElements, declaredNames, forestOf.
  rewrite !processElementList_keys, forestNames_app, !in_app_iff.
  destruct (po_selector pageObject) as [selector|].
  - rewrite lookup_insert. case_decide as Hn.
    + subst name. cbn. split; [tauto|]. intros _. left. left. by eexists.
    + rewrite lookup_empty. cbn. split.
      * intros [[[? H]|H]|H]; [done|tauto..].
      * intros [[H|[]]|[H|H]]; [done|tauto..].
  - rewrite lookup_empty. cbn. split.
    + intros [[[? H]|H]|H]; [done|tauto..].
    + tauto.
Qed.
End Keys.

(** The keys of the element map of a parsed page object are the names its
    definition declares, however deep, and [root] when the definition has
    a selector. *)
Theorem element_map_keys_are_declared_names allPageObjects fuel uri st p st' :
  parsePageObject fuel allPageObjects uri st = Done p st' ->
  exists pageObject parsed,
    obj_get (to_key uri) allPageObjects = Some pageObject /\
    st_heap st' !! p = Some parsed /\
    forall name, is_Some (p_elements parsed !! name) <-> In name (declaredNames pageObject).
Proof.
  intros H. apply parsePageObject_result in H as (po & parsed & Hg & _ & Hh & _ & _ & He).
  exists po, parsed. split; [done|]. split; [done|]. intros name. rewrite He.
  apply parsedElements_keys.
Qed.

Lemma element_map_keys_are_declared_names_witness :
  exists parsed,
    st_heap (match parsePageObject 2 tableSet (TStr "app/table") emptyState with
             | Done _ st' => st'
             | _ => emptyState
             end) !! 0 = Some parsed /\
    forall name, is_Some (p_elements parsed !! name) <-> In name ["root"; "row"; "label"].
Proof.
  destruct (element_map_keys_are_declared_names tableSet 2 (TStr "app/table") emptyState 0
              (match parsePageObject 2 tableSet (TStr "app/table") emptyState with
               | Done _ st' => st'
               | _ => emptyState
               end)) as (po & parsed & Hg & Hh & Hk).
  - vm_compute. reflexivity.
  - exists parsed. split; [exact Hh|]. injection Hg as <-. exact Hk.
Defined.

Lemma NoDup_flat_map_inj {A B} (g : A -> list B) l x y n :
  NoDup (flat_map g l) -> In x l -> In y l -> In n (g x) -> In n (g y) -> x = y.
Proof.
  induction l as [|a l IH]; [done|]. cbn [flat_map]. intros Hnd Hx Hy Hnx Hny.
  apply NoDup_app in Hnd as (Ha & Hdis & Hl).
  destruct Hx as [->|Hx], Hy as [->|Hy]; [done| | |by apply IH].
  - exfalso. apply (Hdis n); [by apply list_elem_of_In|].
    apply list_elem_of_In, in_flat_map. by exists y.
  - exfalso. apply (Hdis n); [by apply list_elem_of_In|].
    apply list_elem_of_In, in_flat_map. by exists x.
Qed.

Lemma NoDup_flat_map_In {A B} (g : A -> list B) l x :
  NoDup (flat_map g l) -> In x l -> NoDup (g x).
Proof.
  induction l as [|a l IH]; [done|]. cbn [flat_map]. intros Hnd Hx.
  apply NoDup_app in Hnd as (Ha & _ & Hl). destruct Hx as [->|Hx]; [done|by apply IH].
Qed.

Lemma InForest_unique forest path sh e :
  InForest forest path sh e ->
  forall path' sh' e',
    NoDup (forestNames forest) -> InForest forest path' sh' e' -> e_name e = e_name e' ->
    path = path' /\ sh = sh' /\ e = e'.
Proof.
  induction 1 as [forest sh e Hin|forest sh0 a path sh e Hin Hsub IH];
    intros path' sh' e' Hnd H' Hname.
  - inversion H' as [f1 s1 e1 Hin'|f1 s0' a' p1 s1 e1 Hin' Hsub']; subst.
    + assert (E : (sh, e) = (sh', e')).
      { apply (NoDup_flat_map_inj _ _ _ _ (e_name e) Hnd Hin Hin'); cbn;
          rewrite elementNames_children; [by left|rewrite Hname; by left]. }
      by injection E as -> ->.
    + exfalso. assert (Hb : In (e_name e) (forestNames (childrenOf a'))).
      { rewrite Hname. by eapply InForest_name. }
      assert (E : (sh, e) = (s0', a')).
      { apply (NoDup_flat_map_inj _ _ _ _ (e_name e) Hnd Hin Hin'); cbn;
          rewrite elementNames_children; [by left|by right]. }
      injection E as -> ->.
      pose proof (NoDup_flat_map_In _ _ _ Hnd Hin') as Hnd'. cbn in Hnd'.
      rewrite elementNames_children in Hnd'. apply NoDup_cons in Hnd' as [Hnot _].
      apply Hnot. by apply list_elem_of_In.
  - assert (Hb : In (e_name e) (forestNames (childrenOf a))) by (by eapply InForest_name).
    pose proof (NoDup_flat_map_In _ _ _ Hnd Hin) as Hnda. cbn in Hnda.
    rewrite elementNames_children in Hnda. apply NoDup_cons in Hnda as [Hnot Hndc].
    inversion H' as [f1 s1 e1 Hin'|f1 s0' a' p1 s1 e1 Hin' Hsub']; subst.
    + exfalso. assert (E : (sh0, a) = (sh', e')).
      { apply (NoDup_flat_map_inj _ _ _ _ (e_name e) Hnd Hin Hin'); cbn;
          rewrite elementNames_children; [by right|rewrite Hname; by left]. }
      injection E as -> ->. apply Hnot. rewrite <- Hname. by apply list_elem_of_In.
    + assert (E : (sh0, a) = (s0', a')).
      { apply (NoDup_flat_map_inj _ _ _ _ (e_name e) Hnd Hin Hin'); cbn;
          rewrite elementNames_children; [by right|].
        right. rewrite Hname. by eapply InForest_name. }
      injection E as -> ->.
      destruct (IH p1 sh' e' Hndc Hsub' Hname) as (-> & -> & ->). done.
Qed.

Section Unique.
Variable allPageObjects : PageObjects.

Lemma parsedElements_unique uri (pageObject : PageObject aref) path sh e :
  NoDup (declaredNames pageObject) ->
  InForest (forestOf pageObject) path sh e ->
  parsedElements allPageObjects uri pageObject !! e_name e =
  Some (processElementObject allPageObjects e (parentOf None path)
          (flat_map ownArgs path) sh).
Proof.
  intros Hnd Hin.
  assert (Hkey : is_Some (parsedElements allPageObjects uri pageObject !! e_name e)).
  { apply parsedElements_keys. unfold declaredNames. apply in_or_app. right.
    by eapply InForest_name. }
  destruct Hkey as [d Hd]. rewrite Hd. f_equal.
  assert (Hd' := Hd). unfold parsedElements in Hd'.
  unfold declaredNames in Hnd. apply NoDup_app in Hnd as (_ & Hdis & Hnd).
  apply processElements_origin in Hd' as [Hroot|(path' & sh' & e' & Hin' & Hn & ->)].
  - exfalso. destruct (po_selector pageObject) as [selector|];
      [|by rewrite lookup_empty in Hroot].
    rewrite lookup_insert in Hroot. case_decide as Hn; [|by rewrite lookup_empty in Hroot].
    apply (Hdis (e_name e)); [rewrite <- Hn; by left|].
    apply list_elem_of_In. by eapply InForest_name.
  - destruct (InForest_unique _ _ _ _ Hin' path sh e Hnd Hin Hn) as (-> & -> & ->).
    done.
Qed.

Lemma parsedElements_root uri (pageObject : PageObject aref) selector :
  NoDup (declaredNames pageObject) ->
  po_selector pageObject = Some selector ->
  parsedElements allPageObjects uri pageObject !! DataTypes.ROOT =
  Some (processElementObject allPageObjects (rootElement uri selector) None [] false).
Proof.
  intros Hnd Hs.
  assert (Hkey : is_Some (parsedElements allPageObjects uri pageObject !! DataTypes.ROOT)).
  { apply parsedElements_keys. unfold declaredNames. rewrite Hs. by left. }
  destruct Hkey as [d Hd]. rewrite Hd. f_equal.
  assert (Hd' := Hd). unfold parsedElements in Hd'. rewrite Hs in Hd'.
  unfold declaredNames in Hnd. rewrite Hs in Hnd. apply NoDup_app in Hnd as (_ & Hdis & Hnd).
  apply processElements_origin in Hd' as [Hroot|(path' & sh' & e' & Hin' & Hn & ->)].
  - rewrite lookup_insert_eq in Hroot. congruence.
  - exfalso. apply (Hdis DataTypes.ROOT); [by left|].
    apply list_elem_of_In. rewrite <- Hn. by eapply InForest_name.
Qed.
End Unique.

(** When the names a page object declares are pairwise distinct ([root]
    included when it has a selector), the element map of the parsed page
    object holds, for every element of the definition and under its name,
    the descriptor of that very element: its parent is the name of the
    enclosing element, its shadow flag tells whether it was declared under
    [shadow], and its arguments are those of its ancestors, outermost first,
    then its own. *)
Theorem distinct_names_keep_every_element allPageObjects fuel uri st p st'
    pageObject path sh e :
  parsePageObject fuel allPageObjects uri st = Done p st' ->
  obj_get (to_key uri) allPageObjects = Some pageObject ->
  NoDup (declaredNames pageObject) ->
  InForest (forestOf pageObject) path sh e ->
  exists parsed d,
    st_heap st' !! p = Some parsed /\
    p_elements parsed !! e_name e = Some d /\
    d = processElementObject allPageObjects e (parentOf None path)
          (flat_map ownArgs path) sh /\
    ed_parent d = parentOf None path /\
    ed_isInShadowRoot d = sh /\
    ed_effectiveArgs d = flat_map ownArgs path ++ ownArgs e.
Proof.
  intros H Hget Hnd Hin.
  apply parsePageObject_result in H as (po & parsed & Hg & _ & Hh & _ & _ & He).
  assert (po = pageObject) as -> by congruence.
  exists parsed. eexists. split; [done|]. rewrite He.
  split; [by apply parsedElements_unique|]. split; [done|].
  split; [done|]. split; [done|]. apply processElementObject_effectiveArgs.
Qed.

Lemma distinct_names_keep_every_element_witness :
  NoDup (declaredNames tablePage) /\
  InForest (forestOf tablePage) [rowDef] false labelDef /\
  exists parsed d,
    st_heap (match parsePageObject 2 tableSet (TStr "app/table") emptyState with
             | Done _ st' => st'
             | _ => emptyState
             end) !! 0 = Some parsed /\
    p_elements parsed !! "label" = Some d /\
    ed_parent d = Some "row" /\ ed_isInShadowRoot d = false /\
    ed_effectiveArgs d = ownArgs rowDef ++ ownArgs labelDef.
Proof.
  assert (Hnd : NoDup (declaredNames tablePage)).
  { apply (bool_decide_unpack (NoDup (declaredNames tablePage))). vm_compute. exact I. }
  assert (Hin : InForest (forestOf tablePage) [rowDef] false labelDef).
  { apply InForest_below with (sh0 := false); [by left|]. apply InForest_here. by left. }
  split; [exact Hnd|]. split; [exact Hin|].
  destruct (distinct_names_keep_every_element tableSet 2 (TStr "app/table") emptyState 0
              (match parsePageObject 2 tableSet (TStr "app/table") emptyState with
               | Done _ st' => st'
               | _ => emptyState
               end) tablePage [rowDef] false labelDef)
    as (parsed & d & Hh & Hd & _ & Hp & Hs & Ha); [vm_compute; reflexivity|reflexivity|
      exact Hnd|exact Hin|].
  exists parsed, d. cbn [flat_map] in Ha. rewrite app_nil_r in Ha. done.
Defined.

Lemma InForest_snoc forest path a sh e :
  InForest forest (path ++ [a]) sh e ->
  exists sh', InForest forest path sh' a /\ In (sh, e) (childrenOf a).
Proof.
  revert forest. induction path as [|b path IH]; intros forest H; cbn in H.
  - inversion H as [|f1 sh0 a1 p1 s1 e1 Hin Hsub]; subst.
    inversion Hsub; subst. exists sh0. split; [by constructor|done].
  - inversion H as [|f1 sh0 a1 p1 s1 e1 Hin Hsub]; subst.
    apply IH in Hsub as (sh' & Hsub & Hc). exists sh'. split; [by econstructor|done].
Qed.

Lemma parentOf_snoc parentName path a :
  parentOf parentName (path ++ [a]) = Some (e_name a).
Proof. unfold parentOf. by rewrite last_snoc. Qed.

Section Chains.
Variable allPageObjects : PageObjects.
Variable uri : TypeVal.
Variable pageObject : PageObject aref.
Hypothesis distinct : NoDup (declaredNames pageObject).
Hypothesis named : ~ In "" (declaredNames pageObject).

Local Abbreviation coll := (parsedElements allPageObjects uri pageObject).

Lemma declared_chain path :
  forall sh e,
    InForest (forestOf pageObject) path sh e ->
    exists descs,
      Forall2 (fun a d => coll !! e_name a = Some d) path descs /\
      ChainTo coll descs (parentOf None path).
Proof.
  induction path as [|a path IH] using rev_ind; intros sh e Hin.
  - exists []. split; [constructor|]. by constructor.
  - apply InForest_snoc in Hin as (sh' & Ha & _).
    destruct (IH sh' a Ha) as (descs & Hf & Hc).
    pose proof (parsedElements_unique allPageObjects uri pageObject path sh' a
                  distinct Ha) as Hd.
    eexists (descs ++ [_]). split.
    + apply Forall2_app; [exact Hf|]. constructor; [exact Hd|constructor].
    + rewrite parentOf_snoc. eapply ChainTo_parent; [|exact Hd|exact Hc].
      unfold truthy_s. apply negb_true_iff, str_eqb_neq. intros E. apply named.
      unfold declaredNames. apply in_or_app. right. rewrite <- E.
      by eapply InForest_name.
Qed.
End Chains.

(** For a page object whose declared names are pairwise distinct and not
    empty, the walk to an element follows its parent names through exactly
    the descriptors of the enclosing elements, outermost first, and needs no
    more iterations than the element is deep. *)
Theorem walker_follows_declared_ancestors {Node} (doc : Document Node)
    (pageObjectResolver : TypeVal -> option Parsed)
    allPageObjects fuel uri st p st' pageObject path sh e :
  parsePageObject fuel allPageObjects uri st = Done p st' ->
  obj_get (to_key uri) allPageObjects = Some pageObject ->
  NoDup (declaredNames pageObject) ->
  ~ In "" (declaredNames pageObject) ->
  InForest (forestOf pageObject) path sh e ->
  exists parsed d descs,
    st_heap st' !! p = Some parsed /\
    p_elements parsed !! e_name e = Some d /\
    Forall2 (fun a d' => p_elements parsed !! e_name a = Some d') path descs /\
    forall walkFuel parentElement args store,
      length path < walkFuel ->
      walkElements doc pageObjectResolver walkFuel parentElement (MemberElement d) args
        (p_elements parsed) store
      = (let* walked :=
           foldM (walkSegment doc pageObjectResolver walkFuel) descs (parentElement, args) in
         let* info := getFilterInfo pageObjectResolver walkFuel (Elem d) (snd walked) in
         getElement doc (Elem d) (snd walked) info (fst walked)) store.
Proof.
  intros H Hget Hnd Hne Hin.
  apply parsePageObject_result in H as (po & parsed & Hg & _ & Hh & _ & _ & He).
  assert (po = pageObject) as -> by congruence.
  destruct (declared_chain allPageObjects uri pageObject Hnd Hne path sh e Hin)
    as (descs & Hf & Hc).
  exists parsed. eexists. exists descs. split; [done|]. rewrite He.
  split; [by apply parsedElements_unique|]. split; [done|].
  intros walkFuel parentElement args store Hlen.
  apply walkElements_element; [|by rewrite <- (Forall2_length _ _ _ Hf)].
  done.
Qed.

Lemma walker_follows_declared_ancestors_witness :
  NoDup (declaredNames tablePage) /\ ~ In "" (declaredNames tablePage) /\
  InForest (forestOf tablePage) [rowDef] false labelDef /\
  exists parsed d descs,
    st_heap (match parsePageObject 2 tableSet (TStr "app/table") emptyState with
             | Done _ st' => st'
             | _ => emptyState
             end) !! 0 = Some parsed /\
    p_elements parsed !! "label" = Some d /\
    Forall2 (fun a d' => p_elements parsed !! e_name a = Some d') [rowDef] descs /\
    walkElements toyDoc noPageObjects 2 (Some 0) (MemberElement d) 0
      (p_elements parsed) [[]]
    = (let* walked :=
         foldM (walkSegment toyDoc noPageObjects 2) descs (Some 0, 0) in
       let* info := getFilterInfo noPageObjects 2 (Elem d) (snd walked) in
       getElement toyDoc (Elem d) (snd walked) info (fst walked)) [[]].
Proof.
  assert (Hnd : NoDup (declaredNames tablePage)).
  { apply (bool_decide_unpack (NoDup (declaredNames tablePage))). vm_compute. exact I. }
  assert (Hne : ~ In "" (declaredNames tablePage)).
  { cbn. intros [H|[H|[H|[]]]]; discriminate H. }
  assert (Hin : InForest (forestOf tablePage) [rowDef] false labelDef).
  { apply InForest_below with (sh0 := false); [by left|]. apply InForest_here. by left. }
  split; [exact Hnd|]. split; [exact Hne|]. split; [exact Hin|].
  destruct (walker_follows_declared_ancestors toyDoc noPageObjects tableSet 2
              (TStr "app/table") emptyState 0
              (match parsePageObject 2 tableSet (TStr "app/table") emptyState with
               | Done _ st' => st'
               | _ => emptyState
               end) tablePage [rowDef] false labelDef)
    as (parsed & d & descs & Hh & Hd & Hf & Hw); [vm_compute; reflexivity|reflexivity|
      exact Hnd|exact Hne|exact Hin|].
  exists parsed, d, descs. split; [exact Hh|]. split; [exact Hd|]. split; [exact Hf|].
  apply Hw. cbn. lia.
Defined.

Section Circle.
Context {Node : Type}.
Variable doc : Document Node.
Variable pageObjectResolver : TypeVal -> option Parsed.
Variable coll : gmap string ElementDesc.
Variable names : list string.
Hypothesis closed :
  forall name, In name names ->
    truthy_s name = true /\
    exists a parent, coll !! name = Some a /\ ed_parent a = Some parent /\ In parent names.

Lemma buildElementPath_circle fuel parentDescriptor elementPath parent store :
  ed_parent parentDescriptor = Some parent -> In parent names ->
  buildElementPath fuel coll parentDescriptor elementPath store = OutOfFuel.
Proof.
  revert parentDescriptor elementPath parent.
  induction fuel as [|fuel IH]; intros pd acc parent Hp Hin; [done|].
  cbn [buildElementPath]. rewrite Hp.
  destruct (closed parent Hin) as (Ht & a & parent' & Ha & Hp' & Hin').
  rewrite Ht, Ha. by eapply IH.
Qed.
End Circle.

(** When the parent names of an element lead into a set of names that each
    have a parent in the set, the walk to that element never returns: the
    loop that collects the ancestors does not end. *)
Theorem walk_never_returns_on_parent_circle {Node} (doc : Document Node)
    (pageObjectResolver : TypeVal -> option Parsed)
    (coll : gmap string ElementDesc) (names : list string) d parent :
  (forall name, In name names ->
     truthy_s name = true /\
     exists a next, coll !! name = Some a /\ ed_parent a = Some next /\ In next names) ->
  ed_parent d = Some parent -> In parent names ->
  forall walkFuel parentElement args store,
    walkElements doc pageObjectResolver walkFuel parentElement (MemberElement d) args coll store
    = OutOfFuel.
Proof.
  intros Hclosed Hp Hin walkFuel parentElement args store.
  unfold walkElements. rewrite Hp.
  destruct (Hclosed parent Hin) as (Ht & a & next & Ha & Hn & Hin').
  rewrite Ht, Ha. unfold bind at 1. unfold bind at 1.
  by rewrite (buildElementPath_circle coll names Hclosed walkFuel a [a] next store Hn Hin').
Qed.

Lemma walk_never_returns_on_parent_circle_witness :
  exists d,
    parsedElements [("app/nested", nestedPage)] (TStr "app/nested") nestedPage !! "middle"
    = Some d /\
    ~ exists walkFuel,
        walkElements toyDoc noPageObjects walkFuel (Some 0) (MemberElement d) 0
          (parsedElements [("app/nested", nestedPage)] (TStr "app/nested") nestedPage) [[]]
        <> OutOfFuel.
Proof.
  eexists. split; [vm_compute; reflexivity|]. intros [walkFuel H]. apply H.
  apply (walk_never_returns_on_parent_circle toyDoc noPageObjects _ ["outer"; "middle"]
           _ "outer").
  - intros name [<-|[<-|[]]].
    + split; [done|]. eexists _, "middle". split; [vm_compute; reflexivity|].
      split; [reflexivity|]. right. by left.
    + split; [done|]. eexists _, "outer". split; [vm_compute; reflexivity|].
      split; [reflexivity|]. by left.
  - reflexivity.
  - by left.
Defined.

(** * What the walker finds *)

Section Found.
Context {Node : Type}.
Variable doc : Document Node.
Variable pageObjectResolver : TypeVal -> option Parsed.

Lemma filterM_sublist (keep : Node -> W bool) l st r st' :
  filterM keep l st = Done r st' -> sublist r l.
Proof.
  revert st r st'. induction l as [|x l IH]; intros st r st' H; cbn in H.
  - injection H as <- <-. constructor.
  - apply bind_Done in H as (k & st1 & _ & H).
    apply bind_Done in H as (rest & st2 & H & Hr). injection Hr as <- <-.
    apply IH in H. destruct k; by constructor.
Qed.

(** [#filterElements] returns nodes of the list it is given, in their
    order, and one node at most when the filter asks for the first; it
    leaves the argument arrays as they are. *)
Theorem filterElements_only_drops elements filterInfo st r st' :
  filterElements doc elements filterInfo st = Done r st' ->
  sublist r elements /\ st' = st /\
  (forall info, filterInfo = Some info -> fi_findFirst info = true -> length r <= 1).
Proof.
  intros H. split; [|split].
  - unfold filterElements in H. destruct filterInfo as [info|];
      [|injection H as <- <-; apply sublist_nil_l].
    destruct elements as [|e els]; [injection H as <- <-; constructor|].
    destruct (fi_args info) as [|a0 rest]; [injection H as <- <-; apply sublist_nil_l|].
    apply bind_Done in H as (filtered & st1 & H & Hr).
    apply filterM_sublist in H.
    destruct filtered as [|first others]; [injection Hr as <- <-; done|].
    destruct (fi_findFirst info); injection Hr as <- <-; [|done].
    etrans; [|exact H]. apply sublist_skip, sublist_nil_l.
  - symmetry. by eapply pureW_filterElements.
  - intros info -> Hff. unfold filterElements in H.
    destruct elements as [|e els]; [injection H as <- <-; cbn; lia|].
    destruct (fi_args info) as [|a0 rest]; [injection H as <- <-; cbn; lia|].
    apply bind_Done in H as (filtered & st1 & H & Hr). rewrite Hff in Hr.
    destruct filtered; injection Hr as <- <-; cbn; lia.
Qed.

(** The node [getElement] searches below. *)
Definition searchScope (d : ElementDesc) (parent : Node) : Node :=
  if ed_isInShadowRoot d then
    match shadowRoot doc parent with
    | Some root => root
    | None => parent
    end
  else parent.

Lemma queryElements_found d filterInfo parent selectorString st r st' :
  queryElements doc d filterInfo parent selectorString st = Done r st' ->
  match r with
  | Some node =>
      str_includes "%" selectorString = false /\
      exists found,
        querySelectorAll doc (searchScope d parent) selectorString = Some found /\
        In node found
  | None => True
  end.
Proof.
  unfold queryElements. intros H.
  apply bind_Done in H as (elements & st1 & H1 & H).
  apply bind_Done in H as (elements' & st2 & H2 & H). injection H as <- <-.
  assert (Hsub : sublist elements' elements).
  { destruct (ed_filter d); [|injection H2 as <- <-; done].
    destruct (returnAll (ed_selector d)); [|injection H2 as <- <-; done].
    apply bind_Done in H2 as (filtered & st3 & H2 & Hr).
    apply filterElements_only_drops in H2 as [H2 _].
    destruct filtered; injection Hr as <- <-; done. }
  destruct (head elements') as [node|] eqn:Eh; [|done].
  assert (Hin : In node elements).
  { apply list_elem_of_In. eapply elem_of_sublist; [|exact Hsub].
    destruct elements'; [done|]. injection Eh as ->. by left. }
  destruct (str_includes "%" selectorString); [by injection H1 as <- <-|].
  split; [done|]. unfold searchScope.
  destruct (querySelectorAll doc _ selectorString) as [found|]; [|done].
  injection H1 as <- <-. by exists found.
Qed.

(** A node [getElement] returns was matched, below the parent node or
    its shadow root, by a selector in which no percent sign is left. *)
Theorem getElement_returns_a_matched_node d args filterInfo parent st node st' :
  getElement doc (Elem d) args filterInfo (Some parent) st = Done (Some node) st' ->
  exists selectorString found,
    str_includes "%" selectorString = false /\
    querySelectorAll doc (searchScope d parent) selectorString = Some found /\
    In node found.
Proof.
  unfold getElement. intros H.
  destruct (css (ed_selector d)) as [cssText|]; [|done].
  destruct (truthy_s cssText); [|done].
  apply bind_Done in H as (selectorString & st1 & _ & H).
  apply queryElements_found in H as (Hp & found & Hq & Hin).
  by exists selectorString, found.
Qed.

Lemma queryElements_percent d filterInfo parent selectorString st :
  str_includes "%" selectorString = true ->
  queryElements doc d filterInfo parent selectorString st = Done None st.
Proof.
  intros Hp. unfold queryElements. rewrite Hp. unfold bind at 1. cbn [ret].
  destruct (ed_filter d) as [f|]; [|done].
  destruct (returnAll (ed_selector d)); [|done].
  unfold bind at 2. unfold filterElements.
  destruct filterInfo as [info|]; [|done]. done.
Qed.

Lemma substituteMarkers_no_args markers argIndex selectorString :
  substituteMarkers markers [] argIndex selectorString = selectorString.
Proof.
  revert argIndex. induction markers as [|m markers IH]; intros i; [done|].
  cbn [substituteMarkers]. rewrite lookup_nil. apply IH.
Qed.

(** When the selector of an element still holds a percent sign after the
    arguments have been put in (a marker without value, or a percent sign
    that is no marker), [getElement] answers [null] without asking the
    document. *)
Theorem getElement_percent_left_is_null d args filterInfo parentNode cssText
    argValues st r st' :
  css (ed_selector d) = Some cssText ->
  st !! args = Some argValues ->
  str_includes "%" (substituteMarkers (paramMarkers cssText) argValues 0 cssText) = true ->
  getElement doc (Elem d) args filterInfo parentNode st = Done r st' ->
  r = None.
Proof.
  intros Hcss Hargs Hp H. unfold getElement in H.
  destruct parentNode as [parent|]; [|by injection H as <- <-].
  rewrite Hcss in H. destruct (truthy_s cssText); [|by injection H as <- <-].
  apply bind_Done in H as (selectorString & st1 & Hs & H).
  assert (selectorString = substituteMarkers (paramMarkers cssText) argValues 0 cssText)
    as ->.
  { destruct (paramMarkers cssText) as [|marker markers] eqn:Em;
      [injection Hs as <- <-; reflexivity|].
    apply bind_Done in Hs as (values & st2 & Hr & Hs).
    unfold readArgs in Hr. rewrite Hargs in Hr. injection Hr as <- <-.
    destruct argValues as [|a0 rest];
      [injection Hs as <- <-; by rewrite substituteMarkers_no_args|].
    apply bind_Done in Hs as ([] & st3 & _ & Hs). injection Hs as <- <-. reflexivity. }
  rewrite queryElements_percent in H by done. by injection H as <- <-.
Qed.

Lemma walkReferenced_null fuel args referencedElement st acc st' :
  walkReferenced doc pageObjectResolver fuel (None, args) referencedElement st
  = Done acc st' -> fst acc = None.
Proof.
  unfold walkReferenced. intros H.
  apply bind_Done in H as (sliced & st1 & _ & H).
  apply bind_Done in H as (info & st2 & _ & H).
  apply bind_Done in H as (current & st3 & H & Hr). injection Hr as <- <-.
  cbn in H. by injection H as <- <-.
Qed.

Lemma walkSegment_null fuel args pathSegment st acc st' :
  walkSegment doc pageObjectResolver fuel (None, args) pathSegment st
  = Done acc st' -> fst acc = None.
Proof.
  unfold walkSegment. intros H.
  destruct (sel_args (ed_selector pathSegment)); [|by injection H as <- <-].
  apply bind_Done in H as (segmentArgs & st1 & _ & H).
  apply bind_Done in H as (rest & st2 & _ & H).
  apply bind_Done in H as (info & st3 & _ & H).
  apply bind_Done in H as (current & st4 & H & Hr). injection Hr as <- <-.
  cbn in H. by injection H as <- <-.
Qed.

Lemma foldM_null {X} (body : option Node * aref -> X -> W (option Node * aref)) :
  (forall args x st acc st', body (None, args) x st = Done acc st' -> fst acc = None) ->
  forall l args st acc st',
    foldM body l (None, args) st = Done acc st' -> fst acc = None.
Proof.
  intros Hbody l. induction l as [|x l IH]; intros args st acc st' H; cbn in H.
  - by injection H as <- <-.
  - apply bind_Done in H as ([node args'] & st1 & H1 & H).
    apply Hbody in H1. cbn in H1. subst node. by eapply IH.
Qed.

(** Below a node that is not there, nothing is found: when the walk
    starts from [null] and returns, it returns [null], for a method as for
    an element. *)
Theorem walkElements_from_null_is_null fuel memberDescriptor args elementCollection
    st r st' :
  walkElements doc pageObjectResolver fuel None memberDescriptor args elementCollection st
  = Done r st' ->
  r = None.
Proof.
  unfold walkElements. intros H. destruct memberDescriptor as [method|d].
  - apply bind_Done in H as (final & st1 & H & Hr). injection Hr as <- <-.
    eapply foldM_null; [|exact H]. intros. by eapply walkReferenced_null.
  - apply bind_Done in H as (walked & st1 & Hw & H).
    assert (Hnone : fst walked = None).
    { destruct (ed_parent d) as [parent|]; [|by injection Hw as <- <-].
      destruct (truthy_s parent); [|by injection Hw as <- <-].
      destruct (elementCollection !! parent) as [pd|]; [|done].
      apply bind_Done in Hw as (elementPath & st2 & _ & Hw).
      eapply foldM_null; [|exact Hw]. intros. by eapply walkSegment_null. }
    apply bind_Done in H as (info & st2 & _ & H). rewrite Hnone in H.
    cbn in H. by injection H as <- <-.
Qed.
End Found.

Lemma filterElements_only_drops_witness :
  filterElements toyDoc [4; 5; 6] (Some containsA) [] = Done [5] [] /\
  sublist [5] [4; 5; 6] /\ length [5] <= 1.
Proof.
  assert (H : filterElements toyDoc [4; 5; 6] (Some containsA) [] = Done [5] [])
    by (vm_compute; reflexivity).
  destruct (filterElements_only_drops toyDoc [4; 5; 6] (Some containsA) [] [5] [] H)
    as (Hsub & _ & Hone).
  split; [exact H|]. split; [exact Hsub|]. by apply (Hone containsA).
Defined.

Lemma getElement_returns_a_matched_node_witness :
  getElement toyDoc (Elem itemDesc) 0 None (Some 0) callerArgs = Done (Some 5) [[]] /\
  exists selectorString found,
    str_includes "%" selectorString = false /\
    querySelectorAll toyDoc (searchScope toyDoc itemDesc 0) selectorString = Some found /\
    In 5 found.
Proof.
  assert (H : getElement toyDoc (Elem itemDesc) 0 None (Some 0) callerArgs
              = Done (Some 5) [[]]) by (vm_compute; reflexivity).
  split; [exact H|].
  exact (getElement_returns_a_matched_node toyDoc itemDesc 0 None 0 callerArgs 5 [[]] H).
Defined.

Lemma getElement_percent_left_is_null_witness :
  match getElement toyDoc (Elem itemDesc) 0 None (Some 0) [[]] with
  | Done r _ => r = None
  | _ => False
  end /\
  match getElement toyDoc (Elem halfWidth) 0 None (Some 0) [[]] with
  | Done r _ => r = None
  | _ => False
  end.
Proof.
  split.
  - destruct (getElement toyDoc (Elem itemDesc) 0 None (Some 0) [[]]) as [r st'| |] eqn:E;
      [|vm_compute in E; discriminate E..].
    exact (getElement_percent_left_is_null toyDoc itemDesc 0 None (Some 0)
             "li.item-%d" [] [[]] r st' eq_refl eq_refl eq_refl E).
  - destruct (getElement toyDoc (Elem halfWidth) 0 None (Some 0) [[]]) as [r st'| |] eqn:E;
      [|vm_compute in E; discriminate E..].
    exact (getElement_percent_left_is_null toyDoc halfWidth 0 None (Some 0)
             "[style*='width: 50%']" [] [[]] r st' eq_refl eq_refl eq_refl E).
Defined.

Lemma walkElements_from_null_is_null_witness :
  match walkElements toyDoc noPageObjects 2 None (MemberMethod pickItem) 0 ∅ callerArgs with
  | Done r _ => r = None
  | _ => False
  end.
Proof.
  destruct (walkElements toyDoc noPageObjects 2 None (MemberMethod pickItem) 0 ∅ callerArgs)
    as [r st'| |] eqn:E; [|vm_compute in E; discriminate E..].
  exact (walkElements_from_null_is_null toyDoc noPageObjects 2 (MemberMethod pickItem)
           0 ∅ callerArgs r st' E).
Defined.

(** * The methods of a parsed page object *)

Lemma hoare_ret {A} (P : State -> Prop) (a : A) (Q : A -> State -> Prop) :
  (forall st, P st -> Q a st) -> hoare P (ret a) Q.
Proof. intros H st a' st' HP [= <- <-]. by apply H. Qed.

Lemma hoare_bind {A B} (P : State -> Prop) (m : M A) (k : A -> M B)
    (Q : A -> State -> Prop) (Q' : B -> State -> Prop) :
  hoare P m Q -> (forall a, hoare (Q a) (k a) Q') -> hoare P (bind m k) Q'.
Proof.
  intros Hm Hk st b st' HP H. apply bind_Done in H as (a & st1 & H1 & H2).
  eapply Hk; [|exact H2]. by eapply Hm.
Qed.

Lemma hoare_weaken {A} (P P' : State -> Prop) (m : M A) (Q Q' : A -> State -> Prop) :
  hoare P m Q -> (forall st, P' st -> P st) -> (forall a st, Q a st -> Q' a st) ->
  hoare P' m Q'.
Proof. intros H HP HQ st a st' HP' Hm. eapply HQ, H; [by apply HP|done]. Qed.

(** What [m] keeps along [R] comes on top of what it establishes. *)
Lemma hoare_steps {A} (R : State -> State -> Prop) (K : State -> Prop)
    (P : State -> Prop) (m : M A) (Q : A -> State -> Prop) :
  hoare P m Q -> steps R m -> (forall st st', R st st' -> K st -> K st') ->
  hoare (fun st => P st /\ K st) m (fun a st' => Q a st' /\ K st').
Proof.
  intros H HR HK st a st' [HP Hk] Hm. split; [by eapply H|].
  eapply HK; [|exact Hk]. by eapply HR.
Qed.

Lemma hoare_foldM {A B} (I : State -> Prop) (body : B -> A -> M B) l acc :
  (forall b x, In x l -> hoare I (body b x) (fun _ => I)) ->
  hoare I (foldM body l acc) (fun _ => I).
Proof.
  revert acc. induction l as [|x l IH]; intros acc H; cbn [foldM].
  - by apply hoare_ret.
  - eapply hoare_bind; [apply H; by left|]. intros b. apply IH.
    intros b' y Hy. apply H. by right.
Qed.

Lemma hoare_forEachM {A} (I : State -> Prop) (body : A -> M unit) l :
  (forall x, In x l -> hoare I (body x) (fun _ => I)) ->
  hoare I (forEachM body l) (fun _ => I).
Proof.
  induction l as [|x l IH]; intros H; cbn [forEachM].
  - by apply hoare_ret.
  - eapply hoare_bind; [apply H; by left|]. intros []. apply IH.
    intros y Hy. apply H. by right.
Qed.

Lemma heapGrows_length st st' :
  heapGrows st st' -> length (st_heap st) <= length (st_heap st').
Proof.
  intros Hg. destruct (st_heap st) as [|x l] eqn:E using rev_ind; [cbn; lia|].
  clear IHl. destruct (Hg (length l) x) as (x' & Hx & _).
  { rewrite E. by rewrite lookup_app_r, Nat.sub_diag. }
  apply lookup_lt_Some in Hx. rewrite length_app. cbn. lia.
Qed.

Section MethodInvariant.
Variable allPageObjects : PageObjects.
Variable n0 : nat.

(** Of the parsed page objects created from position [n0] on: every method
  is stored under its own name, and that name is declared by the definition
  the page object was made of. *)
Definition methodsWF (st : State) : Prop :=
n0 <= length (st_heap st) /\
forall p parsed name d,
  n0 <= p -> st_heap st !! p = Some parsed -> p_methods parsed !! name = Some d ->
  methodNamed name d /\
  forall po, obj_get (to_key (p_uri parsed)) allPageObjects = Some po ->
             declares po name.

(** [p] names a parsed page object made of [pageObject]. *)
Definition paired (pageObject : PageObject aref) (p : pref) (st : State) : Prop :=
n0 <= p /\
exists uri, here p uri st /\ obj_get (to_key uri) allPageObjects = Some pageObject.

Lemma paired_grows po p st st' : heapGrows st st' -> paired po p st -> paired po p st'.
Proof.
intros Hg (Hn & uri & Hh & Hget). split; [done|]. exists uri. split; [|done].
by eapply here_grows.
Qed.

Lemma wf_same_heap st st' : st_heap st' = st_heap st -> methodsWF st -> methodsWF st'.
Proof. intros E [Hl H]. split; rewrite E; done. Qed.

Lemma wf_setMethod po p name d :
methodNamed name d -> declares po name ->
hoare (fun st => methodsWF st /\ paired po p st) (setMethod p name d)
      (fun _ st' => methodsWF st').
Proof.
intros Hd Hdecl st a st' [[Hl Hwf] (Hn & uri & (parsed0 & Hp0 & Hu0) & Hget)] H.
unfold setMethod in H. rewrite Hp0 in H. injection H as <- <-. split.
- cbn. by rewrite length_insert.
- cbn. intros q x n d' Hq Hx Hm. destruct (decide (p = q)) as [<-|Hne].
  + rewrite list_lookup_insert_eq in Hx by (by eapply lookup_lt_Some).
    injection Hx as <-. cbn in Hm. cbn [setParsedMethod p_uri].
    rewrite lookup_insert in Hm. case_decide as En.
    * injection Hm as <-. subst n. split; [done|]. intros po'. rewrite Hu0, Hget.
      by intros [= <-].
    * by eapply Hwf.
  + rewrite list_lookup_insert_ne in Hx by done. by eapply Hwf.
Qed.

Lemma wf_allocParsed parsed :
p_methods parsed = ∅ ->
hoare methodsWF (allocParsed parsed)
      (fun p st' => methodsWF st' /\ n0 <= p /\ st_heap st' !! p = Some parsed).
Proof.
intros He st a st' [Hl Hwf] H. unfold allocParsed in H. injection H as <- <-.
unfold methodsWF. cbn. split; [split|split].
- rewrite length_app. cbn. lia.
- intros q x n d Hq Hx Hm. destruct (decide (q < length (st_heap st))) as [Hlt|Hge].
  + rewrite lookup_app_l in Hx by done. by eapply Hwf.
  + rewrite lookup_app_r in Hx by lia.
    destruct (q - length (st_heap st)) as [|k]; [|done]. injection Hx as <-.
    by rewrite He, lookup_empty in Hm.
- done.
- by rewrite lookup_app_r, Nat.sub_diag.
Qed.

Section Bodies.
Variable recM : PageObject aref -> Method aref -> pref -> M MethodDesc.
Variable recP : TypeVal -> M pref.
Hypothesis recM_hoare : forall po m p,
hoare (fun st => methodsWF st /\ paired po p st) (recM po m p)
      (fun d st' => methodsWF st' /\ methodNamed (m_name m) d).
Hypothesis recM_grows : forall po m p, steps heapGrows (recM po m p).
Hypothesis recP_hoare : forall uri,
hoare methodsWF (recP uri)
      (fun p st' => methodsWF st' /\ n0 <= p /\ here p uri st').
Hypothesis recP_grows : forall uri, steps heapGrows (recP uri).

Lemma processStep_wf po step p :
hoare (fun st => methodsWF st /\ paired po p st) (processStep recM po step p)
      (fun _ st' => methodsWF st').
Proof.
intros st a st' [Hwf Hp] H. unfold processStep in H.
destruct (s_applyExternal step); [by injection H as <- <-|].
apply bind_Done in H as (parsed & st1 & Hr & H).
unfold readParsed in Hr. destruct (st_heap st !! p); [|done]. injection Hr as <- <-.
destruct (s_apply step) as [apply|]; [|by injection H as <- <-].
destruct (truthy_s apply); [|by injection H as <- <-].
destruct (str_eqb apply "waitFor").
{ destruct (s_args step) as [[|a0 rest]|]; [done| |done].
  apply bind_Done in H as (d & st1 & H1 & H). injection H as <- <-.
  by eapply recM_hoare. }
destruct (negb (truthy_os (s_element step))).
- destruct (str_eqb apply "returnSelf"); [by injection H as <- <-|].
  destruct (p_methods _ !! apply); [by injection H as <- <-|].
  destruct (findMethod (po_methods po) apply) as [called|] eqn:Ef;
    [|by injection H as <- <-].
  apply bind_Done in H as (d & st1 & H1 & H).
  apply bind_Done in H as ([] & st2 & H2 & H). injection H as <- <-.
  pose proof (recM_grows _ _ _ _ _ _ H1) as Hg.
  destruct (recM_hoare _ _ _ _ _ _ (conj Hwf Hp) H1) as [Hwf1 Hd].
  eapply (wf_setMethod po); [exact Hd| |split; [exact Hwf1|by eapply paired_grows]|exact H2].
  exists called. split; [|done]. unfold findMethod in Ef.
  destruct (po_methods po) as [l|]; [|done]. by apply find_some in Ef as [? _].
- destruct (candidateIntrinsicMethods apply); by injection H as <- <-.
Qed.

Lemma runStep_wf m po p locals step :
hoare (fun st => methodsWF st /\ paired po p st) (runStep recM m po p locals step)
      (fun _ st' => methodsWF st').
Proof.
intros st a st' HP H. unfold runStep in H.
apply bind_Done in H as (info & st1 & H1 & H). injection H as <- <-.
by eapply processStep_wf.
Qed.

Lemma methodStepBody_wf po m p locals step :
hoare (fun st => methodsWF st /\ paired po p st)
      (methodStepBody allPageObjects recM recP po m p locals step)
      (fun _ st' => methodsWF st').
Proof.
intros st a st' [Hwf Hp] H. unfold methodStepBody in H.
destruct (s_chain step && negb (isEmptyString (lastStepReturnType locals)));
  [|by eapply runStep_wf].
destruct (obj_get (to_key (lastStepReturnType locals)) allPageObjects)
  as [stepPageObject|] eqn:Eg.
- apply bind_Done in H as (p' & st1 & H1 & H).
  destruct (recP_hoare _ _ _ _ Hwf H1) as (Hwf1 & Hn & Hh).
  eapply runStep_wf; [|exact H]. split; [done|]. split; [done|]. by eexists.
- apply bind_Done in H as (parsed & st1 & Hr & H).
  unfold readParsed in Hr. destruct (st_heap st !! p); [|done]. injection Hr as <- <-.
  apply bind_Done in H as ([] & st2 & Hl & H). injection H as <- <-.
  unfold consoleLog in Hl. injection Hl as <-. by eapply wf_same_heap.
Qed.

Lemma methodStepBody_grows po m p locals step :
steps heapGrows (methodStepBody allPageObjects recM recP po m p locals step).
Proof.
apply steps_methodStepBody;
  [apply heapGrows_refl|apply heapGrows_trans|apply heapGrows_setMethod|
   apply heapGrows_consoleLog|apply recM_grows|apply recP_grows].
Qed.

Lemma pushReferencedArgs_heap args els st a st' :
pushReferencedArgs args els st = Done a st' -> st_heap st' = st_heap st.
Proof.
unfold pushReferencedArgs. revert st. induction els as [|e els IH]; intros st H;
  cbn [forEachM] in H; [by inversion H|].
apply bind_Done in H as ([] & st1 & H1 & H). apply IH in H. rewrite H.
destruct (eo_effectiveArgs e) as [[|x l]|]; try (by inversion H1).
unfold pushArray in H1. destruct (st_arrays st !! args); [|done]. by inversion H1.
Qed.

Lemma processMethodBody_wf po m p :
hoare (fun st => methodsWF st /\ paired po p st)
      (processMethodBody allPageObjects recM recP po m p)
      (fun d st' => methodsWF st' /\ methodNamed (m_name m) d).
Proof.
intros st a st' [Hwf Hp] H. unfold processMethodBody in H.
apply bind_Done in H as (parsed & st1 & Hr & H).
unfold readParsed in Hr. destruct (st_heap st !! p) as [parsed'|] eqn:Ep; [|done].
injection Hr as <- <-.
destruct (p_methods parsed' !! m_name m) as [known|] eqn:Ek.
{ injection H as <- <-. split; [done|].
  destruct Hp as (Hn & _). by apply (proj2 Hwf p parsed' (m_name m) known Hn Ep Ek). }
apply bind_Done in H as (args & st1 & Ha & H).
assert (Hwf1 : methodsWF st1 /\ paired po p st1).
{ destruct (m_args m); [injection Ha as <- <-; by split|].
  unfold allocArray in Ha. injection Ha as <- <-. split; [by eapply wf_same_heap|].
  eapply paired_grows; [|exact Hp]. by apply heapGrows_same_heap. }
destruct (Nat.eqb _ 0);
  [|injection H as <- <-; split; [apply Hwf1|by repeat split]].
apply bind_Done in H as (locals & st2 & Hf & H).
apply bind_Done in H as ([] & st3 & Hpush & H). injection H as <- <-.
split; [|by repeat split]. apply pushReferencedArgs_heap in Hpush.
eapply wf_same_heap; [exact Hpush|].
eapply (hoare_foldM (fun st => methodsWF st /\ paired po p st)) in Hf as [Hwf2 _];
  [done| |done].
intros b x _ s0 b' s1 [Hw0 Hp0] Hb.
split; [eapply methodStepBody_wf; [split; [exact Hw0|exact Hp0]|exact Hb]|].
eapply paired_grows; [|exact Hp0]. by eapply methodStepBody_grows.
Qed.

Lemma processMethods_wf po p :
hoare (fun st => methodsWF st /\ paired po p st) (processMethods recM po p)
      (fun _ st' => methodsWF st' /\ paired po p st').
Proof.
unfold processMethods. destruct (po_methods po) as [methods|] eqn:Em;
  [|by apply hoare_ret].
apply hoare_forEachM. intros m Hin st a st' [Hwf Hp] H.
apply bind_Done in H as (d & st1 & H1 & H2).
pose proof (recM_grows _ _ _ _ _ _ H1) as Hg.
destruct (recM_hoare _ _ _ _ _ _ (conj Hwf Hp) H1) as [Hwf1 Hd].
pose proof (paired_grows _ _ _ _ Hg Hp) as Hp1. split.
- eapply (wf_setMethod po); [exact Hd| |split; [exact Hwf1|exact Hp1]|exact H2].
  exists m. rewrite Em. done.
- eapply paired_grows; [|exact Hp1]. by eapply heapGrows_setMethod.
Qed.

Lemma parsePageObjectBody_wf uri :
hoare methodsWF (parsePageObjectBody allPageObjects recM uri)
      (fun p st' => methodsWF st' /\ n0 <= p /\ here p uri st').
Proof.
intros st a st' Hwf H. unfold parsePageObjectBody in H.
destruct (obj_get (to_key uri) allPageObjects) as [po|] eqn:Eg; [|done].
apply bind_Done in H as (p & st1 & H1 & H).
apply bind_Done in H as ([] & st2 & H2 & H).
apply bind_Done in H as ([] & st3 & H3 & H). injection H as <- <-.
eapply wf_allocParsed in H1 as (Hwf1 & Hn & Hp1); [|done|exact Hwf].
assert (Hpair : paired po p st1).
{ split; [done|]. exists uri. split; [|done]. eexists. split; [exact Hp1|done]. }
destruct (processMethods_wf _ _ _ _ _ (conj Hwf1 Hpair) H2)
  as (Hwf2 & _ & uri' & Hh & _).
assert (Hhere : here p uri st2).
{ eapply here_grows; [|eexists; split; [exact Hp1|done]].
  eapply steps_processMethods; [apply heapGrows_refl|apply heapGrows_trans|
    apply heapGrows_setMethod|apply recM_grows|exact H2]. }
unfold cachePut in H3. injection H3 as <-.
split; [by eapply wf_same_heap|]. split; [done|]. done.
Qed.
End Bodies.

Lemma resolver_wf fuel :
(forall po m p,
   hoare (fun st => methodsWF st /\ paired po p st)
         (processMethod fuel allPageObjects po m p)
         (fun d st' => methodsWF st' /\ methodNamed (m_name m) d)) /\
(forall uri,
   hoare methodsWF (parsePageObject fuel allPageObjects uri)
         (fun p st' => methodsWF st' /\ n0 <= p /\ here p uri st')).
Proof.
induction fuel as [|fuel [IHm IHp]].
- split; intros; intros st a st' _ H; done.
- destruct (heapGrows_resolver allPageObjects fuel) as [Gm Gp]. split.
  + intros po m p. cbn [processMethod]. by apply processMethodBody_wf.
  + intros uri. cbn [parsePageObject]. by apply parsePageObjectBody_wf.
Qed.
End MethodInvariant.

Lemma processMethods_complete allPageObjects fuel po p st st' :
  processMethods (processMethod fuel allPageObjects) po p st = Done tt st' ->
  forall m, In m (default [] (po_methods po)) ->
    exists parsed, st_heap st' !! p = Some parsed /\
                   is_Some (p_methods parsed !! m_name m).
Proof.
  unfold processMethods. destruct (po_methods po) as [methods|]; [|by intros _ m []].
  cbn [default from_option]. unfold id.
  set (body := fun method : Method aref =>
                 let* returnValue := processMethod fuel allPageObjects po method p in
                 setMethod p (m_name method) returnValue).
  assert (Hkeeps : forall l, steps keeps (forEachM body l)).
  { intros l. apply steps_forEachM; [apply keeps_refl|apply keeps_trans|].
    intros x _. apply steps_bind; [apply keeps_trans|apply keeps_resolver|].
    intros d. apply keeps_setMethod. }
  revert st. induction methods as [|x l IH]; intros st H m Hin; [done|].
  cbn [forEachM] in H. apply bind_Done in H as ([] & st1 & H1 & H).
  destruct Hin as [<-|Hin]; [|by eapply IH].
  apply bind_Done in H1 as (d & st0 & _ & Hs). unfold setMethod in Hs.
  destruct (st_heap st0 !! p) as [parsed|] eqn:Ep; [|done]. injection Hs as <-.
  destruct (Hkeeps l _ _ _ H) as (_ & _ & _ & _ & Hm).
  apply (Hm p (setParsedMethod parsed (m_name x) d)).
  - cbn. rewrite list_lookup_insert_eq; [done|by eapply lookup_lt_Some].
  - cbn. rewrite lookup_insert_eq. by eexists.
Qed.

Section CacheFull.
Variable allPageObjects : PageObjects.
Variable n0 : nat.

Local Abbreviation Rf :=
(fun st st' => cacheFull allPageObjects n0 st -> cacheFull allPageObjects n0 st').

Lemma cacheFull_grows st st' :
st_cache st' = st_cache st -> keeps st st' -> heapGrows st st' -> Rf st st'.
Proof.
intros Ec Hk Hg [Hl H]. split.
- apply heapGrows_length in Hg. lia.
- intros key p Hc. rewrite Ec in Hc.
  destruct (H key p Hc) as (Hn & parsed & po & Hp & Hget & Hm). split; [done|].
  destruct (Hg p parsed Hp) as (parsed' & Hp' & _). exists parsed', po.
  split; [done|]. split; [done|]. intros m Hin.
  destruct Hk as (_ & _ & _ & _ & Hk).
  destruct (Hk p parsed (m_name m) Hp (Hm m Hin)) as (parsed'' & Hp'' & Hs).
  congruence.
Qed.

Lemma full_setMethod p name d : steps Rf (setMethod p name d).
Proof.
intros st a st' H. apply cacheFull_grows;
  [|by eapply keeps_setMethod|by eapply heapGrows_setMethod].
unfold setMethod in H. destruct (st_heap st !! p); [|done]. by inversion H.
Qed.

Lemma full_allocArray l : steps Rf (allocArray l).
Proof.
intros st a st' H. apply cacheFull_grows;
  [|by eapply keeps_allocArray|by eapply heapGrows_allocArray].
unfold allocArray in H. by inversion H.
Qed.

Lemma full_pushArray r l : steps Rf (pushArray r l).
Proof.
intros st a st' H. apply cacheFull_grows;
  [|by eapply keeps_pushArray|by eapply heapGrows_pushArray].
unfold pushArray in H. destruct (st_arrays st !! r); [|done]. by inversion H.
Qed.

Lemma full_consoleLog line : steps Rf (consoleLog line).
Proof.
intros st a st' H. apply cacheFull_grows;
  [|by eapply keeps_consoleLog|by eapply heapGrows_consoleLog].
unfold consoleLog in H. by inversion H.
Qed.

Lemma full_allocParsed parsed : steps Rf (allocParsed parsed).
Proof.
intros st a st' H. apply cacheFull_grows;
  [|by eapply keeps_allocParsed|by eapply heapGrows_allocParsed].
unfold allocParsed in H. by inversion H.
Qed.

Lemma full_resolver fuel :
(forall po m p, steps Rf (processMethod fuel allPageObjects po m p)) /\
(forall uri, steps Rf (parsePageObject fuel allPageObjects uri)).
Proof.
induction fuel as [|fuel [IHm IHp]].
- split; intros; apply steps_outOfFuel.
- split.
  + intros po m p. cbn [processMethod].
    apply steps_processMethodBody;
      [by intros ? ?|by intros a b c H1 H2 H; apply H2, H1|apply full_setMethod|
       apply full_allocArray|apply full_pushArray|apply full_consoleLog|done|done].
  + intros uri st p st' H Hfull. cbn [parsePageObject] in H.
    unfold parsePageObjectBody in H.
    destruct (obj_get (to_key uri) allPageObjects) as [po|] eqn:Eg; [|done].
    apply bind_Done in H as (p0 & st1 & H1 & H).
    apply bind_Done in H as ([] & st2 & H2 & H).
    apply bind_Done in H as ([] & st3 & H3 & H). injection H as <- <-.
    pose proof (full_allocParsed _ _ _ _ H1 Hfull) as Hfull1.
    assert (Hfull2 : cacheFull allPageObjects n0 st2).
    { eapply (steps_processMethods Rf);
        [by intros ? ?|by intros a b c Ha Hb Hc; apply Hb, Ha|
         apply full_setMethod|apply IHm|exact H2|exact Hfull1]. }
    pose proof (processMethods_complete _ _ _ _ _ _ H2) as Hall.
    unfold allocParsed in H1. injection H1 as <- <-.
    unfold cachePut in H3. injection H3 as <-.
    destruct Hfull2 as [Hl2 Hc2]. split; [done|].
    intros key q. cbn. destruct (decide (to_key uri = key)) as [<-|Hne].
    * rewrite lookup_insert_eq. intros [= <-]. split; [by destruct Hfull|].
      destruct (st_heap st2 !! length (st_heap st)) as [parsed|] eqn:Ep.
      -- exists parsed, po. split; [done|]. split; [done|]. intros m Hin.
         destruct (Hall m Hin) as (parsed' & Hp' & Hs). congruence.
      -- exfalso.
         destruct (steps_processMethods_heapGrows _ _ _ _ _ _ _ H2
                     (length (st_heap st))
                     {| p_uri := uri; p_source := po_source po;
                        p_author := processAuthor (po_description po);
                        p_description := processDescription (po_description po);
                        p_elements := parsedElements allPageObjects uri po;
                        p_methods := ∅ |}) as (parsed' & Hp' & _); [|congruence].
         cbn. by rewrite lookup_app_r, Nat.sub_diag.
    * rewrite lookup_insert_ne by done. apply Hc2.
Qed.
End CacheFull.

Lemma declares_same d po name :
  sameDefinition d po -> declares d name <-> declares po name.
Proof.
  intros (_ & _ & _ & _ & _ & _ & Hm). unfold declares.
  destruct Hm as [l l' Hl|]; cbn [default from_option]; unfold id;
    [|split; intros (? & [] & _)].
  induction Hl as [|m m' l l' Hmm Hl IH].
  - split; intros (? & [] & _).
  - destruct Hmm as (Hn & _). split.
    + intros (x & [<-|Hin] & Hx).
      * exists m'. split; [by left|congruence].
      * destruct (proj1 IH) as (y & Hy & Hny); [by exists x|].
        exists y. split; [by right|done].
    + intros (x & [<-|Hin] & Hx).
      * exists m. split; [by left|congruence].
      * destruct (proj2 IH) as (y & Hy & Hny); [by exists x|].
        exists y. split; [by right|done].
Qed.

Lemma parseAll_methods allPageObjects n0 fuel keys st st' :
  forEachM (fun pageObjectUri =>
              let* _ := parsePageObject fuel allPageObjects (TStr pageObjectUri) in
              ret tt) keys st = Done tt st' ->
  methodsWF allPageObjects n0 st -> cacheFull allPageObjects n0 st ->
  methodsWF allPageObjects n0 st' /\ cacheFull allPageObjects n0 st'.
Proof.
  revert st. induction keys as [|k keys IH]; intros st H Hwf Hfull; cbn [forEachM] in H.
  - injection H as <-. done.
  - apply bind_Done in H as ([] & st1 & H1 & H).
    apply bind_Done in H1 as (p & st2 & H1 & Hr). injection Hr as <-.
    apply (IH st2 H).
    + by destruct (proj2 (resolver_wf allPageObjects n0 fuel) _ _ _ _ Hwf H1).
    + by apply (proj2 (full_resolver allPageObjects n0 fuel) _ _ _ _ H1).
Qed.

Lemma reloadDatabase_methods_inv fuel settings st n st' :
  reloadDatabase fuel settings st = Done n st' ->
  exists allPageObjects,
    loadedAs (entriesOf settings) [] allPageObjects /\
    cacheOK allPageObjects st' /\
    (forall key, In key (obj_keys allPageObjects) -> is_Some (st_cache st' !! key)) /\
    methodsWF allPageObjects (length (st_heap st)) st' /\
    cacheFull allPageObjects (length (st_heap st)) st'.
Proof.
  unfold reloadDatabase. intros H.
  apply bind_Done in H as ([] & st1 & H1 & H). unfold resetDatabase in H1.
  injection H1 as <-.
  apply bind_Done in H as (all & st2 & H2 & H).
  match type of H2 with
  | loadArtifacts _ ?s = _ =>
      destruct (loadArtifacts_from settings [] s (NoDup_nil_2)) as
        (all' & st2' & E2 & Hnd & Hload & Hh & Hc & Hl & Hr)
  end.
  unfold loadArtifacts in H2. rewrite E2 in H2. injection H2 as <- <-.
  apply bind_Done in H as ([] & st3 & H3 & H). unfold sortRoots in H3.
  injection H3 as <-.
  apply bind_Done in H as ([] & st4 & H4 & H). injection H as <- <-.
  cbn in Hh, Hc.
  destruct (parseAll_methods all' (length (st_heap st)) _ _ _ _ H4) as (Hwf & Hfull).
  { split; cbn; rewrite Hh; [done|]. intros p parsed name d Hp Hs.
    apply lookup_lt_Some in Hs. lia. }
  { split; cbn; rewrite ?Hh; [done|]. intros key p. rewrite Hc. by rewrite lookup_empty. }
  apply parseAll_spec in H4 as (_ & Hok & Hin).
  - by exists all'.
  - intros key p. cbn. rewrite Hc. by rewrite lookup_empty.
Qed.

(** When [reloadDatabase] returns, the page object it holds for a URI has
    a method exactly for every method name that the last definition of the
    URI declares, each stored under its own name, public and of the method
    category. *)
Theorem reloadDatabase_resolves_declared_methods fuel settings st n st' uri d :
  reloadDatabase fuel settings st = Done n st' ->
  lastDefinition uri (entriesOf settings) = Some d ->
  exists parsed,
    getPageObject st' uri = Some parsed /\
    (forall name, is_Some (p_methods parsed !! name) <-> declares d name) /\
    (forall name md, p_methods parsed !! name = Some md -> methodNamed name md).
Proof.
  intros H Hd.
  apply reloadDatabase_methods_inv in H as (all & Hload & Hok & Hin & Hwf & Hfull).
  specialize (Hload uri). rewrite Hd in Hload. destruct Hload as (po & Hget & Hsame).
  destruct (Hin uri) as [p Hp]; [apply obj_get_keys; by eexists|].
  destruct (Hok uri p Hp) as (parsed & po' & Hh & Hu & Hget' & _).
  destruct (proj2 Hfull uri p Hp) as (Hn & parsed' & po'' & Hh' & Hget'' & Hall).
  assert (parsed' = parsed) as -> by congruence.
  assert (po' = po) as -> by congruence. assert (po'' = po) as -> by congruence.
  exists parsed. split; [unfold getPageObject; by rewrite Hp|]. split.
  - intros name. rewrite (declares_same d po name Hsame). split.
    + intros [md Hmd]. destruct (proj2 Hwf p parsed name md Hn Hh Hmd) as [_ Hdecl].
      apply Hdecl. by rewrite Hu.
    + intros (m & Hm & <-). by apply Hall.
  - intros name md Hmd. by destruct (proj2 Hwf p parsed name md Hn Hh Hmd).
Qed.

Lemma reloadDatabase_resolves_declared_methods_witness :
  (exists st', reloadDatabase 3 formArtifacts emptyState = Done 1 st') /\
  forall st', reloadDatabase 3 formArtifacts emptyState = Done 1 st' ->
    exists parsed,
      getPageObject st' "app/form" = Some parsed /\
      (forall name, is_Some (p_methods parsed !! name) <-> declares formJson name) /\
      (forall name md, p_methods parsed !! name = Some md -> methodNamed name md).
Proof.
  split; [eexists; vm_compute; reflexivity|].
  intros st' H.
  exact (reloadDatabase_resolves_declared_methods 3 formArtifacts emptyState 1 st'
           "app/form" formJson H eq_refl).
Defined.

(** When [reloadDatabase] has returned, the public members of a loaded page
    object are: under every method name its last definition declares, the
    resolved method; and under every other name, the element of that name
    when it is public.  Nothing else is offered. *)
Theorem reloadDatabase_public_members fuel settings st n st' uri d :
  reloadDatabase fuel settings st = Done n st' ->
  lastDefinition uri (entriesOf settings) = Some d ->
  exists parsed foundMembers,
    getPageObject st' uri = Some parsed /\
    getPageObjectPublicMembers uri st' = Done foundMembers st' /\
    forall name,
      match foundMembers !! name with
      | Some (MemberMethod md) => declares d name /\ p_methods parsed !! name = Some md
      | Some (MemberElement e) =>
          ~ declares d name /\ p_elements parsed !! name = Some e /\ ed_public e = true
      | None =>
          ~ declares d name /\
          forall e, p_elements parsed !! name = Some e -> ed_public e = false
      end.
Proof.
  intros H Hd.
  apply reloadDatabase_methods_inv in H as (all & Hload & Hok & Hin & Hwf & Hfull).
  specialize (Hload uri). rewrite Hd in Hload. destruct Hload as (po & Hget & Hsame).
  destruct (Hin uri) as [p Hp]; [apply obj_get_keys; by eexists|].
  destruct (Hok uri p Hp) as (parsed & po' & Hh & Hu & Hget' & _).
  destruct (proj2 Hfull uri p Hp) as (Hn & parsed' & po'' & Hh' & Hget'' & Hall).
  assert (parsed' = parsed) as -> by congruence.
  assert (po' = po) as -> by congruence. assert (po'' = po) as -> by congruence.
  exists parsed. unfold getPageObjectPublicMembers, getPageObject. rewrite Hp, Hh.
  eexists. split; [done|]. split; [done|]. intros name.
  rewrite publicMethods_lookup, publicElements_lookup.
  pose proof (declares_same d po name Hsame) as Hds.
  destruct (p_methods parsed !! name) as [md|] eqn:Em.
  - destruct (proj2 Hwf p parsed name md Hn Hh Em) as [(_ & _ & -> & _) Hdecl].
    split; [|done]. apply Hds, Hdecl. by rewrite Hu.
  - assert (Hno : ~ declares d name).
    { intros Hdecl. apply Hds in Hdecl as (m & Hm & <-).
      apply Hall in Hm as [? ?]. congruence. }
    destruct (p_elements parsed !! name) as [e|]; [|by split].
    destruct (ed_public e) eqn:Ep; [done|]. split; [done|]. by intros e' [= <-].
Qed.

Lemma reloadDatabase_public_members_witness :
  (exists st', reloadDatabase 3 formArtifacts emptyState = Done 1 st') /\
  forall st', reloadDatabase 3 formArtifacts emptyState = Done 1 st' ->
    exists parsed foundMembers,
      getPageObject st' "app/form" = Some parsed /\
      getPageObjectPublicMembers "app/form" st' = Done foundMembers st' /\
      forall name,
        match foundMembers !! name with
        | Some (MemberMethod md) =>
            declares formJson name /\ p_methods parsed !! name = Some md
        | Some (MemberElement e) =>
            ~ declares formJson name /\ p_elements parsed !! name = Some e /\
            ed_public e = true
        | None =>
            ~ declares formJson name /\
            forall e, p_elements parsed !! name = Some e -> ed_public e = false
        end.
Proof.
  split; [eexists; vm_compute; reflexivity|].
  intros st' H.
  exact (reloadDatabase_public_members 3 formArtifacts emptyState 1 st'
           "app/form" formJson H eq_refl).
Defined.

(** * What resolution never does *)

Lemma bind_never {A B} (m : M A) (k : A -> M B) st e :
  m st <> Throw e -> (forall a st1, m st = Done a st1 -> k a st1 <> Throw e) ->
  bind m k st <> Throw e.
Proof.
  intros Hm Hk. unfold bind. destruct (m st) as [a st1|e'|] eqn:E; [by apply Hk| |done].
  intros [= ->]. done.
Qed.

Lemma foldM_never {A B} (I : State -> Prop) (body : B -> A -> M B) l e :
  (forall b x st, In x l -> I st -> body b x st <> Throw e) ->
  (forall b x st b' st', In x l -> I st -> body b x st = Done b' st' -> I st') ->
  forall acc st, I st -> foldM body l acc st <> Throw e.
Proof.
  induction l as [|x l IH]; intros Hn Hi acc st HI; cbn [foldM]; [done|].
  apply bind_never; [apply Hn; [by left|done]|]. intros b st1 Hb. apply IH.
  - intros b' y st' Hy. apply Hn. by right.
  - intros b' y st' b'' st'' Hy. apply Hi. by right.
  - eapply Hi; [by left|exact HI|exact Hb].
Qed.

Lemma forEachM_never {A} (I : State -> Prop) (body : A -> M unit) l e :
  (forall x st, In x l -> I st -> body x st <> Throw e) ->
  (forall x st a st', In x l -> I st -> body x st = Done a st' -> I st') ->
  forall st, I st -> forEachM body l st <> Throw e.
Proof.
  induction l as [|x l IH]; intros Hn Hi st HI; cbn [forEachM]; [done|].
  apply bind_never; [apply Hn; [by left|done]|]. intros b st1 Hb. apply IH.
  - intros y st' Hy. apply Hn. by right.
  - intros y st' a st'' Hy. apply Hi. by right.
  - eapply Hi; [by left|exact HI|exact Hb].
Qed.

Lemma keeps_array st st' r : keeps st st' -> is_Some (st_arrays st !! r) ->
  is_Some (st_arrays st' !! r).
Proof.
  intros (_ & _ & _ & Ha & _) [l Hl]. destruct (Ha r l Hl) as [l' Hl']. by eexists.
Qed.

Lemma heapGrows_valid st st' p : heapGrows st st' -> is_Some (st_heap st !! p) ->
  is_Some (st_heap st' !! p).
Proof. intros Hg [x Hx]. destruct (Hg p x Hx) as (x' & Hx' & _). by eexists. Qed.

Section Never.
Variable allPageObjects : PageObjects.
Hypothesis Hargued :
forall key po, obj_get key allPageObjects = Some po -> pageArgued po = true.

Local Abbreviation ok := (arraysOK allPageObjects).

Lemma ok_keeps st st' : keeps st st' -> ok st -> ok st'.
Proof. intros Hk H key po m r Hg Hm Hr. eapply keeps_array; [exact Hk|]. by eapply H. Qed.

(** [p] names a parsed page object, and the declared arrays exist. *)
Definition ready (p : pref) (st : State) : Prop :=
is_Some (st_heap st !! p) /\ ok st.

(** The steps of the method are argued, and its [args] array exists. *)
Definition methodReady (m : Method aref) (st : State) : Prop :=
methodArgued m = true /\ forall r, m_args m = Some r -> is_Some (st_arrays st !! r).

Lemma ready_grows p st st' : keeps st st' -> heapGrows st st' -> ready p st -> ready p st'.
Proof.
intros Hk Hg [Hp Hok]. split; [by eapply heapGrows_valid|by eapply ok_keeps].
Qed.

Lemma declared_ready key po m st :
obj_get key allPageObjects = Some po -> In m (default [] (po_methods po)) ->
ok st -> methodReady m st.
Proof.
intros Hg Hm Hok. split.
- pose proof (Hargued key po Hg) as Hp. unfold pageArgued in Hp.
  rewrite forallb_forall in Hp. by apply Hp.
- intros r Hr. by eapply Hok.
Qed.

Section Bodies.
Variable recM : PageObject aref -> Method aref -> pref -> M MethodDesc.
Variable recP : TypeVal -> M pref.
Hypothesis recM_never : forall key po m p st e,
obj_get key allPageObjects = Some po -> ready p st -> methodReady m st ->
recM po m p st <> Throw e.
Hypothesis recM_keeps : forall po m p, steps keeps (recM po m p).
Hypothesis recM_grows : forall po m p, steps heapGrows (recM po m p).
Hypothesis recP_never : forall uri st e,
is_Some (obj_get (to_key uri) allPageObjects) -> ok st -> recP uri st <> Throw e.
Hypothesis recP_keeps : forall uri, steps keeps (recP uri).
Hypothesis recP_grows : forall uri, steps heapGrows (recP uri).
Hypothesis recP_result : forall uri st p st',
recP uri st = Done p st' -> is_Some (st_heap st' !! p).

Lemma processStep_never key po step p st e :
obj_get key allPageObjects = Some po -> stepAll argued step = true -> ready p st ->
processStep recM po step p st <> Throw e.
Proof.
intros Hg Hs [[parsed Hp] Hok]. unfold processStep.
destruct (s_applyExternal step) eqn:Ex; [done|].
unfold bind at 1, readParsed. rewrite Hp.
destruct (s_apply step) as [apply|] eqn:Ea; [|done].
destruct (truthy_s apply) eqn:Et; [|done].
destruct (str_eqb apply "waitFor") eqn:Ew.
{ rewrite stepAll_unfold in Hs. apply andb_prop in Hs as [Harg Hpred].
  assert (Hw : isWaitForStep step = true).
  { unfold isWaitForStep. by rewrite Ex, Ea, Et, Ew. }
  unfold argued in Harg. rewrite Hw in Harg, Hpred. cbn in Harg, Hpred.
  destruct (s_args step) as [[|a0 rest]|]; [done| |done].
  apply bind_never; [|done]. eapply recM_never; [exact Hg|by split|].
  split; [|done]. unfold methodArgued. cbn.
  by destruct (sa_predicate a0). }
destruct (negb (truthy_os (s_element step))).
- destruct (str_eqb apply "returnSelf"); [done|].
  destruct (p_methods parsed !! apply); [done|].
  destruct (findMethod (po_methods po) apply) as [called|] eqn:Ef; [|done].
  assert (Hin : In called (default [] (po_methods po))).
  { unfold findMethod in Ef. destruct (po_methods po) as [l|]; [|done].
    by apply find_some in Ef as [? _]. }
  apply bind_never.
  + eapply recM_never; [exact Hg|by split; [eexists|]|by eapply declared_ready].
  + intros d st1 H1. apply bind_never; [|done]. unfold setMethod.
    destruct (heapGrows_valid st st1 p) as [x ->]; [by eapply recM_grows|by eexists|done].
- by destruct (candidateIntrinsicMethods apply).
Qed.

Lemma runStep_never key m po p locals step st e :
obj_get key allPageObjects = Some po -> stepAll argued step = true -> ready p st ->
runStep recM m po p locals step st <> Throw e.
Proof.
intros Hg Hs Hr. unfold runStep. apply bind_never; [|done].
by eapply processStep_never.
Qed.

Lemma methodStepBody_never key po m p locals step st e :
obj_get key allPageObjects = Some po -> stepAll argued step = true -> ready p st ->
methodStepBody allPageObjects recM recP po m p locals step st <> Throw e.
Proof.
intros Hg Hs Hr. unfold methodStepBody.
destruct (s_chain step && negb (isEmptyString (lastStepReturnType locals)));
  [|by eapply runStep_never].
destruct (obj_get (to_key (lastStepReturnType locals)) allPageObjects)
  as [stepPageObject|] eqn:Eg.
- apply bind_never; [apply recP_never; [by rewrite Eg|apply Hr]|].
  intros p' st1 H1. eapply runStep_never; [exact Eg|done|]. split.
  + by eapply recP_result.
  + eapply ok_keeps; [by eapply recP_keeps|apply Hr].
- destruct Hr as [[parsed Hp] _]. unfold bind at 1, readParsed. rewrite Hp. done.
Qed.

Lemma methodStepBody_keeps po m p locals step :
steps keeps (methodStepBody allPageObjects recM recP po m p locals step).
Proof.
apply steps_methodStepBody;
  [apply keeps_refl|apply keeps_trans|apply keeps_setMethod|
   apply keeps_consoleLog|apply recM_keeps|apply recP_keeps].
Qed.

Lemma methodStepBody_heap po m p locals step :
steps heapGrows (methodStepBody allPageObjects recM recP po m p locals step).
Proof.
apply steps_methodStepBody;
  [apply heapGrows_refl|apply heapGrows_trans|apply heapGrows_setMethod|
   apply heapGrows_consoleLog|apply recM_grows|apply recP_grows].
Qed.

Lemma pushReferencedArgs_never args els st e :
is_Some (st_arrays st !! args) -> pushReferencedArgs args els st <> Throw e.
Proof.
unfold pushReferencedArgs.
apply (forEachM_never (fun st => is_Some (st_arrays st !! args))).
- intros x st0 _ [l Hl]. destruct (eo_effectiveArgs x) as [[|a rest]|]; try done.
  unfold pushArray. by rewrite Hl.
- intros x st0 a st1 _ Hs H. destruct (eo_effectiveArgs x) as [[|y rest]|];
    try (inversion H; by subst).
  eapply keeps_array; [|exact Hs]. by eapply keeps_pushArray.
Qed.

Lemma processMethodBody_never key po m p st e :
obj_get key allPageObjects = Some po -> ready p st -> methodReady m st ->
processMethodBody allPageObjects recM recP po m p st <> Throw e.
Proof.
intros Hg Hr [Hm Ha]. unfold processMethodBody.
destruct Hr as [[parsed Hp] Hok]. unfold bind at 1, readParsed. rewrite Hp.
destruct (p_methods parsed !! m_name m); [done|].
apply bind_never; [by destruct (m_args m)|]. intros args st1 Hargs.
assert (H1 : ready p st1 /\ is_Some (st_arrays st1 !! args)).
{ destruct (m_args m) as [r|] eqn:Er.
  - injection Hargs as <- <-. split; [by split; [eexists|]|by apply Ha].
  - unfold allocArray in Hargs. injection Hargs as <- <-. split.
    + split; [by eexists|]. eapply ok_keeps; [|exact Hok].
      by eapply (keeps_allocArray []).
    + cbn. rewrite lookup_app_r, Nat.sub_diag by done. by eexists. }
destruct (Nat.eqb _ 0); [|done].
set (I := fun st => ready p st /\ is_Some (st_arrays st !! args)).
assert (Hstep : forall b x st0 b' st', In x (default [] (m_compose m)) -> I st0 ->
          methodStepBody allPageObjects recM recP po m p b x st0 = Done b' st' -> I st').
{ intros b x st0 b' st' _ [Hr0 Ha0] Hb.
  pose proof (methodStepBody_keeps _ _ _ _ _ _ _ _ Hb) as Hk.
  pose proof (methodStepBody_heap _ _ _ _ _ _ _ _ Hb) as Hh.
  split; [by eapply ready_grows|by eapply keeps_array]. }
apply bind_never.
- apply (foldM_never I); [|exact Hstep|exact H1].
  intros b x st0 Hx [Hr0 _]. eapply methodStepBody_never; [exact Hg| |exact Hr0].
  unfold methodArgued in Hm. rewrite forallb_forall in Hm. by apply Hm.
- intros locals st2 Hf. apply bind_never; [|done].
  apply pushReferencedArgs_never.
  assert (HI : I st2); [|apply HI].
  revert Hf. generalize {| methodType := type_or (m_returnType m) (TStr "");
                           lastStepReturnType := TStr "";
                           lastMethodStepApply := ApplyNone;
                           referencedElements := [] |}.
  revert H1. generalize st1. clear -Hstep.
  induction (default [] (m_compose m)) as [|x l IH]; intros s0 H0 acc Hf;
    cbn [foldM] in Hf; [by injection Hf as <- <-|].
  apply bind_Done in Hf as (b & s1 & Hb & Hf).
  eapply IH; [|eapply Hstep; [by left|exact H0|exact Hb]|exact Hf].
  intros b0 y s2 b1 s3 Hy. apply Hstep. by right.
Qed.

Lemma processMethods_never key po p st e :
obj_get key allPageObjects = Some po -> ready p st ->
processMethods recM po p st <> Throw e.
Proof.
intros Hg Hr. unfold processMethods.
destruct (po_methods po) as [methods|] eqn:Em; [|done].
apply (forEachM_never (ready p)); [| |exact Hr].
- intros m st0 Hin Hr0. apply bind_never.
  + eapply recM_never; [exact Hg|exact Hr0|].
    eapply declared_ready; [exact Hg|by rewrite Em|apply Hr0].
  + intros d st1 H1. unfold setMethod.
    destruct (heapGrows_valid st0 st1 p) as [x ->];
      [by eapply recM_grows|apply Hr0|done].
- intros m st0 a st1 _ Hr0 H. apply bind_Done in H as (d & st2 & H1 & H2).
  eapply ready_grows; [by eapply keeps_setMethod|by eapply heapGrows_setMethod|].
  eapply ready_grows; [by eapply recM_keeps|by eapply recM_grows|done].
Qed.

Lemma parsePageObjectBody_never uri st e :
is_Some (obj_get (to_key uri) allPageObjects) -> ok st ->
parsePageObjectBody allPageObjects recM uri st <> Throw e.
Proof.
intros [po Hg] Hok. unfold parsePageObjectBody. rewrite Hg.
apply bind_never; [done|]. intros p st1 H1.
apply bind_never; [|intros [] st2 _; by apply bind_never].
eapply processMethods_never; [exact Hg|].
unfold allocParsed in H1. injection H1 as <- <-. split.
- cbn. rewrite lookup_app_r, Nat.sub_diag by done. by eexists.
- done.
Qed.
End Bodies.

Lemma resolver_never fuel :
(forall key po m p st e,
   obj_get key allPageObjects = Some po -> ready p st -> methodReady m st ->
   processMethod fuel allPageObjects po m p st <> Throw e) /\
(forall uri st e,
   is_Some (obj_get (to_key uri) allPageObjects) -> ok st ->
   parsePageObject fuel allPageObjects uri st <> Throw e).
Proof.
induction fuel as [|fuel [IHm IHp]]; [by split|].
destruct (keeps_resolver allPageObjects fuel) as [Km Kp].
destruct (heapGrows_resolver allPageObjects fuel) as [Gm Gp].
split.
- intros key po m p st e. cbn [processMethod].
  apply processMethodBody_never; try done.
  intros uri s0 q s1 H. apply parsePageObject_result in H as (_ & parsed & _ & _ & H & _).
  by eexists.
- intros uri st e. cbn [parsePageObject]. by apply parsePageObjectBody_never.
Qed.
End Never.

Lemma loadMethod_arrays m st m' st' :
  loadMethod m st = Done m' st' ->
  (exists extra, st_arrays st' = st_arrays st ++ extra) /\
  (forall r, m_args m' = Some r -> is_Some (st_arrays st' !! r)) /\
  m_compose m' = m_compose m.
Proof.
  unfold loadMethod. intros H. apply bind_Done in H as (args & st1 & Ha & H).
  injection H as <- <-. cbn [m_args m_compose]. destruct (m_args m) as [l|].
  - apply bind_Done in Ha as (r & st2 & Hr & Ha). injection Ha as <- <-.
    unfold allocArray in Hr. injection Hr as <- <-. cbn. split; [by eexists|].
    split; [|done]. intros r [= <-]. rewrite lookup_app_r, Nat.sub_diag by done.
    by eexists.
  - injection Ha as <- <-. split; [exists []; by rewrite app_nil_r|]. by split.
Qed.

Lemma prefix_valid {X} (l extra : list X) r :
  is_Some (l !! r) -> is_Some ((l ++ extra) !! r).
Proof. intros [x Hx]. exists x. by apply lookup_app_l_Some. Qed.

Lemma loadMethods_arrays l st l' st' :
  loadMethods l st = Done l' st' ->
  (exists extra, st_arrays st' = st_arrays st ++ extra) /\
  (forall m' r, In m' l' -> m_args m' = Some r -> is_Some (st_arrays st' !! r)) /\
  forallb methodArgued l' = forallb methodArgued l.
Proof.
  revert st l' st'. induction l as [|m l IH]; intros st l' st' H; cbn [loadMethods] in H.
  - injection H as <- <-. split; [exists []; by rewrite app_nil_r|]. by split.
  - apply bind_Done in H as (m' & st1 & H1 & H).
    apply bind_Done in H as (rest & st2 & H2 & H). injection H as <- <-.
    apply loadMethod_arrays in H1 as ([e1 E1] & Hv1 & Hc1).
    apply IH in H2 as ([e2 E2] & Hv2 & Hc2). split; [|split].
    + exists (e1 ++ e2). by rewrite E2, E1, app_assoc.
    + intros x r [<-|Hin] Hr; [|by eapply Hv2].
      rewrite E2. by apply prefix_valid, Hv1.
    + cbn [forallb]. rewrite Hc2. f_equal. unfold methodArgued. by rewrite Hc1.
Qed.

Lemma loadPageObject_arrays d st po st' :
  loadPageObject d st = Done po st' ->
  (exists extra, st_arrays st' = st_arrays st ++ extra) /\
  (forall m' r, In m' (default [] (po_methods po)) -> m_args m' = Some r ->
     is_Some (st_arrays st' !! r)) /\
  pageArgued po = pageArgued d.
Proof.
  unfold loadPageObject. intros H. apply bind_Done in H as (methods & st1 & Hm & H).
  injection H as <- <-. unfold pageArgued. cbn [po_methods].
  destruct (po_methods d) as [l|].
  - apply bind_Done in Hm as (l' & st2 & Hl & Hm). injection Hm as <- <-.
    by apply loadMethods_arrays in Hl.
  - injection Hm as <- <-. split; [exists []; by rewrite app_nil_r|]. by split.
Qed.

Lemma loadArtifact_well entries all st all' st' :
  loadArtifact all entries st = Done all' st' ->
  forallb (fun entry => pageArgued (snd entry)) entries = true ->
  loadedWell all st -> loadedWell all' st'.
Proof.
  unfold loadArtifact. revert all st.
  induction entries as [|[key d] entries IH]; intros all st H Harg Hw; cbn [foldM] in H.
  - by injection H as <- <-.
  - cbn [forallb snd] in Harg. apply andb_prop in Harg as [Hd Harg].
    apply bind_Done in H as (all1 & st1 & H1 & H). apply (IH all1 st1 H Harg).
    apply bind_Done in H1 as (po & st2 & Hl & H1).
    apply bind_Done in H1 as ([] & st3 & Hroot & H1). injection H1 as <- <-.
    apply loadPageObject_arrays in Hl as ([extra E] & Hv & Hp).
    assert (Ea : st_arrays st3 = st_arrays st2).
    { destruct (hasRootSelector po); [|by injection Hroot as <-].
      unfold pushRoot in Hroot. by injection Hroot as <-. }
    destruct Hw as [Hok Hall]. cbn [fst snd]. split.
    + intros k po' m r Hg Hm Hr. rewrite Ea.
      destruct (decide (key = k)) as [<-|Hne].
      * rewrite obj_get_set_eq in Hg. injection Hg as <-. by eapply Hv.
      * rewrite obj_get_set_ne in Hg by done. rewrite E. apply prefix_valid.
        by eapply Hok.
    + intros k po' Hg. destruct (decide (key = k)) as [<-|Hne].
      * rewrite obj_get_set_eq in Hg. injection Hg as <-. cbn [snd] in Hp. congruence.
      * rewrite obj_get_set_ne in Hg by done. by eapply Hall.
Qed.

Lemma loadArtifacts_well settings all st all' st' :
  foldM (fun all artifact => loadArtifact all (snd artifact)) settings all st
    = Done all' st' ->
  settingsArgued settings = true ->
  loadedWell all st -> loadedWell all' st'.
Proof.
  unfold settingsArgued, entriesOf. revert all st.
  induction settings as [|[file entries] settings IH]; intros all st H Harg Hw;
    cbn [foldM] in H.
  - by injection H as <- <-.
  - cbn [flat_map snd] in Harg. rewrite forallb_app in Harg.
    apply andb_prop in Harg as [He Harg].
    apply bind_Done in H as (all1 & st1 & H1 & H). apply (IH all1 st1 H Harg).
    by eapply loadArtifact_well.
Qed.

(** No page object, method or array is looked up that is not there, when
    every [waitFor] step of the definitions, the steps of the predicates
    included, carries a first argument. *)
Lemma reloadDatabase_no_throw fuel settings st :
  settingsArgued settings = true ->
  forall e, reloadDatabase fuel settings st <> Throw e.
Proof.
  intros Harg e. unfold reloadDatabase.
  apply bind_never; [done|]. intros [] st1 H1.
  apply bind_never.
  { destruct (loadArtifacts_from settings [] st1 NoDup_nil_2) as (all & st2 & E & _).
    unfold loadArtifacts. by rewrite E. }
  intros all st2 H2.
  assert (Hw : loadedWell all st2).
  { eapply loadArtifacts_well; [exact H2|exact Harg|]. split.
    - intros key po m r Hg. cbn in Hg. discriminate Hg.
    - intros key po Hg. cbn in Hg. discriminate Hg. }
  destruct Hw as [Hok Hall].
  apply bind_never; [done|]. intros [] st3 H3.
  unfold sortRoots in H3. injection H3 as <-.
  apply bind_never; [|done].
  apply (forEachM_never (arraysOK all)); [| |exact Hok].
  - intros key st0 Hin Hok0. apply bind_never; [|done].
    apply (proj2 (resolver_never all Hall fuel)); [|done].
    cbn [to_key]. by apply obj_get_keys.
  - intros key st0 a st4 _ Hok0 H. apply bind_Done in H as (p & st5 & H & Hr).
    inversion Hr; subst. eapply ok_keeps; [|exact Hok0].
    by eapply (proj2 (keeps_resolver all fuel)).
Qed.

(** On a stratified definition set no recursion depth is exceeded, once the
    depth allowed is large enough. *)
Lemma reloadDatabase_enough_fuel settings poRank methodRank :
  stratified (definitionSet settings) poRank methodRank = true ->
  exists N, forall fuel, N <= fuel ->
    reloadDatabase fuel settings emptyState <> OutOfFuel.
Proof.
  intros Hstrat. unfold definitionSet in Hstrat.
  destruct (loadArtifacts_from settings [] emptyState NoDup_nil_2)
    as (all & st1 & E & _ & _ & Hheap & _).
  fold (loadArtifacts settings) in E. rewrite E in Hstrat.
  set (R := S (list_max (map (fun entry => poRank (fst entry)) all))).
  destruct (lowerSafe_all all poRank methodRank Hstrat R) as [N HN].
  exists N. intros fuel Hfuel. destruct (HN fuel Hfuel) as [Hparse _].
  unfold reloadDatabase.
  unfold bind at 1. cbn [resetDatabase].
  change {| st_heap := st_heap emptyState; st_arrays := st_arrays emptyState;
            st_cache := ∅; rootPageObjectUris := []; st_log := st_log emptyState |}
    with emptyState.
  unfold bind at 1. rewrite E. unfold bind at 1. cbn [sortRoots].
  set (st2 := {| st_heap := st_heap st1; st_arrays := st_arrays st1;
                 st_cache := st_cache st1;
                 rootPageObjectUris := sortStrings (rootPageObjectUris st1);
                 st_log := st_log st1 |}).
  assert (Hwf : wfState all poRank st2).
  { intros p parsed Hp. cbn in Hp. rewrite Hheap in Hp. cbn in Hp.
    by rewrite lookup_nil in Hp. }
  assert (Hsafe : safe (wfState all poRank)
            (forEachM (fun pageObjectUri =>
                         let* _ := parsePageObject fuel all (TStr pageObjectUri) in ret tt)
                      (obj_keys all))
            (fun _ => wfState all poRank)).
  { apply safe_forEachM. intros uri Hin.
    apply obj_get_keys in Hin as [target Hget].
    eapply safe_bind.
    - apply (Hparse (TStr uri) target Hget). unfold R. cbn [to_key].
      apply Nat.lt_succ_r. apply obj_get_In in Hget.
      assert (Hall : Forall (fun k => k <= list_max (map (fun entry => poRank (fst entry)) all))
                       (map (fun entry => poRank (fst entry)) all))
        by (by apply list_max_le).
      rewrite List.Forall_forall in Hall. apply Hall.
      apply in_map_iff. by exists (uri, target).
    - intros p. apply safe_ret. by intros st [Hw _]. }
  specialize (Hsafe st2 Hwf). unfold bind at 1.
  destruct (forEachM _ (obj_keys all) st2) as [[] st3| |]; done.
Qed.

(** [reloadDatabase] throws no exception when every [waitFor] step of the
    definitions, the steps of the predicates included, carries a first
    argument: no page object, method or array is looked up that is not
    there.  When the definition set is stratified as well (no page object
    names itself through the types of its elements and steps, and the
    references from method to method follow a decreasing rank),
    [reloadDatabase] returns on a new database: the recursion ends.  Without
    that, a cycle of methods makes it recurse without end. *)
Theorem reloadDatabase_returns_on_stratified_definitions settings :
  settingsArgued settings = true ->
  (forall fuel st e, reloadDatabase fuel settings st <> Throw e) /\
  (forall poRank methodRank,
     stratified (definitionSet settings) poRank methodRank = true ->
     exists N, forall fuel, N <= fuel ->
       exists n st', reloadDatabase fuel settings emptyState = Done n st').
Proof.
  intros Harg. split.
  - intros fuel st e. by apply reloadDatabase_no_throw.
  - intros poRank methodRank Hstrat.
    destruct (reloadDatabase_enough_fuel settings poRank methodRank Hstrat) as [N HN].
    exists N. intros fuel Hfuel. specialize (HN fuel Hfuel).
    pose proof (reloadDatabase_no_throw fuel settings emptyState Harg) as Hthrow.
    destruct (reloadDatabase fuel settings emptyState) as [n st'|e|]; [by eexists _, _| |done].
    by destruct (Hthrow e).
Qed.

(** The cycle has the shape the resolver reads and is not stratified:
    [reloadDatabase] exceeds every recursion depth on it. *)
Lemma reloadDatabase_cycle_exhausts fuel :
  reloadDatabase fuel cycleArtifacts emptyState = OutOfFuel.
Proof.
  assert (E : loadArtifacts cycleArtifacts emptyState = Done cycleSet emptyState)
    by (vm_compute; reflexivity).
  unfold reloadDatabase. unfold bind at 1. cbn [resetDatabase].
  change {| st_heap := st_heap emptyState; st_arrays := st_arrays emptyState;
            st_cache := ∅; rootPageObjectUris := []; st_log := st_log emptyState |}
    with emptyState.
  unfold bind at 1. rewrite E. unfold bind at 1. cbn [sortRoots].
  change {| st_heap := st_heap emptyState; st_arrays := st_arrays emptyState;
            st_cache := st_cache emptyState;
            rootPageObjectUris := sortStrings (rootPageObjectUris emptyState);
            st_log := st_log emptyState |}
    with emptyState.
  unfold bind at 1. change (obj_keys cycleSet) with ["app/cycle"].
  cbn [forEachM]. unfold bind at 1. unfold bind at 1.
  by rewrite cycle_never_returns.
Qed.

Lemma reloadDatabase_returns_on_stratified_definitions_witness :
  (exists st', reloadDatabase 6 boardArtifacts emptyState = Done 3 st') /\
  (forall fuel st e, reloadDatabase fuel boardArtifacts st <> Throw e) /\
  (exists N, forall fuel, N <= fuel ->
     exists n st', reloadDatabase fuel boardArtifacts emptyState = Done n st') /\
  settingsArgued cycleArtifacts = true /\
  (forall fuel, reloadDatabase fuel cycleArtifacts emptyState = OutOfFuel).
Proof.
  split; [eexists; vm_compute; reflexivity|].
  destruct (reloadDatabase_returns_on_stratified_definitions boardArtifacts eq_refl)
    as [Hthrow Hreturns].
  split; [exact Hthrow|]. split.
  - apply (Hreturns boardRank boardMethodRank). vm_compute. reflexivity.
  - split; [reflexivity|]. exact reloadDatabase_cycle_exhausts.
Defined.

(** * The settings *)

Section ObjAppend.
Context {V : Type}.
Implicit Types o : list (string * V).

Lemma obj_get_app k o o' :
obj_get k (o ++ o') =
match obj_get k o with
| Some v => Some v
| None => obj_get k o'
end.
Proof.
induction o as [|[k' v'] o IH]; [done|]. cbn. by destruct (str_eqb k' k).
Qed.

Lemma obj_set_fresh k v o : obj_get k o = None -> obj_set k v o = o ++ [(k, v)].
Proof.
induction o as [|[k' v'] o IH]; [done|]. cbn. destruct (str_eqb k' k); [done|].
intros H. by rewrite IH.
Qed.

Lemma obj_set_is_Some k v o k' :
is_Some (obj_get k' o) -> is_Some (obj_get k' (obj_set k v o)).
Proof.
intros H. destruct (decide (k = k')) as [<-|Hne].
- rewrite obj_get_set_eq. by eexists.
- by rewrite obj_get_set_ne.
Qed.

(** [Map.set] replays a list of entries with distinct keys as it stands. *)
Lemma replay_distinct (l acc : list (string * V)) :
NoDup (map fst l) -> (forall k, In k (map fst l) -> obj_get k acc = None) ->
fold_left (fun m entry => obj_set (fst entry) (snd entry) m) l acc = acc ++ l.
Proof.
revert acc. induction l as [|[k v] l IH]; intros acc Hnd Hfresh; cbn [fold_left].
- by rewrite app_nil_r.
- cbn [map fst snd] in *. apply NoDup_cons in Hnd as [Hk Hnd].
  rewrite obj_set_fresh by (apply Hfresh; by left).
  rewrite IH; [by rewrite <- app_assoc|done|].
  intros k' Hk'. rewrite obj_get_app, (Hfresh k') by (by right). cbn.
  destruct (str_eqb k k') eqn:E; [|done]. apply str_eqb_eq in E as ->.
  exfalso. apply Hk. by apply list_elem_of_In.
Qed.
End ObjAppend.

Section SettingsProofs.
Context {C : Type}.

Local Abbreviation Known := (list (string * string)).
Local Abbreviation Overrides := (list (string * list (string * list string))).

(** Every artifact a URI is known from has its entry in [overrides]. *)
Definition tracked (known : Known) (overrides : Overrides) : Prop :=
forall uri file, obj_get uri known = Some file -> is_Some (obj_get file overrides).

Lemma recordPageObjectUri_tracked fileName known overrides uri :
tracked known overrides -> is_Some (obj_get fileName overrides) ->
exists known' overrides',
  recordPageObjectUri fileName (Some (known, overrides)) uri = Some (known', overrides') /\
  tracked known' overrides' /\ is_Some (obj_get fileName overrides').
Proof.
intros Ht Hf. unfold recordPageObjectUri.
assert (Hkeep : forall ov', (forall g, is_Some (obj_get g overrides) ->
                               is_Some (obj_get g ov')) ->
          tracked (obj_set uri fileName known) ov' /\ is_Some (obj_get fileName ov')).
{ intros ov' Hov. split; [|by apply Hov]. intros u g.
  destruct (decide (uri = u)) as [<-|Hne].
  - rewrite obj_get_set_eq. intros [= <-]. by apply Hov.
  - rewrite obj_get_set_ne by done. intros Hu. by eapply Hov, Ht. }
destruct (obj_get uri known) as [existing|] eqn:Ek.
- destruct (Ht uri existing Ek) as [forFile Hff]. rewrite Hff.
  destruct (obj_get uri forFile) as [files|]; eexists _, _; (split; [done|]);
    apply Hkeep; intros g; apply obj_set_is_Some.
- eexists _, _. split; [done|]. by apply Hkeep.
Qed.

Lemma recordAll_tracked fileName uris known overrides :
tracked known overrides -> is_Some (obj_get fileName overrides) ->
exists known' overrides',
  fold_left (recordPageObjectUri fileName) uris (Some (known, overrides))
  = Some (known', overrides') /\
  tracked known' overrides'.
Proof.
revert known overrides. induction uris as [|u uris IH]; intros known overrides Ht Hf.
- by eexists _, _.
- cbn [fold_left].
  destruct (recordPageObjectUri_tracked fileName known overrides u Ht Hf)
    as (k1 & o1 & -> & Ht1 & Hf1).
  by apply IH.
Qed.

(** [#processLoadedPageObjects] counts every entry of every artifact, and
  never looks for a URI in an entry of [overrides] that is not there. *)
Lemma processLoadedPageObjects_count (loaded : list (string * list (string * C))) :
exists overrides,
  processLoadedPageObjects loaded = Some (length (flat_map snd loaded), overrides).
Proof.
unfold processLoadedPageObjects.
set (step := fun (acc : option (nat * Known * Overrides))
                 (artifact : string * list (string * C)) => _).
assert (H : forall l total known overrides,
          tracked known overrides ->
          exists known' overrides',
            fold_left step l (Some (total, known, overrides))
            = Some (total + length (flat_map snd l), known', overrides')).
{ induction l as [|[file contents] l IH]; intros total known overrides Ht.
  - cbn. rewrite Nat.add_0_r. by eexists _, _.
  - cbn [fold_left flat_map snd fst]. subst step. cbn beta iota. cbn [fst snd].
    destruct (recordAll_tracked file (obj_keys contents) known
                (obj_set file [] overrides)) as (k1 & o1 & E & Ht1).
    { intros u g Hu. apply obj_set_is_Some. by eapply Ht. }
    { rewrite obj_get_set_eq. by eexists. }
    rewrite E. destruct (IH (total + length (obj_keys contents)) k1 o1 Ht1)
      as (k2 & o2 & E2).
    exists k2, o2. rewrite E2. f_equal. f_equal. f_equal.
    rewrite length_app. unfold obj_keys. rewrite length_map. lia. }
destruct (H loaded 0 [] []) as (known & overrides & E); [by intros u g|].
rewrite E. by exists overrides.
Qed.

(** Saving and loading again gives the settings back: the language, the
  highlighter format and the artifacts with their contents, in their
  order, whatever the storage held before. *)
Theorem save_then_load_gives_settings_back (settings : Settings C) (items : StorageItems C) :
NoDup (obj_keys (pageObjects settings)) ->
exists loaded,
  load false (save settings items) = Some loaded /\
  defaultLanguage loaded = defaultLanguage settings /\
  highlighterFormat loaded = highlighterFormat settings /\
  pageObjects loaded = pageObjects settings.
Proof.
intros Hnd. unfold load, getSettings, save. cbn.
assert (Hmap : forall l : list (string * list (string * C)),
          map (fun entry => (fst entry, snd entry)) l = l).
{ induction l as [|[k v] l IH]; [done|]. cbn. by rewrite IH. }
rewrite Hmap, (replay_distinct (pageObjects settings) []) by done. cbn [app].
destruct (processLoadedPageObjects_count (pageObjects settings)) as [overrides ->].
by eexists.
Qed.
End SettingsProofs.

Lemma save_then_load_gives_settings_back_witness :
  exists loaded,
    load false
      (save {| defaultLanguage := "javascript";
               highlighterFormat := DEFAULT_HIGHLIGHTER_FORMAT_SETTINGS;
               pageObjects := overriding; pageObjectCount := 0;
               duplicatePageObjects := [] |}
            {| items_artifactFileName := Some "old.jar";
               items_pageObjects := Some [("app/old", plainJson)];
               items_defaultLanguage := None; items_highlighterFormat := None;
               items_pageObjectArtifacts := None |}) = Some loaded /\
    defaultLanguage loaded = "javascript" /\
    highlighterFormat loaded = DEFAULT_HIGHLIGHTER_FORMAT_SETTINGS /\
    pageObjects loaded = overriding.
Proof.
  apply (save_then_load_gives_settings_back
           {| defaultLanguage := "javascript";
              highlighterFormat := DEFAULT_HIGHLIGHTER_FORMAT_SETTINGS;
              pageObjects := overriding; pageObjectCount := 0;
              duplicatePageObjects := [] |}).
  apply (bool_decide_unpack (NoDup (obj_keys overriding))). vm_compute. exact I.
Defined.

Lemma length_remove_dups_le (l : list string) : length (remove_dups l) <= length l.
Proof.
  induction l as [|x l IH]; [done|]. cbn. destruct (decide_rel elem_of x l); cbn; lia.
Qed.

Lemma length_remove_dups_eq (l : list string) :
  length (remove_dups l) = length l <-> NoDup l.
Proof.
  induction l as [|x l IH]; [split; [constructor|done]|]. cbn.
  pose proof (length_remove_dups_le l) as Hle.
  destruct (decide_rel elem_of x l) as [Hin|Hout]; cbn.
  - split; [lia|]. intros Hnd. apply NoDup_cons in Hnd as [Hx _]. done.
  - split.
    + intros E. apply NoDup_cons. split; [done|]. apply IH. lia.
    + intros Hnd. apply NoDup_cons in Hnd as [_ Hnd]. apply IH in Hnd. lia.
Qed.

(** The count the settings show is the number of entries of all artifacts;
    the count [reloadDatabase] returns is never larger, and the two agree
    exactly when no URI is defined twice. *)
Theorem settings_count_bounds_database_count fuel (settings : Artifacts) st n st' :
  reloadDatabase fuel settings st = Done n st' ->
  exists overrides,
    processLoadedPageObjects settings = Some (length (entriesOf settings), overrides) /\
    n <= length (entriesOf settings) /\
    (n = length (entriesOf settings) <-> NoDup (map fst (entriesOf settings))).
Proof.
  intros H. apply count_distinct in H as ->.
  destruct (processLoadedPageObjects_count settings) as [overrides E].
  exists overrides. split; [exact E|].
  rewrite <- (length_map fst (entriesOf settings)).
  split; [apply length_remove_dups_le|apply length_remove_dups_eq].
Qed.

Lemma settings_count_bounds_database_count_witness :
  (exists st', reloadDatabase 2 overriding emptyState = Done 1 st') /\
  exists overrides,
    processLoadedPageObjects overriding = Some (2, overrides) /\
    1 <= 2 /\ (1 = 2 <-> NoDup ["app/home"; "app/home"]).
Proof.
  assert (H : exists st', reloadDatabase 2 overriding emptyState = Done 1 st')
    by (eexists; vm_compute; reflexivity).
  split; [exact H|]. destruct H as [st' H].
  exact (settings_count_bounds_database_count 2 overriding emptyState 1 st' H).
Defined.

(** * Locating the root page objects *)

Lemma foldM_throws {S A B} (body : B -> A -> ST S B) l x :
  In x l ->
  (forall acc st, exists e, body acc x st = Throw e) ->
  (forall acc y st, body acc y st <> OutOfFuel) ->
  forall acc st, exists e, foldM body l acc st = Throw e.
Proof.
  intros Hin Hx Htot. induction l as [|y l IH]; [done|]. intros acc st.
  cbn [foldM]. unfold bind. destruct Hin as [->|Hin].
  - destruct (Hx acc st) as [e ->]. by exists e.
  - destruct (body acc y st) as [b st1|e|] eqn:E.
    + by apply IH.
    + by exists e.
    + by destruct (Htot acc y st).
Qed.

Lemma declaredNames_same d po :
  sameDefinition d po -> declaredNames po = declaredNames d.
Proof.
  intros (_ & _ & Hs & _ & He & Hsh & _). unfold declaredNames, forestOf.
  by rewrite Hs, He, Hsh.
Qed.

Section Locate.
Context {Node : Type}.
Variable doc : Document Node.
Variable documentNode : Node.
Variable enumerate : gmap string ElementDesc -> list (string * ElementDesc).

Lemma findElement_total selector st :
  findElement doc documentNode selector st <> OutOfFuel.
Proof.
  unfold findElement, querySelector.
  by destruct (querySelectorAll doc documentNode selector).
Qed.

Lemma anotherElementFound_total entries isValid st :
  anotherElementFound doc documentNode entries isValid st <> OutOfFuel.
Proof.
  revert st. induction entries as [|[name child] entries IH]; intros st; [done|].
  cbn [anotherElementFound].
  destruct (negb (str_eqb name DataTypes.ROOT)); [|apply IH].
  destruct (css (ed_selector child)) as [c|]; [|apply IH].
  destruct (Nat.eqb _ 0 && truthy_s c); [|apply IH].
  unfold bind. pose proof (findElement_total c st) as Hf.
  destruct (findElement doc documentNode c st) as [[node|] st1| |]; done.
Qed.

Lemma locateRoot_total db found uri st :
  locateRoot doc documentNode enumerate db found uri st <> OutOfFuel.
Proof.
  unfold locateRoot. destruct (getPageObject db uri) as [parsed|]; [|done].
  destruct (p_elements parsed !! DataTypes.ROOT) as [rootDesc|]; [|done].
  destruct (css (ed_selector rootDesc)) as [c|]; [|done].
  destruct (truthy_s c); [|done].
  unfold bind at 1. pose proof (findElement_total c st) as Hf.
  destruct (findElement doc documentNode c st) as [[node|] st1| |]; try done.
  unfold bind.
  destruct (anotherElementFound _ _ _ _ st1) as [[|] st2| |] eqn:Ea; try done.
  by apply anotherElementFound_total in Ea.
Qed.

Lemma findElement_Done c st r st' :
  findElement doc documentNode c st = Done r st' ->
  st' = st /\ (is_Some r <-> matchedIn doc documentNode c).
Proof.
  unfold findElement, querySelector, matchedIn.
  destruct (querySelectorAll doc documentNode c) as [[|node rest]|]; [| |done].
  - intros [= <- <-]. split; [done|]. split; [by intros []|]. by intros (? & ? & ?).
  - intros [= <- <-]. split; [done|]. split; [by eexists _, _|by eexists].
Qed.

Lemma anotherElementFound_sound elements entries isValid st st' :
  (forall name e, In (name, e) entries -> elements !! name = Some e) ->
  anotherElementFound doc documentNode entries isValid st = Done true st' ->
  isValid = true \/ anotherMatched doc documentNode elements.
Proof.
  revert st. induction entries as [|[name child] entries IH]; intros st Hin.
  { cbn. intros [= -> _]. by left. }
  assert (Hin' : forall name e, In (name, e) entries -> elements !! name = Some e).
  { intros ? ? ?. apply Hin. by right. }
  cbn [anotherElementFound].
  destruct (negb (str_eqb name DataTypes.ROOT)) eqn:En; [|by apply IH].
  destruct (css (ed_selector child)) as [c|] eqn:Ec; [|by apply IH].
  destruct (Nat.eqb _ 0 && truthy_s c) eqn:Ea; [|by apply IH].
  intros H. apply bind_Done in H as (r & st1 & Hf & H).
  apply findElement_Done in Hf as [-> Hf]. destruct r as [node|]; [|by apply (IH st)].
  right. apply andb_true_iff in Ea as [Ea Et]. exists name, child, c.
  split; [|split; [apply Hin; by left|]].
  - intros ->. by rewrite str_eqb_refl in En.
  - split; [|split; [done|split; [done|by apply Hf]]].
    apply Nat.eqb_eq in Ea. by destruct (ed_effectiveArgs child).
Qed.

Lemma anotherElementFound_true entries st b st' :
  anotherElementFound doc documentNode entries true st = Done b st' -> b = true.
Proof.
  revert st. induction entries as [|[name child] entries IH]; intros st.
  { cbn. by intros [= <- _]. }
  cbn [anotherElementFound].
  destruct (negb (str_eqb name DataTypes.ROOT)); [|by apply IH].
  destruct (css (ed_selector child)) as [c|]; [|by apply IH].
  destruct (Nat.eqb _ 0 && truthy_s c); [|by apply IH].
  intros H. apply bind_Done in H as ([node|] & st1 & _ & H); [|by apply (IH st1)].
  cbn in H. by injection H as <-.
Qed.

Lemma anotherElementFound_complete entries isValid st b st' name e c :
  In (name, e) entries ->
  name <> DataTypes.ROOT -> ed_effectiveArgs e = [] ->
  css (ed_selector e) = Some c -> truthy_s c = true ->
  matchedIn doc documentNode c ->
  anotherElementFound doc documentNode entries isValid st = Done b st' -> b = true.
Proof.
  intros Hin Hn Ha Hc Ht Hm. revert st.
  induction entries as [|[name' child] entries IH]; intros st; [done|].
  cbn [anotherElementFound]. destruct Hin as [[= -> ->]|Hin].
  - assert (str_eqb name DataTypes.ROOT = false) as ->.
    { destruct (str_eqb name DataTypes.ROOT) eqn:E; [|done]. by apply str_eqb_eq in E. }
    cbn [negb]. rewrite Hc, Ha, Ht. cbn [length Nat.eqb andb].
    intros H. apply bind_Done in H as (r & st1 & Hf & H).
    apply findElement_Done in Hf as [-> Hf]. apply Hf in Hm as [node ->].
    cbn in H. by injection H as <-.
  - destruct (negb (str_eqb name' DataTypes.ROOT)); [|by apply IH].
    destruct (css (ed_selector child)) as [c'|]; [|by apply IH].
    destruct (Nat.eqb _ 0 && truthy_s c'); [|by apply IH].
    intros H. apply bind_Done in H as ([node|] & st1 & _ & H); [|by apply (IH Hin st1)].
    cbn in H. by injection H as <-.
Qed.

(** What one round of the loop over the root URIs does. *)
Lemma locateRoot_Done db found uri st found' st' :
  (forall m name e, In (name, e) (enumerate m) -> m !! name = Some e) ->
  locateRoot doc documentNode enumerate db found uri st = Done found' st' ->
  found' = found \/
  exists info, found' = obj_set (pageObjectDisplayNameFromUri uri) info found /\
               describes db uri info /\ rootLocated doc documentNode db uri.
Proof.
  intros Henum. unfold locateRoot.
  destruct (getPageObject db uri) as [parsed|] eqn:Eg; [|done].
  destruct (p_elements parsed !! DataTypes.ROOT) as [rootDesc|] eqn:Er; [|done].
  destruct (css (ed_selector rootDesc)) as [c|] eqn:Ec; [|intros [= <- _]; by left].
  destruct (truthy_s c) eqn:Et; [|intros [= <- _]; by left].
  intros H. apply bind_Done in H as (r & st1 & Hf & H).
  apply findElement_Done in Hf as [-> Hf].
  destruct r as [node|]; [|injection H as <- _; by left].
  apply bind_Done in H as (isValid & st2 & Ha & H).
  destruct isValid; [|injection H as <- _; by left].
  injection H as <- _. right. eexists. split; [reflexivity|]. split.
  - repeat split. by exists parsed, rootDesc.
  - exists parsed, rootDesc, c. repeat split; try done; [by apply Hf|].
    apply (anotherElementFound_sound (p_elements parsed)) in Ha as [Ha|Ha];
      [|by right|by apply Henum].
    left. by apply Nat.leb_le in Ha.
Qed.

Lemma locateRoot_complete db found uri st found' st' :
  (forall m name e, m !! name = Some e -> In (name, e) (enumerate m)) ->
  rootLocated doc documentNode db uri ->
  locateRoot doc documentNode enumerate db found uri st = Done found' st' ->
  exists info, found' = obj_set (pageObjectDisplayNameFromUri uri) info found /\
               ri_type info = uri.
Proof.
  intros Henum (parsed & rootDesc & c & Hg & Hr & Hc & Ht & Hm & Hv).
  unfold locateRoot. rewrite Hg, Hr, Hc, Ht.
  intros H. apply bind_Done in H as (r & st1 & Hf & H).
  apply findElement_Done in Hf as [-> Hf]. apply Hf in Hm as [node ->].
  apply bind_Done in H as (isValid & st2 & Ha & H).
  assert (isValid = true) as ->.
  { destruct Hv as [Hv|(name & e & c' & Hn & He & Hargs & Hc' & Ht' & Hm')].
    - apply Nat.leb_le in Hv. rewrite Hv in Ha. by apply anotherElementFound_true in Ha.
    - by apply (anotherElementFound_complete _ _ _ _ _ name e c' (Henum _ _ _ He)) in Ha. }
  injection H as <- _. by eexists.
Qed.

Lemma locateAll_sound db roots :
  (forall m name e, In (name, e) (enumerate m) -> m !! name = Some e) ->
  forall found st found' st',
    foldM (locateRoot doc documentNode enumerate db) roots found st = Done found' st' ->
    forall name info, obj_get name found' = Some info ->
      obj_get name found = Some info \/
      (In (ri_type info) roots /\ name = pageObjectDisplayNameFromUri (ri_type info) /\
       describes db (ri_type info) info /\ rootLocated doc documentNode db (ri_type info)).
Proof.
  intros Henum. induction roots as [|uri roots IH]; intros found st found' st' H name info Hi.
  { cbn in H. injection H as <- _. by left. }
  cbn [foldM] in H. apply bind_Done in H as (found1 & st1 & H1 & H).
  destruct (IH _ _ _ _ H name info Hi) as [Hold|(Hin & Hname & Hd & Hl)].
  - apply locateRoot_Done in H1 as [->|(info' & -> & Hd & Hl)]; [by left| |done].
    destruct (string_dec (pageObjectDisplayNameFromUri uri) name) as [<-|Hne].
    + rewrite obj_get_set_eq in Hold. injection Hold as ->.
      pose proof Hd as (Ht & _). right. rewrite Ht.
      split; [by left|]. split; [done|]. by split.
    + rewrite obj_get_set_ne in Hold by done. by left.
  - right. split; [by right|done].
Qed.

Lemma locateAll_keeps db roots name :
  forall found st found' st' info,
    foldM (locateRoot doc documentNode enumerate db) roots found st = Done found' st' ->
    obj_get name found = Some info ->
    pageObjectDisplayNameFromUri (ri_type info) = name ->
    exists info', obj_get name found' = Some info' /\
                  pageObjectDisplayNameFromUri (ri_type info') = name.
Proof.
  induction roots as [|uri roots IH]; intros found st found' st' info H Hi Hn.
  { cbn in H. injection H as <- _. by exists info. }
  cbn [foldM] in H. apply bind_Done in H as (found1 & st1 & H1 & H).
  assert (exists info1, obj_get name found1 = Some info1 /\
            pageObjectDisplayNameFromUri (ri_type info1) = name) as (info1 & Hi1 & Hn1).
  { revert H1. unfold locateRoot.
    destruct (getPageObject db uri) as [parsed|]; [|done].
    destruct (p_elements parsed !! DataTypes.ROOT) as [rootDesc|]; [|done].
    destruct (css (ed_selector rootDesc)) as [c|]; [|intros [= <- _]; by exists info].
    destruct (truthy_s c); [|intros [= <- _]; by exists info].
    intros H1. apply bind_Done in H1 as ([node|] & st2 & _ & H1);
      [|injection H1 as <- _; by exists info].
    apply bind_Done in H1 as ([|] & st3 & _ & H1); [|injection H1 as <- _; by exists info].
    injection H1 as <- _.
    destruct (string_dec (pageObjectDisplayNameFromUri uri) name) as [<-|Hne].
    - eexists. by rewrite obj_get_set_eq.
    - exists info. by rewrite obj_get_set_ne. }
  by apply (IH _ _ _ _ _ H Hi1 Hn1).
Qed.

Lemma locateAll_complete db roots uri :
  (forall m name e, m !! name = Some e -> In (name, e) (enumerate m)) ->
  In uri roots -> rootLocated doc documentNode db uri ->
  forall found st found' st',
    foldM (locateRoot doc documentNode enumerate db) roots found st = Done found' st' ->
    exists info, obj_get (pageObjectDisplayNameFromUri uri) found' = Some info /\
                 pageObjectDisplayNameFromUri (ri_type info) =
                   pageObjectDisplayNameFromUri uri.
Proof.
  intros Henum Hin Hl. induction roots as [|y roots IH]; [done|].
  intros found st found' st' H. cbn [foldM] in H.
  apply bind_Done in H as (found1 & st1 & H1 & H). destruct Hin as [->|Hin].
  - apply locateRoot_complete in H1 as (info & -> & Ht); [|done..].
    eapply locateAll_keeps; [exact H|apply obj_get_set_eq|by rewrite Ht].
  - by apply (IH Hin _ _ _ _ H).
Qed.
End Locate.

(** A URI stays in [rootPageObjectUris] when a later artifact defines it
    anew.  When that last definition has no root element (no selector, and
    no element of the name), [locateValidRootPageObjects] throws, whatever
    the document holds: it reads the selector of a root element that is not
    there. *)
Theorem locate_throws_when_root_was_overridden {Node} (doc : Document Node)
    (documentNode : Node) (enumerate : gmap string ElementDesc -> list (string * ElementDesc))
    fuel settings st n st' uri d :
  reloadDatabase fuel settings st = Done n st' ->
  In uri (rootEntries settings) ->
  lastDefinition uri (entriesOf settings) = Some d ->
  ~ In DataTypes.ROOT (declaredNames d) ->
  forall store,
    exists e, locateValidRootPageObjects doc documentNode enumerate st' store = Throw e.
Proof.
  intros H Hroot Hd Hnone store.
  apply reloadDatabase_inv in H as (all & _ & Hload & Hroots & Hok & Hin & _).
  specialize (Hload uri). rewrite Hd in Hload. destruct Hload as (po & Hget & Hsame).
  destruct (Hin uri) as [p Hp]; [apply obj_get_keys; by eexists|].
  destruct (Hok uri p Hp) as (parsed & po' & Hh & Hu & Hget' & _ & _ & _ & He).
  assert (po' = po) as -> by congruence.
  assert (Hmem : In uri (rootPageObjectUris st')).
  { rewrite Hroots. apply list_elem_of_In. rewrite sortStrings_perm.
    by apply list_elem_of_In. }
  unfold locateValidRootPageObjects.
  destruct (rootPageObjectUris st') as [|r roots] eqn:Er; [done|].
  unfold bind.
  destruct (foldM_throws (locateRoot doc documentNode enumerate st') (r :: roots) uri Hmem)
    with (acc := @nil (string * RootInfo)) (st := store) as [e ->].
  - intros acc s0. unfold locateRoot, getPageObject. rewrite Hp, Hh.
    assert (Hnot : p_elements parsed !! DataTypes.ROOT = None).
    { rewrite He. apply eq_None_not_Some. rewrite parsedElements_keys.
      by rewrite (declaredNames_same d po Hsame). }
    rewrite Hnot. by eexists.
  - intros acc y s0. apply locateRoot_total.
  - by exists e.
Qed.

Lemma locate_throws_when_root_was_overridden_witness :
  (exists st', reloadDatabase 2 overriding emptyState = Done 1 st') /\
  forall st', reloadDatabase 2 overriding emptyState = Done 1 st' ->
    rootPageObjectUris st' = ["app/home"] /\
    exists e, locateValidRootPageObjects toyDoc 0 map_to_list st' [] = Throw e.
Proof.
  split; [eexists; vm_compute; reflexivity|]. intros st' H. split.
  - vm_compute in H. injection H as <-. reflexivity.
  - apply (locate_throws_when_root_was_overridden toyDoc 0 map_to_list
             2 overriding emptyState 1 st' "app/home" plainJson H).
    + by left.
    + reflexivity.
    + intros [].
Defined.

(** Every entry of a reply of [locateValidRootPageObjects] stands for a
    root URI of the database, under the display name of that URI, with the
    root selector of its page object; that selector finds a node of the
    document, and unless the page object has the root element only, so does
    the selector of another of its elements that takes no arguments. *)
Theorem located_roots_match_the_document {Node} (doc : Document Node)
    (documentNode : Node) (enumerate : gmap string ElementDesc -> list (string * ElementDesc))
    db store msg store' found :
  (forall m name e, In (name, e) (enumerate m) -> m !! name = Some e) ->
  locateValidRootPageObjects doc documentNode enumerate db store = Done msg store' ->
  msg_data msg = LocatedData found ->
  msg_type msg = Messages.ROOT_PAGE_OBJECTS_LOCATED /\ found <> [] /\
  forall name info, obj_get name found = Some info ->
    In (ri_type info) (rootPageObjectUris db) /\
    name = pageObjectDisplayNameFromUri (ri_type info) /\
    describes db (ri_type info) info /\
    rootLocated doc documentNode db (ri_type info).
Proof.
  intros Henum H Hmsg. unfold locateValidRootPageObjects in H.
  destruct (rootPageObjectUris db) as [|r roots] eqn:Er.
  { injection H as <- _. done. }
  apply bind_Done in H as (found' & st1 & Hf & H).
  destruct found' as [|entry rest].
  { injection H as <- _. done. }
  injection H as <- _. cbn in Hmsg. injection Hmsg as <-.
  split; [done|]. split; [done|]. intros name info Hi.
  by destruct (locateAll_sound doc documentNode enumerate db (r :: roots) Henum _ _ _ _ Hf
                 name info Hi) as [Hold|Hnew].
Qed.

Lemma located_roots_match_the_document_witness :
  exists st' found,
    reloadDatabase 2 panelArtifacts emptyState = Done 1 st' /\
    locateValidRootPageObjects toyDoc 0 map_to_list st' []
      = Done {| msg_type := Messages.ROOT_PAGE_OBJECTS_LOCATED;
                msg_data := LocatedData found |} [] /\
    (exists info, obj_get "app/Panel" found = Some info) /\
    forall name info, obj_get name found = Some info ->
      In (ri_type info) (rootPageObjectUris st') /\
      name = pageObjectDisplayNameFromUri (ri_type info) /\
      describes st' (ri_type info) info /\
      rootLocated toyDoc 0 st' (ri_type info).
Proof.
  destruct (reloadDatabase 2 panelArtifacts emptyState) as [n st'| |] eqn:E;
    [|vm_compute in E; discriminate E..].
  destruct (locateValidRootPageObjects toyDoc 0 map_to_list st' [])
    as [[t [e m|found]] store'| |] eqn:L;
    [vm_compute in E; injection E as <- <-; vm_compute in L; discriminate L| |
     vm_compute in E; injection E as <- <-; vm_compute in L; discriminate L..].
  exists st', found. split; [vm_compute in E; by injection E as <- _|]. split.
  { vm_compute in E. injection E as <- <-. vm_compute in L. injection L as <- <- <-.
    reflexivity. }
  split.
  { vm_compute in E. injection E as <- <-. vm_compute in L. injection L as <- <- <-.
    by eexists. }
  refine (proj2 (proj2 (located_roots_match_the_document toyDoc 0 map_to_list
            st' [] _ store' found _ L eq_refl))).
  intros m name e Hin. apply elem_of_map_to_list. by apply list_elem_of_In.
Defined.

(** When [locateValidRootPageObjects] returns, every root URI of the
    database whose page object is on the page (its root selector finds a
    node and, if it has other elements, so does one of them that takes no
    arguments) has an entry under its display name in a reply of the
    located kind.  The entry may be that of another root URI of the same
    display name. *)
Theorem root_on_the_page_is_reported {Node} (doc : Document Node)
    (documentNode : Node) (enumerate : gmap string ElementDesc -> list (string * ElementDesc))
    db store msg store' uri :
  (forall m name e, m !! name = Some e -> In (name, e) (enumerate m)) ->
  locateValidRootPageObjects doc documentNode enumerate db store = Done msg store' ->
  In uri (rootPageObjectUris db) ->
  rootLocated doc documentNode db uri ->
  exists found info,
    msg = {| msg_type := Messages.ROOT_PAGE_OBJECTS_LOCATED;
             msg_data := LocatedData found |} /\
    obj_get (pageObjectDisplayNameFromUri uri) found = Some info /\
    pageObjectDisplayNameFromUri (ri_type info) = pageObjectDisplayNameFromUri uri.
Proof.
  intros Henum H Hin Hl. unfold locateValidRootPageObjects in H.
  destruct (rootPageObjectUris db) as [|r roots] eqn:Er; [done|].
  apply bind_Done in H as (found & st1 & Hf & H).
  destruct (locateAll_complete doc documentNode enumerate db (r :: roots) uri Henum Hin Hl
              _ _ _ _ Hf) as (info & Hi & Hn).
  destruct found as [|entry found]; [done|].
  injection H as <- _. by exists (entry :: found), info.
Qed.

Lemma root_on_the_page_is_reported_witness :
  exists st' msg,
    reloadDatabase 2 panelArtifacts emptyState = Done 1 st' /\
    locateValidRootPageObjects toyDoc 0 map_to_list st' [] = Done msg [] /\
    exists found info,
      msg = {| msg_type := Messages.ROOT_PAGE_OBJECTS_LOCATED;
               msg_data := LocatedData found |} /\
      obj_get (pageObjectDisplayNameFromUri "app/pageObjects/panel") found = Some info /\
      pageObjectDisplayNameFromUri (ri_type info)
        = pageObjectDisplayNameFromUri "app/pageObjects/panel".
Proof.
  destruct (reloadDatabase 2 panelArtifacts emptyState) as [n st'| |] eqn:E;
    [|vm_compute in E; discriminate E..].
  destruct (locateValidRootPageObjects toyDoc 0 map_to_list st' []) as [msg store'| |] eqn:L;
    [|vm_compute in E; injection E as <- <-; vm_compute in L; discriminate L..].
  exists st', msg. split; [vm_compute in E; by injection E as <- _|].
  split.
  { vm_compute in E. injection E as <- <-. vm_compute in L. by injection L as <- <-. }
  apply (root_on_the_page_is_reported toyDoc 0 map_to_list st' [] msg store'
           "app/pageObjects/panel").
  - intros m name e Hm. apply list_elem_of_In. by apply elem_of_map_to_list.
  - exact L.
  - vm_compute in E. injection E as <- <-. by left.
  - vm_compute in E. injection E as <- <-. clear L.
    eexists _, _, _. split; [vm_compute; reflexivity|].
    split; [vm_compute; reflexivity|]. split; [vm_compute; reflexivity|].
    split; [reflexivity|]. split; [eexists _, _; vm_compute; reflexivity|].
    right. exists "title". eexists _, _. split; [discriminate|].
    split; [vm_compute; reflexivity|]. split; [reflexivity|].
    split; [vm_compute; reflexivity|]. split; [reflexivity|].
    eexists _, _; vm_compute; reflexivity.
Defined.

(** * The overrides between artifacts *)

Lemma definer_app uri l1 l2 :
  definer uri (l1 ++ l2) =
  match definer uri l2 with
  | Some g => Some g
  | None => definer uri l1
  end.
Proof.
  induction l1 as [|[f u] l1 IH]; cbn [app definer]; [by destruct (definer uri l2)|].
  rewrite IH. by destruct (definer uri l2).
Qed.

Lemma definer_snoc uri seq g u :
  definer uri (seq ++ [(g, u)]) = if str_eqb u uri then Some g else definer uri seq.
Proof. rewrite definer_app. cbn. by destruct (str_eqb u uri). Qed.

Lemma definer_In uri seq f : definer uri seq = Some f -> In (f, uri) seq.
Proof.
  induction seq as [|[f' u] seq IH]; [done|]. cbn.
  destruct (definer uri seq) as [g|]; [intros [= ->]; right; by apply IH|].
  destruct (str_eqb u uri) eqn:E; [|done]. apply str_eqb_eq in E as ->.
  intros [= ->]. by left.
Qed.

Lemma definer_None uri seq : definer uri seq = None <-> ~ In uri (map snd seq).
Proof.
  induction seq as [|[f u] seq IH]; cbn; [tauto|].
  destruct (definer uri seq) as [g|].
  - split; [done|]. intros H.
    assert (Hn : ~ In uri (map snd seq)) by (intros ?; apply H; by right).
    by apply IH in Hn.
  - destruct (str_eqb u uri) eqn:E.
    + apply str_eqb_eq in E as ->. split; [done|]. intros H. exfalso. apply H. by left.
    + apply str_eqb_neq in E. split; [|done]. intros _ [H|H]; [done|]. by apply IH in H.
Qed.

Lemma definer_split uri seq f :
  definer uri seq = Some f <->
  exists before mid, seq = before ++ (f, uri) :: mid /\ ~ In uri (map snd mid).
Proof.
  split.
  - induction seq as [|[f' u] seq IH]; [done|]. cbn.
    destruct (definer uri seq) as [g|] eqn:Ed.
    + intros [= ->]. destruct (IH eq_refl) as (b & m & -> & Hm).
      by exists ((f', u) :: b), m.
    + destruct (str_eqb u uri) eqn:E; [|done]. apply str_eqb_eq in E as ->.
      intros [= ->]. exists [], seq. split; [done|]. by apply definer_None.
  - intros (b & m & -> & Hm). rewrite definer_app. cbn.
    apply definer_None in Hm. by rewrite Hm, str_eqb_refl.
Qed.

Lemma overridden_snoc seq g u file uri files :
  overridden (seq ++ [(g, u)]) file uri files <->
  overridden seq file uri files \/
  (u = uri /\ files = [g] /\ definer uri seq = Some file).
Proof.
  split.
  - intros (g' & b & m & a & E & -> & Hm).
    destruct a as [|x a _] using rev_ind.
    + right.
      assert (E' : seq ++ [(g, u)] = (b ++ (file, uri) :: m) ++ [(g', uri)])
        by (by rewrite E, <- app_assoc).
      apply app_inj_tail in E' as [-> [= -> ->]].
      split; [done|]. split; [done|]. apply definer_split. by exists b, m.
    + left.
      assert (E' : seq ++ [(g, u)] = (b ++ (file, uri) :: m ++ (g', uri) :: a) ++ [x])
        by (by rewrite E, <- !app_assoc, <- !app_comm_cons, <- app_assoc).
      apply app_inj_tail in E' as [-> _].
      by exists g', b, m, a.
  - intros [(g' & b & m & a & -> & -> & Hm)|(-> & -> & Hd)].
    + exists g', b, m, (a ++ [(g, u)]). split; [|done].
      by rewrite <- !app_assoc, <- !app_comm_cons, <- app_assoc.
    + apply definer_split in Hd as (b & m & -> & Hm). exists g, b, m, [].
      split; [|done]. by rewrite <- app_assoc.
Qed.

(** The artifact of the last definition of a URI has not been overridden on it. *)
Lemma definer_not_overridden seq file uri files :
  NoDup seq -> definer uri seq = Some file -> ~ overridden seq file uri files.
Proof.
  intros Hnd Hd (g & b & m & a & -> & _ & Hm).
  rewrite definer_app in Hd. cbn [definer] in Hd. rewrite definer_app in Hd.
  apply NoDup_app in Hnd as (_ & _ & Hnd). apply NoDup_cons in Hnd as [Hnot _].
  apply Hnot. apply list_elem_of_In, in_or_app. right.
  cbn [definer] in Hd. rewrite str_eqb_refl in Hd.
  destruct (definer uri a) as [h|] eqn:Ea.
  - injection Hd as ->. right. by apply definer_In.
  - injection Hd as ->. by left.
Qed.

Section Overrides.
Context {C : Type}.

Local Abbreviation Known := (list (string * string)).
Local Abbreviation Overrides := (list (string * list (string * list string))).

Lemma recordPageObjectUri_settled started seq known overrides g uri :
settled started seq known overrides -> In g started -> NoDup seq ->
exists known' overrides',
  recordPageObjectUri g (Some (known, overrides)) uri = Some (known', overrides') /\
  settled started (seq ++ [(g, uri)]) known' overrides'.
Proof.
intros (Hk & Hs & Hin & Ho) Hg Hnd. unfold recordPageObjectUri. rewrite Hk.
assert (Hk' : forall u, obj_get u (obj_set uri g known) = definer u (seq ++ [(g, uri)])).
{ intros u. rewrite definer_snoc. destruct (str_eqb uri u) eqn:E.
  - apply str_eqb_eq in E as ->. apply obj_get_set_eq.
  - apply str_eqb_neq in E. by rewrite obj_get_set_ne. }
assert (Hin' : forall file u, In (file, u) (seq ++ [(g, uri)]) -> In file started).
{ intros file u [H|[[= <- <-]|[]]]%in_app_or; [by eapply Hin|done]. }
destruct (definer uri seq) as [f|] eqn:Ed.
- destruct (proj2 (Hs f)) as [forFile Hf]; [eapply Hin; by apply definer_In|].
  rewrite Hf.
  assert (Hfresh : obj_get uri forFile = None).
  { destruct (obj_get uri forFile) as [files|] eqn:E; [|done]. exfalso.
    apply (definer_not_overridden seq f uri files Hnd Ed). apply Ho.
    unfold recorded. by rewrite Hf. }
  rewrite Hfresh. eexists _, _. split; [reflexivity|]. split; [done|]. split.
  { intros file. rewrite <- Hs. destruct (decide (f = file)) as [<-|Hne].
    - rewrite obj_get_set_eq, Hf. by split; eexists.
    - by rewrite obj_get_set_ne. }
  split; [done|]. intros file u files. rewrite overridden_snoc, <- Ho. unfold recorded.
  destruct (decide (f = file)) as [<-|Hne].
  + rewrite obj_get_set_eq, Hf. destruct (decide (uri = u)) as [<-|Hu].
    * rewrite obj_get_set_eq, Hfresh. split.
      -- intros [= <-]. by right.
      -- intros [?|(_ & -> & _)]; done.
    * rewrite obj_get_set_ne by done. split; [by left|]. by intros [?|(? & _)].
  + rewrite obj_get_set_ne by done. split; [by left|].
    intros [?|(<- & _ & Hd)]; [done|]. congruence.
- eexists _, _. split; [reflexivity|]. split; [done|]. split; [done|].
  split; [done|]. intros file u files. rewrite overridden_snoc, <- Ho.
  split; [by left|]. intros [?|(<- & _ & Hd)]; [done|]. congruence.
Qed.

Lemma recordAll_settled started g uris :
forall seq known overrides,
  settled started seq known overrides -> In g started ->
  NoDup (seq ++ map (fun uri => (g, uri)) uris) ->
  exists known' overrides',
    fold_left (recordPageObjectUri g) uris (Some (known, overrides))
    = Some (known', overrides') /\
    settled started (seq ++ map (fun uri => (g, uri)) uris) known' overrides'.
Proof.
induction uris as [|u uris IH]; intros seq known overrides Hs Hg Hnd.
- cbn. rewrite app_nil_r. by eexists _, _.
- cbn [fold_left map] in *.
  destruct (recordPageObjectUri_settled started seq known overrides g u Hs Hg)
    as (k1 & o1 & -> & Hs1).
  { by apply NoDup_app in Hnd as (? & _). }
  replace (seq ++ (g, u) :: map (fun uri => (g, uri)) uris)
    with ((seq ++ [(g, u)]) ++ map (fun uri => (g, uri)) uris) in *
    by (by rewrite <- app_assoc).
  by apply IH.
Qed.

Lemma definitions_NoDup (loaded : list (string * list (string * C))) :
NoDup (obj_keys loaded) ->
(forall file contents, In (file, contents) loaded -> NoDup (obj_keys contents)) ->
NoDup (definitions loaded).
Proof.
induction loaded as [|[file contents] loaded IH]; intros Hnd Hc; [constructor|].
unfold obj_keys in Hnd. cbn [map fst] in Hnd. apply NoDup_cons in Hnd as [Hfile Hnd].
cbn [definitions flat_map fst snd]. apply NoDup_app. split; [|split].
- apply NoDup_fmap_2; [by intros ? ? [= ->]|]. apply (Hc file). by left.
- intros [f u] H1 H2. apply list_elem_of_In, in_map_iff in H1 as (u' & [= <- <-] & _).
  apply Hfile. apply list_elem_of_In in H2. apply in_flat_map in H2 as ([f' c'] & Hin & H2).
  cbn [fst snd] in H2. apply in_map_iff in H2 as (u'' & [= -> _] & _).
  apply list_elem_of_In, in_map_iff. by exists (file, c').
- apply IH; [done|]. intros f c H. apply (Hc f). by right.
Qed.

Lemma processAll_settled (loaded : list (string * list (string * C))) :
forall started seq total known overrides,
  settled started seq known overrides ->
  NoDup (started ++ obj_keys loaded) ->
  NoDup (seq ++ definitions loaded) ->
  exists total' known' overrides',
    fold_left
      (fun acc artifact =>
         match acc with
         | None => None
         | Some (totalPageObjectCount, knownPageObjectUris, overrides) =>
             let totalPageObjectCount :=
               totalPageObjectCount + length (obj_keys (snd artifact)) in
             let overrides := obj_set (fst artifact) [] overrides in
             match fold_left (recordPageObjectUri (fst artifact)) (obj_keys (snd artifact))
                             (Some (knownPageObjectUris, overrides)) with
             | Some (knownPageObjectUris, overrides) =>
                 Some (totalPageObjectCount, knownPageObjectUris, overrides)
             | None => None
             end
         end)
      loaded (Some (total, known, overrides))
    = Some (total', known', overrides') /\
    settled (started ++ obj_keys loaded) (seq ++ definitions loaded) known' overrides'.
Proof.
induction loaded as [|[file contents] loaded IH];
  intros started seq total known overrides Hs Hnf Hnd.
- cbn. rewrite !app_nil_r. by eexists _, _, _.
- cbn [fold_left fst snd]. cbn [definitions flat_map fst snd] in *.
  fold (definitions loaded) in *.
  change (obj_keys ((file, contents) :: loaded)) with (file :: obj_keys loaded) in *.
  assert (Hfresh : ~ In file started).
  { apply NoDup_app in Hnf as (_ & Hnf & _). intros H. apply (Hnf file).
    - by apply list_elem_of_In.
    - by left. }
  destruct Hs as (Hk & Hst & Hin & Ho).
  assert (Hnone : obj_get file overrides = None).
  { apply eq_None_not_Some. by rewrite Hst. }
  assert (Hs1 : settled (started ++ [file]) seq known (obj_set file [] overrides)).
  { split; [done|]. split; [|split].
    - intros f. rewrite in_app_iff, <- Hst. destruct (decide (file = f)) as [<-|Hne].
      + rewrite obj_get_set_eq. split; [intros _; right; by left|by eexists].
      + rewrite obj_get_set_ne by done. split; [by left|].
        by intros [?|[?|[]]].
    - intros f u H. apply in_or_app. left. by eapply Hin.
    - intros f u files. rewrite <- Ho. unfold recorded.
      destruct (decide (file = f)) as [<-|Hne].
      + by rewrite obj_get_set_eq, Hnone.
      + by rewrite obj_get_set_ne. }
  destruct (recordAll_settled (started ++ [file]) file (obj_keys contents)
              seq known (obj_set file [] overrides) Hs1) as (k1 & o1 & -> & Hs2).
  { apply in_or_app. right. by left. }
  { rewrite app_assoc in Hnd. by apply NoDup_app in Hnd as (? & _). }
  destruct (IH (started ++ [file])
              (seq ++ map (fun uri => (file, uri)) (obj_keys contents))
              (total + length (obj_keys contents)) k1 o1 Hs2)
    as (t2 & k2 & o2 & E & Hs3).
  { by rewrite <- app_assoc. }
  { by rewrite <- app_assoc. }
  exists t2, k2, o2. split; [exact E|]. by rewrite <- !app_assoc in Hs3.
Qed.

(** The overrides that [#processLoadedPageObjects] leaves: the entry of an
  artifact for a URI is there exactly when a later artifact defines the
  URI too, and it names one artifact only, the next one that does.  The
  branch that would add a further name is never taken. *)
Theorem overrides_name_the_next_artifact (loaded : list (string * list (string * C)))
  count overrides :
NoDup (obj_keys loaded) ->
(forall file contents, In (file, contents) loaded -> NoDup (obj_keys contents)) ->
processLoadedPageObjects loaded = Some (count, overrides) ->
forall file uri files,
  (exists forFile, obj_get file overrides = Some forFile /\
                   obj_get uri forFile = Some files) <->
  (exists next before mid after,
     definitions loaded = before ++ (file, uri) :: mid ++ (next, uri) :: after /\
     files = [next] /\ ~ In uri (map snd mid)).
Proof.
intros Hfiles Hkeys H file uri files. unfold processLoadedPageObjects in H.
destruct (processAll_settled loaded [] [] 0 [] []) as (t & k & o & E & Hs).
- split; [done|]. split; [|split].
  + intros f. split; [by intros [? ?]|done].
  + by intros f u [].
  + intros f u fs. split; [done|]. intros (g & b & m & a & E & _). by destruct b.
- done.
- by apply definitions_NoDup.
- match type of H with
  | match ?x with _ => _ end = _ =>
      replace x with (Some (t, k, o)) in H by (symmetry; exact E)
  end.
  injection H as <- <-. destruct Hs as (_ & _ & _ & Ho).
  cbn [app] in Ho. rewrite <- (Ho file uri files). unfold recorded. split.
  + intros (forFile & -> & Hu). done.
  + destruct (obj_get file o) as [forFile|]; [|done]. intros Hu. by exists forFile.
Qed.
End Overrides.

Lemma overrides_name_the_next_artifact_witness :
  exists count overrides,
    processLoadedPageObjects threeArtifacts = Some (count, overrides) /\
    overrides = [ ("a.jar", [("app/home", ["b.jar"])]);
                  ("b.jar", [("app/home", ["c.jar"])]);
                  ("c.jar", []) ] /\
    forall file uri files,
      (exists forFile, obj_get file overrides = Some forFile /\
                       obj_get uri forFile = Some files) <->
      (exists next before mid after,
         definitions threeArtifacts = before ++ (file, uri) :: mid ++ (next, uri) :: after /\
         files = [next] /\ ~ In uri (map snd mid)).
Proof.
  eexists _, _. split; [vm_compute; reflexivity|]. split; [reflexivity|].
  apply (overrides_name_the_next_artifact threeArtifacts 4).
  - apply (bool_decide_unpack (NoDup (obj_keys threeArtifacts))). vm_compute. exact I.
  - intros file contents [[= <- <-]|[[= <- <-]|[[= <- <-]|[]]]];
      match goal with |- NoDup ?l => apply (bool_decide_unpack (NoDup l)) end;
      vm_compute; exact I.
  - vm_compute. reflexivity.
Defined.
